(** * Profile fitting of hipercam ([hipercam/fitting.py])

    A shallow embedding of the Moffat and Gaussian profile functions, their
    analytic derivatives, the residual / Jacobian function objects and the
    drivers [fitMoffat] and [fitGaussian], followed by the properties of
    the fitting core that are established on it.

    Conventions of the embedding.

    - A Python float (binary64) is an exact real number of [R]: rounding,
      infinities and NaN are not represented.  Where Python's operation is
      not defined on the reals (division by zero, square root or logarithm
      of a negative number) a statement that depends on the value carries
      the hypothesis that keeps the operation defined.
    - A 2-D numpy array of shape (ny, nx) is the list of its entries in C
      order, the order in which [ravel()] and boolean-mask selection
      enumerate them.  Every array operation of the module is elementwise,
      a reduction or a mask selection.
    - The sigma arrays are mutated in place and shared between the function
      objects, so they live in a store of arrays addressed by location; the
      function objects hold locations.  The data and coordinate arrays are
      never written and are held by value.
    - [scipy.optimize.leastsq] is a parameter of the development. *)

From Stdlib Require Import String Reals Lra Lia ZArith Bool Arith List.
Import ListNotations.

Open Scope R_scope.

(** ** numpy arrays *)

Module Np.

Definition array := list R.
Definition mask := list bool.

(** Elementwise binary operation on two arrays of one shape. *)
Fixpoint map2 {A B C : Type} (f : A -> B -> C) (a : list A) (b : list B)
  : list C :=
  match a, b with
  | x :: a', y :: b' => f x y :: map2 f a' b'
  | _, _ => []
  end.

(** [x > y] as a boolean. *)
Definition Rgtb (x y : R) : bool := if Rgt_dec x y then true else false.

(** [a > c] for a scalar [c]. *)
Definition gt (a : array) (c : R) : mask := map (fun v => Rgtb v c) a.

(** [m1 & m2]. *)
Definition band (m1 m2 : mask) : mask := map2 andb m1 m2.

(** [a[m]]: the entries of [a] selected by the boolean mask [m], in C
    order. *)
Fixpoint select (a : array) (m : mask) : array :=
  match a, m with
  | x :: a', b :: m' => if b then x :: select a' m' else select a' m'
  | _, _ => []
  end.

(** [a[m] *= c]: in-place scaling of the selected entries; the array keeps
    its shape. *)
Fixpoint imul_masked (a : array) (m : mask) (c : R) : array :=
  match a, m with
  | x :: a', b :: m' => (if b then x * c else x) :: imul_masked a' m' c
  | _, _ => a
  end.

(** [a.sum()]. *)
Definition sum (a : array) : R := fold_right Rplus 0 a.

(** [np.arange(n)]. *)
Definition arange (n : nat) : array := map INR (seq 0 n).

(** [np.meshgrid(x, y)]: the X and the Y ordinate of every pixel of a
    grid of [length y] rows and [length x] columns. *)
Definition meshgrid (x y : array) : array * array :=
  (flat_map (fun _ => x) y, flat_map (fun yj => map (fun _ => yj) x) y).

(** [np.diag(c)] of a square matrix given by rows. *)
Definition diag (c : list (list R)) : array :=
  map (fun i => nth i (nth i c []) 0) (seq 0 (length c)).

End Np.

Import Np.

(** ** Profile functions *)

(** [moffat(xy, sky, height, xcen, ycen, fwhm, beta)]. *)
Definition moffat (xy : array * array) (sky height xcen ycen fwhm beta : R)
  : array :=
  let '(x, y) := xy in
  let rsq := map2 Rplus (map (fun v => (v - xcen) ^ 2) x)
                        (map (fun v => (v - ycen) ^ 2) y) in
  let alpha := 4 * (Rpower 2 (1 / Rmax (1/100) beta) - 1) / fwhm ^ 2 in
  map (fun r => height / Rpower (1 + alpha * r) (Rmax (1/100) beta) + sky) rsq.

(** [dmoffat(xy, sky, height, xcen, ycen, fwhm, beta, skip_dfwhm)]. *)
Definition dmoffat (xy : array * array) (sky height xcen ycen fwhm beta : R)
  (skip_dfwhm : bool) : list array :=
  let '(x, y) := xy in
  let blim := Rmax (1/100) beta in
  let alpha := 4 * (Rpower 2 (1 / blim) - 1) / fwhm ^ 2 in
  let xoff := map (fun v => v - xcen) x in
  let yoff := map (fun v => v - ycen) y in
  let rsq := map2 Rplus (map (fun v => v ^ 2) xoff) (map (fun v => v ^ 2) yoff) in
  let denom := map (fun r => 1 + alpha * r) rsq in
  let save1 := map (fun d => height / Rpower d (blim + 1)) denom in
  let save2 := map2 Rmult save1 rsq in
  let d_sky := map (fun _ => 1) x in
  let d_height := map (fun d => 1 / Rpower d blim) denom in
  let d_xcen := map2 (fun xo s => (2 * alpha * blim) * xo * s) xoff save1 in
  let d_ycen := map2 (fun yo s => (2 * alpha * blim) * yo * s) yoff save1 in
  if skip_dfwhm then
    let d_beta :=
      map2 Rplus
        (map2 (fun d dh => - ln d * height * dh) denom d_height)
        (map (fun s => (4 * ln 2 * Rpower 2 (1 / blim) / blim / fwhm ^ 2) * s)
             save2) in
    [d_sky; d_height; d_xcen; d_ycen; d_beta]
  else
    let d_fwhm := map (fun s => (2 * alpha * blim / fwhm) * s) save2 in
    let d_beta :=
      map2 Rplus
        (map2 (fun d dh => - ln d * height * dh) denom d_height)
        (map (fun s => (4 * ln 2 * Rpower 2 (1 / blim) / blim / fwhm ^ 2) * s)
             save2) in
    [d_sky; d_height; d_xcen; d_ycen; d_fwhm; d_beta].

(** [gaussian(xy, sky, height, xcen, ycen, fwhm)]. *)
Definition gaussian (xy : array * array) (sky height xcen ycen fwhm : R)
  : array :=
  let '(x, y) := xy in
  let rsq := map2 Rplus (map (fun v => (v - xcen) ^ 2) x)
                        (map (fun v => (v - ycen) ^ 2) y) in
  let alpha := 4 * ln 2 / fwhm ^ 2 in
  map (fun r => sky + height * exp (- alpha * r)) rsq.

(** [dgaussian(xy, sky, height, xcen, ycen, fwhm, skip_dfwhm)]. *)
Definition dgaussian (xy : array * array) (sky height xcen ycen fwhm : R)
  (skip_dfwhm : bool) : list array :=
  let '(x, y) := xy in
  let alpha := 4 * ln 2 / fwhm ^ 2 in
  let xoff := map (fun v => v - xcen) x in
  let yoff := map (fun v => v - ycen) y in
  let rsq := map2 Rplus (map (fun v => v ^ 2) xoff) (map (fun v => v ^ 2) yoff) in
  let d_sky := map (fun _ => 1) x in
  let d_height := map (fun r => exp (- alpha * r)) rsq in
  let d_xcen := map2 (fun dh xo => (2 * alpha * height) * dh * xo) d_height xoff in
  let d_ycen := map2 (fun dh yo => (2 * alpha * height) * dh * yo) d_height yoff in
  if skip_dfwhm then
    [d_sky; d_height; d_xcen; d_ycen]
  else
    let d_fwhm :=
      map2 (fun dh r => (2 * alpha * height / fwhm) * dh * r) d_height rsq in
    [d_sky; d_height; d_xcen; d_ycen; d_fwhm].

(** ** The store of sigma arrays and the monad of the drivers *)

(** Modelled from the spec: the exception class HipercamError of module
    [core] (absent from the sources), the FitError of the specification,
    raised with the solver's message when a solve fails.  [ValueError] is
    what Python and numpy raise when a tuple is unpacked from a sequence of
    another length, when operand shapes do not match, or when [np.diag] is
    given the [None] that [leastsq] returns for a singular matrix. *)
Inductive exn : Type :=
| HipercamError (mesg : string)
| ValueError.

Definition loc := nat.
Definition heap := list array.

(** Result of running a computation from a store: a value and the store
    after it, an exception, or exhaustion of the iteration budget that the
    model gives to [while True]. *)
Inductive outcome (A : Type) : Type :=
| Ok (a : A) (h : heap)
| Raise (e : exn)
| OutOfFuel.
Arguments Ok {A} a h.
Arguments Raise {A} e.
Arguments OutOfFuel {A}.

Definition M (A : Type) : Type := heap -> outcome A.

Definition ret {A} (a : A) : M A := fun h => Ok a h.

Definition bind {A B} (c : M A) (k : A -> M B) : M B :=
  fun h => match c h with
           | Ok a h' => k a h'
           | Raise e => Raise e
           | OutOfFuel => OutOfFuel
           end.

Definition raise {A} (e : exn) : M A := fun _ => Raise e.

Declare Scope monad_scope.
Delimit Scope monad_scope with monad.
Notation "x <- c ;; k" := (bind c (fun x => k))
  (at level 61, c at next level, right associativity) : monad_scope.
Notation "' p <- c ;; k" := (bind c (fun x => match x with p => k end))
  (at level 61, p pattern, c at next level, right associativity) : monad_scope.
Notation "c ;;; k" := (bind c (fun _ => k))
  (at level 61, right associativity) : monad_scope.
Open Scope monad_scope.

(** Value of a computation at a store, when it returns one. *)
Definition eval {A} (c : M A) (h : heap) : option A :=
  match c h with Ok a _ => Some a | _ => None end.

(** A new array object. *)
Definition alloc (a : array) : M loc := fun h => Ok (List.length h) (h ++ [a]).

(** The contents of an array object. *)
Definition rd (l : loc) : M array := fun h => Ok (nth l h []) h.

Fixpoint upd (h : heap) (l : loc) (a : array) : heap :=
  match h, l with
  | [], _ => []
  | _ :: h', O => a :: h'
  | b :: h', S l' => b :: upd h' l' a
  end.

(** In-place replacement of the contents of an array object. *)
Definition wr (l : loc) (a : array) : M unit := fun h => Ok tt (upd h l a).

(** [while True: body], where the body either ends the loop with a value
    ([break] followed by the [return]) or goes round again with the
    updated local variables. *)
Fixpoint while_true {S A : Type} (body : S -> M (S + A)) (fuel : nat) (s : S)
  : M A :=
  match fuel with
  | O => fun _ => OutOfFuel
  | Datatypes.S n =>
      r <- body s ;;
      match r with
      | inl s' => while_true body n s'
      | inr a => ret a
      end
  end.

(** Tuple unpacking of a sequence. *)
Definition unpack4 (l : list R) : M (R * R * R * R) :=
  match l with
  | [a; b; c; d] => ret (a, b, c, d)
  | _ => raise ValueError
  end.

Definition unpack5 (l : list R) : M (R * R * R * R * R) :=
  match l with
  | [a; b; c; d; e] => ret (a, b, c, d, e)
  | _ => raise ValueError
  end.

Definition unpack6 (l : list R) : M (R * R * R * R * R * R) :=
  match l with
  | [a; b; c; d; e; f] => ret (a, b, c, d, e, f)
  | _ => raise ValueError
  end.

(** ** Windows and noise parameters *)

(** Modelled from the spec: the header of a window (class Winhead of
    module [window], absent from the sources): the numbers of columns [nx]
    and of rows [ny] of the window, and the maps from a pixel index to the
    absolute unbinned X and Y ordinate of the pixel centre, which account
    for the binning and the offset of the window. *)
Module Winhead.
Record t : Type := { nx : nat; ny : nat; xpix : R -> R; ypix : R -> R }.
End Winhead.

(** Modelled from the spec: the Window class (module [window], absent from
    the sources): a header and the rectangular grid of pixel values; the
    ordinate methods [x] and [y] apply the maps of the header to an array
    of pixel indices. *)
Module Window.
Record t : Type := { winhead : Winhead.t; data : array }.

(** The data array has the shape announced by the header. *)
Definition shaped (w : t) : Prop :=
  List.length (data w) = (Winhead.ny (winhead w) * Winhead.nx (winhead w))%nat.

(** [wind.x(a)] and [wind.y(a)]. *)
Definition x (w : t) (a : array) : array := map (Winhead.xpix (winhead w)) a.
Definition y (w : t) (a : array) : array := map (Winhead.ypix (winhead w)) a.

(** [wind.nx] and [wind.ny]. *)
Definition nx (w : t) : nat := Winhead.nx (winhead w).
Definition ny (w : t) : nat := Winhead.ny (winhead w).
End Window.

(** [read] and [gain] are a float or an array of the shape of the data. *)
Inductive operand : Type :=
| Scalar (v : R)
| Array (a : array).

(** Broadcasting of an operand against an array of [n] entries; an array
    of another size does not broadcast. *)
Definition broadcast (v : operand) (n : nat) : option array :=
  match v with
  | Scalar r => Some (repeat r n)
  | Array a => if Nat.eqb (List.length a) n then Some a else None
  end.

(** [np.sqrt(read**2+np.maximum(0,wind.data)/gain)], the right-hand side of
    the assignment to [self.sigma] in the constructors of [Mfit1], [Mfit2],
    [Gfit1] and [Gfit2]. *)
Definition noise (read gain : operand) (d : array) : M array :=
  match broadcast read (List.length d), broadcast gain (List.length d) with
  | Some r, Some g =>
      ret (map sqrt (map2 Rplus (map (fun v => v ^ 2) r)
                                (map2 Rdiv (map (Rmax 0) d) g)))
  | _, _ => raise ValueError
  end.

(** ** Function objects of the Moffat fit *)

Module Mfit1.
Record t : Type := { sigma : loc; xy : array * array; data : array }.

Definition init (wind : Window.t) (read gain : operand) : M t :=
  s <- noise read gain (Window.data wind) ;;
  sigma <- alloc s ;;
  let x := Window.x wind (arange (Window.nx wind)) in
  let y := Window.y wind (arange (Window.ny wind)) in
  ret {| sigma := sigma; xy := meshgrid x y; data := Window.data wind |}.

Definition model (self : t) (param : list R) : M array :=
  '(sky, height, xcen, ycen, fwhm, beta) <- unpack6 param ;;
  ret (moffat (xy self) sky height xcen ycen fwhm beta).

Definition call (self : t) (param : list R) : M array :=
  mod_ <- model self param ;;
  sig <- rd (sigma self) ;;
  let diff := map2 Rdiv (map2 Rminus (data self) mod_) sig in
  let ok := gt sig 0 in
  ret (select diff ok).
End Mfit1.

Module Dmfit1.
Record t : Type := { sigma : loc; xy : array * array }.

Definition init (mfit1 : Mfit1.t) : t :=
  {| sigma := Mfit1.sigma mfit1; xy := Mfit1.xy mfit1 |}.

Definition call (self : t) (param : list R) : M (list array) :=
  '(sky, height, xcen, ycen, fwhm, beta) <- unpack6 param ;;
  let derivs := dmoffat (xy self) sky height xcen ycen fwhm beta false in
  sig <- rd (sigma self) ;;
  let ok := gt sig 0 in
  ret (map (fun deriv =>
              map2 Rdiv (map Ropp (select deriv ok)) (select sig ok))
           derivs).

Definition set_sigma (self : t) (s : loc) : t :=
  {| sigma := s; xy := xy self |}.
End Dmfit1.

Module Mfit2.
Record t : Type :=
  { sigma : loc; xy : array * array; data : array; fwhm : R }.

Definition init (wind : Window.t) (read gain : operand) (fwhm : R) : M t :=
  s <- noise read gain (Window.data wind) ;;
  sigma <- alloc s ;;
  let x := Window.x wind (arange (Window.nx wind)) in
  let y := Window.y wind (arange (Window.ny wind)) in
  ret {| sigma := sigma; xy := meshgrid x y; data := Window.data wind;
         fwhm := fwhm |}.

Definition model (self : t) (param : list R) : M array :=
  '(sky, height, xcen, ycen, beta) <- unpack5 param ;;
  ret (moffat (xy self) sky height xcen ycen (fwhm self) beta).

Definition call (self : t) (param : list R) : M array :=
  mod_ <- model self param ;;
  sig <- rd (sigma self) ;;
  let diff := map2 Rdiv (map2 Rminus (data self) mod_) sig in
  let ok := gt sig 0 in
  ret (select diff ok).

(** [self.sigma = s] and [self.fwhm = f]. *)
Definition set_sigma (self : t) (s : loc) : t :=
  {| sigma := s; xy := xy self; data := data self; fwhm := fwhm self |}.
Definition set_fwhm (self : t) (f : R) : t :=
  {| sigma := sigma self; xy := xy self; data := data self; fwhm := f |}.
End Mfit2.

Module Dmfit2.
Record t : Type := { sigma : loc; xy : array * array; fwhm : R }.

Definition init (mfit2 : Mfit2.t) : t :=
  {| sigma := Mfit2.sigma mfit2; xy := Mfit2.xy mfit2;
     fwhm := Mfit2.fwhm mfit2 |}.

Definition call (self : t) (param : list R) : M (list array) :=
  '(sky, height, xcen, ycen, beta) <- unpack5 param ;;
  let derivs := dmoffat (xy self) sky height xcen ycen (fwhm self) beta true in
  sig <- rd (sigma self) ;;
  let ok := gt sig 0 in
  ret (map (fun deriv =>
              map2 Rdiv (map Ropp (select deriv ok)) (select sig ok))
           derivs).

Definition set_sigma (self : t) (s : loc) : t :=
  {| sigma := s; xy := xy self; fwhm := fwhm self |}.
Definition set_fwhm (self : t) (f : R) : t :=
  {| sigma := sigma self; xy := xy self; fwhm := f |}.
End Dmfit2.

(** ** Function objects of the Gaussian fit *)

Module Gfit1.
Record t : Type := { sigma : loc; xy : array * array; data : array }.

Definition init (wind : Window.t) (read gain : operand) : M t :=
  s <- noise read gain (Window.data wind) ;;
  sigma <- alloc s ;;
  let x := Window.x wind (arange (Window.nx wind)) in
  let y := Window.y wind (arange (Window.ny wind)) in
  ret {| sigma := sigma; xy := meshgrid x y; data := Window.data wind |}.

Definition model (self : t) (param : list R) : M array :=
  '(sky, height, xcen, ycen, fwhm) <- unpack5 param ;;
  ret (gaussian (xy self) sky height xcen ycen fwhm).

Definition call (self : t) (param : list R) : M array :=
  mod_ <- model self param ;;
  sig <- rd (sigma self) ;;
  let diff := map2 Rdiv (map2 Rminus (data self) mod_) sig in
  let ok := gt sig 0 in
  ret (select diff ok).
End Gfit1.

Module Dgfit1.
Record t : Type := { sigma : loc; xy : array * array }.

Definition init (gfit1 : Gfit1.t) : t :=
  {| sigma := Gfit1.sigma gfit1; xy := Gfit1.xy gfit1 |}.

Definition call (self : t) (param : list R) : M (list array) :=
  '(sky, height, xcen, ycen, fwhm) <- unpack5 param ;;
  let derivs := dgaussian (xy self) sky height xcen ycen fwhm false in
  sig <- rd (sigma self) ;;
  let ok := gt sig 0 in
  ret (map (fun deriv =>
              map2 Rdiv (map Ropp (select deriv ok)) (select sig ok))
           derivs).

Definition set_sigma (self : t) (s : loc) : t :=
  {| sigma := s; xy := xy self |}.
End Dgfit1.

Module Gfit2.
Record t : Type :=
  { sigma : loc; xy : array * array; data : array; fwhm : R }.

Definition init (wind : Window.t) (read gain : operand) (fwhm : R) : M t :=
  s <- noise read gain (Window.data wind) ;;
  sigma <- alloc s ;;
  let x := Window.x wind (arange (Window.nx wind)) in
  let y := Window.y wind (arange (Window.ny wind)) in
  ret {| sigma := sigma; xy := meshgrid x y; data := Window.data wind;
         fwhm := fwhm |}.

Definition model (self : t) (param : list R) : M array :=
  '(sky, height, xcen, ycen) <- unpack4 param ;;
  ret (gaussian (xy self) sky height xcen ycen (fwhm self)).

Definition call (self : t) (param : list R) : M array :=
  mod_ <- model self param ;;
  sig <- rd (sigma self) ;;
  let diff := map2 Rdiv (map2 Rminus (data self) mod_) sig in
  let ok := gt sig 0 in
  ret (select diff ok).

Definition set_sigma (self : t) (s : loc) : t :=
  {| sigma := s; xy := xy self; data := data self; fwhm := fwhm self |}.
Definition set_fwhm (self : t) (f : R) : t :=
  {| sigma := sigma self; xy := xy self; data := data self; fwhm := f |}.
End Gfit2.

Module Dgfit2.
Record t : Type := { sigma : loc; xy : array * array; fwhm : R }.

Definition init (gfit2 : Gfit2.t) : t :=
  {| sigma := Gfit2.sigma gfit2; xy := Gfit2.xy gfit2;
     fwhm := Gfit2.fwhm gfit2 |}.

Definition call (self : t) (param : list R) : M (list array) :=
  '(sky, height, xcen, ycen) <- unpack4 param ;;
  let derivs := dgaussian (xy self) sky height xcen ycen (fwhm self) true in
  sig <- rd (sigma self) ;;
  let ok := gt sig 0 in
  ret (map (fun deriv =>
              map2 Rdiv (map Ropp (select deriv ok)) (select sig ok))
           derivs).

Definition set_sigma (self : t) (s : loc) : t :=
  {| sigma := s; xy := xy self; fwhm := fwhm self |}.
Definition set_fwhm (self : t) (f : R) : t :=
  {| sigma := sigma self; xy := xy self; fwhm := f |}.
End Dgfit2.

(** ** The least-squares solver and the steps shared by the two drivers *)

(** What [leastsq(..., full_output=True)] returns ([info] is not used):
    the solution, the covariance matrix or [None] when it is singular, a
    message and the integer status. *)
Module Lsq.
Record out : Type := {
  soln : list R;
  covar : option (list (list R));
  mesg : string;
  ier : Z
}.
End Lsq.

(** [scipy.optimize.leastsq(func, x0, Dfun=..., col_deriv=True,
    full_output=True)].  It sees the two callables as functions of the
    parameter vector; a call that does not return is not represented. *)
Definition solver : Type :=
  (list R -> option array) -> list R -> (list R -> option (list array)) ->
  Lsq.out.

(** The call of [leastsq] on two function objects, which read the store as
    it is at the time of the call, and the test of its status:
    [if ier < 1 or ier > 4: raise HipercamError(mesg)]. *)
Definition solve (leastsq : solver) (func : list R -> M array)
  (param : list R) (Dfun : list R -> M (list array)) : M Lsq.out :=
  fun h =>
    let r := leastsq (fun p => eval (func p) h) param
                     (fun p => eval (Dfun p) h) in
    if ((Lsq.ier r <? 1) || (Lsq.ier r >? 4))%Z
    then Raise (HipercamError (Lsq.mesg r))
    else Ok r h.

(** [np.sqrt(np.diag(covar))]. *)
Definition sqrt_diag (covar : option (list (list R))) : M array :=
  match covar with
  | Some c => ret (map sqrt (diag c))
  | None => raise ValueError
  end.

(** The search for outliers, the same text in [fitMoffat] and
    [fitGaussian] (from [ok = mfit1.sigma > 0] to
    [nok = len(mfit1.sigma[ok])]); [sigma1] is the array object
    [mfit1.sigma] (or [gfit1.sigma]).  Returns [chisq], [nok1], [sfac] and
    [nok]. *)
Definition outliers (sigma1 : loc) (wind fit : Window.t) (soln : list R)
  (thresh : R) : M (R * nat * R * nat) :=
  sig <- rd sigma1 ;;
  let ok := gt sig 0 in
  let resid :=
    map2 Rdiv (map2 Rminus (Window.data wind) (Window.data fit)) sig in
  let chisq := sum (map (fun v => v ^ 2) (select resid ok)) in
  let nok1 := List.length (select resid ok) in
  let sfac :=
    sqrt (chisq / IZR (Z.of_nat nok1 - Z.of_nat (List.length soln))) in
  wr sigma1
     (imul_masked sig (band ok (gt (map Rabs resid) (sfac * thresh))) (-1)) ;;;
  sig <- rd sigma1 ;;
  let ok := gt sig 0 in
  let nok := List.length (select sig ok) in
  ret (chisq, nok1, sfac, nok).

(** ** fitMoffat *)

Module Moffat.

(** The four function objects, local variables of [fitMoffat]. *)
Record objs : Type := {
  mfit1 : Mfit1.t;
  dmfit1 : Dmfit1.t;
  mfit2 : Mfit2.t;
  dmfit2 : Dmfit2.t
}.

(** The local variables set by the two-pass fit. *)
Record pass : Type := {
  soln : list R;
  fit : Window.t;
  skyf : R; heightf : R; xf : R; yf : R; fwhmf : R; betaf : R;
  skyfe : R; heightfe : R; xfe : R; yfe : R; fwhmfe : R; betafe : R
}.

(** The returned tuple of tuples: the parameters, their standard errors
    and the extras [(fit, x, y, sigma, chisq, nok, nrej, npar)]. *)
Record result : Type := {
  pars : R * R * R * R * R * R;
  sigs : R * R * R * R * R * R;
  r_fit : Window.t;
  r_x : array;
  r_y : array;
  r_sigma : array;
  r_chisq : R;
  r_nok : nat;
  r_nrej : Z;
  r_npar : nat
}.

Section Driver.
Variable leastsq : solver.
Variable wind : Window.t.
Variables sky height xcen ycen fwhm fwhm_min : R.
Variable fwhm_fix : bool.
Variables beta thresh : R.

(** The two-pass strategy: the body of the loop up to the search for
    outliers. *)
Definition two_pass (o : objs) : M (objs * pass) :=
  if fwhm_fix then
    let mfit2 := Mfit2.set_fwhm (mfit2 o) fwhm in
    let dmfit2 := Dmfit2.set_fwhm (dmfit2 o) fwhm in
    let param := [sky; height; xcen; ycen; beta] in
    r <- solve leastsq (Mfit2.call mfit2) param (Dmfit2.call dmfit2) ;;
    m <- Mfit2.model mfit2 (Lsq.soln r) ;;
    let fit := Window.Build_t (Window.winhead wind) m in
    '(skyf, heightf, xf, yf, betaf) <- unpack5 (Lsq.soln r) ;;
    e <- sqrt_diag (Lsq.covar r) ;;
    '(skyfe, heightfe, xfe, yfe, betafe) <- unpack5 e ;;
    ret ({| mfit1 := mfit1 o; dmfit1 := dmfit1 o;
            mfit2 := mfit2; dmfit2 := dmfit2 |},
         {| soln := Lsq.soln r; fit := fit;
            skyf := skyf; heightf := heightf; xf := xf; yf := yf;
            fwhmf := fwhm; betaf := betaf;
            skyfe := skyfe; heightfe := heightfe; xfe := xfe;
            yfe := yfe; fwhmfe := -1; betafe := betafe |})
  else
    let param := [sky; height; xcen; ycen; fwhm; beta] in
    r <- solve leastsq (Mfit1.call (mfit1 o)) param
               (Dmfit1.call (dmfit1 o)) ;;
    '(skyf, heightf, xf, yf, fwhmf, betaf) <- unpack6 (Lsq.soln r) ;;
    if Rgtb fwhmf fwhm_min then
      m <- Mfit1.model (mfit1 o) (Lsq.soln r) ;;
      let fit := Window.Build_t (Window.winhead wind) m in
      e <- sqrt_diag (Lsq.covar r) ;;
      '(skyfe, heightfe, xfe, yfe, fwhmfe, betafe) <- unpack6 e ;;
      ret (o,
           {| soln := Lsq.soln r; fit := fit;
              skyf := skyf; heightf := heightf; xf := xf; yf := yf;
              fwhmf := fwhmf; betaf := betaf;
              skyfe := skyfe; heightfe := heightfe; xfe := xfe;
              yfe := yfe; fwhmfe := fwhmfe; betafe := betafe |})
    else
      let mfit2 := Mfit2.set_fwhm (mfit2 o) fwhm_min in
      let dmfit2 := Dmfit2.set_fwhm (dmfit2 o) fwhm_min in
      let param := [sky; height; xcen; ycen; beta] in
      r <- solve leastsq (Mfit2.call mfit2) param (Dmfit2.call dmfit2) ;;
      m <- Mfit2.model mfit2 (Lsq.soln r) ;;
      let fit := Window.Build_t (Window.winhead wind) m in
      '(skyf, heightf, xf, yf, betaf) <- unpack5 (Lsq.soln r) ;;
      e <- sqrt_diag (Lsq.covar r) ;;
      '(skyfe, heightfe, xfe, yfe, betafe) <- unpack5 e ;;
      ret ({| mfit1 := mfit1 o; dmfit1 := dmfit1 o;
              mfit2 := mfit2; dmfit2 := dmfit2 |},
           {| soln := Lsq.soln r; fit := fit;
              skyf := skyf; heightf := heightf; xf := xf; yf := yf;
              fwhmf := fwhm_min; betaf := betaf;
              skyfe := skyfe; heightfe := heightfe; xfe := xfe;
              yfe := yfe; fwhmfe := -1; betafe := betafe |}).

(** The construction of the function objects, before the loop. *)
Definition construct (read gain : operand) : M objs :=
  mfit1 <- Mfit1.init wind read gain ;;
  let dmfit1 := Dmfit1.init mfit1 in
  mfit2 <- Mfit2.init wind read gain fwhm ;;
  let dmfit2 := Dmfit2.init mfit2 in
  ret {| mfit1 := mfit1; dmfit1 := dmfit1;
         mfit2 := mfit2; dmfit2 := dmfit2 |}.

(** One turn of the rejection loop. *)
Definition body (o : objs) : M (objs + result) :=
  '(o, p) <- two_pass o ;;
  let sigma1 := Mfit1.sigma (mfit1 o) in
  '(chisq, nok1, sfac, nok) <- outliers sigma1 wind (fit p) (soln p) thresh ;;
  if (nok <? nok1)%nat then
    ret (inl {| mfit1 := mfit1 o;
                dmfit1 := Dmfit1.set_sigma (dmfit1 o) sigma1;
                mfit2 := Mfit2.set_sigma (mfit2 o) sigma1;
                dmfit2 := Dmfit2.set_sigma (dmfit2 o) sigma1 |})
  else
    sig <- rd sigma1 ;;
    let nrej := (Z.of_nat (List.length sig) - Z.of_nat nok)%Z in
    let skyfe := skyfe p * sfac in
    let heightfe := heightfe p * sfac in
    let xfe := xfe p * sfac in
    let yfe := yfe p * sfac in
    let fwhmfe :=
      if Rgtb (fwhmfe p) 0 then fwhmfe p * sfac else fwhmfe p in
    let betafe := betafe p * sfac in
    ret (inr {| pars := (skyf p, heightf p, xf p, yf p, fwhmf p, betaf p);
                sigs := (skyfe, heightfe, xfe, yfe, fwhmfe, betafe);
                r_fit := fit p;
                r_x := fst (Mfit1.xy (mfit1 o));
                r_y := snd (Mfit1.xy (mfit1 o));
                r_sigma := sig;
                r_chisq := chisq;
                r_nok := nok;
                r_nrej := nrej;
                r_npar := List.length (soln p) |}).

(** [fitMoffat(wind, sky, height, xcen, ycen, fwhm, fwhm_min, fwhm_fix,
    beta, read, gain, thresh)]; [fuel] bounds the number of turns of
    the loop that the model follows.  The arguments come in the order
    of the section: [leastsq], those of Python up to [beta], [thresh],
    then [fuel], [read] and [gain]. *)
Definition fitMoffat (fuel : nat) (read gain : operand) : M result :=
  o <- construct read gain ;;
  while_true body fuel o.
End Driver.
End Moffat.

(** ** fitGaussian *)

Module Gauss.

(** The four function objects, local variables of [fitGaussian]. *)
Record objs : Type := {
  gfit1 : Gfit1.t;
  dgfit1 : Dgfit1.t;
  gfit2 : Gfit2.t;
  dgfit2 : Dgfit2.t
}.

(** The local variables set by the two-pass fit. *)
Record pass : Type := {
  soln : list R;
  fit : Window.t;
  skyf : R; heightf : R; xf : R; yf : R; fwhmf : R;
  skyfe : R; heightfe : R; xfe : R; yfe : R; fwhmfe : R
}.

(** The returned tuple of tuples. *)
Record result : Type := {
  pars : R * R * R * R * R;
  sigs : R * R * R * R * R;
  r_fit : Window.t;
  r_x : array;
  r_y : array;
  r_sigma : array;
  r_chisq : R;
  r_nok : nat;
  r_nrej : Z;
  r_npar : nat
}.

Section Driver.
Variable leastsq : solver.
Variable wind : Window.t.
Variables sky height xcen ycen fwhm fwhm_min : R.
Variable fwhm_fix : bool.
Variable thresh : R.

Definition two_pass (o : objs) : M (objs * pass) :=
  if fwhm_fix then
    let gfit2 := Gfit2.set_fwhm (gfit2 o) fwhm in
    let dgfit2 := Dgfit2.set_fwhm (dgfit2 o) fwhm in
    let param := [sky; height; xcen; ycen] in
    r <- solve leastsq (Gfit2.call gfit2) param (Dgfit2.call dgfit2) ;;
    m <- Gfit2.model gfit2 (Lsq.soln r) ;;
    let fit := Window.Build_t (Window.winhead wind) m in
    '(skyf, heightf, xf, yf) <- unpack4 (Lsq.soln r) ;;
    e <- sqrt_diag (Lsq.covar r) ;;
    '(skyfe, heightfe, xfe, yfe) <- unpack4 e ;;
    ret ({| gfit1 := gfit1 o; dgfit1 := dgfit1 o;
            gfit2 := gfit2; dgfit2 := dgfit2 |},
         {| soln := Lsq.soln r; fit := fit;
            skyf := skyf; heightf := heightf; xf := xf; yf := yf;
            fwhmf := fwhm;
            skyfe := skyfe; heightfe := heightfe; xfe := xfe;
            yfe := yfe; fwhmfe := -1 |})
  else
    let param := [sky; height; xcen; ycen; fwhm] in
    r <- solve leastsq (Gfit1.call (gfit1 o)) param
               (Dgfit1.call (dgfit1 o)) ;;
    '(skyf, heightf, xf, yf, fwhmf) <- unpack5 (Lsq.soln r) ;;
    if Rgtb fwhmf fwhm_min then
      e <- sqrt_diag (Lsq.covar r) ;;
      '(skyfe, heightfe, xfe, yfe, fwhmfe) <- unpack5 e ;;
      m <- Gfit1.model (gfit1 o) (Lsq.soln r) ;;
      let fit := Window.Build_t (Window.winhead wind) m in
      ret (o,
           {| soln := Lsq.soln r; fit := fit;
              skyf := skyf; heightf := heightf; xf := xf; yf := yf;
              fwhmf := fwhmf;
              skyfe := skyfe; heightfe := heightfe; xfe := xfe;
              yfe := yfe; fwhmfe := fwhmfe |})
    else
      let gfit2 := Gfit2.set_fwhm (gfit2 o) fwhm_min in
      let dgfit2 := Dgfit2.set_fwhm (dgfit2 o) fwhm_min in
      let param := [sky; height; xcen; ycen] in
      r <- solve leastsq (Gfit2.call gfit2) param (Dgfit2.call dgfit2) ;;
      m <- Gfit2.model gfit2 (Lsq.soln r) ;;
      let fit := Window.Build_t (Window.winhead wind) m in
      '(skyf, heightf, xf, yf) <- unpack4 (Lsq.soln r) ;;
      e <- sqrt_diag (Lsq.covar r) ;;
      '(skyfe, heightfe, xfe, yfe) <- unpack4 e ;;
      ret ({| gfit1 := gfit1 o; dgfit1 := dgfit1 o;
              gfit2 := gfit2; dgfit2 := dgfit2 |},
           {| soln := Lsq.soln r; fit := fit;
              skyf := skyf; heightf := heightf; xf := xf; yf := yf;
              fwhmf := fwhm_min;
              skyfe := skyfe; heightfe := heightfe; xfe := xfe;
              yfe := yfe; fwhmfe := -1 |}).

Definition construct (read gain : operand) : M objs :=
  gfit1 <- Gfit1.init wind read gain ;;
  let dgfit1 := Dgfit1.init gfit1 in
  gfit2 <- Gfit2.init wind read gain fwhm ;;
  let dgfit2 := Dgfit2.init gfit2 in
  ret {| gfit1 := gfit1; dgfit1 := dgfit1;
         gfit2 := gfit2; dgfit2 := dgfit2 |}.

Definition body (o : objs) : M (objs + result) :=
  '(o, p) <- two_pass o ;;
  let sigma1 := Gfit1.sigma (gfit1 o) in
  '(chisq, nok1, sfac, nok) <- outliers sigma1 wind (fit p) (soln p) thresh ;;
  if (nok <? nok1)%nat then
    ret (inl {| gfit1 := gfit1 o;
                dgfit1 := Dgfit1.set_sigma (dgfit1 o) sigma1;
                gfit2 := Gfit2.set_sigma (gfit2 o) sigma1;
                dgfit2 := Dgfit2.set_sigma (dgfit2 o) sigma1 |})
  else
    sig <- rd sigma1 ;;
    let nrej := (Z.of_nat (List.length sig) - Z.of_nat nok)%Z in
    let skyfe := skyfe p * sfac in
    let heightfe := heightfe p * sfac in
    let xfe := xfe p * sfac in
    let yfe := yfe p * sfac in
    let fwhmfe :=
      if Rgtb (fwhmfe p) 0 then fwhmfe p * sfac else fwhmfe p in
    ret (inr {| pars := (skyf p, heightf p, xf p, yf p, fwhmf p);
                sigs := (skyfe, heightfe, xfe, yfe, fwhmfe);
                r_fit := fit p;
                r_x := fst (Gfit1.xy (gfit1 o));
                r_y := snd (Gfit1.xy (gfit1 o));
                r_sigma := sig;
                r_chisq := chisq;
                r_nok := nok;
                r_nrej := nrej;
                r_npar := List.length (soln p) |}).

(** [fitGaussian(wind, sky, height, xcen, ycen, fwhm, fwhm_min,
    fwhm_fix, read, gain, thresh)], with [fuel] as in [fitMoffat]. *)
Definition fitGaussian (fuel : nat) (read gain : operand) : M result :=
  o <- construct read gain ;;
  while_true body fuel o.
End Driver.
End Gauss.

(** ** Vocabulary of the statements *)

(** Number of included pixels of a sigma array: [len(sigma[sigma > 0])]. *)
Definition count_pos (sig : array) : nat :=
  List.length (select sig (gt sig 0)).

(** States of a [while True] loop at the head of a turn: the local
    variables and the store reached from [(s0, h0)] by turns that went
    round again. *)
Inductive reach {S A : Type} (body : S -> M (S + A)) (s0 : S) (h0 : heap)
  : S -> heap -> Prop :=
| reach_start : reach body s0 h0 s0 h0
| reach_turn : forall s h s' h',
    reach body s0 h0 s h ->
    body s h = Ok (inl s') h' ->
    reach body s0 h0 s' h'.

(** The derivatives of the Moffat profile at one grid point as the
    specification writes them, for an exponent [beta] already clamped. *)
Module MoffatSpec.
Section AtPoint.
Variables x y height xcen ycen fwhm beta : R.

Definition alpha : R := 4 * (Rpower 2 (1 / beta) - 1) / fwhm ^ 2.
Definition rsq : R := (x - xcen) ^ 2 + (y - ycen) ^ 2.
Definition base : R := 1 + alpha * rsq.

Definition d_sky : R := 1.
Definition d_height : R := Rpower base (- beta).
Definition d_xcen : R :=
  (2 * alpha * beta) * (x - xcen) * height / Rpower base (beta + 1).
Definition d_ycen : R :=
  (2 * alpha * beta) * (y - ycen) * height / Rpower base (beta + 1).
Definition d_fwhm : R :=
  (2 * alpha * beta / fwhm) * height * rsq / Rpower base (beta + 1).
Definition d_beta : R :=
  - ln base * height * Rpower base (- beta)
  + (4 * ln 2 * Rpower 2 (1 / beta) / beta / fwhm ^ 2)
    * height * rsq / Rpower base (beta + 1).
End AtPoint.
End MoffatSpec.

(** Entry [k] of every array of a list of arrays. *)
Definition entries (k : nat) (l : list array) : list (option R) :=
  map (fun a => nth_error a k) l.

(** The residual objects and the Jacobian objects of the module, with
    their methods: [residual] and [jacobian] are [__call__], [model] is
    [model]. *)
Inductive residual_object : Type :=
| R_Mfit1 (self : Mfit1.t)
| R_Mfit2 (self : Mfit2.t)
| R_Gfit1 (self : Gfit1.t)
| R_Gfit2 (self : Gfit2.t).

Inductive jacobian_object : Type :=
| J_Dmfit1 (self : Dmfit1.t)
| J_Dmfit2 (self : Dmfit2.t)
| J_Dgfit1 (self : Dgfit1.t)
| J_Dgfit2 (self : Dgfit2.t).

Definition residual (o : residual_object) (param : list R) : M array :=
  match o with
  | R_Mfit1 self => Mfit1.call self param
  | R_Mfit2 self => Mfit2.call self param
  | R_Gfit1 self => Gfit1.call self param
  | R_Gfit2 self => Gfit2.call self param
  end.

Definition model (o : residual_object) (param : list R) : M array :=
  match o with
  | R_Mfit1 self => Mfit1.model self param
  | R_Mfit2 self => Mfit2.model self param
  | R_Gfit1 self => Gfit1.model self param
  | R_Gfit2 self => Gfit2.model self param
  end.

Definition jacobian (o : jacobian_object) (param : list R) : M (list array) :=
  match o with
  | J_Dmfit1 self => Dmfit1.call self param
  | J_Dmfit2 self => Dmfit2.call self param
  | J_Dgfit1 self => Dgfit1.call self param
  | J_Dgfit2 self => Dgfit2.call self param
  end.

(** [self.sigma] and [self.data] of a residual object. *)
Definition sigma_of (o : residual_object) : loc :=
  match o with
  | R_Mfit1 self => Mfit1.sigma self
  | R_Mfit2 self => Mfit2.sigma self
  | R_Gfit1 self => Gfit1.sigma self
  | R_Gfit2 self => Gfit2.sigma self
  end.

Definition data_of (o : residual_object) : array :=
  match o with
  | R_Mfit1 self => Mfit1.data self
  | R_Mfit2 self => Mfit2.data self
  | R_Gfit1 self => Gfit1.data self
  | R_Gfit2 self => Gfit2.data self
  end.

(** The four constructors of residual objects ([fwhm] is used by the
    fixed-FWHM classes only). *)
Inductive residual_class : Type := C_Mfit1 | C_Mfit2 | C_Gfit1 | C_Gfit2.

Definition new_residual (c : residual_class) (wind : Window.t)
  (read gain : operand) (fwhm : R) : M residual_object :=
  match c with
  | C_Mfit1 => o <- Mfit1.init wind read gain ;; ret (R_Mfit1 o)
  | C_Mfit2 => o <- Mfit2.init wind read gain fwhm ;; ret (R_Mfit2 o)
  | C_Gfit1 => o <- Gfit1.init wind read gain ;; ret (R_Gfit1 o)
  | C_Gfit2 => o <- Gfit2.init wind read gain fwhm ;; ret (R_Gfit2 o)
  end.

(** The contents of the array object at a location of a store. *)
Definition contents (h : heap) (l : loc) : array := nth l h [].

(** A computation that returns or raises, and leaves the store as it
    found it. *)
Definition unchanged {A : Type} (c : M A) (h : heap) : Prop :=
  match c h with
  | Ok _ h' => h' = h
  | Raise _ => True
  | OutOfFuel => False
  end.

Definition reads {A : Type} (c : M A) : Prop := forall h, unchanged c h.

(** The vector of normalised residuals as the specification describes it:
    (data - model)/sigma at the pixels whose sigma is positive, in pixel
    order. *)
Definition included (sig : array) : list nat :=
  filter (fun k => Rgtb (nth k sig 0) 0) (seq 0 (List.length sig)).

Definition residual_spec (d m sig : array) : array :=
  map (fun k => (nth k d 0 - nth k m 0) / nth k sig 0) (included sig).

(** The noise of one pixel as the specification writes it. *)
Definition noise_spec (read d gain : R) : R := sqrt (read ^ 2 + Rmax 0 d / gain).

(** One pixel of the rejection step: an entry is negated when the pixel is
    included and its residual is beyond the bound, and kept otherwise. *)
Definition reject_entry (s resid bound : R) : R :=
  if Rgtb s 0 && Rgtb (Rabs resid) bound then s * -1 else s.

(** The turn of the rejection loop common to the two drivers, over the
    two-pass fit [stage], the location [sigma1] of [mfit1.sigma], the
    rebinding of the sigma attributes [again] and the packing of the
    result [done]. *)
Section LoopBody.
Context {O P Res : Type}.
Variable stage : O -> M (O * P).
Variable sigma1 : O -> loc.
Variable wind : Window.t.
Variable fitp : P -> Window.t.
Variable solnp : P -> list R.
Variable thresh : R.
Variable again : O -> O.
Variable done : O -> P -> array -> R -> R -> nat -> Res.

Definition loop_body (o : O) : M (O + Res) :=
  '(o, p) <- stage o ;;
  '(chisq, nok1, sfac, nok) <-
     outliers (sigma1 o) wind (fitp p) (solnp p) thresh ;;
  if (nok <? nok1)%nat then ret (inl (again o))
  else sig <- rd (sigma1 o) ;; ret (inr (done o p sig chisq sfac nok)).
End LoopBody.

(** [sig] comes from [sig0] by rejections: every entry is the entry of
    [sig0], or its opposite where the entry of [sig0] was positive. *)
Definition rejected_from (sig0 sig : array) : Prop :=
  Forall2 (fun s0 s => s = s0 \/ (s0 > 0 /\ s = s0 * -1)) sig0 sig.

(** Chi-square and scale factor of a turn as the specification describes
    them: the sum over the included pixels of the squared normalised
    residuals, and sqrt(chisq/(n_included - n_params)). *)
Definition chisq_spec (d f sig : array) : R :=
  sum (map (fun v => v ^ 2) (residual_spec d f sig)).

Definition sfac_spec (d f sig : array) (npar : nat) : R :=
  sqrt (chisq_spec d f sig / IZR (Z.of_nat (count_pos sig) - Z.of_nat npar)).

(** The status of a solve is in the success range 1 to 4. *)
Definition status_ok (out : Lsq.out) : Prop := (1 <= Lsq.ier out <= 4)%Z.

(** The ordinate grids of a window, [self.xy] of the function objects. *)
Definition grid (wind : Window.t) : array * array :=
  meshgrid (Window.x wind (arange (Window.nx wind)))
           (Window.y wind (arange (Window.ny wind))).

(** *** Vocabulary for [fitMoffat] *)

Section MoffatVocabulary.
Variable leastsq : solver.
Variable wind : Window.t.
Variables sky height xcen ycen fwhm fwhm_min : R.
Variable beta : R.

(** What [leastsq] returns for the free-FWHM solve and for the fixed-FWHM
    solve at [fw], with the function objects [o] and the store [h]. *)
Definition Moffat_free_solve (o : Moffat.objs) (h : heap) : Lsq.out :=
  leastsq (fun p => eval (Mfit1.call (Moffat.mfit1 o) p) h)
          [sky; height; xcen; ycen; fwhm; beta]
          (fun p => eval (Dmfit1.call (Moffat.dmfit1 o) p) h).

Definition Moffat_fixed_solve (fw : R) (o : Moffat.objs) (h : heap)
  : Lsq.out :=
  leastsq
    (fun p => eval (Mfit2.call (Mfit2.set_fwhm (Moffat.mfit2 o) fw) p) h)
    [sky; height; xcen; ycen; beta]
    (fun p => eval (Dmfit2.call (Dmfit2.set_fwhm (Moffat.dmfit2 o) fw) p) h).

(** The fixed-FWHM pass at [fw], the text of the branch [if fwhm_fix] and
    of the fall-back branch of [two_pass]. *)
Definition Moffat_fixed_pass (fw : R) (o : Moffat.objs)
  : M (Moffat.objs * Moffat.pass) :=
  let mfit2 := Mfit2.set_fwhm (Moffat.mfit2 o) fw in
  let dmfit2 := Dmfit2.set_fwhm (Moffat.dmfit2 o) fw in
  let param := [sky; height; xcen; ycen; beta] in
  r <- solve leastsq (Mfit2.call mfit2) param (Dmfit2.call dmfit2) ;;
  m <- Mfit2.model mfit2 (Lsq.soln r) ;;
  let fit := Window.Build_t (Window.winhead wind) m in
  '(skyf, heightf, xf, yf, betaf) <- unpack5 (Lsq.soln r) ;;
  e <- sqrt_diag (Lsq.covar r) ;;
  '(skyfe, heightfe, xfe, yfe, betafe) <- unpack5 e ;;
  ret ({| Moffat.mfit1 := Moffat.mfit1 o; Moffat.dmfit1 := Moffat.dmfit1 o;
          Moffat.mfit2 := mfit2; Moffat.dmfit2 := dmfit2 |},
       {| Moffat.soln := Lsq.soln r; Moffat.fit := fit;
          Moffat.skyf := skyf; Moffat.heightf := heightf; Moffat.xf := xf;
          Moffat.yf := yf; Moffat.fwhmf := fw; Moffat.betaf := betaf;
          Moffat.skyfe := skyfe; Moffat.heightfe := heightfe;
          Moffat.xfe := xfe; Moffat.yfe := yfe; Moffat.fwhmfe := -1;
          Moffat.betafe := betafe |}).

(** The local variables after a fixed-FWHM pass at [fw] whose solve
    returned [out]: the FWHM is [fw], its error the sentinel -1, the other
    parameters are the solution and their errors the square roots of the
    diagonal of the covariance matrix. *)
Definition Moffat_fixed_outcome (fw : R) (out : Lsq.out)
  (o o' : Moffat.objs) (p : Moffat.pass) : Prop :=
  exists a b c d e cov ea eb ec ed ee,
    Lsq.soln out = [a; b; c; d; e] /\
    Lsq.covar out = Some cov /\
    map sqrt (diag cov) = [ea; eb; ec; ed; ee] /\
    o' = {| Moffat.mfit1 := Moffat.mfit1 o;
            Moffat.dmfit1 := Moffat.dmfit1 o;
            Moffat.mfit2 := Mfit2.set_fwhm (Moffat.mfit2 o) fw;
            Moffat.dmfit2 := Dmfit2.set_fwhm (Moffat.dmfit2 o) fw |} /\
    p = {| Moffat.soln := [a; b; c; d; e];
           Moffat.fit :=
             Window.Build_t (Window.winhead wind)
               (moffat (Mfit2.xy (Moffat.mfit2 o)) a b c d fw e);
           Moffat.skyf := a; Moffat.heightf := b; Moffat.xf := c;
           Moffat.yf := d; Moffat.fwhmf := fw; Moffat.betaf := e;
           Moffat.skyfe := ea; Moffat.heightfe := eb; Moffat.xfe := ec;
           Moffat.yfe := ed; Moffat.fwhmfe := -1; Moffat.betafe := ee |}.

(** The local variables after a free-FWHM pass that is kept. *)
Definition Moffat_free_outcome (out : Lsq.out)
  (o o' : Moffat.objs) (p : Moffat.pass) : Prop :=
  exists a b c d w e cov ea eb ec ed ew ee,
    Lsq.soln out = [a; b; c; d; w; e] /\
    w > fwhm_min /\
    Lsq.covar out = Some cov /\
    map sqrt (diag cov) = [ea; eb; ec; ed; ew; ee] /\
    o' = o /\
    p = {| Moffat.soln := [a; b; c; d; w; e];
           Moffat.fit :=
             Window.Build_t (Window.winhead wind)
               (moffat (Mfit1.xy (Moffat.mfit1 o)) a b c d w e);
           Moffat.skyf := a; Moffat.heightf := b; Moffat.xf := c;
           Moffat.yf := d; Moffat.fwhmf := w; Moffat.betaf := e;
           Moffat.skyfe := ea; Moffat.heightfe := eb; Moffat.xfe := ec;
           Moffat.yfe := ed; Moffat.fwhmfe := ew; Moffat.betafe := ee |}.

(** [mfit1.sigma], the rebinding of the sigma attributes when pixels were
    rejected, and the returned tuple. *)
Definition Moffat_sigma1 (o : Moffat.objs) : loc :=
  Mfit1.sigma (Moffat.mfit1 o).

Definition Moffat_again (o : Moffat.objs) : Moffat.objs :=
  {| Moffat.mfit1 := Moffat.mfit1 o;
     Moffat.dmfit1 := Dmfit1.set_sigma (Moffat.dmfit1 o) (Moffat_sigma1 o);
     Moffat.mfit2 := Mfit2.set_sigma (Moffat.mfit2 o) (Moffat_sigma1 o);
     Moffat.dmfit2 := Dmfit2.set_sigma (Moffat.dmfit2 o) (Moffat_sigma1 o) |}.

Definition Moffat_done (o : Moffat.objs) (p : Moffat.pass) (sig : array)
  (chisq sfac : R) (nok : nat) : Moffat.result :=
  {| Moffat.pars := (Moffat.skyf p, Moffat.heightf p, Moffat.xf p,
                     Moffat.yf p, Moffat.fwhmf p, Moffat.betaf p);
     Moffat.sigs :=
       (Moffat.skyfe p * sfac, Moffat.heightfe p * sfac,
        Moffat.xfe p * sfac, Moffat.yfe p * sfac,
        if Rgtb (Moffat.fwhmfe p) 0 then Moffat.fwhmfe p * sfac
        else Moffat.fwhmfe p,
        Moffat.betafe p * sfac);
     Moffat.r_fit := Moffat.fit p;
     Moffat.r_x := fst (Mfit1.xy (Moffat.mfit1 o));
     Moffat.r_y := snd (Mfit1.xy (Moffat.mfit1 o));
     Moffat.r_sigma := sig;
     Moffat.r_chisq := chisq;
     Moffat.r_nok := nok;
     Moffat.r_nrej := (Z.of_nat (List.length sig) - Z.of_nat nok)%Z;
     Moffat.r_npar := List.length (Moffat.soln p) |}.

(** The function objects hold the ordinate grids of the window. *)
Definition Moffat_shaped (o : Moffat.objs) : Prop :=
  Mfit1.xy (Moffat.mfit1 o) = grid wind /\
  Mfit2.xy (Moffat.mfit2 o) = grid wind.
End MoffatVocabulary.

(** [(o, hl)] is the state (function objects and store) at the head of a
    turn of the loop of the call of [fitMoffat] made from the store [h]. *)
Definition Moffat_turn (leastsq : solver) (wind : Window.t)
  (sky height xcen ycen fwhm fwhm_min : R) (fwhm_fix : bool)
  (beta thresh : R) (read gain : operand) (h : heap)
  (o : Moffat.objs) (hl : heap) : Prop :=
  exists o0 h0,
    Moffat.construct wind fwhm read gain h = Ok o0 h0 /\
    reach (Moffat.body leastsq wind sky height xcen ycen fwhm fwhm_min
             fwhm_fix beta thresh) o0 h0 o hl.

(** *** Vocabulary for [fitGaussian] *)

Section GaussVocabulary.
Variable leastsq : solver.
Variable wind : Window.t.
Variables sky height xcen ycen fwhm fwhm_min : R.

Definition Gauss_free_solve (o : Gauss.objs) (h : heap) : Lsq.out :=
  leastsq (fun p => eval (Gfit1.call (Gauss.gfit1 o) p) h)
          [sky; height; xcen; ycen; fwhm]
          (fun p => eval (Dgfit1.call (Gauss.dgfit1 o) p) h).

Definition Gauss_fixed_solve (fw : R) (o : Gauss.objs) (h : heap)
  : Lsq.out :=
  leastsq
    (fun p => eval (Gfit2.call (Gfit2.set_fwhm (Gauss.gfit2 o) fw) p) h)
    [sky; height; xcen; ycen]
    (fun p => eval (Dgfit2.call (Dgfit2.set_fwhm (Gauss.dgfit2 o) fw) p) h).

(** The fixed-FWHM pass at [fw], the text of the branch [if fwhm_fix] and
    of the fall-back branch of [two_pass]. *)
Definition Gauss_fixed_pass (fw : R) (o : Gauss.objs)
  : M (Gauss.objs * Gauss.pass) :=
  let gfit2 := Gfit2.set_fwhm (Gauss.gfit2 o) fw in
  let dgfit2 := Dgfit2.set_fwhm (Gauss.dgfit2 o) fw in
  let param := [sky; height; xcen; ycen] in
  r <- solve leastsq (Gfit2.call gfit2) param (Dgfit2.call dgfit2) ;;
  m <- Gfit2.model gfit2 (Lsq.soln r) ;;
  let fit := Window.Build_t (Window.winhead wind) m in
  '(skyf, heightf, xf, yf) <- unpack4 (Lsq.soln r) ;;
  e <- sqrt_diag (Lsq.covar r) ;;
  '(skyfe, heightfe, xfe, yfe) <- unpack4 e ;;
  ret ({| Gauss.gfit1 := Gauss.gfit1 o; Gauss.dgfit1 := Gauss.dgfit1 o;
          Gauss.gfit2 := gfit2; Gauss.dgfit2 := dgfit2 |},
       {| Gauss.soln := Lsq.soln r; Gauss.fit := fit;
          Gauss.skyf := skyf; Gauss.heightf := heightf; Gauss.xf := xf;
          Gauss.yf := yf; Gauss.fwhmf := fw;
          Gauss.skyfe := skyfe; Gauss.heightfe := heightfe;
          Gauss.xfe := xfe; Gauss.yfe := yfe; Gauss.fwhmfe := -1 |}).

Definition Gauss_fixed_outcome (fw : R) (out : Lsq.out)
  (o o' : Gauss.objs) (p : Gauss.pass) : Prop :=
  exists a b c d cov ea eb ec ed,
    Lsq.soln out = [a; b; c; d] /\
    Lsq.covar out = Some cov /\
    map sqrt (diag cov) = [ea; eb; ec; ed] /\
    o' = {| Gauss.gfit1 := Gauss.gfit1 o;
            Gauss.dgfit1 := Gauss.dgfit1 o;
            Gauss.gfit2 := Gfit2.set_fwhm (Gauss.gfit2 o) fw;
            Gauss.dgfit2 := Dgfit2.set_fwhm (Gauss.dgfit2 o) fw |} /\
    p = {| Gauss.soln := [a; b; c; d];
           Gauss.fit :=
             Window.Build_t (Window.winhead wind)
               (gaussian (Gfit2.xy (Gauss.gfit2 o)) a b c d fw);
           Gauss.skyf := a; Gauss.heightf := b; Gauss.xf := c;
           Gauss.yf := d; Gauss.fwhmf := fw;
           Gauss.skyfe := ea; Gauss.heightfe := eb; Gauss.xfe := ec;
           Gauss.yfe := ed; Gauss.fwhmfe := -1 |}.

Definition Gauss_free_outcome (out : Lsq.out)
  (o o' : Gauss.objs) (p : Gauss.pass) : Prop :=
  exists a b c d w cov ea eb ec ed ew,
    Lsq.soln out = [a; b; c; d; w] /\
    w > fwhm_min /\
    Lsq.covar out = Some cov /\
    map sqrt (diag cov) = [ea; eb; ec; ed; ew] /\
    o' = o /\
    p = {| Gauss.soln := [a; b; c; d; w];
           Gauss.fit :=
             Window.Build_t (Window.winhead wind)
               (gaussian (Gfit1.xy (Gauss.gfit1 o)) a b c d w);
           Gauss.skyf := a; Gauss.heightf := b; Gauss.xf := c;
           Gauss.yf := d; Gauss.fwhmf := w;
           Gauss.skyfe := ea; Gauss.heightfe := eb; Gauss.xfe := ec;
           Gauss.yfe := ed; Gauss.fwhmfe := ew |}.

Definition Gauss_sigma1 (o : Gauss.objs) : loc :=
  Gfit1.sigma (Gauss.gfit1 o).

Definition Gauss_again (o : Gauss.objs) : Gauss.objs :=
  {| Gauss.gfit1 := Gauss.gfit1 o;
     Gauss.dgfit1 := Dgfit1.set_sigma (Gauss.dgfit1 o) (Gauss_sigma1 o);
     Gauss.gfit2 := Gfit2.set_sigma (Gauss.gfit2 o) (Gauss_sigma1 o);
     Gauss.dgfit2 := Dgfit2.set_sigma (Gauss.dgfit2 o) (Gauss_sigma1 o) |}.

Definition Gauss_done (o : Gauss.objs) (p : Gauss.pass) (sig : array)
  (chisq sfac : R) (nok : nat) : Gauss.result :=
  {| Gauss.pars := (Gauss.skyf p, Gauss.heightf p, Gauss.xf p,
                    Gauss.yf p, Gauss.fwhmf p);
     Gauss.sigs :=
       (Gauss.skyfe p * sfac, Gauss.heightfe p * sfac,
        Gauss.xfe p * sfac, Gauss.yfe p * sfac,
        if Rgtb (Gauss.fwhmfe p) 0 then Gauss.fwhmfe p * sfac
        else Gauss.fwhmfe p);
     Gauss.r_fit := Gauss.fit p;
     Gauss.r_x := fst (Gfit1.xy (Gauss.gfit1 o));
     Gauss.r_y := snd (Gfit1.xy (Gauss.gfit1 o));
     Gauss.r_sigma := sig;
     Gauss.r_chisq := chisq;
     Gauss.r_nok := nok;
     Gauss.r_nrej := (Z.of_nat (List.length sig) - Z.of_nat nok)%Z;
     Gauss.r_npar := List.length (Gauss.soln p) |}.

Definition Gauss_shaped (o : Gauss.objs) : Prop :=
  Gfit1.xy (Gauss.gfit1 o) = grid wind /\
  Gfit2.xy (Gauss.gfit2 o) = grid wind.
End GaussVocabulary.

Definition Gauss_turn (leastsq : solver) (wind : Window.t)
  (sky height xcen ycen fwhm fwhm_min : R) (fwhm_fix : bool)
  (thresh : R) (read gain : operand) (h : heap)
  (o : Gauss.objs) (hl : heap) : Prop :=
  exists o0 h0,
    Gauss.construct wind fwhm read gain h = Ok o0 h0 /\
    reach (Gauss.body leastsq wind sky height xcen ycen fwhm fwhm_min
             fwhm_fix thresh) o0 h0 o hl.

(** *** Examples *)

(** A solver that returns its starting point with status 1 and a zero
    covariance matrix. *)
Definition echo_solver : solver :=
  fun _ x0 _ =>
    {| Lsq.soln := x0;
       Lsq.covar := Some (map (fun _ => map (fun _ => 0) x0) x0);
       Lsq.mesg := "converged";
       Lsq.ier := 1 |}.

(** A window of one row and two columns with a flat background of 5
    counts. *)
Definition flat_window : Window.t :=
  {| Window.winhead :=
       {| Winhead.nx := 2; Winhead.ny := 1;
          Winhead.xpix := fun v => v; Winhead.ypix := fun v => v |};
     Window.data := [5; 5] |}.

(** The sigma array of the flat window for a readout noise and a gain
    of 1, and the function objects that [fitMoffat] and [fitGaussian]
    construct for it from an empty store with an initial FWHM of 1. *)
Definition flat_sigma : array :=
  map sqrt (map2 Rplus (map (fun v => v ^ 2) [1; 1])
                       (map2 Rdiv (map (Rmax 0) [5; 5]) [1; 1])).

Definition flat_mobjs : Moffat.objs :=
  {| Moffat.mfit1 := {| Mfit1.sigma := 0%nat; Mfit1.xy := grid flat_window;
                        Mfit1.data := [5; 5] |};
     Moffat.dmfit1 := {| Dmfit1.sigma := 0%nat; Dmfit1.xy := grid flat_window |};
     Moffat.mfit2 := {| Mfit2.sigma := 1%nat; Mfit2.xy := grid flat_window;
                        Mfit2.data := [5; 5]; Mfit2.fwhm := 1 |};
     Moffat.dmfit2 := {| Dmfit2.sigma := 1%nat; Dmfit2.xy := grid flat_window;
                         Dmfit2.fwhm := 1 |} |}.

Definition flat_gobjs : Gauss.objs :=
  {| Gauss.gfit1 := {| Gfit1.sigma := 0%nat; Gfit1.xy := grid flat_window;
                       Gfit1.data := [5; 5] |};
     Gauss.dgfit1 := {| Dgfit1.sigma := 0%nat; Dgfit1.xy := grid flat_window |};
     Gauss.gfit2 := {| Gfit2.sigma := 1%nat; Gfit2.xy := grid flat_window;
                       Gfit2.data := [5; 5]; Gfit2.fwhm := 1 |};
     Gauss.dgfit2 := {| Dgfit2.sigma := 1%nat; Dgfit2.xy := grid flat_window;
                        Dgfit2.fwhm := 1 |} |}.

(** A window of two rows and three columns with a flat background of 5
    counts and one pixel at 105 counts; the per-pixel gain that gives every
    pixel a noise of 1 when there is no readout noise; the function objects
    that [fitGaussian] constructs for them from an empty store with an
    initial FWHM of 1. *)
Definition spike_window : Window.t :=
  {| Window.winhead :=
       {| Winhead.nx := 3; Winhead.ny := 2;
          Winhead.xpix := fun v => v; Winhead.ypix := fun v => v |};
     Window.data := [5; 5; 5; 5; 5; 105] |}.

Definition spike_gain : operand := Array [5; 5; 5; 5; 5; 105].

Definition spike_sigma : array := [1; 1; 1; 1; 1; 1].

Definition spike_rejected : array := [1; 1; 1; 1; 1; -1].

Definition spike_gobjs : Gauss.objs :=
  {| Gauss.gfit1 := {| Gfit1.sigma := 0%nat; Gfit1.xy := grid spike_window;
                       Gfit1.data := [5; 5; 5; 5; 5; 105] |};
     Gauss.dgfit1 := {| Dgfit1.sigma := 0%nat; Dgfit1.xy := grid spike_window |};
     Gauss.gfit2 := {| Gfit2.sigma := 1%nat; Gfit2.xy := grid spike_window;
                       Gfit2.data := [5; 5; 5; 5; 5; 105]; Gfit2.fwhm := 1 |};
     Gauss.dgfit2 := {| Dgfit2.sigma := 1%nat; Dgfit2.xy := grid spike_window;
                        Dgfit2.fwhm := 1 |} |}.

(** A solver that gives up: status 5 (too many calls of the function). *)
Definition failing_solver : solver :=
  fun _ x0 _ =>
    {| Lsq.soln := x0;
       Lsq.covar := None;
       Lsq.mesg := "Number of calls to function has reached maxfev";
       Lsq.ier := 5 |}.


(** A solver that returns its starting point with status 1 and the
    covariance matrix whose entry (i, j) is (i+2)(j+2): the standard
    errors it gives are 2, 3, 4, ... in the order of the parameters. *)
Definition spread_solver : solver :=
  fun _ x0 _ =>
    let n := List.length x0 in
    {| Lsq.soln := x0;
       Lsq.covar :=
         Some (map (fun i =>
                      map (fun j => IZR (Z.of_nat (i + 2))
                                    * IZR (Z.of_nat (j + 2))) (seq 0 n))
                   (seq 0 n));
       Lsq.mesg := "converged";
       Lsq.ier := 1 |}.

(** A window of one row and seven columns with a background of 5 counts
    and one pixel 2 counts above it, the per-pixel gain that gives every
    pixel a noise of 1 when there is no readout noise, and the function
    objects that [fitMoffat] and [fitGaussian] construct for it from an
    empty store with an initial FWHM of 1. *)
Definition bump_window : Window.t :=
  {| Window.winhead :=
       {| Winhead.nx := 7; Winhead.ny := 1;
          Winhead.xpix := fun v => v; Winhead.ypix := fun v => v |};
     Window.data := [7; 5; 5; 5; 5; 5; 5] |}.

Definition bump_gain : operand := Array [7; 5; 5; 5; 5; 5; 5].

Definition bump_sigma : array := [1; 1; 1; 1; 1; 1; 1].

Definition bump_mobjs : Moffat.objs :=
  {| Moffat.mfit1 := {| Mfit1.sigma := 0%nat; Mfit1.xy := grid bump_window;
                        Mfit1.data := [7; 5; 5; 5; 5; 5; 5] |};
     Moffat.dmfit1 := {| Dmfit1.sigma := 0%nat; Dmfit1.xy := grid bump_window |};
     Moffat.mfit2 := {| Mfit2.sigma := 1%nat; Mfit2.xy := grid bump_window;
                        Mfit2.data := [7; 5; 5; 5; 5; 5; 5]; Mfit2.fwhm := 1 |};
     Moffat.dmfit2 := {| Dmfit2.sigma := 1%nat; Dmfit2.xy := grid bump_window;
                         Dmfit2.fwhm := 1 |} |}.

Definition bump_gobjs : Gauss.objs :=
  {| Gauss.gfit1 := {| Gfit1.sigma := 0%nat; Gfit1.xy := grid bump_window;
                       Gfit1.data := [7; 5; 5; 5; 5; 5; 5] |};
     Gauss.dgfit1 := {| Dgfit1.sigma := 0%nat; Dgfit1.xy := grid bump_window |};
     Gauss.gfit2 := {| Gfit2.sigma := 1%nat; Gfit2.xy := grid bump_window;
                       Gfit2.data := [7; 5; 5; 5; 5; 5; 5]; Gfit2.fwhm := 1 |};
     Gauss.dgfit2 := {| Dgfit2.sigma := 1%nat; Dgfit2.xy := grid bump_window;
                        Dgfit2.fwhm := 1 |} |}.
(** ** Vocabulary of the further properties *)

(** The Gaussian profile at the point [(x, y)]. *)
Definition gaussian_at (x y sky height xcen ycen fwhm : R) : R :=
  sky + height * exp (- (4 * ln 2 / fwhm ^ 2)
                      * ((x - xcen) ^ 2 + (y - ycen) ^ 2)).

(** The Moffat profile at the point [(x, y)], for an exponent that is not
    clamped. *)
Definition moffat_raw (x y sky height xcen ycen fwhm beta : R) : R :=
  height / Rpower (1 + (4 * (Rpower 2 (1 / beta) - 1) / fwhm ^ 2)
                       * ((x - xcen) ^ 2 + (y - ycen) ^ 2)) beta + sky.

(** [self.xy] of a residual object, and the number of entries that its
    methods unpack from the parameter vector. *)
Definition xy_of (o : residual_object) : array * array :=
  match o with
  | R_Mfit1 self => Mfit1.xy self
  | R_Mfit2 self => Mfit2.xy self
  | R_Gfit1 self => Gfit1.xy self
  | R_Gfit2 self => Gfit2.xy self
  end.

Definition npar_of (o : residual_object) : nat :=
  match o with
  | R_Mfit1 _ => 6
  | R_Mfit2 _ => 5
  | R_Gfit1 _ => 5
  | R_Gfit2 _ => 4
  end.

(** A Jacobian object goes with a residual object, as [Dfun] with [func]
    in a call of [leastsq]: it is of the class made for the class of the
    residual object, holds the same ordinate grids and the same fixed FWHM,
    and its sigma array has the same contents. *)
Definition paired (h : heap) (ro : residual_object) (jo : jacobian_object)
  : Prop :=
  match ro, jo with
  | R_Mfit1 f, J_Dmfit1 d =>
      Dmfit1.xy d = Mfit1.xy f /\
      contents h (Dmfit1.sigma d) = contents h (Mfit1.sigma f)
  | R_Mfit2 f, J_Dmfit2 d =>
      Dmfit2.xy d = Mfit2.xy f /\ Dmfit2.fwhm d = Mfit2.fwhm f /\
      contents h (Dmfit2.sigma d) = contents h (Mfit2.sigma f)
  | R_Gfit1 f, J_Dgfit1 d =>
      Dgfit1.xy d = Gfit1.xy f /\
      contents h (Dgfit1.sigma d) = contents h (Gfit1.sigma f)
  | R_Gfit2 f, J_Dgfit2 d =>
      Dgfit2.xy d = Gfit2.xy f /\ Dgfit2.fwhm d = Gfit2.fwhm f /\
      contents h (Dgfit2.sigma d) = contents h (Gfit2.sigma f)
  | _, _ => False
  end.

(** The grids, the data and the sigma array of a residual object have one
    shape. *)
Definition same_shape (h : heap) (ro : residual_object) : Prop :=
  let n := List.length (contents h (sigma_of ro)) in
  List.length (fst (xy_of ro)) = n /\ List.length (snd (xy_of ro)) = n /\
  List.length (data_of ro) = n.

(** Entry [j] of the vector of residuals at a parameter vector, 0 when the
    call raises. *)
Definition residual_entry (ro : residual_object) (h : heap) (j : nat)
  (param : list R) : R :=
  match eval (residual ro param) h with
  | Some v => nth j v 0
  | None => 0
  end.

(** The parameter vectors at which the profile of a residual object is
    differentiable as the Jacobian objects compute it: a FWHM (in the
    vector, or fixed in the object) that is not zero and, for the Moffat
    profile, an exponent above the clamp at 0.01. *)
Definition in_domain (ro : residual_object) (param : list R) : Prop :=
  match ro with
  | R_Mfit1 _ => nth 4 param 0 <> 0 /\ 1/100 < nth 5 param 0
  | R_Mfit2 self => Mfit2.fwhm self <> 0 /\ 1/100 < nth 4 param 0
  | R_Gfit1 _ => nth 4 param 0 <> 0
  | R_Gfit2 self => Gfit2.fwhm self <> 0
  end.

(** The function objects of [fitMoffat] and of [fitGaussian] for a window,
    with the array object [l1] as sigma of the free-FWHM pair, the array
    object [l2] as sigma of the fixed-FWHM pair and the fixed FWHM [fw]. *)
Definition Moffat_objs_at (wind : Window.t) (l1 l2 : loc) (fw : R)
  : Moffat.objs :=
  {| Moffat.mfit1 := {| Mfit1.sigma := l1; Mfit1.xy := grid wind;
                        Mfit1.data := Window.data wind |};
     Moffat.dmfit1 := {| Dmfit1.sigma := l1; Dmfit1.xy := grid wind |};
     Moffat.mfit2 := {| Mfit2.sigma := l2; Mfit2.xy := grid wind;
                        Mfit2.data := Window.data wind; Mfit2.fwhm := fw |};
     Moffat.dmfit2 := {| Dmfit2.sigma := l2; Dmfit2.xy := grid wind;
                         Dmfit2.fwhm := fw |} |}.

Definition Gauss_objs_at (wind : Window.t) (l1 l2 : loc) (fw : R)
  : Gauss.objs :=
  {| Gauss.gfit1 := {| Gfit1.sigma := l1; Gfit1.xy := grid wind;
                       Gfit1.data := Window.data wind |};
     Gauss.dgfit1 := {| Dgfit1.sigma := l1; Dgfit1.xy := grid wind |};
     Gauss.gfit2 := {| Gfit2.sigma := l2; Gfit2.xy := grid wind;
                       Gfit2.data := Window.data wind; Gfit2.fwhm := fw |};
     Gauss.dgfit2 := {| Dgfit2.sigma := l2; Dgfit2.xy := grid wind;
                        Dgfit2.fwhm := fw |} |}.

(** The covariance matrices that a solver returns have no negative entry
    on their diagonal, so that [np.sqrt] is defined on it. *)
Definition covariance_nonneg (leastsq : solver) : Prop :=
  forall func x0 Dfun cov,
    Lsq.covar (leastsq func x0 Dfun) = Some cov ->
    Forall (fun v => 0 <= v) (diag cov).

(** ** combFit *)

Module Comb.

(** An argument of [str.format] in the messages: a float or an integer. *)
Inductive arg : Type :=
| Float (v : R)
| Int (n : Z).

(** What [combFit] raises: an exception of the fit, or
    [NotImplementedError] with its message. *)
Inductive error : Type :=
| Fit (e : exn)
| NotImplementedError (mesg : string).

(** The outcome of a call from a store, as [outcome] with the exceptions
    of [combFit]. *)
Inductive run (A : Type) : Type :=
| Returns (a : A) (h : heap)
| Raises (e : error)
| Unfinished.
Arguments Returns {A} a h.
Arguments Raises {A} e.
Arguments Unfinished {A}.

(** The returned tuple of tuples: [pars], [epars] and the extras
    [(fit, X, Y, sigma, chisq, nok, nrej, npar, message)]. *)
Record result : Type := {
  pars : R * R * R * R * R * R;
  epars : R * R * R * R * R * R;
  fit : Window.t;
  X : array;
  Y : array;
  sigma : array;
  chisq : R;
  nok : nat;
  nrej : Z;
  npar : nat;
  message : string
}.

Section Driver.
Variable leastsq : solver.

(** [template.format(args)] of Python on floats and integers, a parameter
    of the development as [leastsq] is. *)
Variable format : string -> list arg -> string.

(** [combFit(wind, method, sky, height, x, y, fwhm, fwhm_min, fwhm_fix,
    beta, read, gain, thresh)], with [fuel] as in [fitMoffat].  The two
    tests of [method], before and after the fit, are one [if] here. *)
Definition combFit (wind : Window.t) (method : string)
  (sky height x y fwhm fwhm_min : R) (fwhm_fix : bool) (beta : R)
  (read gain : operand) (thresh : R) (fuel : nat) (h : heap) : run result :=
  if String.eqb method "g" then
    match Gauss.fitGaussian leastsq wind sky height x y fwhm fwhm_min
            fwhm_fix thresh fuel read gain h with
    | Ok r h' =>
        let '(sky, height, x, y, fwhm) := Gauss.pars r in
        let '(esky, eheight, ex, ey, efwhm) := Gauss.sigs r in
        let message :=
          format
            "x,y = {:.1f}({:.1f}),{:.1f}({:.1f}), FWHM = {:.2f}({:.2f}), peak = {:.1f}({:.1f}), sky = {:.1f}({:.1f}), chi**2 = {:.1f}, nok = {:d}, nrej = {:d}"
            [Float x; Float ex; Float y; Float ey; Float fwhm; Float efwhm;
             Float height; Float eheight; Float sky; Float esky;
             Float (Gauss.r_chisq r); Int (Z.of_nat (Gauss.r_nok r));
             Int (Gauss.r_nrej r)] in
        Returns {| pars := (sky, height, x, y, fwhm, 0);
                   epars := (esky, eheight, ex, ey, efwhm, -1);
                   fit := Gauss.r_fit r; X := Gauss.r_x r; Y := Gauss.r_y r;
                   sigma := Gauss.r_sigma r; chisq := Gauss.r_chisq r;
                   nok := Gauss.r_nok r; nrej := Gauss.r_nrej r;
                   npar := Gauss.r_npar r; message := message |} h'
    | Raise e => Raises (Fit e)
    | OutOfFuel => Unfinished
    end
  else if String.eqb method "m" then
    match Moffat.fitMoffat leastsq wind sky height x y fwhm fwhm_min
            fwhm_fix beta thresh fuel read gain h with
    | Ok r h' =>
        let '(sky, height, x, y, fwhm, beta) := Moffat.pars r in
        let '(esky, eheight, ex, ey, efwhm, ebeta) := Moffat.sigs r in
        let message :=
          format
            "x,y = {:.1f}({:.1f}),{:.1f}({:.1f}), FWHM = {:.2f}({:.2f}), peak = {:.1f}({:.1f}), sky = {:.1f}({:.1f}), beta = {:.2f}({:.2f}), chi**2 = {:.1f}, nok = {:d}, nrej = {:d}"
            [Float x; Float ex; Float y; Float ey; Float fwhm; Float efwhm;
             Float height; Float eheight; Float sky; Float esky;
             Float beta; Float ebeta;
             Float (Moffat.r_chisq r); Int (Z.of_nat (Moffat.r_nok r));
             Int (Moffat.r_nrej r)] in
        Returns {| pars := (sky, height, x, y, fwhm, beta);
                   epars := (esky, eheight, ex, ey, efwhm, ebeta);
                   fit := Moffat.r_fit r; X := Moffat.r_x r;
                   Y := Moffat.r_y r;
                   sigma := Moffat.r_sigma r; chisq := Moffat.r_chisq r;
                   nok := Moffat.r_nok r; nrej := Moffat.r_nrej r;
                   npar := Moffat.r_npar r; message := message |} h'
    | Raise e => Raises (Fit e)
    | OutOfFuel => Unfinished
    end
  else
    Raises (NotImplementedError (method ++ " fitting method not implemented")).
End Driver.
End Comb.

(** *** Further examples *)


(** A [format] that keeps the template. *)
Definition template_only : string -> list Comb.arg -> string :=
  fun template _ => template.



(** ** Arrays: entries of elementwise operations *)

Lemma nth_error_map2 {A B C : Type} (f : A -> B -> C) :
  forall (a : list A) (b : list B) (k : nat) (x : A) (y : B),
    nth_error a k = Some x -> nth_error b k = Some y ->
    nth_error (map2 f a b) k = Some (f x y).
Proof.
  induction a as [|x0 a IH]; intros [|y0 b] [|k] x y Ha Hb;
    simpl in *; try discriminate.
  - congruence.
  - now apply IH.
Qed.

Lemma map2_length {A B C : Type} (f : A -> B -> C) :
  forall (a : list A) (b : list B),
    List.length (map2 f a b) = Nat.min (List.length a) (List.length b).
Proof.
  induction a as [|x a IH]; intros [|y b]; simpl; auto.
Qed.

Ltac entry_solve :=
  first [ eassumption
        | eapply nth_error_map2; entry_solve
        | eapply map_nth_error; entry_solve ].

Lemma Rgtb_true (x y : R) : x > y -> Rgtb x y = true.
Proof. intro H. unfold Rgtb. destruct (Rgt_dec x y); [reflexivity | contradiction]. Qed.

Lemma Rgtb_false (x y : R) : ~ x > y -> Rgtb x y = false.
Proof. intro H. unfold Rgtb. destruct (Rgt_dec x y); [contradiction | reflexivity]. Qed.

Lemma Rgtb_spec (x y : R) : Rgtb x y = true <-> x > y.
Proof.
  unfold Rgtb. destruct (Rgt_dec x y); split; intro; auto; discriminate.
Qed.

(** C5 (Moffat analytic Jacobian).  With [beta] clamped from below at 0.01,
    [dmoffat] returns at every grid point the derivatives of the
    specification: 1 for the sky, (1+alpha r^2)^(-beta) for the height, the
    xcen, ycen, FWHM and beta terms of [MoffatSpec]; with [skip_dfwhm] the
    FWHM term is left out and five arrays are returned instead of six. *)
Theorem dmoffat_matches_spec :
  forall (x y : array) (sky height xcen ycen fwhm beta : R)
         (k : nat) (xk yk : R),
    nth_error x k = Some xk ->
    nth_error y k = Some yk ->
    let b := Rmax (1/100) beta in
    1/100 <= b /\
    entries k (dmoffat (x, y) sky height xcen ycen fwhm beta false)
    = map Some
        [ MoffatSpec.d_sky;
          MoffatSpec.d_height xk yk xcen ycen fwhm b;
          MoffatSpec.d_xcen xk yk height xcen ycen fwhm b;
          MoffatSpec.d_ycen xk yk height xcen ycen fwhm b;
          MoffatSpec.d_fwhm xk yk height xcen ycen fwhm b;
          MoffatSpec.d_beta xk yk height xcen ycen fwhm b ] /\
    entries k (dmoffat (x, y) sky height xcen ycen fwhm beta true)
    = map Some
        [ MoffatSpec.d_sky;
          MoffatSpec.d_height xk yk xcen ycen fwhm b;
          MoffatSpec.d_xcen xk yk height xcen ycen fwhm b;
          MoffatSpec.d_ycen xk yk height xcen ycen fwhm b;
          MoffatSpec.d_beta xk yk height xcen ycen fwhm b ] /\
    List.length (dmoffat (x, y) sky height xcen ycen fwhm beta false) = 6%nat /\
    List.length (dmoffat (x, y) sky height xcen ycen fwhm beta true) = 5%nat.
Proof.
  intros x y sky height xcen ycen fwhm beta k xk yk Hx Hy b.
  split; [apply Rmax_l|].
  assert (Hpow : forall d, 1 / Rpower d b = Rpower d (- b)).
  { intro d. rewrite Rpower_Ropp. unfold Rdiv. ring. }
  unfold dmoffat, entries; fold b; cbn [map List.length].
  repeat split;
    repeat (apply f_equal2; [ etransitivity; [entry_solve | f_equal] | ]); auto;
    unfold MoffatSpec.d_sky, MoffatSpec.d_height, MoffatSpec.d_xcen,
      MoffatSpec.d_ycen, MoffatSpec.d_fwhm, MoffatSpec.d_beta,
      MoffatSpec.base, MoffatSpec.rsq, MoffatSpec.alpha;
    rewrite ?Hpow; try reflexivity; unfold Rdiv; ring.
Qed.

Lemma dmoffat_matches_spec_witness :
  let b := Rmax (1/100) 3 in
  1/100 <= b /\
  entries 1 (dmoffat ([0; 1], [2; 2]) 10 500 1 2 4 3 false)
  = map Some
      [ MoffatSpec.d_sky;
        MoffatSpec.d_height 1 2 1 2 4 b;
        MoffatSpec.d_xcen 1 2 500 1 2 4 b;
        MoffatSpec.d_ycen 1 2 500 1 2 4 b;
        MoffatSpec.d_fwhm 1 2 500 1 2 4 b;
        MoffatSpec.d_beta 1 2 500 1 2 4 b ] /\
  entries 1 (dmoffat ([0; 1], [2; 2]) 10 500 1 2 4 3 true)
  = map Some
      [ MoffatSpec.d_sky;
        MoffatSpec.d_height 1 2 1 2 4 b;
        MoffatSpec.d_xcen 1 2 500 1 2 4 b;
        MoffatSpec.d_ycen 1 2 500 1 2 4 b;
        MoffatSpec.d_beta 1 2 500 1 2 4 b ] /\
  List.length (dmoffat ([0; 1], [2; 2]) 10 500 1 2 4 3 false) = 6%nat /\
  List.length (dmoffat ([0; 1], [2; 2]) 10 500 1 2 4 3 true) = 5%nat.
Proof.
  apply (dmoffat_matches_spec [0; 1] [2; 2] 10 500 1 2 4 3 1%nat 1 2);
    reflexivity.
Defined.

(** ** The monad: inversion and computations that only read the store *)

Lemma bind_Ok {A B : Type} (c : M A) (k : A -> M B) (h h' : heap) (b : B) :
  bind c k h = Ok b h' ->
  exists a h1, c h = Ok a h1 /\ k a h1 = Ok b h'.
Proof.
  unfold bind. destruct (c h) as [a h1| |]; try discriminate.
  intro H. now exists a, h1.
Qed.

Lemma reads_Ok {A : Type} (c : M A) (h h' : heap) (a : A) :
  reads c -> c h = Ok a h' -> h' = h.
Proof. intros Hc H. specialize (Hc h). unfold unchanged in Hc. now rewrite H in Hc. Qed.

Lemma reads_fuel {A : Type} (c : M A) (h : heap) :
  reads c -> c h <> OutOfFuel.
Proof. intros Hc H. specialize (Hc h). unfold unchanged in Hc. now rewrite H in Hc. Qed.

Lemma reads_ret {A : Type} (a : A) : reads (ret a).
Proof. intro h. reflexivity. Qed.

Lemma reads_raise {A : Type} (e : exn) : reads (@raise A e).
Proof. intro h. exact I. Qed.

Lemma reads_rd (l : loc) : reads (rd l).
Proof. intro h. reflexivity. Qed.

Lemma reads_bind {A B : Type} (c : M A) (k : A -> M B) :
  reads c -> (forall a, reads (k a)) -> reads (bind c k).
Proof.
  intros Hc Hk h. unfold unchanged, bind.
  specialize (Hc h). unfold unchanged in Hc.
  destruct (c h) as [a h1| |]; auto. subst h1. apply Hk.
Qed.

Lemma reads_unpack4 (l : list R) : reads (unpack4 l).
Proof.
  destruct l as [|a [|b [|c [|d [|e l]]]]]; first [apply reads_raise | apply reads_ret].
Qed.

Lemma reads_unpack5 (l : list R) : reads (unpack5 l).
Proof.
  destruct l as [|a [|b [|c [|d [|e [|f l]]]]]];
    first [apply reads_raise | apply reads_ret].
Qed.

Lemma reads_unpack6 (l : list R) : reads (unpack6 l).
Proof.
  destruct l as [|a [|b [|c [|d [|e [|f [|g l]]]]]]];
    first [apply reads_raise | apply reads_ret].
Qed.

Lemma reads_sqrt_diag (c : option (list (list R))) : reads (sqrt_diag c).
Proof. destruct c; [apply reads_ret | apply reads_raise]. Qed.

Lemma reads_solve (leastsq : solver) func param Dfun :
  reads (solve leastsq func param Dfun).
Proof.
  intro h. unfold unchanged, solve.
  destruct (_ || _)%bool; auto.
Qed.

Create HintDb reads.
#[local] Hint Resolve reads_ret reads_raise reads_rd reads_unpack4
  reads_unpack5 reads_unpack6 reads_sqrt_diag reads_solve : reads.

Ltac reads_tac :=
  repeat first
    [ solve [auto with reads]
    | apply reads_bind; [ | intro ]
    | match goal with
      | |- reads (match ?x with pair _ _ => _ end) => destruct x
      | |- reads (if ?b then _ else _) => destruct b
      end ].

Lemma reads_model (o : residual_object) (param : list R) : reads (model o param).
Proof.
  destruct o; cbn [model];
    unfold Mfit1.model, Mfit2.model, Gfit1.model, Gfit2.model; reads_tac.
Qed.

Lemma reads_residual (o : residual_object) (param : list R) :
  reads (residual o param).
Proof.
  destruct o; cbn [residual];
    unfold Mfit1.call, Mfit2.call, Gfit1.call, Gfit2.call;
    (apply reads_bind; [ | intro; reads_tac ]).
  - apply (reads_model (R_Mfit1 self)).
  - apply (reads_model (R_Mfit2 self)).
  - apply (reads_model (R_Gfit1 self)).
  - apply (reads_model (R_Gfit2 self)).
Qed.

Lemma reads_jacobian (o : jacobian_object) (param : list R) :
  reads (jacobian o param).
Proof.
  destruct o; cbn [jacobian];
    unfold Dmfit1.call, Dmfit2.call, Dgfit1.call, Dgfit2.call; reads_tac.
Qed.

#[local] Hint Resolve reads_model reads_residual reads_jacobian : reads.

Lemma reads_Moffat_two_pass leastsq wind sky height xcen ycen fwhm fwhm_min
  fwhm_fix beta o :
  reads (Moffat.two_pass leastsq wind sky height xcen ycen fwhm fwhm_min
           fwhm_fix beta o).
Proof.
  unfold Moffat.two_pass.
  pose proof (fun s => reads_model (R_Mfit1 s)) as H1.
  pose proof (fun s => reads_model (R_Mfit2 s)) as H2.
  cbn [model] in H1, H2.
  reads_tac.
Qed.

Lemma reads_Gauss_two_pass leastsq wind sky height xcen ycen fwhm fwhm_min
  fwhm_fix o :
  reads (Gauss.two_pass leastsq wind sky height xcen ycen fwhm fwhm_min
           fwhm_fix o).
Proof.
  unfold Gauss.two_pass.
  pose proof (fun s => reads_model (R_Gfit1 s)) as H1.
  pose proof (fun s => reads_model (R_Gfit2 s)) as H2.
  cbn [model] in H1, H2.
  reads_tac.
Qed.

(** ** The store *)

Lemma upd_length (h : heap) : forall l a, List.length (upd h l a) = List.length h.
Proof. induction h as [|b h IH]; intros [|l] a; simpl; auto. Qed.

Lemma contents_upd_same (h : heap) :
  forall l a, (l < List.length h)%nat -> contents (upd h l a) l = a.
Proof.
  unfold contents.
  induction h as [|b h IH]; intros [|l] a Hl; simpl in *; try lia; auto.
  apply IH. lia.
Qed.

Lemma contents_upd_other (h : heap) :
  forall l l' a, l' <> l -> contents (upd h l a) l' = contents h l'.
Proof.
  unfold contents.
  induction h as [|b h IH]; intros [|l] [|l'] a Hl; simpl in *;
    try congruence; auto.
Qed.

Lemma upd_contents (h : heap) : forall l, upd h l (contents h l) = h.
Proof.
  unfold contents.
  induction h as [|b h IH]; intros [|l]; simpl; auto. now rewrite IH.
Qed.

(** ** Mask selection *)

Lemma select_length_le :
  forall (a b : array) (m : mask),
    (List.length a <= List.length b)%nat ->
    (List.length (select a m) <= List.length (select b m))%nat.
Proof.
  induction a as [|x a IH]; intros b m H.
  - destruct m; simpl; lia.
  - destruct b as [|y b]; [simpl in H; lia|].
    destruct m as [|c m]; [simpl; lia|].
    simpl in H. assert (H' : (List.length a <= List.length b)%nat) by lia.
    specialize (IH b m H'). destruct c; simpl; lia.
Qed.

Lemma select_length_eq :
  forall (a b : array) (m : mask),
    List.length a = List.length b ->
    List.length (select a m) = List.length (select b m).
Proof.
  intros a b m H. apply Nat.le_antisymm; apply select_length_le; lia.
Qed.

Lemma filter_map_comm {A B : Type} (f : B -> bool) (g : A -> B) (l : list A) :
  filter f (map g l) = map g (filter (fun a => f (g a)) l).
Proof.
  induction l as [|a l IH]; simpl; auto.
  destruct (f (g a)); simpl; now rewrite IH.
Qed.

Lemma included_cons (s : R) (sig : array) :
  included (s :: sig)
  = (if Rgtb s 0 then [O] else []) ++ map S (included sig).
Proof.
  unfold included. cbn [List.length seq filter nth].
  rewrite <- seq_shift, filter_map_comm.
  destruct (Rgtb s 0); reflexivity.
Qed.

Lemma select_residual_spec :
  forall (sig d m : array),
    List.length d = List.length sig ->
    List.length m = List.length sig ->
    select (map2 Rdiv (map2 Rminus d m) sig) (gt sig 0) = residual_spec d m sig.
Proof.
  unfold residual_spec.
  induction sig as [|s sig IH]; intros [|x d] [|y m] Hd Hm;
    simpl in Hd, Hm; try discriminate; [reflexivity|].
  rewrite included_cons, map_app, map_map.
  cbn [nth]. rewrite <- (IH d m) by lia.
  cbn [map2 gt map select].
  destruct (Rgtb s 0); reflexivity.
Qed.

Lemma residual_spec_length (d m sig : array) :
  List.length (residual_spec d m sig) = count_pos sig.
Proof.
  unfold residual_spec, count_pos. rewrite length_map.
  induction sig as [|s sig IH]; [reflexivity|].
  rewrite included_cons, length_app, length_map, IH.
  cbn [gt map select]. destruct (Rgtb s 0); reflexivity.
Qed.

(** C4 (residual vector).  For each of the four residual objects, any
    parameter vector and any state of the sigma array, [__call__] returns
    the values (data - model)/sigma of exactly the pixels whose sigma is
    strictly positive, in pixel order; the pixels with sigma <= 0 are left
    out, so the vector has as many entries as there are included pixels. *)
Theorem residual_vector :
  forall (o : residual_object) (param : list R) (h : heap) (m : array),
    model o param h = Ok m h ->
    List.length (data_of o) = List.length (contents h (sigma_of o)) ->
    List.length m = List.length (contents h (sigma_of o)) ->
    residual o param h
    = Ok (residual_spec (data_of o) m (contents h (sigma_of o))) h /\
    List.length (residual_spec (data_of o) m (contents h (sigma_of o)))
    = count_pos (contents h (sigma_of o)).
Proof.
  intros o param h m Hm Hd Hl. split; [|apply residual_spec_length].
  rewrite <- select_residual_spec by assumption.
  destruct o; cbn [residual model data_of sigma_of] in *;
    unfold Mfit1.call, Mfit2.call, Gfit1.call, Gfit2.call, bind;
    rewrite Hm; reflexivity.
Qed.

Lemma residual_vector_witness :
  let o := R_Gfit2 {| Gfit2.sigma := 0%nat; Gfit2.xy := ([0; 1; 2], [0; 0; 0]);
                      Gfit2.data := [3; 4; 5]; Gfit2.fwhm := 1 |} in
  let h := [[2; -2; 1]] in
  let m := gaussian ([0; 1; 2], [0; 0; 0]) 0 0 0 0 1 in
  residual o [0; 0; 0; 0] h
  = Ok (residual_spec (data_of o) m (contents h (sigma_of o))) h /\
  List.length (residual_spec (data_of o) m (contents h (sigma_of o)))
  = count_pos (contents h (sigma_of o)).
Proof.
  apply (residual_vector
           (R_Gfit2 {| Gfit2.sigma := 0%nat; Gfit2.xy := ([0; 1; 2], [0; 0; 0]);
                       Gfit2.data := [3; 4; 5]; Gfit2.fwhm := 1 |})
           [0; 0; 0; 0] [[2; -2; 1]]
           (gaussian ([0; 1; 2], [0; 0; 0]) 0 0 0 0 1));
    reflexivity.
Defined.

(** C9 (frame property of the evaluators).  The residual, the model and
    the Jacobian of every function object, on any parameter vector, leave
    the store of sigma arrays as they found it (the data and coordinate
    arrays are values of the objects, which no method returns changed).
    In the drivers the two-pass fit leaves the store unchanged as well; the
    search for outliers writes one array, the one at [mfit1.sigma]. *)
Theorem evaluators_leave_store :
  forall (param : list R) (h : heap),
    (forall o : residual_object, unchanged (residual o param) h) /\
    (forall o : residual_object, unchanged (model o param) h) /\
    (forall o : jacobian_object, unchanged (jacobian o param) h) /\
    (forall leastsq wind sky height xcen ycen fwhm fwhm_min fwhm_fix beta o,
        unchanged (Moffat.two_pass leastsq wind sky height xcen ycen fwhm
                     fwhm_min fwhm_fix beta o) h) /\
    (forall leastsq wind sky height xcen ycen fwhm fwhm_min fwhm_fix o,
        unchanged (Gauss.two_pass leastsq wind sky height xcen ycen fwhm
                     fwhm_min fwhm_fix o) h) /\
    (forall sigma1 wind fit soln thresh,
        exists r sig',
          outliers sigma1 wind fit soln thresh h = Ok r (upd h sigma1 sig')).
Proof.
  intros param h. repeat split; intros.
  - apply reads_residual.
  - apply reads_model.
  - apply reads_jacobian.
  - apply reads_Moffat_two_pass.
  - apply reads_Gauss_two_pass.
  - unfold outliers, bind, rd, wr, ret. eexists. eexists. reflexivity.
Qed.

(** ** The noise model *)

Lemma broadcast_length (v : operand) (n : nat) (a : array) :
  broadcast v n = Some a -> List.length a = n.
Proof.
  destruct v as [r|b]; simpl.
  - intro H. inversion H. apply repeat_length.
  - destruct (Nat.eqb_spec (List.length b) n); intro H; inversion H; subst; auto.
Qed.

Lemma noise_Ok (read gain : operand) (d : array) (h h' : heap) (s : array) :
  noise read gain d h = Ok s h' ->
  h' = h /\
  exists r g,
    broadcast read (List.length d) = Some r /\
    broadcast gain (List.length d) = Some g /\
    s = map sqrt (map2 Rplus (map (fun v => v ^ 2) r)
                             (map2 Rdiv (map (Rmax 0) d) g)) /\
    List.length s = List.length d.
Proof.
  unfold noise.
  destruct (broadcast read _) as [r|] eqn:Hr; [|discriminate].
  destruct (broadcast gain _) as [g|] eqn:Hg; [|discriminate].
  unfold ret. intro H. inversion H; subst. split; [reflexivity|].
  exists r, g. repeat split; auto.
  apply broadcast_length in Hr, Hg.
  rewrite length_map, !map2_length, !length_map. lia.
Qed.

Lemma contents_alloc (h : heap) (a : array) :
  contents (h ++ [a]) (List.length h) = a.
Proof. unfold contents. now rewrite nth_middle. Qed.

Lemma new_residual_Ok c wind read gain fwhm h o h' :
  new_residual c wind read gain fwhm h = Ok o h' ->
  exists s, noise read gain (Window.data wind) h = Ok s h /\
            sigma_of o = List.length h /\ h' = h ++ [s] /\
            data_of o = Window.data wind.
Proof.
  destruct c; cbn [new_residual];
    unfold Mfit1.init, Mfit2.init, Gfit1.init, Gfit2.init;
    intro H;
    apply bind_Ok in H; destruct H as (o1 & h1 & H & Hr);
    apply bind_Ok in H; destruct H as (s & h2 & Hn & H);
    apply bind_Ok in H; destruct H as (l & h3 & Ha & H);
    destruct (noise_Ok _ _ _ _ _ _ Hn) as [-> _];
    unfold alloc in Ha; unfold ret in H, Hr;
    inversion Ha; inversion H; inversion Hr; subst;
    exists s; repeat split; auto.
Qed.

(** C6 (noise model).  The constructor of each residual object allocates a
    new sigma array whose entry at every pixel is
    sqrt(read^2 + max(0, data)/gain), [read] and [gain] being broadcast to
    the shape of the data.  For a positive gain the entry is the
    non-negative root of read^2 + max(0, data)/gain. *)
Theorem noise_model :
  forall (c : residual_class) (wind : Window.t) (read gain : operand)
         (fwhm : R) (h h' : heap) (o : residual_object),
    new_residual c wind read gain fwhm h = Ok o h' ->
    let d := Window.data wind in
    let sig := contents h' (sigma_of o) in
    exists r g,
      broadcast read (List.length d) = Some r /\
      broadcast gain (List.length d) = Some g /\
      sigma_of o = List.length h /\
      h' = h ++ [sig] /\
      List.length sig = List.length d /\
      forall k dk rk gk,
        nth_error d k = Some dk ->
        nth_error r k = Some rk ->
        nth_error g k = Some gk ->
        nth_error sig k = Some (noise_spec rk dk gk) /\
        (0 < gk ->
         0 <= noise_spec rk dk gk /\
         noise_spec rk dk gk * noise_spec rk dk gk = rk ^ 2 + Rmax 0 dk / gk).
Proof.
  intros c wind read gain fwhm h h' o H d sig.
  destruct (new_residual_Ok _ _ _ _ _ _ _ _ H) as (s & Hn & Hl & Hh & _).
  destruct (noise_Ok _ _ _ _ _ _ Hn) as (_ & r & g & Hr & Hg & Hs & Hlen).
  assert (Hsig : sig = s).
  { unfold sig. rewrite Hl, Hh. apply contents_alloc. }
  exists r, g. rewrite Hsig. repeat split; auto.
  - rewrite Hs. unfold noise_spec.
    etransitivity; [entry_solve | reflexivity].
  - apply sqrt_pos.
  - unfold noise_spec. apply sqrt_sqrt.
    assert (0 <= rk ^ 2) by apply pow2_ge_0.
    assert (0 <= Rmax 0 dk) by apply Rmax_l.
    assert (0 < / gk) by now apply Rinv_0_lt_compat.
    unfold Rdiv. nra.
Qed.

Lemma noise_model_witness :
  let wind := {| Window.winhead :=
                   {| Winhead.nx := 2; Winhead.ny := 1;
                      Winhead.xpix := fun v => v; Winhead.ypix := fun v => v |};
                 Window.data := [4; -3] |} in
  let s := map sqrt (map2 Rplus (map (fun v => v ^ 2) [3; 3])
                                (map2 Rdiv (map (Rmax 0) [4; -3]) [1; 2])) in
  let o := R_Mfit2 {| Mfit2.sigma := 0%nat;
                      Mfit2.xy := meshgrid (Window.x wind (arange 2))
                                           (Window.y wind (arange 1));
                      Mfit2.data := [4; -3]; Mfit2.fwhm := 5 |} in
  exists r g,
    broadcast (Scalar 3) 2 = Some r /\
    broadcast (Array [1; 2]) 2 = Some g /\
    sigma_of o = 0%nat /\
    [s] = [] ++ [contents [s] (sigma_of o)] /\
    List.length (contents [s] (sigma_of o)) = 2%nat /\
    forall k dk rk gk,
      nth_error [4; -3] k = Some dk ->
      nth_error r k = Some rk ->
      nth_error g k = Some gk ->
      nth_error (contents [s] (sigma_of o)) k = Some (noise_spec rk dk gk) /\
      (0 < gk ->
       0 <= noise_spec rk dk gk /\
       noise_spec rk dk gk * noise_spec rk dk gk = rk ^ 2 + Rmax 0 dk / gk).
Proof.
  intros wind s o.
  apply (noise_model C_Mfit2 wind (Scalar 3) (Array [1; 2]) 5 [] [s] o).
  reflexivity.
Defined.

(** ** The rejection step on arrays *)

Lemma imul_masked_length (c : R) :
  forall (a : array) (m : mask),
    List.length (imul_masked a m c) = List.length a.
Proof. induction a as [|x a IH]; intros [|b m]; simpl; auto. Qed.

Lemma nth_error_imul_masked (c : R) :
  forall (a : array) (m : mask) (k : nat) (x : R) (b : bool),
    nth_error a k = Some x -> nth_error m k = Some b ->
    nth_error (imul_masked a m c) k = Some (if b then x * c else x).
Proof.
  induction a as [|x0 a IH]; intros [|b0 m] [|k] x b Ha Hm;
    simpl in *; try discriminate.
  - inversion Ha; inversion Hm; subst. reflexivity.
  - now apply IH.
Qed.

Lemma rejected_from_refl (a : array) : rejected_from a a.
Proof. induction a; constructor; auto. Qed.

Lemma rejected_from_trans (a b c : array) :
  rejected_from a b -> rejected_from b c -> rejected_from a c.
Proof.
  intros Hab. revert c. induction Hab as [|x y a b Hxy Hab IH]; intros c Hbc.
  - inversion Hbc. constructor.
  - inversion Hbc as [|y' z b' c' Hyz Hbc']; subst. constructor; [|now apply IH].
    destruct Hxy as [->|[Hx ->]]; auto.
    destruct Hyz as [->|[Hy ->]]; [right; auto | lra].
Qed.

Lemma rejected_from_length (a b : array) :
  rejected_from a b -> List.length b = List.length a.
Proof. intro H. symmetry. eapply Forall2_length; eauto. Qed.

Lemma imul_masked_rejected :
  forall (a : array) (m : mask),
    rejected_from a (imul_masked a (band (gt a 0) m) (-1)).
Proof.
  induction a as [|x a IH]; intros [|b m]; cbn [gt map band map2 imul_masked].
  - constructor.
  - constructor.
  - apply rejected_from_refl.
  - constructor; [|apply IH].
    destruct (Rgtb x 0) eqn:Hx; simpl; auto.
    destruct b; auto. right. split; auto. now apply Rgtb_spec.
Qed.

Lemma rejected_from_nth (a b : array) (k : nat) (x y : R) :
  rejected_from a b ->
  nth_error a k = Some x -> nth_error b k = Some y ->
  y = x \/ (x > 0 /\ y = x * -1).
Proof.
  intro H. revert k. induction H as [|x0 y0 a b Hxy Hab IH]; intros [|k] Ha Hb;
    simpl in *; try discriminate.
  - inversion Ha; inversion Hb; subst. exact Hxy.
  - eapply IH; eauto.
Qed.

Lemma rejected_from_abs (a b : array) :
  rejected_from a b -> map Rabs b = map Rabs a.
Proof.
  induction 1 as [|x y a b Hxy Hab IH]; simpl; auto.
  f_equal; auto.
  destruct Hxy as [->|[_ ->]]; auto.
  replace (x * -1) with (- x) by ring. apply Rabs_Ropp.
Qed.

Lemma count_pos_cons (x : R) (a : array) :
  count_pos (x :: a) = ((if Rgtb x 0 then 1 else 0) + count_pos a)%nat.
Proof. unfold count_pos. cbn [gt map select]. destruct (Rgtb x 0); reflexivity. Qed.

Lemma count_pos_le_length (a : array) : (count_pos a <= List.length a)%nat.
Proof.
  induction a as [|x a IH]; [unfold count_pos; simpl; lia|].
  rewrite count_pos_cons. simpl. destruct (Rgtb x 0); lia.
Qed.

Lemma rejected_from_count (a b : array) :
  rejected_from a b ->
  (count_pos b <= count_pos a)%nat /\ (count_pos b = count_pos a -> b = a).
Proof.
  induction 1 as [|x y a b Hxy Hab [IH1 IH2]].
  - split; auto.
  - rewrite !count_pos_cons.
    destruct Hxy as [->|[Hx ->]].
    + split; [lia|]. intro H. f_equal. apply IH2. lia.
    + rewrite (Rgtb_true x 0 Hx), (Rgtb_false (x * -1) 0) by lra.
      split; [lia|]. intro H. lia.
Qed.

(** ** The search for outliers and the turn of the loop *)

Lemma contents_upd_imul (h : heap) (l : loc) (m : mask) (c : R) :
  contents (upd h l (imul_masked (contents h l) m c)) l
  = imul_masked (contents h l) m c.
Proof.
  destruct (Nat.lt_ge_cases l (List.length h)) as [Hl|Hl].
  - now apply contents_upd_same.
  - unfold contents at 2 3. rewrite (nth_overflow h) by assumption. simpl.
    unfold contents. apply nth_overflow. now rewrite upd_length.
Qed.

Lemma outliers_eq (s1 : loc) (wind fit : Window.t) (soln : list R)
  (thresh : R) (h : heap) :
  let sig := contents h s1 in
  let resid :=
    map2 Rdiv (map2 Rminus (Window.data wind) (Window.data fit)) sig in
  let chisq := sum (map (fun v => v ^ 2) (select resid (gt sig 0))) in
  let nok1 := List.length (select resid (gt sig 0)) in
  let sfac :=
    sqrt (chisq / IZR (Z.of_nat nok1 - Z.of_nat (List.length soln))) in
  let sig' :=
    imul_masked sig (band (gt sig 0) (gt (map Rabs resid) (sfac * thresh)))
                (-1) in
  outliers s1 wind fit soln thresh h
  = Ok (chisq, nok1, sfac, count_pos sig') (upd h s1 sig').
Proof.
  intros sig resid chisq nok1 sfac sig'.
  subst sig' sfac nok1 chisq resid sig.
  pose proof (contents_upd_imul h s1) as E.
  unfold outliers, bind, rd, wr, ret, count_pos, contents in *.
  rewrite !E. reflexivity.
Qed.

Lemma while_true_last {S A : Type} (body : S -> M (S + A)) :
  forall (fuel : nat) (s : S) (h h' : heap) (a : A),
    while_true body fuel s h = Ok a h' ->
    exists s1 h1, reach body s h s1 h1 /\ body s1 h1 = Ok (inr a) h'.
Proof.
  intros fuel s h h' a H.
  assert (G : forall s1 h1, reach body s h s1 h1 ->
                while_true body fuel s1 h1 = Ok a h' ->
                exists s2 h2, reach body s h s2 h2 /\ body s2 h2 = Ok (inr a) h').
  { clear H. induction fuel as [|n IH]; intros s1 h1 Hr H; [discriminate|].
    cbn [while_true] in H. apply bind_Ok in H.
    destruct H as ([s2|a'] & h2 & Hb & H).
    - apply (IH s2 h2); auto. eapply reach_turn; eauto.
    - unfold ret in H. inversion H; subst. now exists s1, h1. }
  apply (G s h); auto. constructor.
Qed.

Lemma while_true_raise {S A : Type} (body : S -> M (S + A)) :
  forall (fuel : nat) (s : S) (h : heap) (e : exn),
    while_true body fuel s h = Raise e ->
    exists s1 h1, reach body s h s1 h1 /\ body s1 h1 = Raise e.
Proof.
  intros fuel s h e H.
  assert (G : forall s1 h1, reach body s h s1 h1 ->
                while_true body fuel s1 h1 = Raise e ->
                exists s2 h2, reach body s h s2 h2 /\ body s2 h2 = Raise e).
  { clear H. induction fuel as [|n IH]; intros s1 h1 Hr H; [discriminate|].
    cbn [while_true] in H. unfold bind in H.
    destruct (body s1 h1) as [[s2|a'] h2|e'|] eqn:Hb; try discriminate.
    - apply (IH s2 h2); auto. eapply reach_turn; eauto.
    - inversion H; subst. now exists s1, h1. }
  apply (G s h); auto. constructor.
Qed.

Lemma reach_trans {S A : Type} (body : S -> M (S + A)) s0 h0 s1 h1 s2 h2 :
  reach body s0 h0 s1 h1 -> reach body s1 h1 s2 h2 -> reach body s0 h0 s2 h2.
Proof.
  intros H01 H12. induction H12; auto. eapply reach_turn; eauto.
Qed.

Section LoopFacts.
Context {O P Res : Type}.
Variable stage : O -> M (O * P).
Variable sigma1 : O -> loc.
Variable wind : Window.t.
Variable fitp : P -> Window.t.
Variable solnp : P -> list R.
Variable thresh : R.
Variable again : O -> O.
Variable done : O -> P -> array -> R -> R -> nat -> Res.

#[local] Abbreviation body :=
  (loop_body stage sigma1 wind fitp solnp thresh again done).

Hypothesis stage_reads : forall o, reads (stage o).
Hypothesis stage_sigma1 :
  forall o h o' p h', stage o h = Ok (o', p) h' -> sigma1 o' = sigma1 o.
Hypothesis again_sigma1 : forall o, sigma1 (again o) = sigma1 o.

Lemma body_fuel (o : O) (h : heap) : body o h <> OutOfFuel.
Proof.
  unfold loop_body, bind.
  pose proof (stage_reads o h) as Hs. unfold unchanged in Hs.
  destruct (stage o h) as [[o' p] h1| |]; try discriminate; [|contradiction].
  rewrite outliers_eq. cbv zeta.
  destruct (_ <? _)%nat; discriminate.
Qed.

(** What a turn does, in the terms of the source. *)
Lemma body_unfold (o : O) (h : heap) (o' : O) (p : P) :
  stage o h = Ok (o', p) h ->
  let sig := contents h (sigma1 o) in
  let resid :=
    map2 Rdiv (map2 Rminus (Window.data wind) (Window.data (fitp p))) sig in
  let chisq := sum (map (fun v => v ^ 2) (select resid (gt sig 0))) in
  let nok1 := List.length (select resid (gt sig 0)) in
  let sfac :=
    sqrt (chisq / IZR (Z.of_nat nok1 - Z.of_nat (List.length (solnp p)))) in
  let sig' :=
    imul_masked sig (band (gt sig 0) (gt (map Rabs resid) (sfac * thresh)))
                (-1) in
  body o h
  = if (count_pos sig' <? nok1)%nat
    then Ok (inl (again o')) (upd h (sigma1 o) sig')
    else Ok (inr (done o' p sig' chisq sfac (count_pos sig')))
            (upd h (sigma1 o) sig').
Proof.
  intros Hs. pose proof (stage_sigma1 _ _ _ _ _ Hs) as Hs1.
  cbv zeta. unfold loop_body, bind. rewrite Hs, Hs1, outliers_eq. cbv zeta.
  destruct (_ <? _)%nat; [reflexivity|].
  unfold rd, ret.
  pose proof (contents_upd_imul h (sigma1 o)) as Eu. unfold contents in *.
  rewrite Eu. reflexivity.
Qed.

Lemma body_step (o : O) (h : heap) (r : O + Res) (h' : heap) :
  body o h = Ok r h' ->
  exists o' p,
    stage o h = Ok (o', p) h /\ sigma1 o' = sigma1 o /\
    let sig := contents h (sigma1 o) in
    let resid :=
      map2 Rdiv (map2 Rminus (Window.data wind) (Window.data (fitp p))) sig in
    let chisq := sum (map (fun v => v ^ 2) (select resid (gt sig 0))) in
    let nok1 := List.length (select resid (gt sig 0)) in
    let sfac :=
      sqrt (chisq / IZR (Z.of_nat nok1 - Z.of_nat (List.length (solnp p)))) in
    let sig' :=
      imul_masked sig (band (gt sig 0) (gt (map Rabs resid) (sfac * thresh)))
                  (-1) in
    h' = upd h (sigma1 o) sig' /\
    contents h' (sigma1 o) = sig' /\
    (((count_pos sig' < nok1)%nat /\ r = inl (again o')) \/
     (~ (count_pos sig' < nok1)%nat /\
      r = inr (done o' p sig' chisq sfac (count_pos sig')))).
Proof.
  intro H.
  destruct (stage o h) as [[o' p] h1| |] eqn:Hs;
    try (unfold loop_body, bind in H; rewrite Hs in H; discriminate).
  pose proof (reads_Ok _ _ _ _ (stage_reads o) Hs) as ->.
  exists o', p. split; [reflexivity|].
  split; [eapply stage_sigma1; eauto|].
  rewrite (body_unfold o h o' p Hs) in H. cbv zeta in H |- *.
  match type of H with
  | (if ?b then _ else _) = _ => destruct b eqn:Hb
  end; inversion H; subst r h'; clear H.
  - apply Nat.ltb_lt in Hb.
    split; [reflexivity|]. split; [apply contents_upd_imul|]. left; auto.
  - apply Nat.ltb_ge in Hb.
    split; [reflexivity|]. split; [apply contents_upd_imul|]. right.
    split; [lia|reflexivity].
Qed.
Lemma body_rejected (o : O) (h : heap) (r : O + Res) (h' : heap) :
  body o h = Ok r h' ->
  rejected_from (contents h (sigma1 o)) (contents h' (sigma1 o)) /\
  List.length h' = List.length h /\
  (forall l, l <> sigma1 o -> contents h' l = contents h l) /\
  match r with
  | inl o2 =>
      sigma1 o2 = sigma1 o /\
      (count_pos (contents h' (sigma1 o)) < count_pos (contents h (sigma1 o)))%nat
  | inr _ => True
  end.
Proof.
  intro H. apply body_step in H.
  destruct H as (o' & p & Hs & Hs1 & H). cbv zeta in H.
  destruct H as (Hh & Hc & Hr).
  split; [rewrite Hc; apply imul_masked_rejected|].
  split; [rewrite Hh; apply upd_length|].
  split; [intros l Hl; rewrite Hh; now apply contents_upd_other|].
  destruct Hr as [[Hlt ->]|[_ ->]]; [|exact I].
  split; [now rewrite again_sigma1|].
  rewrite Hc. eapply Nat.lt_le_trans; [exact Hlt|].
  unfold count_pos. apply select_length_le.
  rewrite map2_length. lia.
Qed.

Lemma loop_terminates :
  forall (fuel : nat) (o : O) (h : heap),
    (count_pos (contents h (sigma1 o)) < fuel)%nat ->
    while_true body fuel o h <> OutOfFuel.
Proof.
  induction fuel as [|n IH]; intros o h Hlt; [lia|].
  cbn [while_true]. unfold bind.
  destruct (body o h) as [[o2|res] h2| |] eqn:Hb; try discriminate.
  - destruct (body_rejected _ _ _ _ Hb) as (_ & _ & _ & Hs & Hc).
    apply IH. rewrite Hs. lia.
  - now apply body_fuel in Hb.
Qed.

Lemma reach_rejected (o0 : O) (h0 : heap) (o : O) (h : heap) :
  reach body o0 h0 o h ->
  sigma1 o = sigma1 o0 /\
  rejected_from (contents h0 (sigma1 o0)) (contents h (sigma1 o0)) /\
  List.length h = List.length h0.
Proof.
  induction 1 as [|o h o2 h2 Hr (IHs & IHr & IHl) Hb].
  - repeat split; auto. apply rejected_from_refl.
  - destruct (body_rejected _ _ _ _ Hb) as (Hrej & Hlen & _ & Hs & _).
    rewrite IHs in *. repeat split; try congruence.
    eapply rejected_from_trans; eauto.
Qed.

(** A turn raises what its two-pass fit raises, and nothing else. *)
Lemma body_raise (o : O) (h : heap) (e : exn) :
  body o h = Raise e <-> stage o h = Raise e.
Proof.
  unfold loop_body, bind.
  pose proof (stage_reads o h) as Hs. unfold unchanged in Hs.
  destruct (stage o h) as [[o' p] h1|e'|];
    [|split; intro H; inversion H; reflexivity|contradiction].
  rewrite outliers_eq. cbv zeta.
  destruct (_ <? _)%nat; split; discriminate.
Qed.

(** The loop run from the start passes through every state that is
    reached, with fuel to spare. *)
Lemma reach_while (o0 : O) (h0 : heap) (o : O) (h : heap) :
  reach body o0 h0 o h ->
  forall fuel,
    (count_pos (contents h0 (sigma1 o0)) < fuel)%nat ->
    exists fuel',
      (count_pos (contents h (sigma1 o)) < fuel')%nat /\
      while_true body fuel o0 h0 = while_true body fuel' o h.
Proof.
  induction 1 as [|o h o2 h2 Hr IH Hb]; intros fuel Hf.
  - exists fuel. split; [assumption|reflexivity].
  - destruct (IH fuel Hf) as (fuel' & Hlt & E).
    destruct fuel' as [|n]; [lia|].
    destruct (body_rejected _ _ _ _ Hb) as (_ & _ & _ & Hs & Hc).
    exists n. split; [rewrite Hs; lia|].
    rewrite E. cbn [while_true]. unfold bind. now rewrite Hb.
Qed.




(** With the shapes of the window, of the fit and of the sigma array in
    agreement, the turn in the terms of the specification. *)
Variable Oinv : O -> Prop.
Hypothesis stage_shape :
  forall o h o' p h',
    Oinv o -> stage o h = Ok (o', p) h' ->
    Oinv o' /\
    List.length (Window.data (fitp p)) = List.length (Window.data wind).
Hypothesis again_inv : forall o, Oinv o -> Oinv (again o).

Lemma body_exact (o : O) (h : heap) (r : O + Res) (h' : heap) :
  Oinv o ->
  List.length (contents h (sigma1 o)) = List.length (Window.data wind) ->
  body o h = Ok r h' ->
  exists o' p,
    stage o h = Ok (o', p) h /\ sigma1 o' = sigma1 o /\ Oinv o' /\
    let d := Window.data wind in
    let f := Window.data (fitp p) in
    let sig := contents h (sigma1 o) in
    let sig' := contents h' (sigma1 o) in
    let chisq := chisq_spec d f sig in
    let sfac := sfac_spec d f sig (List.length (solnp p)) in
    List.length f = List.length sig /\
    h' = upd h (sigma1 o) sig' /\
    List.length sig' = List.length sig /\
    (forall k dk fk sk,
        nth_error d k = Some dk -> nth_error f k = Some fk ->
        nth_error sig k = Some sk ->
        nth_error sig' k
        = Some (reject_entry sk ((dk - fk) / sk) (sfac * thresh))) /\
    ((r = inl (again o') /\ (count_pos sig' < count_pos sig)%nat) \/
     (r = inr (done o' p sig chisq sfac (count_pos sig)) /\
      sig' = sig /\ h' = h)).
Proof.
  intros Hinv Hlen H.
  pose proof (body_rejected _ _ _ _ H) as (Hrej & _ & _ & _).
  apply body_step in H.
  destruct H as (o' & p & Hs & Hs1 & H). cbv zeta in H.
  destruct H as (Hh & Hc & Hr).
  destruct (stage_shape _ _ _ _ _ Hinv Hs) as (Hinv' & Hf).
  exists o', p. split; [assumption|]. split; [assumption|].
  split; [assumption|]. cbv zeta.
  assert (Hfl : List.length (Window.data (fitp p))
                = List.length (contents h (sigma1 o))) by congruence.
  assert (Hsel :
    select (map2 Rdiv (map2 Rminus (Window.data wind) (Window.data (fitp p)))
                 (contents h (sigma1 o)))
           (gt (contents h (sigma1 o)) 0)
    = residual_spec (Window.data wind) (Window.data (fitp p))
                    (contents h (sigma1 o))).
  { apply select_residual_spec; congruence. }
  rewrite Hsel in *. rewrite residual_spec_length in *.
  fold (chisq_spec (Window.data wind) (Window.data (fitp p))
          (contents h (sigma1 o))) in *.
  fold (sfac_spec (Window.data wind) (Window.data (fitp p))
          (contents h (sigma1 o)) (List.length (solnp p))) in *.
  split; [assumption|].
  split; [now rewrite Hc|].
  split; [now apply rejected_from_length|].
  split.
  - intros k dk fk sk Hd Hfk Hsk. rewrite Hc. unfold reject_entry.
    erewrite nth_error_imul_masked;
      [ | eassumption | unfold band, gt; entry_solve ].
    reflexivity.
  - destruct Hr as [[Hlt ->]|[Hge ->]]; [left|right].
    + split; [reflexivity|]. now rewrite Hc.
    + destruct (rejected_from_count _ _ Hrej) as [Hle Heq].
      rewrite Hc in Hle, Heq.
      assert (E : imul_masked (contents h (sigma1 o))
                    (band (gt (contents h (sigma1 o)) 0)
                       (gt (map Rabs
                              (map2 Rdiv
                                 (map2 Rminus (Window.data wind)
                                    (Window.data (fitp p)))
                                 (contents h (sigma1 o))))
                          (sfac_spec (Window.data wind)
                             (Window.data (fitp p)) (contents h (sigma1 o))
                             (List.length (solnp p)) * thresh))) (-1)
                  = contents h (sigma1 o)) by (apply Heq; lia).
      rewrite E in *. rewrite Hc.
      split; [reflexivity|]. split; [reflexivity|].
      rewrite Hh. apply upd_contents.
Qed.

Lemma reach_inv (o0 : O) (h0 : heap) (o : O) (h : heap) :
  Oinv o0 ->
  reach body o0 h0 o h ->
  Oinv o.
Proof.
  intros H0. induction 1 as [|o h o2 h2 Hr IH Hb]; auto.
  apply body_step in Hb. destruct Hb as (o' & p & Hs & _ & Hb).
  cbv zeta in Hb. destruct Hb as (_ & _ & [[_ E]|[_ E]]); inversion E.
  apply again_inv. eapply stage_shape; eauto.
Qed.
End LoopFacts.

(** ** Inversion of the steps of the two-pass fit *)

Lemma solve_Ok leastsq func param Dfun h r h' :
  solve leastsq func param Dfun h = Ok r h' ->
  h' = h /\
  r = leastsq (fun p => eval (func p) h) param (fun p => eval (Dfun p) h) /\
  status_ok r.
Proof.
  unfold solve, status_ok.
  destruct (Z.ltb_spec (Lsq.ier (leastsq (fun p => eval (func p) h) param
                                   (fun p => eval (Dfun p) h))) 1);
    [discriminate|].
  destruct (Z.gtb_spec (Lsq.ier (leastsq (fun p => eval (func p) h) param
                                   (fun p => eval (Dfun p) h))) 4);
    [discriminate|].
  cbn [orb]. intro E. inversion E; subst. repeat split; auto; lia.
Qed.

Lemma solve_Raise leastsq func param Dfun h e :
  solve leastsq func param Dfun h = Raise e ->
  let r := leastsq (fun p => eval (func p) h) param
                   (fun p => eval (Dfun p) h) in
  e = HipercamError (Lsq.mesg r) /\ ~ status_ok r.
Proof.
  unfold solve, status_ok. cbv zeta.
  destruct (Z.ltb_spec (Lsq.ier (leastsq (fun p => eval (func p) h) param
                                   (fun p => eval (Dfun p) h))) 1);
    [intro E; inversion E; split; [reflexivity|lia]|].
  destruct (Z.gtb_spec (Lsq.ier (leastsq (fun p => eval (func p) h) param
                                   (fun p => eval (Dfun p) h))) 4);
    [intro E; inversion E; split; [reflexivity|lia]|].
  discriminate.
Qed.

Lemma solve_status leastsq func param Dfun h :
  let r := leastsq (fun p => eval (func p) h) param
                   (fun p => eval (Dfun p) h) in
  (status_ok r -> solve leastsq func param Dfun h = Ok r h) /\
  (~ status_ok r ->
   solve leastsq func param Dfun h = Raise (HipercamError (Lsq.mesg r))).
Proof.
  cbv zeta. unfold solve, status_ok.
  destruct (Z.ltb_spec (Lsq.ier (leastsq (fun p => eval (func p) h) param
                                   (fun p => eval (Dfun p) h))) 1);
  destruct (Z.gtb_spec (Lsq.ier (leastsq (fun p => eval (func p) h) param
                                   (fun p => eval (Dfun p) h))) 4);
    cbn [orb]; split; intro; auto; lia.
Qed.

Lemma unpack4_Ok l h t h' :
  unpack4 l h = Ok t h' ->
  exists a b c d, l = [a; b; c; d] /\ t = (a, b, c, d) /\ h' = h.
Proof.
  destruct l as [|a [|b [|c [|d [|e l]]]]]; try discriminate.
  unfold unpack4, ret. intro H. inversion H. now exists a, b, c, d.
Qed.

Lemma unpack5_Ok l h t h' :
  unpack5 l h = Ok t h' ->
  exists a b c d e, l = [a; b; c; d; e] /\ t = (a, b, c, d, e) /\ h' = h.
Proof.
  destruct l as [|a [|b [|c [|d [|e [|f l]]]]]]; try discriminate.
  unfold unpack5, ret. intro H. inversion H. now exists a, b, c, d, e.
Qed.

Lemma unpack6_Ok l h t h' :
  unpack6 l h = Ok t h' ->
  exists a b c d e f,
    l = [a; b; c; d; e; f] /\ t = (a, b, c, d, e, f) /\ h' = h.
Proof.
  destruct l as [|a [|b [|c [|d [|e [|f [|g l]]]]]]]; try discriminate.
  unfold unpack6, ret. intro H. inversion H. now exists a, b, c, d, e, f.
Qed.

Lemma unpack4_Raise l h e : unpack4 l h = Raise e -> e = ValueError.
Proof.
  destruct l as [|a [|b [|c [|d [|e' l]]]]]; unfold unpack4, raise, ret;
    intro H; now inversion H.
Qed.

Lemma unpack5_Raise l h e : unpack5 l h = Raise e -> e = ValueError.
Proof.
  destruct l as [|a [|b [|c [|d [|e' [|f l]]]]]]; unfold unpack5, raise, ret;
    intro H; now inversion H.
Qed.

Lemma unpack6_Raise l h e : unpack6 l h = Raise e -> e = ValueError.
Proof.
  destruct l as [|a [|b [|c [|d [|e' [|f [|g l]]]]]]];
    unfold unpack6, raise, ret; intro H; now inversion H.
Qed.

Lemma sqrt_diag_Ok c h e h' :
  sqrt_diag c h = Ok e h' ->
  h' = h /\ exists cov, c = Some cov /\ e = map sqrt (diag cov).
Proof.
  destruct c as [cov|]; [|discriminate].
  unfold sqrt_diag, ret. intro H. inversion H. split; auto. now exists cov.
Qed.

Lemma sqrt_diag_Raise c h e : sqrt_diag c h = Raise e -> e = ValueError.
Proof.
  destruct c; unfold sqrt_diag, ret, raise; intro H; now inversion H.
Qed.

Lemma bind_Raise {A B : Type} (c : M A) (k : A -> M B) (h : heap) (e : exn) :
  bind c k h = Raise e ->
  c h = Raise e \/ exists a h1, c h = Ok a h1 /\ k a h1 = Raise e.
Proof.
  unfold bind. destruct (c h) as [a h1|e'|]; try discriminate.
  - intro H. right. exists a, h1. split; [reflexivity | assumption].
  - intro H. left. now inversion H.
Qed.

(** ** The two-pass fit of [fitMoffat] *)

Section MoffatPass.
Variable leastsq : solver.
Variable wind : Window.t.
Variables sky height xcen ycen fwhm fwhm_min : R.
Variable fwhm_fix : bool.
Variable beta : R.

#[local] Abbreviation two_pass :=
  (Moffat.two_pass leastsq wind sky height xcen ycen fwhm fwhm_min fwhm_fix
     beta).
#[local] Abbreviation fixed_pass :=
  (Moffat_fixed_pass leastsq wind sky height xcen ycen beta).
#[local] Abbreviation fixed_solve :=
  (Moffat_fixed_solve leastsq sky height xcen ycen beta).
#[local] Abbreviation free_solve :=
  (Moffat_free_solve leastsq sky height xcen ycen fwhm beta).

Lemma Moffat_fixed_pass_Ok fw o h o' p h' :
  fixed_pass fw o h = Ok (o', p) h' ->
  h' = h /\ status_ok (fixed_solve fw o h) /\
  Moffat_fixed_outcome wind fw (fixed_solve fw o h) o o' p.
Proof.
  unfold Moffat_fixed_pass. cbv zeta. intro H.
  apply bind_Ok in H. destruct H as (r & h1 & Hs & H).
  apply solve_Ok in Hs. destruct Hs as (-> & Hr & Hst).
  fold (fixed_solve fw o h) in Hr. subst r.
  apply bind_Ok in H. destruct H as (m & h2 & Hm & H).
  unfold Mfit2.model in Hm. apply bind_Ok in Hm.
  destruct Hm as (t & h3 & Hu & Hm).
  apply unpack5_Ok in Hu. destruct Hu as (a & b & c & d & e & Hl & -> & ->).
  unfold ret in Hm. inversion Hm; subst m h2; clear Hm.
  apply bind_Ok in H. destruct H as (t & h3 & Hu & H).
  apply unpack5_Ok in Hu. destruct Hu as (a' & b' & c' & d' & e' & Hl' & -> & ->).
  rewrite Hl in Hl'. inversion Hl'; subst a' b' c' d' e'; clear Hl'.
  apply bind_Ok in H. destruct H as (er & h3 & He & H).
  apply sqrt_diag_Ok in He. destruct He as (-> & cov & Hc & ->).
  apply bind_Ok in H. destruct H as (t & h3 & Hu & H).
  apply unpack5_Ok in Hu. destruct Hu as (ea & eb & ec & ed & ee & Hl' & -> & ->).
  unfold ret in H. inversion H; subst; clear H.
  split; [reflexivity|]. split; [assumption|].
  exists a, b, c, d, e, cov, ea, eb, ec, ed, ee.
  rewrite Hl. repeat split; auto.
Qed.

Lemma Moffat_fixed_pass_Raise fw o h e :
  fixed_pass fw o h = Raise e ->
  (e = HipercamError (Lsq.mesg (fixed_solve fw o h)) /\
   ~ status_ok (fixed_solve fw o h)) \/
  (e = ValueError /\ status_ok (fixed_solve fw o h)).
Proof.
  unfold Moffat_fixed_pass. cbv zeta. intro H.
  apply bind_Raise in H. destruct H as [H|(r & h1 & Hs & H)].
  { left. apply solve_Raise in H. exact H. }
  right. apply solve_Ok in Hs. destruct Hs as (-> & Hr & Hst).
  fold (fixed_solve fw o h) in Hr. subst r. split; [|assumption].
  apply bind_Raise in H. destruct H as [H|(m & h2 & Hm & H)].
  { unfold Mfit2.model in H. apply bind_Raise in H.
    destruct H as [H|([[[[a b] c] d] e'] & h2 & _ & H)];
      [now apply unpack5_Raise in H | discriminate]. }
  apply bind_Raise in H. destruct H as [H|([[[[a b] c] d] e'] & h3 & _ & H)].
  { now apply unpack5_Raise in H. }
  apply bind_Raise in H. destruct H as [H|(er & h4 & _ & H)].
  { now apply sqrt_diag_Raise in H. }
  apply bind_Raise in H. destruct H as [H|([[[[ea eb] ec] ed] ee] & h5 & _ & H)].
  { now apply unpack5_Raise in H. }
  discriminate.
Qed.

Lemma Moffat_fixed_pass_fail fw o h :
  ~ status_ok (fixed_solve fw o h) ->
  fixed_pass fw o h = Raise (HipercamError (Lsq.mesg (fixed_solve fw o h))).
Proof.
  intro Hst. unfold Moffat_fixed_pass, bind. cbv zeta.
  now rewrite (proj2 (solve_status leastsq _ _ _ h) Hst).
Qed.

Lemma Moffat_two_pass_eq o :
  two_pass o
  = if fwhm_fix then fixed_pass fwhm o
    else
      r <- solve leastsq (Mfit1.call (Moffat.mfit1 o))
                 [sky; height; xcen; ycen; fwhm; beta]
                 (Dmfit1.call (Moffat.dmfit1 o)) ;;
      '(skyf, heightf, xf, yf, fwhmf, betaf) <- unpack6 (Lsq.soln r) ;;
      if Rgtb fwhmf fwhm_min then
        m <- Mfit1.model (Moffat.mfit1 o) (Lsq.soln r) ;;
        let fit := Window.Build_t (Window.winhead wind) m in
        e <- sqrt_diag (Lsq.covar r) ;;
        '(skyfe, heightfe, xfe, yfe, fwhmfe, betafe) <- unpack6 e ;;
        ret (o,
             {| Moffat.soln := Lsq.soln r; Moffat.fit := fit;
                Moffat.skyf := skyf; Moffat.heightf := heightf;
                Moffat.xf := xf; Moffat.yf := yf; Moffat.fwhmf := fwhmf;
                Moffat.betaf := betaf;
                Moffat.skyfe := skyfe; Moffat.heightfe := heightfe;
                Moffat.xfe := xfe; Moffat.yfe := yfe; Moffat.fwhmfe := fwhmfe;
                Moffat.betafe := betafe |})
      else fixed_pass fwhm_min o.
Proof. reflexivity. Qed.

(** The outcome of the two-pass fit when it returns. *)
Lemma Moffat_two_pass_Ok o h o' p h' :
  two_pass o h = Ok (o', p) h' ->
  h' = h /\
  ((fwhm_fix = true /\ status_ok (fixed_solve fwhm o h) /\
    Moffat_fixed_outcome wind fwhm (fixed_solve fwhm o h) o o' p) \/
   (fwhm_fix = false /\ status_ok (free_solve o h) /\
    exists a b c d w e,
      Lsq.soln (free_solve o h) = [a; b; c; d; w; e] /\
      ((w > fwhm_min /\
        Moffat_free_outcome wind fwhm_min (free_solve o h) o o' p) \/
       (w <= fwhm_min /\ status_ok (fixed_solve fwhm_min o h) /\
        Moffat_fixed_outcome wind fwhm_min (fixed_solve fwhm_min o h)
          o o' p)))).
Proof.
  rewrite Moffat_two_pass_eq. destruct fwhm_fix.
  { intro H. apply Moffat_fixed_pass_Ok in H. destruct H as (-> & Hst & Ho).
    split; [reflexivity|]. left. auto. }
  intro H.
  apply bind_Ok in H. destruct H as (r & h1 & Hs & H).
  apply solve_Ok in Hs. destruct Hs as (-> & Hr & Hst).
  fold (free_solve o h) in Hr. subst r.
  apply bind_Ok in H. destruct H as (t & h2 & Hu & H).
  apply unpack6_Ok in Hu.
  destruct Hu as (a & b & c & d & w & e & Hl & -> & ->).
  destruct (Rgtb w fwhm_min) eqn:Hw.
  - apply Rgtb_spec in Hw.
    apply bind_Ok in H. destruct H as (m & h2 & Hm & H).
    unfold Mfit1.model in Hm. apply bind_Ok in Hm.
    destruct Hm as (t & h3 & Hu & Hm).
    apply unpack6_Ok in Hu.
    destruct Hu as (a' & b' & c' & d' & w' & e' & Hl' & -> & ->).
    rewrite Hl in Hl'. inversion Hl'; subst a' b' c' d' w' e'; clear Hl'.
    unfold ret in Hm. inversion Hm; subst m h2; clear Hm.
    apply bind_Ok in H. destruct H as (er & h3 & He & H).
    apply sqrt_diag_Ok in He. destruct He as (-> & cov & Hc & ->).
    apply bind_Ok in H. destruct H as (t & h3 & Hu & H).
    apply unpack6_Ok in Hu.
    destruct Hu as (ea & eb & ec & ed & ew & ee & Hl' & -> & ->).
    unfold ret in H. inversion H; subst; clear H.
    split; [reflexivity|]. right. split; [reflexivity|]. split; [assumption|].
    exists a, b, c, d, w, e. split; [assumption|]. left. split; [assumption|].
    exists a, b, c, d, w, e, cov, ea, eb, ec, ed, ew, ee.
    rewrite Hl. repeat split; auto.
  - assert (Hle : w <= fwhm_min).
    { destruct (Rle_or_lt w fwhm_min) as [Hle|Hlt]; auto.
      apply Rgtb_true in Hlt. congruence. }
    apply Moffat_fixed_pass_Ok in H. destruct H as (-> & Hst2 & Ho).
    split; [reflexivity|]. right. split; [reflexivity|]. split; [assumption|].
    exists a, b, c, d, w, e. split; [assumption|]. right. auto.
Qed.

(** The two-pass fit raises [HipercamError] exactly for a solve, among
    those it runs, whose status is outside 1 to 4. *)
Lemma Moffat_two_pass_Raise o h mesg :
  two_pass o h = Raise (HipercamError mesg) <->
  ((fwhm_fix = true /\ ~ status_ok (fixed_solve fwhm o h) /\
    mesg = Lsq.mesg (fixed_solve fwhm o h)) \/
   (fwhm_fix = false /\ ~ status_ok (free_solve o h) /\
    mesg = Lsq.mesg (free_solve o h)) \/
   (fwhm_fix = false /\ status_ok (free_solve o h) /\
    (exists a b c d w e,
        Lsq.soln (free_solve o h) = [a; b; c; d; w; e] /\ w <= fwhm_min) /\
    ~ status_ok (fixed_solve fwhm_min o h) /\
    mesg = Lsq.mesg (fixed_solve fwhm_min o h))).
Proof.
  rewrite Moffat_two_pass_eq. split.
  - destruct fwhm_fix.
    { intro H. apply Moffat_fixed_pass_Raise in H.
      destruct H as [[E Hst]|[E _]]; [|discriminate].
      inversion E. left. auto. }
    intro H. right.
    apply bind_Raise in H. destruct H as [H|(r & h1 & Hs & H)].
    { apply solve_Raise in H. destruct H as [E Hst]. inversion E. left. auto. }
    apply solve_Ok in Hs. destruct Hs as (-> & Hr & Hst).
    fold (free_solve o h) in Hr. subst r. right.
    apply bind_Raise in H. destruct H as [H|(t & h2 & Hu & H)].
    { apply unpack6_Raise in H. discriminate. }
    apply unpack6_Ok in Hu.
    destruct Hu as (a & b & c & d & w & e & Hl & -> & ->).
    destruct (Rgtb w fwhm_min) eqn:Hw.
    + exfalso.
      apply bind_Raise in H. destruct H as [H|(m & h2 & Hm & H)].
      { unfold Mfit1.model in H. apply bind_Raise in H.
        destruct H as [H|([[[[[a' b'] c'] d'] w'] e'] & h2 & _ & H)];
          [apply unpack6_Raise in H|]; discriminate. }
      apply bind_Raise in H. destruct H as [H|(er & h4 & _ & H)].
      { apply sqrt_diag_Raise in H. discriminate. }
      apply bind_Raise in H.
      destruct H as [H|([[[[[ea eb] ec] ed] ew] ee] & h5 & _ & H)];
        [apply unpack6_Raise in H|]; discriminate.
    + assert (Hle : w <= fwhm_min).
      { destruct (Rle_or_lt w fwhm_min) as [Hle|Hlt]; auto.
        apply Rgtb_true in Hlt. congruence. }
      apply Moffat_fixed_pass_Raise in H.
      destruct H as [[E Hst2]|[E _]]; [|discriminate].
      inversion E. split; [reflexivity|]. split; [assumption|].
      split; [now exists a, b, c, d, w, e|]. split; [assumption|reflexivity].
  - intros [(-> & Hst & ->)|[(-> & Hst & ->)|(-> & Hst & Hw & Hst2 & ->)]].
    + now apply Moffat_fixed_pass_fail.
    + unfold bind. now rewrite (proj2 (solve_status leastsq _ _ _ h) Hst).
    + destruct Hw as (a & b & c & d & w & e & Hl & Hle).
      unfold bind at 1.
      rewrite (proj1 (solve_status leastsq _ _ _ h) Hst).
      fold (free_solve o h). rewrite Hl. unfold bind at 1.
      cbn [unpack6 ret]. rewrite (Rgtb_false w fwhm_min) by lra.
      now apply Moffat_fixed_pass_fail.
Qed.
(** Conversely, the outcomes above are those of the two-pass fit. *)
Lemma Moffat_fixed_pass_run fw o h o' p :
  status_ok (fixed_solve fw o h) ->
  Moffat_fixed_outcome wind fw (fixed_solve fw o h) o o' p ->
  fixed_pass fw o h = Ok (o', p) h.
Proof.
  intros Hst (a & b & c & d & e & cov & ea & eb & ec & ed & ee
              & Hl & Hc & He & -> & ->).
  unfold Moffat_fixed_pass, bind. cbv zeta.
  rewrite (proj1 (solve_status leastsq _ _ _ h) Hst).
  fold (fixed_solve fw o h). rewrite Hl, Hc.
  unfold Mfit2.model, bind, unpack5, sqrt_diag, ret. rewrite He.
  reflexivity.
Qed.

Lemma Moffat_free_pass_run o h o' p :
  fwhm_fix = false ->
  status_ok (free_solve o h) ->
  Moffat_free_outcome wind fwhm_min (free_solve o h) o o' p ->
  two_pass o h = Ok (o', p) h.
Proof.
  intros Hfix Hst (a & b & c & d & w & e & cov & ea & eb & ec & ed & ew & ee
                   & Hl & Hw & Hc & He & -> & ->).
  rewrite Moffat_two_pass_eq, Hfix. unfold bind at 1.
  rewrite (proj1 (solve_status leastsq _ _ _ h) Hst).
  fold (free_solve o h). rewrite Hl, Hc.
  unfold bind, unpack6, ret. rewrite (Rgtb_true w fwhm_min Hw).
  unfold Mfit1.model, bind, unpack6, sqrt_diag, ret. rewrite He.
  reflexivity.
Qed.


Lemma Moffat_fixed_run o h o' p :
  fwhm_fix = true ->
  status_ok (fixed_solve fwhm o h) ->
  Moffat_fixed_outcome wind fwhm (fixed_solve fwhm o h) o o' p ->
  two_pass o h = Ok (o', p) h.
Proof.
  intros Hfix Hst Ho. rewrite Moffat_two_pass_eq, Hfix.
  now apply Moffat_fixed_pass_run.
Qed.
End MoffatPass.

(** ** Shapes *)

Lemma meshgrid_length (x y : array) :
  List.length (fst (meshgrid x y)) = (List.length y * List.length x)%nat /\
  List.length (snd (meshgrid x y)) = (List.length y * List.length x)%nat.
Proof.
  unfold meshgrid. cbn [fst snd].
  induction y as [|yj y [IH1 IH2]]; [split; reflexivity|].
  cbn [flat_map]. rewrite !length_app, length_map, IH1, IH2. simpl. lia.
Qed.

Lemma grid_length (wind : Window.t) :
  Window.shaped wind ->
  List.length (fst (grid wind)) = List.length (Window.data wind) /\
  List.length (snd (grid wind)) = List.length (Window.data wind).
Proof.
  unfold Window.shaped, grid. intro H.
  destruct (meshgrid_length (Window.x wind (arange (Window.nx wind)))
              (Window.y wind (arange (Window.ny wind)))) as [H1 H2].
  rewrite H1, H2, H. unfold Window.x, Window.y, arange, Window.nx, Window.ny.
  rewrite !length_map, !length_seq. auto.
Qed.

Lemma moffat_length xy sky height xcen ycen fwhm beta :
  List.length (moffat xy sky height xcen ycen fwhm beta)
  = Nat.min (List.length (fst xy)) (List.length (snd xy)).
Proof.
  destruct xy as [x y]. unfold moffat. cbn [fst snd].
  now rewrite length_map, map2_length, !length_map.
Qed.

Lemma gaussian_length xy sky height xcen ycen fwhm :
  List.length (gaussian xy sky height xcen ycen fwhm)
  = Nat.min (List.length (fst xy)) (List.length (snd xy)).
Proof.
  destruct xy as [x y]. unfold gaussian. cbn [fst snd].
  now rewrite length_map, map2_length, !length_map.
Qed.

(** ** The loop of [fitMoffat] *)

Section MoffatLoop.
Variable leastsq : solver.
Variable wind : Window.t.
Variables sky height xcen ycen fwhm fwhm_min : R.
Variable fwhm_fix : bool.
Variables beta thresh : R.

#[local] Abbreviation two_pass :=
  (Moffat.two_pass leastsq wind sky height xcen ycen fwhm fwhm_min fwhm_fix
     beta).
#[local] Abbreviation body :=
  (Moffat.body leastsq wind sky height xcen ycen fwhm fwhm_min fwhm_fix
     beta thresh).

Lemma Moffat_body_eq :
  body = loop_body two_pass Moffat_sigma1 wind Moffat.fit Moffat.soln thresh
           Moffat_again Moffat_done.
Proof. reflexivity. Qed.

Lemma Moffat_stage_sigma1 o h o' p h' :
  two_pass o h = Ok (o', p) h' -> Moffat_sigma1 o' = Moffat_sigma1 o.
Proof.
  intro H. apply Moffat_two_pass_Ok in H. destruct H as (_ & H).
  unfold Moffat_fixed_outcome, Moffat_free_outcome in H.
  destruct H as [(_ & _ & H)|(_ & _ & ? & ? & ? & ? & ? & ? & _ & [(_ & H)|(_ & _ & H)])];
    decompose record H; subst; reflexivity.
Qed.

Lemma Moffat_stage_shape :
  Window.shaped wind ->
  forall o h o' p h',
    Moffat_shaped wind o -> two_pass o h = Ok (o', p) h' ->
    Moffat_shaped wind o' /\
    List.length (Window.data (Moffat.fit p)) = List.length (Window.data wind).
Proof.
  intros Hw o h o' p h' [H1 H2] H.
  destruct (grid_length wind Hw) as [Hg1 Hg2].
  apply Moffat_two_pass_Ok in H. destruct H as (_ & H).
  unfold Moffat_fixed_outcome, Moffat_free_outcome in H.
  destruct H as [(_ & _ & H)|(_ & _ & ? & ? & ? & ? & ? & ? & _ & [(_ & H)|(_ & _ & H)])];
    decompose record H; subst; unfold Moffat_shaped;
    cbn [Moffat.mfit1 Moffat.mfit2 Mfit2.set_fwhm Mfit2.xy Moffat.fit
         Window.data];
    rewrite moffat_length, ?H1, ?H2, Hg1, Hg2, Nat.min_id; auto.
Qed.

Lemma Moffat_again_shaped o :
  Moffat_shaped wind o -> Moffat_shaped wind (Moffat_again o).
Proof. intros [H1 H2]. split; assumption. Qed.
End MoffatLoop.

(** The construction of the function objects of [fitMoffat]. *)
Lemma Moffat_construct_Ok wind fwhm read gain h o h' :
  Moffat.construct wind fwhm read gain h = Ok o h' ->
  exists s,
    noise read gain (Window.data wind) h = Ok s h /\
    h' = h ++ [s; s] /\
    Moffat_sigma1 o = List.length h /\
    contents h' (Moffat_sigma1 o) = s /\
    Moffat_shaped wind o.
Proof.
  unfold Moffat.construct, Mfit1.init, Mfit2.init. intro H.
  apply bind_Ok in H. destruct H as (m1 & h1 & H1 & H).
  apply bind_Ok in H1. destruct H1 as (s & h2 & Hn & H1).
  destruct (noise_Ok _ _ _ _ _ _ Hn) as (-> & r & g & Hr & Hg & Hs & Hl).
  apply bind_Ok in H1. destruct H1 as (l & h3 & Ha & H1).
  unfold alloc in Ha. inversion Ha; subst l h3; clear Ha.
  unfold ret in H1. inversion H1; subst m1 h1; clear H1.
  apply bind_Ok in H. destruct H as (m2 & h1 & H2 & H).
  apply bind_Ok in H2. destruct H2 as (s2 & h2 & Hn2 & H2).
  assert (Hs2 : s2 = s /\ h2 = h ++ [s]).
  { unfold noise in Hn, Hn2. rewrite Hr, Hg in Hn, Hn2. unfold ret in Hn, Hn2.
    inversion Hn; inversion Hn2; subst; auto. }
  destruct Hs2 as [-> ->].
  apply bind_Ok in H2. destruct H2 as (l & h3 & Ha & H2).
  unfold alloc in Ha. inversion Ha; subst l h3; clear Ha.
  unfold ret in H2. inversion H2; subst m2 h1; clear H2.
  unfold ret in H. inversion H; subst o h'; clear H.
  exists s. split; [assumption|].
  split; [now rewrite <- app_assoc|].
  split; [reflexivity|].
  split; [|split; reflexivity].
  unfold Moffat_sigma1. cbn [Moffat.mfit1 Mfit1.sigma].
  rewrite <- app_assoc. cbn [app].
  unfold contents. now rewrite nth_middle.
Qed.

(** ** The calls of [fitMoffat] *)

Section MoffatCall.
Variable leastsq : solver.
Variable wind : Window.t.
Variables sky height xcen ycen fwhm fwhm_min : R.
Variable fwhm_fix : bool.
Variables beta thresh : R.
Variables read gain : operand.

#[local] Abbreviation two_pass :=
  (Moffat.two_pass leastsq wind sky height xcen ycen fwhm fwhm_min fwhm_fix
     beta).
#[local] Abbreviation body :=
  (Moffat.body leastsq wind sky height xcen ycen fwhm fwhm_min fwhm_fix
     beta thresh).
#[local] Abbreviation fitMoffat :=
  (Moffat.fitMoffat leastsq wind sky height xcen ycen fwhm fwhm_min fwhm_fix
     beta thresh).
#[local] Abbreviation turn :=
  (Moffat_turn leastsq wind sky height xcen ycen fwhm fwhm_min fwhm_fix
     beta thresh read gain).

Lemma Moffat_body_fuel o h : body o h <> OutOfFuel.
Proof.
  rewrite Moffat_body_eq. apply body_fuel. apply reads_Moffat_two_pass.
Qed.

Lemma Moffat_body_step o h r h' :
  body o h = Ok r h' ->
  exists o' p,
    two_pass o h = Ok (o', p) h /\ Moffat_sigma1 o' = Moffat_sigma1 o /\
    let sig := contents h (Moffat_sigma1 o) in
    let resid :=
      map2 Rdiv (map2 Rminus (Window.data wind)
                   (Window.data (Moffat.fit p))) sig in
    let chisq := sum (map (fun v => v ^ 2) (select resid (gt sig 0))) in
    let nok1 := List.length (select resid (gt sig 0)) in
    let sfac :=
      sqrt (chisq / IZR (Z.of_nat nok1
                         - Z.of_nat (List.length (Moffat.soln p)))) in
    let sig' :=
      imul_masked sig (band (gt sig 0) (gt (map Rabs resid) (sfac * thresh)))
                  (-1) in
    h' = upd h (Moffat_sigma1 o) sig' /\
    contents h' (Moffat_sigma1 o) = sig' /\
    (((count_pos sig' < nok1)%nat /\ r = inl (Moffat_again o')) \/
     (~ (count_pos sig' < nok1)%nat /\
      r = inr (Moffat_done o' p sig' chisq sfac (count_pos sig')))).
Proof.
  rewrite Moffat_body_eq. apply body_step.
  - apply reads_Moffat_two_pass.
  - apply Moffat_stage_sigma1.
Qed.

Lemma Moffat_body_rejected o h r h' :
  body o h = Ok r h' ->
  rejected_from (contents h (Moffat_sigma1 o)) (contents h' (Moffat_sigma1 o)) /\
  List.length h' = List.length h /\
  (forall l, l <> Moffat_sigma1 o -> contents h' l = contents h l) /\
  match r with
  | inl o2 =>
      Moffat_sigma1 o2 = Moffat_sigma1 o /\
      (count_pos (contents h' (Moffat_sigma1 o))
       < count_pos (contents h (Moffat_sigma1 o)))%nat
  | inr _ => True
  end.
Proof.
  rewrite Moffat_body_eq. apply body_rejected.
  - apply reads_Moffat_two_pass.
  - apply Moffat_stage_sigma1.
  - reflexivity.
Qed.

Lemma Moffat_body_exact o h r h' :
  Window.shaped wind ->
  Moffat_shaped wind o ->
  List.length (contents h (Moffat_sigma1 o)) = List.length (Window.data wind) ->
  body o h = Ok r h' ->
  exists o' p,
    two_pass o h = Ok (o', p) h /\ Moffat_sigma1 o' = Moffat_sigma1 o /\
    Moffat_shaped wind o' /\
    let d := Window.data wind in
    let f := Window.data (Moffat.fit p) in
    let sig := contents h (Moffat_sigma1 o) in
    let sig' := contents h' (Moffat_sigma1 o) in
    let chisq := chisq_spec d f sig in
    let sfac := sfac_spec d f sig (List.length (Moffat.soln p)) in
    List.length f = List.length sig /\
    h' = upd h (Moffat_sigma1 o) sig' /\
    List.length sig' = List.length sig /\
    (forall k dk fk sk,
        nth_error d k = Some dk -> nth_error f k = Some fk ->
        nth_error sig k = Some sk ->
        nth_error sig' k
        = Some (reject_entry sk ((dk - fk) / sk) (sfac * thresh))) /\
    ((r = inl (Moffat_again o') /\ (count_pos sig' < count_pos sig)%nat) \/
     (r = inr (Moffat_done o' p sig chisq sfac (count_pos sig)) /\
      sig' = sig /\ h' = h)).
Proof.
  intro Hw. rewrite Moffat_body_eq.
  apply body_exact with (Oinv := Moffat_shaped wind).
  - apply reads_Moffat_two_pass.
  - apply Moffat_stage_sigma1.
  - reflexivity.
  - now apply Moffat_stage_shape.
Qed.

(** What holds at the head of every turn of a call. *)
Lemma Moffat_turn_inv h o hl :
  turn h o hl ->
  exists s,
    noise read gain (Window.data wind) h = Ok s h /\
    Moffat_sigma1 o = List.length h /\
    rejected_from s (contents hl (Moffat_sigma1 o)) /\
    List.length (contents hl (Moffat_sigma1 o))
    = List.length (Window.data wind) /\
    (Window.shaped wind -> Moffat_shaped wind o).
Proof.
  intros (o0 & h0 & Hc & Hr).
  apply Moffat_construct_Ok in Hc.
  destruct Hc as (s & Hn & Hh0 & Hs1 & Hc0 & Hsh).
  rewrite Moffat_body_eq in Hr.
  assert (Hrr : Moffat_sigma1 o = Moffat_sigma1 o0 /\
                rejected_from (contents h0 (Moffat_sigma1 o0))
                              (contents hl (Moffat_sigma1 o0)) /\
                List.length hl = List.length h0).
  { eapply reach_rejected; [| | |exact Hr].
    - apply reads_Moffat_two_pass.
    - apply Moffat_stage_sigma1.
    - reflexivity. }
  destruct Hrr as (Es & Hrej & _).
  rewrite Hc0 in Hrej. rewrite <- Es in Hrej.
  exists s. split; [assumption|]. split; [congruence|].
  split; [assumption|].
  split.
  - rewrite (rejected_from_length _ _ Hrej).
    now destruct (noise_Ok _ _ _ _ _ _ Hn) as (_ & r & g & _ & _ & _ & Hl).
  - intro Hw.
    eapply reach_inv with (Oinv := Moffat_shaped wind); [| | | |exact Hsh|exact Hr].
    + apply reads_Moffat_two_pass.
    + apply Moffat_stage_sigma1.
    + now apply Moffat_stage_shape.
    + apply Moffat_again_shaped.
Qed.

Lemma fitMoffat_Ok fuel h r h' :
  fitMoffat fuel read gain h = Ok r h' ->
  exists o hl, turn h o hl /\ body o hl = Ok (inr r) h'.
Proof.
  unfold Moffat.fitMoffat. intro H.
  apply bind_Ok in H. destruct H as (o0 & h0 & Hc & H).
  apply while_true_last in H. destruct H as (o & hl & Hr & Hb).
  exists o, hl. split; [|assumption]. now exists o0, h0.
Qed.

Lemma fitMoffat_fuel fuel h :
  (List.length (Window.data wind) < fuel)%nat ->
  fitMoffat fuel read gain h <> OutOfFuel.
Proof.
  intro Hf. unfold Moffat.fitMoffat, bind.
  destruct (Moffat.construct wind fwhm read gain h) as [o0 h0|e|] eqn:Hc;
    try discriminate.
  - assert (Ht : turn h o0 h0) by (exists o0, h0; split; [assumption|constructor]).
    destruct (Moffat_turn_inv _ _ _ Ht) as (s & _ & _ & _ & Hl & _).
    rewrite Moffat_body_eq. apply loop_terminates.
    + apply reads_Moffat_two_pass.
    + apply Moffat_stage_sigma1.
    + reflexivity.
    + pose proof (count_pos_le_length (contents h0 (Moffat_sigma1 o0))). lia.
  - exfalso. revert Hc. unfold Moffat.construct, Mfit1.init, Mfit2.init, bind.
    unfold noise. destruct (broadcast read _); [|discriminate].
    destruct (broadcast gain _); discriminate.
Qed.
Lemma Moffat_body_raise o h e : body o h = Raise e <-> two_pass o h = Raise e.
Proof.
  rewrite Moffat_body_eq. apply body_raise. apply reads_Moffat_two_pass.
Qed.

Lemma Moffat_construct_Raise h e :
  Moffat.construct wind fwhm read gain h = Raise e -> e = ValueError.
Proof.
  unfold Moffat.construct, Mfit1.init, Mfit2.init, bind, noise.
  destruct (broadcast read _); [|unfold raise; intro H; now inversion H].
  destruct (broadcast gain _); [|unfold raise; intro H; now inversion H].
  discriminate.
Qed.

Lemma fitMoffat_Raise fuel h e :
  fitMoffat fuel read gain h = Raise e ->
  (e = ValueError /\ Moffat.construct wind fwhm read gain h = Raise e) \/
  exists o hl, turn h o hl /\ body o hl = Raise e.
Proof.
  unfold Moffat.fitMoffat. intro H.
  apply bind_Raise in H. destruct H as [H|(o0 & h0 & Hc & H)].
  - left. split; [eapply Moffat_construct_Raise; eauto|assumption].
  - right. apply while_true_raise in H. destruct H as (o & hl & Hr & Hb).
    exists o, hl. split; [|assumption]. now exists o0, h0.
Qed.

Lemma fitMoffat_aborts fuel h o hl e :
  turn h o hl -> body o hl = Raise e ->
  (List.length (Window.data wind) < fuel)%nat ->
  fitMoffat fuel read gain h = Raise e.
Proof.
  intros Ht Hb Hf.
  assert (Ht0 := Ht). destruct Ht0 as (o0 & h0 & Hc & Hr).
  assert (Hs : turn h o0 h0) by (exists o0, h0; split; [assumption|constructor]).
  destruct (Moffat_turn_inv _ _ _ Hs) as (s & _ & _ & _ & Hl & _).
  unfold Moffat.fitMoffat, bind. rewrite Hc.
  rewrite Moffat_body_eq in Hr, Hb |- *.
  destruct (reach_while two_pass Moffat_sigma1 wind Moffat.fit Moffat.soln thresh
              Moffat_again Moffat_done (reads_Moffat_two_pass _ _ _ _ _ _ _ _ _ _)
              (Moffat_stage_sigma1 _ _ _ _ _ _ _ _ _ _) (fun _ => eq_refl)
              _ _ _ _ Hr fuel) as (fuel' & Hlt & E).
  { pose proof (count_pos_le_length (contents h0 (Moffat_sigma1 o0))). lia. }
  rewrite E. destruct fuel' as [|n]; [lia|].
  cbn [while_true]. unfold bind. now rewrite Hb.
Qed.
End MoffatCall.

(** ** The two-pass fit of [fitGaussian] *)

Section GaussPass.
Variable leastsq : solver.
Variable wind : Window.t.
Variables sky height xcen ycen fwhm fwhm_min : R.
Variable fwhm_fix : bool.

#[local] Abbreviation two_pass :=
  (Gauss.two_pass leastsq wind sky height xcen ycen fwhm fwhm_min fwhm_fix).
#[local] Abbreviation fixed_pass :=
  (Gauss_fixed_pass leastsq wind sky height xcen ycen).
#[local] Abbreviation fixed_solve :=
  (Gauss_fixed_solve leastsq sky height xcen ycen).
#[local] Abbreviation free_solve :=
  (Gauss_free_solve leastsq sky height xcen ycen fwhm).

Lemma Gauss_fixed_pass_Ok fw o h o' p h' :
  fixed_pass fw o h = Ok (o', p) h' ->
  h' = h /\ status_ok (fixed_solve fw o h) /\
  Gauss_fixed_outcome wind fw (fixed_solve fw o h) o o' p.
Proof.
  unfold Gauss_fixed_pass. cbv zeta. intro H.
  apply bind_Ok in H. destruct H as (r & h1 & Hs & H).
  apply solve_Ok in Hs. destruct Hs as (-> & Hr & Hst).
  fold (fixed_solve fw o h) in Hr. subst r.
  apply bind_Ok in H. destruct H as (m & h2 & Hm & H).
  unfold Gfit2.model in Hm. apply bind_Ok in Hm.
  destruct Hm as (t & h3 & Hu & Hm).
  apply unpack4_Ok in Hu. destruct Hu as (a & b & c & d & Hl & -> & ->).
  unfold ret in Hm. inversion Hm; subst m h2; clear Hm.
  apply bind_Ok in H. destruct H as (t & h3 & Hu & H).
  apply unpack4_Ok in Hu. destruct Hu as (a' & b' & c' & d' & Hl' & -> & ->).
  rewrite Hl in Hl'. inversion Hl'; subst a' b' c' d'; clear Hl'.
  apply bind_Ok in H. destruct H as (er & h3 & He & H).
  apply sqrt_diag_Ok in He. destruct He as (-> & cov & Hc & ->).
  apply bind_Ok in H. destruct H as (t & h3 & Hu & H).
  apply unpack4_Ok in Hu. destruct Hu as (ea & eb & ec & ed & Hl' & -> & ->).
  unfold ret in H. inversion H; subst; clear H.
  split; [reflexivity|]. split; [assumption|].
  exists a, b, c, d, cov, ea, eb, ec, ed.
  rewrite Hl. repeat split; auto.
Qed.

Lemma Gauss_fixed_pass_Raise fw o h e :
  fixed_pass fw o h = Raise e ->
  (e = HipercamError (Lsq.mesg (fixed_solve fw o h)) /\
   ~ status_ok (fixed_solve fw o h)) \/
  (e = ValueError /\ status_ok (fixed_solve fw o h)).
Proof.
  unfold Gauss_fixed_pass. cbv zeta. intro H.
  apply bind_Raise in H. destruct H as [H|(r & h1 & Hs & H)].
  { left. apply solve_Raise in H. exact H. }
  right. apply solve_Ok in Hs. destruct Hs as (-> & Hr & Hst).
  fold (fixed_solve fw o h) in Hr. subst r. split; [|assumption].
  apply bind_Raise in H. destruct H as [H|(m & h2 & Hm & H)].
  { unfold Gfit2.model in H. apply bind_Raise in H.
    destruct H as [H|([[[a b] c] d] & h2 & _ & H)];
      [now apply unpack4_Raise in H | discriminate]. }
  apply bind_Raise in H. destruct H as [H|([[[a b] c] d] & h3 & _ & H)].
  { now apply unpack4_Raise in H. }
  apply bind_Raise in H. destruct H as [H|(er & h4 & _ & H)].
  { now apply sqrt_diag_Raise in H. }
  apply bind_Raise in H. destruct H as [H|([[[ea eb] ec] ed] & h5 & _ & H)].
  { now apply unpack4_Raise in H. }
  discriminate.
Qed.

Lemma Gauss_fixed_pass_fail fw o h :
  ~ status_ok (fixed_solve fw o h) ->
  fixed_pass fw o h = Raise (HipercamError (Lsq.mesg (fixed_solve fw o h))).
Proof.
  intro Hst. unfold Gauss_fixed_pass, bind. cbv zeta.
  now rewrite (proj2 (solve_status leastsq _ _ _ h) Hst).
Qed.

Lemma Gauss_two_pass_eq o :
  two_pass o
  = if fwhm_fix then fixed_pass fwhm o
    else
      r <- solve leastsq (Gfit1.call (Gauss.gfit1 o))
                 [sky; height; xcen; ycen; fwhm]
                 (Dgfit1.call (Gauss.dgfit1 o)) ;;
      '(skyf, heightf, xf, yf, fwhmf) <- unpack5 (Lsq.soln r) ;;
      if Rgtb fwhmf fwhm_min then
        e <- sqrt_diag (Lsq.covar r) ;;
        '(skyfe, heightfe, xfe, yfe, fwhmfe) <- unpack5 e ;;
        m <- Gfit1.model (Gauss.gfit1 o) (Lsq.soln r) ;;
        let fit := Window.Build_t (Window.winhead wind) m in
        ret (o,
             {| Gauss.soln := Lsq.soln r; Gauss.fit := fit;
                Gauss.skyf := skyf; Gauss.heightf := heightf;
                Gauss.xf := xf; Gauss.yf := yf; Gauss.fwhmf := fwhmf;
                Gauss.skyfe := skyfe; Gauss.heightfe := heightfe;
                Gauss.xfe := xfe; Gauss.yfe := yfe; Gauss.fwhmfe := fwhmfe |})
      else fixed_pass fwhm_min o.
Proof. reflexivity. Qed.

(** The outcome of the two-pass fit when it returns. *)
Lemma Gauss_two_pass_Ok o h o' p h' :
  two_pass o h = Ok (o', p) h' ->
  h' = h /\
  ((fwhm_fix = true /\ status_ok (fixed_solve fwhm o h) /\
    Gauss_fixed_outcome wind fwhm (fixed_solve fwhm o h) o o' p) \/
   (fwhm_fix = false /\ status_ok (free_solve o h) /\
    exists a b c d w,
      Lsq.soln (free_solve o h) = [a; b; c; d; w] /\
      ((w > fwhm_min /\
        Gauss_free_outcome wind fwhm_min (free_solve o h) o o' p) \/
       (w <= fwhm_min /\ status_ok (fixed_solve fwhm_min o h) /\
        Gauss_fixed_outcome wind fwhm_min (fixed_solve fwhm_min o h)
          o o' p)))).
Proof.
  rewrite Gauss_two_pass_eq. destruct fwhm_fix.
  { intro H. apply Gauss_fixed_pass_Ok in H. destruct H as (-> & Hst & Ho).
    split; [reflexivity|]. left. auto. }
  intro H.
  apply bind_Ok in H. destruct H as (r & h1 & Hs & H).
  apply solve_Ok in Hs. destruct Hs as (-> & Hr & Hst).
  fold (free_solve o h) in Hr. subst r.
  apply bind_Ok in H. destruct H as (t & h2 & Hu & H).
  apply unpack5_Ok in Hu.
  destruct Hu as (a & b & c & d & w & Hl & -> & ->).
  destruct (Rgtb w fwhm_min) eqn:Hw.
  - apply Rgtb_spec in Hw.
    apply bind_Ok in H. destruct H as (er & h3 & He & H).
    apply sqrt_diag_Ok in He. destruct He as (-> & cov & Hc & ->).
    apply bind_Ok in H. destruct H as (t & h3 & Hu & H).
    apply unpack5_Ok in Hu.
    destruct Hu as (ea & eb & ec & ed & ew & He & -> & ->).
    apply bind_Ok in H. destruct H as (m & h2 & Hm & H).
    unfold Gfit1.model in Hm. apply bind_Ok in Hm.
    destruct Hm as (t & h3 & Hu & Hm).
    apply unpack5_Ok in Hu.
    destruct Hu as (a' & b' & c' & d' & w' & Hl' & -> & ->).
    rewrite Hl in Hl'. inversion Hl'; subst a' b' c' d' w'; clear Hl'.
    unfold ret in Hm. inversion Hm; subst m h2; clear Hm.
    unfold ret in H. inversion H; subst; clear H.
    split; [reflexivity|]. right. split; [reflexivity|]. split; [assumption|].
    exists a, b, c, d, w. split; [assumption|]. left. split; [assumption|].
    exists a, b, c, d, w, cov, ea, eb, ec, ed, ew.
    rewrite Hl. repeat split; auto.
  - assert (Hle : w <= fwhm_min).
    { destruct (Rle_or_lt w fwhm_min) as [Hle|Hlt]; auto.
      apply Rgtb_true in Hlt. congruence. }
    apply Gauss_fixed_pass_Ok in H. destruct H as (-> & Hst2 & Ho).
    split; [reflexivity|]. right. split; [reflexivity|]. split; [assumption|].
    exists a, b, c, d, w. split; [assumption|]. right. auto.
Qed.

(** The two-pass fit raises [HipercamError] exactly for a solve, among
    those it runs, whose status is outside 1 to 4. *)
Lemma Gauss_two_pass_Raise o h mesg :
  two_pass o h = Raise (HipercamError mesg) <->
  ((fwhm_fix = true /\ ~ status_ok (fixed_solve fwhm o h) /\
    mesg = Lsq.mesg (fixed_solve fwhm o h)) \/
   (fwhm_fix = false /\ ~ status_ok (free_solve o h) /\
    mesg = Lsq.mesg (free_solve o h)) \/
   (fwhm_fix = false /\ status_ok (free_solve o h) /\
    (exists a b c d w,
        Lsq.soln (free_solve o h) = [a; b; c; d; w] /\ w <= fwhm_min) /\
    ~ status_ok (fixed_solve fwhm_min o h) /\
    mesg = Lsq.mesg (fixed_solve fwhm_min o h))).
Proof.
  rewrite Gauss_two_pass_eq. split.
  - destruct fwhm_fix.
    { intro H. apply Gauss_fixed_pass_Raise in H.
      destruct H as [[E Hst]|[E _]]; [|discriminate].
      inversion E. left. auto. }
    intro H. right.
    apply bind_Raise in H. destruct H as [H|(r & h1 & Hs & H)].
    { apply solve_Raise in H. destruct H as [E Hst]. inversion E. left. auto. }
    apply solve_Ok in Hs. destruct Hs as (-> & Hr & Hst).
    fold (free_solve o h) in Hr. subst r. right.
    apply bind_Raise in H. destruct H as [H|(t & h2 & Hu & H)].
    { apply unpack5_Raise in H. discriminate. }
    apply unpack5_Ok in Hu.
    destruct Hu as (a & b & c & d & w & Hl & -> & ->).
    destruct (Rgtb w fwhm_min) eqn:Hw.
    + exfalso.
      apply bind_Raise in H. destruct H as [H|(er & h4 & _ & H)].
      { apply sqrt_diag_Raise in H. discriminate. }
      apply bind_Raise in H.
      destruct H as [H|([[[[ea eb] ec] ed] ew] & h5 & _ & H)];
        [apply unpack5_Raise in H; discriminate|].
      apply bind_Raise in H. destruct H as [H|(m & h2 & Hm & H)]; [|discriminate].
      unfold Gfit1.model in H. apply bind_Raise in H.
      destruct H as [H|([[[[a' b'] c'] d'] w'] & h2 & _ & H)];
        [apply unpack5_Raise in H|]; discriminate.
    + assert (Hle : w <= fwhm_min).
      { destruct (Rle_or_lt w fwhm_min) as [Hle|Hlt]; auto.
        apply Rgtb_true in Hlt. congruence. }
      apply Gauss_fixed_pass_Raise in H.
      destruct H as [[E Hst2]|[E _]]; [|discriminate].
      inversion E. split; [reflexivity|]. split; [assumption|].
      split; [now exists a, b, c, d, w|]. split; [assumption|reflexivity].
  - intros [(-> & Hst & ->)|[(-> & Hst & ->)|(-> & Hst & Hw & Hst2 & ->)]].
    + now apply Gauss_fixed_pass_fail.
    + unfold bind. now rewrite (proj2 (solve_status leastsq _ _ _ h) Hst).
    + destruct Hw as (a & b & c & d & w & Hl & Hle).
      unfold bind at 1.
      rewrite (proj1 (solve_status leastsq _ _ _ h) Hst).
      fold (free_solve o h). rewrite Hl. unfold bind at 1.
      cbn [unpack5 ret]. rewrite (Rgtb_false w fwhm_min) by lra.
      now apply Gauss_fixed_pass_fail.
Qed.
(** Conversely, the outcomes above are those of the two-pass fit. *)
Lemma Gauss_fixed_pass_run fw o h o' p :
  status_ok (fixed_solve fw o h) ->
  Gauss_fixed_outcome wind fw (fixed_solve fw o h) o o' p ->
  fixed_pass fw o h = Ok (o', p) h.
Proof.
  intros Hst (a & b & c & d & cov & ea & eb & ec & ed
              & Hl & Hc & He & -> & ->).
  unfold Gauss_fixed_pass, bind. cbv zeta.
  rewrite (proj1 (solve_status leastsq _ _ _ h) Hst).
  fold (fixed_solve fw o h). rewrite Hl, Hc.
  unfold Gfit2.model, bind, unpack4, sqrt_diag, ret. rewrite He.
  reflexivity.
Qed.

Lemma Gauss_free_pass_run o h o' p :
  fwhm_fix = false ->
  status_ok (free_solve o h) ->
  Gauss_free_outcome wind fwhm_min (free_solve o h) o o' p ->
  two_pass o h = Ok (o', p) h.
Proof.
  intros Hfix Hst (a & b & c & d & w & cov & ea & eb & ec & ed & ew
                   & Hl & Hw & Hc & He & -> & ->).
  rewrite Gauss_two_pass_eq, Hfix. unfold bind at 1.
  rewrite (proj1 (solve_status leastsq _ _ _ h) Hst).
  fold (free_solve o h). rewrite Hl, Hc.
  unfold bind, unpack5, ret. rewrite (Rgtb_true w fwhm_min Hw).
  unfold Gfit1.model, bind, unpack5, sqrt_diag, ret. rewrite He.
  reflexivity.
Qed.


Lemma Gauss_fixed_run o h o' p :
  fwhm_fix = true ->
  status_ok (fixed_solve fwhm o h) ->
  Gauss_fixed_outcome wind fwhm (fixed_solve fwhm o h) o o' p ->
  two_pass o h = Ok (o', p) h.
Proof.
  intros Hfix Hst Ho. rewrite Gauss_two_pass_eq, Hfix.
  now apply Gauss_fixed_pass_run.
Qed.
End GaussPass.


(** ** The loop of [fitGaussian] *)

Section GaussLoop.
Variable leastsq : solver.
Variable wind : Window.t.
Variables sky height xcen ycen fwhm fwhm_min : R.
Variable fwhm_fix : bool.
Variable thresh : R.

#[local] Abbreviation two_pass :=
  (Gauss.two_pass leastsq wind sky height xcen ycen fwhm fwhm_min fwhm_fix).
#[local] Abbreviation body :=
  (Gauss.body leastsq wind sky height xcen ycen fwhm fwhm_min fwhm_fix
     thresh).

Lemma Gauss_body_eq :
  body = loop_body two_pass Gauss_sigma1 wind Gauss.fit Gauss.soln thresh
           Gauss_again Gauss_done.
Proof. reflexivity. Qed.

Lemma Gauss_stage_sigma1 o h o' p h' :
  two_pass o h = Ok (o', p) h' -> Gauss_sigma1 o' = Gauss_sigma1 o.
Proof.
  intro H. apply Gauss_two_pass_Ok in H. destruct H as (_ & H).
  unfold Gauss_fixed_outcome, Gauss_free_outcome in H.
  destruct H as [(_ & _ & H)|(_ & _ & ? & ? & ? & ? & ? & _ & [(_ & H)|(_ & _ & H)])];
    decompose record H; subst; reflexivity.
Qed.

Lemma Gauss_stage_shape :
  Window.shaped wind ->
  forall o h o' p h',
    Gauss_shaped wind o -> two_pass o h = Ok (o', p) h' ->
    Gauss_shaped wind o' /\
    List.length (Window.data (Gauss.fit p)) = List.length (Window.data wind).
Proof.
  intros Hw o h o' p h' [H1 H2] H.
  destruct (grid_length wind Hw) as [Hg1 Hg2].
  apply Gauss_two_pass_Ok in H. destruct H as (_ & H).
  unfold Gauss_fixed_outcome, Gauss_free_outcome in H.
  destruct H as [(_ & _ & H)|(_ & _ & ? & ? & ? & ? & ? & _ & [(_ & H)|(_ & _ & H)])];
    decompose record H; subst; unfold Gauss_shaped;
    cbn [Gauss.gfit1 Gauss.gfit2 Gfit2.set_fwhm Gfit2.xy Gauss.fit
         Window.data];
    rewrite gaussian_length, ?H1, ?H2, Hg1, Hg2, Nat.min_id; auto.
Qed.

Lemma Gauss_again_shaped o :
  Gauss_shaped wind o -> Gauss_shaped wind (Gauss_again o).
Proof. intros [H1 H2]. split; assumption. Qed.
End GaussLoop.

(** The construction of the function objects of [fitGaussian]. *)
Lemma Gauss_construct_Ok wind fwhm read gain h o h' :
  Gauss.construct wind fwhm read gain h = Ok o h' ->
  exists s,
    noise read gain (Window.data wind) h = Ok s h /\
    h' = h ++ [s; s] /\
    Gauss_sigma1 o = List.length h /\
    contents h' (Gauss_sigma1 o) = s /\
    Gauss_shaped wind o.
Proof.
  unfold Gauss.construct, Gfit1.init, Gfit2.init. intro H.
  apply bind_Ok in H. destruct H as (m1 & h1 & H1 & H).
  apply bind_Ok in H1. destruct H1 as (s & h2 & Hn & H1).
  destruct (noise_Ok _ _ _ _ _ _ Hn) as (-> & r & g & Hr & Hg & Hs & Hl).
  apply bind_Ok in H1. destruct H1 as (l & h3 & Ha & H1).
  unfold alloc in Ha. inversion Ha; subst l h3; clear Ha.
  unfold ret in H1. inversion H1; subst m1 h1; clear H1.
  apply bind_Ok in H. destruct H as (m2 & h1 & H2 & H).
  apply bind_Ok in H2. destruct H2 as (s2 & h2 & Hn2 & H2).
  assert (Hs2 : s2 = s /\ h2 = h ++ [s]).
  { unfold noise in Hn, Hn2. rewrite Hr, Hg in Hn, Hn2. unfold ret in Hn, Hn2.
    inversion Hn; inversion Hn2; subst; auto. }
  destruct Hs2 as [-> ->].
  apply bind_Ok in H2. destruct H2 as (l & h3 & Ha & H2).
  unfold alloc in Ha. inversion Ha; subst l h3; clear Ha.
  unfold ret in H2. inversion H2; subst m2 h1; clear H2.
  unfold ret in H. inversion H; subst o h'; clear H.
  exists s. split; [assumption|].
  split; [now rewrite <- app_assoc|].
  split; [reflexivity|].
  split; [|split; reflexivity].
  unfold Gauss_sigma1. cbn [Gauss.gfit1 Gfit1.sigma].
  rewrite <- app_assoc. cbn [app].
  unfold contents. now rewrite nth_middle.
Qed.

(** ** The calls of [fitGaussian] *)

Section GaussCall.
Variable leastsq : solver.
Variable wind : Window.t.
Variables sky height xcen ycen fwhm fwhm_min : R.
Variable fwhm_fix : bool.
Variable thresh : R.
Variables read gain : operand.

#[local] Abbreviation two_pass :=
  (Gauss.two_pass leastsq wind sky height xcen ycen fwhm fwhm_min fwhm_fix).
#[local] Abbreviation body :=
  (Gauss.body leastsq wind sky height xcen ycen fwhm fwhm_min fwhm_fix
     thresh).
#[local] Abbreviation fitGaussian :=
  (Gauss.fitGaussian leastsq wind sky height xcen ycen fwhm fwhm_min fwhm_fix
     thresh).
#[local] Abbreviation turn :=
  (Gauss_turn leastsq wind sky height xcen ycen fwhm fwhm_min fwhm_fix
     thresh read gain).

Lemma Gauss_body_fuel o h : body o h <> OutOfFuel.
Proof.
  rewrite Gauss_body_eq. apply body_fuel. apply reads_Gauss_two_pass.
Qed.

Lemma Gauss_body_step o h r h' :
  body o h = Ok r h' ->
  exists o' p,
    two_pass o h = Ok (o', p) h /\ Gauss_sigma1 o' = Gauss_sigma1 o /\
    let sig := contents h (Gauss_sigma1 o) in
    let resid :=
      map2 Rdiv (map2 Rminus (Window.data wind)
                   (Window.data (Gauss.fit p))) sig in
    let chisq := sum (map (fun v => v ^ 2) (select resid (gt sig 0))) in
    let nok1 := List.length (select resid (gt sig 0)) in
    let sfac :=
      sqrt (chisq / IZR (Z.of_nat nok1
                         - Z.of_nat (List.length (Gauss.soln p)))) in
    let sig' :=
      imul_masked sig (band (gt sig 0) (gt (map Rabs resid) (sfac * thresh)))
                  (-1) in
    h' = upd h (Gauss_sigma1 o) sig' /\
    contents h' (Gauss_sigma1 o) = sig' /\
    (((count_pos sig' < nok1)%nat /\ r = inl (Gauss_again o')) \/
     (~ (count_pos sig' < nok1)%nat /\
      r = inr (Gauss_done o' p sig' chisq sfac (count_pos sig')))).
Proof.
  rewrite Gauss_body_eq. apply body_step.
  - apply reads_Gauss_two_pass.
  - apply Gauss_stage_sigma1.
Qed.

Lemma Gauss_body_rejected o h r h' :
  body o h = Ok r h' ->
  rejected_from (contents h (Gauss_sigma1 o)) (contents h' (Gauss_sigma1 o)) /\
  List.length h' = List.length h /\
  (forall l, l <> Gauss_sigma1 o -> contents h' l = contents h l) /\
  match r with
  | inl o2 =>
      Gauss_sigma1 o2 = Gauss_sigma1 o /\
      (count_pos (contents h' (Gauss_sigma1 o))
       < count_pos (contents h (Gauss_sigma1 o)))%nat
  | inr _ => True
  end.
Proof.
  rewrite Gauss_body_eq. apply body_rejected.
  - apply reads_Gauss_two_pass.
  - apply Gauss_stage_sigma1.
  - reflexivity.
Qed.

Lemma Gauss_body_exact o h r h' :
  Window.shaped wind ->
  Gauss_shaped wind o ->
  List.length (contents h (Gauss_sigma1 o)) = List.length (Window.data wind) ->
  body o h = Ok r h' ->
  exists o' p,
    two_pass o h = Ok (o', p) h /\ Gauss_sigma1 o' = Gauss_sigma1 o /\
    Gauss_shaped wind o' /\
    let d := Window.data wind in
    let f := Window.data (Gauss.fit p) in
    let sig := contents h (Gauss_sigma1 o) in
    let sig' := contents h' (Gauss_sigma1 o) in
    let chisq := chisq_spec d f sig in
    let sfac := sfac_spec d f sig (List.length (Gauss.soln p)) in
    List.length f = List.length sig /\
    h' = upd h (Gauss_sigma1 o) sig' /\
    List.length sig' = List.length sig /\
    (forall k dk fk sk,
        nth_error d k = Some dk -> nth_error f k = Some fk ->
        nth_error sig k = Some sk ->
        nth_error sig' k
        = Some (reject_entry sk ((dk - fk) / sk) (sfac * thresh))) /\
    ((r = inl (Gauss_again o') /\ (count_pos sig' < count_pos sig)%nat) \/
     (r = inr (Gauss_done o' p sig chisq sfac (count_pos sig)) /\
      sig' = sig /\ h' = h)).
Proof.
  intro Hw. rewrite Gauss_body_eq.
  apply body_exact with (Oinv := Gauss_shaped wind).
  - apply reads_Gauss_two_pass.
  - apply Gauss_stage_sigma1.
  - reflexivity.
  - now apply Gauss_stage_shape.
Qed.

(** What holds at the head of every turn of a call. *)
Lemma Gauss_turn_inv h o hl :
  turn h o hl ->
  exists s,
    noise read gain (Window.data wind) h = Ok s h /\
    Gauss_sigma1 o = List.length h /\
    rejected_from s (contents hl (Gauss_sigma1 o)) /\
    List.length (contents hl (Gauss_sigma1 o))
    = List.length (Window.data wind) /\
    (Window.shaped wind -> Gauss_shaped wind o).
Proof.
  intros (o0 & h0 & Hc & Hr).
  apply Gauss_construct_Ok in Hc.
  destruct Hc as (s & Hn & Hh0 & Hs1 & Hc0 & Hsh).
  rewrite Gauss_body_eq in Hr.
  assert (Hrr : Gauss_sigma1 o = Gauss_sigma1 o0 /\
                rejected_from (contents h0 (Gauss_sigma1 o0))
                              (contents hl (Gauss_sigma1 o0)) /\
                List.length hl = List.length h0).
  { eapply reach_rejected; [| | |exact Hr].
    - apply reads_Gauss_two_pass.
    - apply Gauss_stage_sigma1.
    - reflexivity. }
  destruct Hrr as (Es & Hrej & _).
  rewrite Hc0 in Hrej. rewrite <- Es in Hrej.
  exists s. split; [assumption|]. split; [congruence|].
  split; [assumption|].
  split.
  - rewrite (rejected_from_length _ _ Hrej).
    now destruct (noise_Ok _ _ _ _ _ _ Hn) as (_ & r & g & _ & _ & _ & Hl).
  - intro Hw.
    eapply reach_inv with (Oinv := Gauss_shaped wind); [| | | |exact Hsh|exact Hr].
    + apply reads_Gauss_two_pass.
    + apply Gauss_stage_sigma1.
    + now apply Gauss_stage_shape.
    + apply Gauss_again_shaped.
Qed.

Lemma fitGaussian_Ok fuel h r h' :
  fitGaussian fuel read gain h = Ok r h' ->
  exists o hl, turn h o hl /\ body o hl = Ok (inr r) h'.
Proof.
  unfold Gauss.fitGaussian. intro H.
  apply bind_Ok in H. destruct H as (o0 & h0 & Hc & H).
  apply while_true_last in H. destruct H as (o & hl & Hr & Hb).
  exists o, hl. split; [|assumption]. now exists o0, h0.
Qed.

Lemma fitGaussian_fuel fuel h :
  (List.length (Window.data wind) < fuel)%nat ->
  fitGaussian fuel read gain h <> OutOfFuel.
Proof.
  intro Hf. unfold Gauss.fitGaussian, bind.
  destruct (Gauss.construct wind fwhm read gain h) as [o0 h0|e|] eqn:Hc;
    try discriminate.
  - assert (Ht : turn h o0 h0) by (exists o0, h0; split; [assumption|constructor]).
    destruct (Gauss_turn_inv _ _ _ Ht) as (s & _ & _ & _ & Hl & _).
    rewrite Gauss_body_eq. apply loop_terminates.
    + apply reads_Gauss_two_pass.
    + apply Gauss_stage_sigma1.
    + reflexivity.
    + pose proof (count_pos_le_length (contents h0 (Gauss_sigma1 o0))). lia.
  - exfalso. revert Hc. unfold Gauss.construct, Gfit1.init, Gfit2.init, bind.
    unfold noise. destruct (broadcast read _); [|discriminate].
    destruct (broadcast gain _); discriminate.
Qed.
Lemma Gauss_body_raise o h e : body o h = Raise e <-> two_pass o h = Raise e.
Proof.
  rewrite Gauss_body_eq. apply body_raise. apply reads_Gauss_two_pass.
Qed.

Lemma Gauss_construct_Raise h e :
  Gauss.construct wind fwhm read gain h = Raise e -> e = ValueError.
Proof.
  unfold Gauss.construct, Gfit1.init, Gfit2.init, bind, noise.
  destruct (broadcast read _); [|unfold raise; intro H; now inversion H].
  destruct (broadcast gain _); [|unfold raise; intro H; now inversion H].
  discriminate.
Qed.

Lemma fitGaussian_Raise fuel h e :
  fitGaussian fuel read gain h = Raise e ->
  (e = ValueError /\ Gauss.construct wind fwhm read gain h = Raise e) \/
  exists o hl, turn h o hl /\ body o hl = Raise e.
Proof.
  unfold Gauss.fitGaussian. intro H.
  apply bind_Raise in H. destruct H as [H|(o0 & h0 & Hc & H)].
  - left. split; [eapply Gauss_construct_Raise; eauto|assumption].
  - right. apply while_true_raise in H. destruct H as (o & hl & Hr & Hb).
    exists o, hl. split; [|assumption]. now exists o0, h0.
Qed.

Lemma fitGaussian_aborts fuel h o hl e :
  turn h o hl -> body o hl = Raise e ->
  (List.length (Window.data wind) < fuel)%nat ->
  fitGaussian fuel read gain h = Raise e.
Proof.
  intros Ht Hb Hf.
  assert (Ht0 := Ht). destruct Ht0 as (o0 & h0 & Hc & Hr).
  assert (Hs : turn h o0 h0) by (exists o0, h0; split; [assumption|constructor]).
  destruct (Gauss_turn_inv _ _ _ Hs) as (s & _ & _ & _ & Hl & _).
  unfold Gauss.fitGaussian, bind. rewrite Hc.
  rewrite Gauss_body_eq in Hr, Hb |- *.
  destruct (reach_while two_pass Gauss_sigma1 wind Gauss.fit Gauss.soln thresh
              Gauss_again Gauss_done (reads_Gauss_two_pass _ _ _ _ _ _ _ _ _)
              (Gauss_stage_sigma1 _ _ _ _ _ _ _ _ _) (fun _ => eq_refl)
              _ _ _ _ Hr fuel) as (fuel' & Hlt & E).
  { pose proof (count_pos_le_length (contents h0 (Gauss_sigma1 o0))). lia. }
  rewrite E. destruct fuel' as [|n]; [lia|].
  cbn [while_true]. unfold bind. now rewrite Hb.
Qed.
End GaussCall.

(** ** Example: a flat window, fitted from its own background *)

Lemma flat_mconstruct :
  Moffat.construct flat_window 1 (Scalar 1) (Scalar 1) []
  = Ok flat_mobjs [flat_sigma; flat_sigma].
Proof. reflexivity. Qed.

Lemma flat_gconstruct :
  Gauss.construct flat_window 1 (Scalar 1) (Scalar 1) []
  = Ok flat_gobjs [flat_sigma; flat_sigma].
Proof. reflexivity. Qed.

Lemma flat_window_shaped : Window.shaped flat_window.
Proof. reflexivity. Qed.







Lemma flat_Moffat_turn :
  Moffat_turn echo_solver flat_window 5 0 0 0 1 2 false 3 4 (Scalar 1) (Scalar 1) []
    flat_mobjs [flat_sigma; flat_sigma].
Proof.
  exists flat_mobjs, [flat_sigma; flat_sigma].
  split; [apply flat_mconstruct|constructor].
Qed.




Lemma flat_Gauss_turn :
  Gauss_turn echo_solver flat_window 5 0 0 0 1 2 false 4 (Scalar 1) (Scalar 1) []
    flat_gobjs [flat_sigma; flat_sigma].
Proof.
  exists flat_gobjs, [flat_sigma; flat_sigma].
  split; [apply flat_gconstruct|constructor].
Qed.

(** ** Example: one deviant pixel *)

Lemma unit_noise (d : R) : 0 < d -> sqrt (0 ^ 2 + Rmax 0 d / d) = 1.
Proof.
  intro Hd. rewrite Rmax_right by lra.
  replace (0 ^ 2 + d / d) with 1 by (field; lra). apply sqrt_1.
Qed.

Lemma spike_noise (h : heap) :
  noise (Scalar 0) spike_gain (Window.data spike_window) h = Ok spike_sigma h.
Proof.
  unfold noise, spike_gain, spike_window, spike_sigma, ret.
  cbn [Window.data broadcast List.length Nat.eqb repeat map map2].
  rewrite !unit_noise by lra. reflexivity.
Qed.

Lemma spike_gconstruct :
  Gauss.construct spike_window 1 (Scalar 0) spike_gain []
  = Ok spike_gobjs [spike_sigma; spike_sigma].
Proof.
  unfold Gauss.construct, Gfit1.init, Gfit2.init, bind.
  rewrite spike_noise. unfold alloc at 1. unfold ret at 1. cbv beta iota.
  rewrite spike_noise. reflexivity.
Qed.

Lemma spike_window_shaped : Window.shaped spike_window.
Proof. reflexivity. Qed.

Lemma spike_gaussian_model (fw : R) :
  gaussian (grid spike_window) 5 0 0 0 fw = [5; 5; 5; 5; 5; 5].
Proof.
  unfold gaussian, grid, meshgrid, Window.x, Window.y, arange, Window.nx,
    Window.ny, spike_window.
  cbn [Window.winhead Winhead.nx Winhead.ny Winhead.xpix Winhead.ypix seq map
       flat_map app map2].
  repeat (f_equal; try ring).
Qed.

(** The two-pass fit with the FWHM held at 1, whatever the sigma array
    and the bindings of the sigma attributes. *)
Lemma spike_two_pass (o : Gauss.objs) (h : heap) :
  Gfit2.xy (Gauss.gfit2 o) = grid spike_window ->
  exists o' p,
    Gauss.two_pass echo_solver spike_window 5 0 0 0 1 (1/2) true o h
    = Ok (o', p) h /\
    Window.data (Gauss.fit p) = [5; 5; 5; 5; 5; 5] /\
    Gauss.soln p = [5; 0; 0; 0] /\
    (Gauss.skyf p, Gauss.heightf p, Gauss.xf p, Gauss.yf p, Gauss.fwhmf p)
    = (5, 0, 0, 0, 1) /\
    (Gauss.skyfe p, Gauss.heightfe p, Gauss.xfe p, Gauss.yfe p,
     Gauss.fwhmfe p) = (sqrt 0, sqrt 0, sqrt 0, sqrt 0, -1) /\
    (o = spike_gobjs -> o' = spike_gobjs).
Proof.
  intro Hxy. eexists. eexists. split; [|split; [|split; [|split; [|split]]]].
  - eapply Gauss_fixed_run; [reflexivity | unfold status_ok; cbn; lia | ].
    unfold Gauss_fixed_outcome.
    exists 5, 0, 0, 0.
    eexists. exists (sqrt 0), (sqrt 0), (sqrt 0), (sqrt 0).
    repeat split; reflexivity.
  - cbn [Gauss.fit Window.data]. rewrite Hxy.
    apply spike_gaussian_model.
  - reflexivity.
  - reflexivity.
  - reflexivity.
  - intros ->. reflexivity.
Qed.

Lemma spike_bound : 0 < sqrt (10000 / IZR (6 - 4)) * 1 < 100.
Proof.
  replace (10000 / IZR (6 - 4)) with 5000 by (cbn; lra).
  rewrite Rmult_1_r. split.
  - apply sqrt_lt_R0. lra.
  - replace 100 with (sqrt (100 * 100)) by (apply sqrt_square; lra).
    apply sqrt_lt_1_alt. lra.
Qed.

(** The first turn rejects the deviant pixel and goes round again. *)
Lemma spike_turn1 :
  Gauss.body echo_solver spike_window 5 0 0 0 1 (1/2) true 1 spike_gobjs
    [spike_sigma; spike_sigma]
  = Ok (inl (Gauss_again spike_gobjs)) [spike_rejected; spike_sigma].
Proof.
  destruct (spike_two_pass spike_gobjs [spike_sigma; spike_sigma] eq_refl)
    as (o' & p & Htp & Hfit & Hs & _ & _ & Ho).
  rewrite (Ho eq_refl) in Htp. clear Ho o'.
  rewrite Gauss_body_eq.
  rewrite (body_unfold _ Gauss_sigma1 spike_window Gauss.fit Gauss.soln 1
             Gauss_again Gauss_done (Gauss_stage_sigma1 _ _ _ _ _ _ _ _ _)
             spike_gobjs _ spike_gobjs p Htp).
  cbv zeta. rewrite Hfit, Hs.
  change (contents [spike_sigma; spike_sigma] (Gauss_sigma1 spike_gobjs))
    with spike_sigma.
  replace (map2 Rdiv (map2 Rminus (Window.data spike_window) [5; 5; 5; 5; 5; 5])
             spike_sigma) with [0; 0; 0; 0; 0; 100]
    by (unfold spike_window, spike_sigma; cbn [Window.data map2];
        repeat (f_equal; try lra)).
  replace (gt spike_sigma 0) with [true; true; true; true; true; true]
    by (unfold gt, spike_sigma; cbn [map];
        rewrite (Rgtb_true 1 0) by lra; reflexivity).
  cbn [select List.length].
  replace (sum (map (fun v => v ^ 2) [0; 0; 0; 0; 0; 100])) with 10000
    by (cbn [map sum fold_right]; ring).
  change (IZR (Z.of_nat 6 - Z.of_nat 4)) with (IZR (6 - 4)).
  pose proof spike_bound as [Hb0 Hb1].
  replace (gt (map Rabs [0; 0; 0; 0; 0; 100]) (sqrt (10000 / IZR (6 - 4)) * 1))
    with [false; false; false; false; false; true].
  2:{ unfold gt. cbn [map]. rewrite Rabs_R0, (Rabs_pos_eq 100) by lra.
      rewrite (Rgtb_false 0 _) by lra. rewrite (Rgtb_true 100 _) by lra.
      reflexivity. }
  cbn [band map2 andb].
  assert (Hrej : imul_masked spike_sigma
                   [false; false; false; false; false; true] (-1)
                 = spike_rejected).
  { unfold spike_sigma, spike_rejected. cbn [imul_masked].
    repeat (f_equal; try ring). }
  rewrite !Hrej.
  replace (count_pos spike_rejected) with 5%nat.
  2:{ unfold count_pos, spike_rejected, gt. cbn [map].
      rewrite (Rgtb_true 1 0), (Rgtb_false (-1) 0) by lra. reflexivity. }
  reflexivity.
Qed.

(** The second turn finds nothing more to reject and returns. *)
Lemma spike_turn2 :
  exists r,
    Gauss.body echo_solver spike_window 5 0 0 0 1 (1/2) true 1
      (Gauss_again spike_gobjs) [spike_rejected; spike_sigma]
    = Ok (inr r) [spike_rejected; spike_sigma] /\
    Gauss.pars r = (5, 0, 0, 0, 1) /\
    Gauss.sigs r = (0, 0, 0, 0, -1) /\
    Gauss.r_sigma r = spike_rejected /\
    Gauss.r_chisq r = 0 /\
    Gauss.r_nok r = 5%nat /\ Gauss.r_nrej r = 1%Z /\ Gauss.r_npar r = 4%nat.
Proof.
  destruct (spike_two_pass (Gauss_again spike_gobjs)
              [spike_rejected; spike_sigma] eq_refl)
    as (o' & p & Htp & Hfit & Hs & Hpars & Hsigs & _).
  exists (Gauss_done o' p spike_rejected 0 0 5).
  split.
  - rewrite Gauss_body_eq.
    rewrite (body_unfold _ Gauss_sigma1 spike_window Gauss.fit Gauss.soln 1
               Gauss_again Gauss_done (Gauss_stage_sigma1 _ _ _ _ _ _ _ _ _)
               (Gauss_again spike_gobjs) _ o' p Htp).
    cbv zeta. rewrite Hfit, Hs.
    change (contents [spike_rejected; spike_sigma]
              (Gauss_sigma1 (Gauss_again spike_gobjs))) with spike_rejected.
    replace (map2 Rdiv
               (map2 Rminus (Window.data spike_window) [5; 5; 5; 5; 5; 5])
               spike_rejected) with [0; 0; 0; 0; 0; -100]
      by (unfold spike_window, spike_rejected; cbn [Window.data map2];
          repeat (f_equal; try lra)).
    replace (gt spike_rejected 0) with [true; true; true; true; true; false]
      by (unfold gt, spike_rejected; cbn [map];
          rewrite (Rgtb_true 1 0), (Rgtb_false (-1) 0) by lra; reflexivity).
    cbn [select List.length].
    replace (sum (map (fun v => v ^ 2) [0; 0; 0; 0; 0])) with 0
      by (cbn [map sum fold_right]; ring).
    replace (sqrt (0 / IZR (Z.of_nat 5 - Z.of_nat 4))) with 0
      by (unfold Rdiv; rewrite Rmult_0_l, sqrt_0; reflexivity).
    replace (gt (map Rabs [0; 0; 0; 0; 0; -100]) (0 * 1))
      with [false; false; false; false; false; true].
    2:{ unfold gt. cbn [map].
        rewrite Rabs_R0, (Rabs_left (-100)) by lra.
        rewrite (Rgtb_false 0 _) by lra. rewrite (Rgtb_true (- -100) _) by lra.
        reflexivity. }
    cbn [band map2 andb].
    assert (Hrej : imul_masked spike_rejected
                     [false; false; false; false; false; false] (-1)
                   = spike_rejected) by reflexivity.
    rewrite !Hrej.
    replace (count_pos spike_rejected) with 5%nat.
    2:{ unfold count_pos, spike_rejected, gt. cbn [map].
        rewrite (Rgtb_true 1 0), (Rgtb_false (-1) 0) by lra. reflexivity. }
    reflexivity.
  - destruct p.
    cbn [Gauss_done Gauss.pars Gauss.sigs Gauss.r_sigma Gauss.r_chisq
         Gauss.r_nok Gauss.r_nrej Gauss.r_npar
         Gauss.skyf Gauss.heightf Gauss.xf Gauss.yf Gauss.fwhmf
         Gauss.skyfe Gauss.heightfe Gauss.xfe Gauss.yfe
         Gauss.fwhmfe Gauss.soln] in *.
    inversion Hpars; inversion Hsigs; subst.
    rewrite (Rgtb_false (-1) 0) by lra.
    repeat split; try reflexivity.
    rewrite sqrt_0. repeat f_equal; ring.
Qed.

(** [fitGaussian] with the FWHM held at 1 on the window with one deviant
    pixel: that pixel, and no other, comes back with a negative sigma;
    the second sigma array of the store, built by the constructor of
    [gfit2] and no longer referred to, is as constructed. *)
Lemma spike_Gauss_run :
  exists r,
    Gauss.fitGaussian echo_solver spike_window 5 0 0 0 1 (1/2) true 1 7
      (Scalar 0) spike_gain [] = Ok r [spike_rejected; spike_sigma] /\
    Gauss.pars r = (5, 0, 0, 0, 1) /\
    Gauss.sigs r = (0, 0, 0, 0, -1) /\
    Gauss.r_sigma r = spike_rejected /\
    Gauss.r_chisq r = 0 /\
    Gauss.r_nok r = 5%nat /\ Gauss.r_nrej r = 1%Z /\ Gauss.r_npar r = 4%nat.
Proof.
  destruct spike_turn2 as (r & Hb & Hr).
  exists r. split; [|exact Hr].
  unfold Gauss.fitGaussian, bind. rewrite spike_gconstruct.
  cbn [while_true]. unfold bind. rewrite spike_turn1, Hb. reflexivity.
Qed.

Lemma spike_turn_start :
  Gauss_turn echo_solver spike_window 5 0 0 0 1 (1/2) true 1 (Scalar 0)
    spike_gain [] spike_gobjs [spike_sigma; spike_sigma].
Proof.
  exists spike_gobjs, [spike_sigma; spike_sigma].
  split; [apply spike_gconstruct|constructor].
Qed.

Lemma spike_turn_second :
  Gauss_turn echo_solver spike_window 5 0 0 0 1 (1/2) true 1 (Scalar 0)
    spike_gain [] (Gauss_again spike_gobjs) [spike_rejected; spike_sigma].
Proof.
  exists spike_gobjs, [spike_sigma; spike_sigma].
  split; [apply spike_gconstruct|].
  eapply reach_turn; [constructor|apply spike_turn1].
Qed.

(** ** Example: a solver with covariances, a fit that leaves residuals *)

Lemma bump_noise (h : heap) :
  noise (Scalar 0) bump_gain (Window.data bump_window) h = Ok bump_sigma h.
Proof.
  unfold noise, bump_gain, bump_window, bump_sigma, ret.
  cbn [Window.data broadcast List.length Nat.eqb repeat map map2].
  rewrite !unit_noise by lra. reflexivity.
Qed.

Lemma bump_mconstruct :
  Moffat.construct bump_window 1 (Scalar 0) bump_gain []
  = Ok bump_mobjs [bump_sigma; bump_sigma].
Proof.
  unfold Moffat.construct, Mfit1.init, Mfit2.init, bind.
  rewrite bump_noise. unfold alloc at 1. unfold ret at 1. cbv beta iota.
  rewrite bump_noise. reflexivity.
Qed.

Lemma bump_gconstruct :
  Gauss.construct bump_window 1 (Scalar 0) bump_gain []
  = Ok bump_gobjs [bump_sigma; bump_sigma].
Proof.
  unfold Gauss.construct, Gfit1.init, Gfit2.init, bind.
  rewrite bump_noise. unfold alloc at 1. unfold ret at 1. cbv beta iota.
  rewrite bump_noise. reflexivity.
Qed.

Lemma bump_window_shaped : Window.shaped bump_window.
Proof. reflexivity. Qed.

Lemma bump_moffat_model (fw b : R) :
  moffat (grid bump_window) 5 0 0 0 fw b = [5; 5; 5; 5; 5; 5; 5].
Proof.
  unfold moffat, grid, meshgrid, Window.x, Window.y, arange, Window.nx,
    Window.ny, bump_window.
  cbn [Window.winhead Winhead.nx Winhead.ny Winhead.xpix Winhead.ypix seq map
       flat_map app map2].
  repeat (f_equal; try (unfold Rdiv; ring)).
Qed.

Lemma bump_gaussian_model (fw : R) :
  gaussian (grid bump_window) 5 0 0 0 fw = [5; 5; 5; 5; 5; 5; 5].
Proof.
  unfold gaussian, grid, meshgrid, Window.x, Window.y, arange, Window.nx,
    Window.ny, bump_window.
  cbn [Window.winhead Winhead.nx Winhead.ny Winhead.xpix Winhead.ypix seq map
       flat_map app map2].
  repeat (f_equal; try ring).
Qed.

Lemma bump_sigma_count : count_pos bump_sigma = 7%nat.
Proof.
  unfold count_pos, bump_sigma, gt. cbn [map].
  rewrite (Rgtb_true 1 0) by lra. reflexivity.
Qed.

(** The standard errors of [spread_solver] for six and for four
    parameters. *)
Lemma spread_errors6 (func : list R -> option array) (x0 : list R)
  (Dfun : list R -> option (list array)) :
  List.length x0 = 6%nat ->
  exists cov,
    Lsq.covar (spread_solver func x0 Dfun) = Some cov /\
    map sqrt (diag cov) = [2; 3; 4; 5; 6; 7].
Proof.
  intro Hl. eexists. split; [reflexivity|].
  rewrite Hl. unfold diag.
  cbn [List.length seq map nth Nat.add Z.of_nat Pos.of_succ_nat Pos.succ].
  rewrite !sqrt_square by lra. reflexivity.
Qed.

Lemma spread_errors4 (func : list R -> option array) (x0 : list R)
  (Dfun : list R -> option (list array)) :
  List.length x0 = 4%nat ->
  exists cov,
    Lsq.covar (spread_solver func x0 Dfun) = Some cov /\
    map sqrt (diag cov) = [2; 3; 4; 5].
Proof.
  intro Hl. eexists. split; [reflexivity|].
  rewrite Hl. unfold diag.
  cbn [List.length seq map nth Nat.add Z.of_nat Pos.of_succ_nat Pos.succ].
  rewrite !sqrt_square by lra. reflexivity.
Qed.

(** The free-FWHM pass of [fitMoffat] on the window, kept since the FWHM
    of 1 is above the floor of 1/2. *)
Lemma bump_Moffat_two_pass :
  exists p,
    Moffat.two_pass spread_solver bump_window 5 0 0 0 1 (1/2) false 3
      bump_mobjs [bump_sigma; bump_sigma]
    = Ok (bump_mobjs, p) [bump_sigma; bump_sigma] /\
    Window.data (Moffat.fit p) = [5; 5; 5; 5; 5; 5; 5] /\
    Moffat.soln p = [5; 0; 0; 0; 1; 3] /\
    (Moffat.skyfe p, Moffat.heightfe p, Moffat.xfe p, Moffat.yfe p,
     Moffat.fwhmfe p, Moffat.betafe p) = (2, 3, 4, 5, 6, 7).
Proof.
  destruct (spread_errors6
              (fun q => eval (Mfit1.call (Moffat.mfit1 bump_mobjs) q)
                          [bump_sigma; bump_sigma])
              [5; 0; 0; 0; 1; 3]
              (fun q => eval (Dmfit1.call (Moffat.dmfit1 bump_mobjs) q)
                          [bump_sigma; bump_sigma]) eq_refl)
    as (cov & Hc & He).
  eexists. split; [|split; [|split]].
  - eapply Moffat_free_pass_run;
      [reflexivity | unfold status_ok; cbn; lia | ].
    unfold Moffat_free_outcome.
    exists 5, 0, 0, 0, 1, 3, cov, 2, 3, 4, 5, 6, 7.
    split; [reflexivity|]. split; [lra|]. split; [exact Hc|].
    split; [exact He|]. split; reflexivity.
  - cbn [Moffat.fit Window.data Moffat.mfit1 bump_mobjs Mfit1.xy].
    apply bump_moffat_model.
  - reflexivity.
  - reflexivity.
Qed.

Lemma bump_resid :
  map2 Rdiv (map2 Rminus (Window.data bump_window) [5; 5; 5; 5; 5; 5; 5])
    bump_sigma = [2; 0; 0; 0; 0; 0; 0].
Proof.
  unfold bump_window, bump_sigma. cbn [Window.data map2].
  repeat (f_equal; try lra).
Qed.

Lemma bump_included :
  gt bump_sigma 0 = [true; true; true; true; true; true; true].
Proof.
  unfold gt, bump_sigma. cbn [map]. rewrite (Rgtb_true 1 0) by lra.
  reflexivity.
Qed.

Lemma bump_within (b : R) :
  2 < b ->
  gt (map Rabs [2; 0; 0; 0; 0; 0; 0]) b
  = [false; false; false; false; false; false; false].
Proof.
  intro Hb. unfold gt. cbn [map]. rewrite Rabs_R0, (Rabs_pos_eq 2) by lra.
  rewrite (Rgtb_false 0 b), (Rgtb_false 2 b) by lra. reflexivity.
Qed.

(** The turn of [fitMoffat] with a free FWHM and a threshold of 2: six
    parameters for seven pixels and a chi-square of 4 give a scale factor
    of 2, no pixel is beyond 2 * 2, and the turn returns. *)
Lemma bump_Moffat_body :
  exists r,
    Moffat.body spread_solver bump_window 5 0 0 0 1 (1/2) false 3 2
      bump_mobjs [bump_sigma; bump_sigma]
    = Ok (inr r) [bump_sigma; bump_sigma] /\
    Moffat.r_chisq r = 4 /\ Moffat.r_nok r = 7%nat /\
    Moffat.r_npar r = 6%nat.
Proof.
  destruct bump_Moffat_two_pass as (p & Htp & Hfit & Hs & _).
  rewrite Moffat_body_eq.
  rewrite (body_unfold _ Moffat_sigma1 bump_window Moffat.fit Moffat.soln 2
             Moffat_again Moffat_done
             (Moffat_stage_sigma1 _ _ _ _ _ _ _ _ _ _)
             bump_mobjs _ bump_mobjs p Htp).
  cbv zeta. rewrite Hfit, Hs.
  change (contents [bump_sigma; bump_sigma] (Moffat_sigma1 bump_mobjs))
    with bump_sigma.
  rewrite bump_resid, bump_included.
  cbn [select List.length].
  replace (sum (map (fun v => v ^ 2) [2; 0; 0; 0; 0; 0; 0])) with 4
    by (cbn [map sum fold_right]; ring).
  change (IZR (Z.of_nat 7 - Z.of_nat 6)) with 1.
  replace (sqrt (4 / 1)) with 2.
  2:{ replace (4 / 1) with (2 * 2) by lra. rewrite sqrt_square; lra. }
  rewrite bump_within by lra.
  cbn [band map2 andb].
  assert (Hrej : imul_masked bump_sigma
                   [false; false; false; false; false; false; false] (-1)
                 = bump_sigma) by reflexivity.
  rewrite !Hrej, bump_sigma_count.
  eexists. split; [reflexivity|].
  cbn [Moffat_done Moffat.r_chisq Moffat.r_nok Moffat.r_npar].
  rewrite Hs. repeat split; reflexivity.
Qed.

Lemma bump_Moffat_run :
  exists r,
    Moffat.fitMoffat spread_solver bump_window 5 0 0 0 1 (1/2) false 3 2 8
      (Scalar 0) bump_gain [] = Ok r [bump_sigma; bump_sigma] /\
    Moffat.r_chisq r = 4 /\ Moffat.r_nok r = 7%nat /\
    Moffat.r_npar r = 6%nat.
Proof.
  destruct bump_Moffat_body as (r & Hb & Hr).
  exists r. split; [|exact Hr].
  unfold Moffat.fitMoffat, bind. rewrite bump_mconstruct.
  cbn [while_true]. unfold bind. rewrite Hb. reflexivity.
Qed.

(** The fixed-FWHM pass of [fitGaussian] on the window. *)
Lemma bump_Gauss_two_pass :
  exists o' p,
    Gauss.two_pass spread_solver bump_window 5 0 0 0 1 (1/2) true
      bump_gobjs [bump_sigma; bump_sigma]
    = Ok (o', p) [bump_sigma; bump_sigma] /\
    Window.data (Gauss.fit p) = [5; 5; 5; 5; 5; 5; 5] /\
    Gauss.soln p = [5; 0; 0; 0] /\
    (Gauss.skyfe p, Gauss.heightfe p, Gauss.xfe p, Gauss.yfe p,
     Gauss.fwhmfe p) = (2, 3, 4, 5, -1).
Proof.
  destruct (spread_errors4
              (fun q => eval (Gfit2.call
                                (Gfit2.set_fwhm (Gauss.gfit2 bump_gobjs) 1) q)
                          [bump_sigma; bump_sigma])
              [5; 0; 0; 0]
              (fun q => eval (Dgfit2.call
                                (Dgfit2.set_fwhm (Gauss.dgfit2 bump_gobjs) 1) q)
                          [bump_sigma; bump_sigma]) eq_refl)
    as (cov & Hc & He).
  eexists. eexists. split; [|split; [|split]].
  - eapply Gauss_fixed_run; [reflexivity | unfold status_ok; cbn; lia | ].
    unfold Gauss_fixed_outcome.
    exists 5, 0, 0, 0, cov, 2, 3, 4, 5.
    split; [reflexivity|]. split; [exact Hc|]. split; [exact He|].
    split; reflexivity.
  - cbn [Gauss.fit Window.data Gauss.gfit2 bump_gobjs Gfit2.xy].
    apply bump_gaussian_model.
  - reflexivity.
  - reflexivity.
Qed.

Lemma bump_Gauss_bound : 2 < sqrt (4 / IZR (7 - 4)) * 2.
Proof.
  assert (1 < sqrt (4 / IZR (7 - 4))).
  { rewrite <- sqrt_1 at 1. apply sqrt_lt_1_alt. cbn. lra. }
  lra.
Qed.

(** The turn of [fitGaussian] with the FWHM held at 1 and a threshold of
    2: four parameters for seven pixels and a chi-square of 4 give a scale
    factor of sqrt(4/3), no pixel is beyond twice that, and the turn
    returns. *)
Lemma bump_Gauss_body :
  exists r,
    Gauss.body spread_solver bump_window 5 0 0 0 1 (1/2) true 2
      bump_gobjs [bump_sigma; bump_sigma]
    = Ok (inr r) [bump_sigma; bump_sigma] /\
    Gauss.r_chisq r = 4 /\ Gauss.r_nok r = 7%nat /\
    Gauss.r_npar r = 4%nat.
Proof.
  destruct bump_Gauss_two_pass as (o' & p & Htp & Hfit & Hs & _).
  rewrite Gauss_body_eq.
  rewrite (body_unfold _ Gauss_sigma1 bump_window Gauss.fit Gauss.soln 2
             Gauss_again Gauss_done (Gauss_stage_sigma1 _ _ _ _ _ _ _ _ _)
             bump_gobjs _ o' p Htp).
  cbv zeta. rewrite Hfit, Hs.
  change (contents [bump_sigma; bump_sigma] (Gauss_sigma1 bump_gobjs))
    with bump_sigma.
  rewrite bump_resid, bump_included.
  cbn [select List.length].
  replace (sum (map (fun v => v ^ 2) [2; 0; 0; 0; 0; 0; 0])) with 4
    by (cbn [map sum fold_right]; ring).
  change (IZR (Z.of_nat 7 - Z.of_nat 4)) with (IZR (7 - 4)).
  rewrite (bump_within _ bump_Gauss_bound).
  cbn [band map2 andb].
  assert (Hrej : imul_masked bump_sigma
                   [false; false; false; false; false; false; false] (-1)
                 = bump_sigma) by reflexivity.
  rewrite !Hrej, bump_sigma_count.
  eexists. split; [reflexivity|].
  cbn [Gauss_done Gauss.r_chisq Gauss.r_nok Gauss.r_npar].
  rewrite Hs. repeat split; reflexivity.
Qed.

Lemma bump_Gauss_run :
  exists r,
    Gauss.fitGaussian spread_solver bump_window 5 0 0 0 1 (1/2) true 2 8
      (Scalar 0) bump_gain [] = Ok r [bump_sigma; bump_sigma] /\
    Gauss.r_chisq r = 4 /\ Gauss.r_nok r = 7%nat /\
    Gauss.r_npar r = 4%nat.
Proof.
  destruct bump_Gauss_body as (r & Hb & Hr).
  exists r. split; [|exact Hr].
  unfold Gauss.fitGaussian, bind. rewrite bump_gconstruct.
  cbn [while_true]. unfold bind. rewrite Hb. reflexivity.
Qed.

(** ** The drivers: two-stage fit, rejection, errors, termination *)






Lemma sqrt_entry_scaled (l : array) (k : nat) (e sfac : R) :
  nth_error (map sqrt l) k = Some e ->
  (if Rgtb e 0 then e * sfac else e) = e * sfac.
Proof.
  intro H. rewrite nth_error_map in H.
  destruct (nth_error l k) as [x|]; [|discriminate].
  cbn in H. inversion H; subst e.
  destruct (Rgtb (sqrt x) 0) eqn:Hg; [reflexivity|].
  assert (Hz : sqrt x = 0).
  { pose proof (sqrt_pos x).
    destruct (Rle_lt_or_eq_dec 0 (sqrt x) H0) as [Hlt|Heq]; [|now symmetry].
    apply Rgtb_true in Hlt. congruence. }
  rewrite Hz. ring.
Qed.

(** C3 (final error rescaling).  When a call on a well-shaped window
    returns, it returns from a turn of the loop in which the two-pass fit
    gave the local variables [p] and no pixel was rejected.  The returned
    number of parameters, number of included pixels, sigma array, fit and
    chi-square are those of that turn, and the scale factor sfac of the
    turn is sqrt(chisq/(nok - npar)) on them.  When the FWHM was held fixed
    ([fwhm_fix], or the fall-back at [fwhm_min] after a free solve whose
    FWHM was at most [fwhm_min]) the returned FWHM error is the sentinel
    -1, not scaled; when it was fitted (free solve with a FWHM above
    [fwhm_min], kept) it is the square root of its diagonal entry of the
    covariance matrix multiplied by sfac.  Every other returned standard
    error is the square root of the diagonal entry of the covariance matrix
    of the solve that was kept, multiplied by sfac.  The values that depend
    on sfac are stated for a turn with more included pixels than
    parameters, where it is defined. *)
Theorem final_error_rescaling :
  forall (leastsq : solver) (wind : Window.t)
         (sky height xcen ycen fwhm fwhm_min : R) (fwhm_fix : bool)
         (beta thresh : R) (read gain : operand) (fuel : nat) (h h' : heap),
    Window.shaped wind ->
    (forall r : Moffat.result,
        Moffat.fitMoffat leastsq wind sky height xcen ycen fwhm fwhm_min
          fwhm_fix beta thresh fuel read gain h = Ok r h' ->
        exists o hl o' p,
          Moffat_turn leastsq wind sky height xcen ycen fwhm fwhm_min
            fwhm_fix beta thresh read gain h o hl /\
          Moffat.two_pass leastsq wind sky height xcen ycen fwhm fwhm_min
            fwhm_fix beta o hl = Ok (o', p) hl /\
          Moffat.body leastsq wind sky height xcen ycen fwhm fwhm_min
            fwhm_fix beta thresh o hl = Ok (inr r) h' /\
          let sig := contents hl (Moffat_sigma1 o) in
          let npar := List.length (Moffat.soln p) in
          let sfac :=
            sfac_spec (Window.data wind) (Window.data (Moffat.fit p)) sig
              npar in
          let free :=
            Moffat_free_solve leastsq sky height xcen ycen fwhm beta o hl in
          Moffat.r_npar r = npar /\
          Moffat.r_nok r = count_pos sig /\
          Moffat.r_sigma r = sig /\
          Moffat.r_fit r = Moffat.fit p /\
          Moffat.r_chisq r
          = chisq_spec (Window.data wind) (Window.data (Moffat.fit p)) sig /\
          sfac = sqrt (Moffat.r_chisq r
                       / IZR (Z.of_nat (Moffat.r_nok r)
                              - Z.of_nat (Moffat.r_npar r))) /\
          ((exists fw cov ea eb ec ed ee,
               ((fwhm_fix = true /\ fw = fwhm) \/
                (fwhm_fix = false /\ fw = fwhm_min /\
                 exists a b c d w e,
                   Lsq.soln free = [a; b; c; d; w; e] /\ w <= fwhm_min)) /\
               Lsq.covar (Moffat_fixed_solve leastsq sky height xcen ycen
                            beta fw o hl) = Some cov /\
               map sqrt (diag cov) = [ea; eb; ec; ed; ee] /\
               npar = 5%nat /\
               (exists e1 e2 e3 e4 e6,
                   Moffat.sigs r = (e1, e2, e3, e4, -1, e6)) /\
               ((npar < count_pos sig)%nat ->
                Moffat.sigs r
                = (ea * sfac, eb * sfac, ec * sfac, ed * sfac, -1,
                   ee * sfac)))
           \/
           (exists cov ea eb ec ed ew ee a b c d w e,
               fwhm_fix = false /\
               Lsq.soln free = [a; b; c; d; w; e] /\ w > fwhm_min /\
               Lsq.covar free = Some cov /\
               map sqrt (diag cov) = [ea; eb; ec; ed; ew; ee] /\
               npar = 6%nat /\
               ((npar < count_pos sig)%nat ->
                Moffat.sigs r
                = (ea * sfac, eb * sfac, ec * sfac, ed * sfac, ew * sfac,
                   ee * sfac))))) /\
    (forall r : Gauss.result,
        Gauss.fitGaussian leastsq wind sky height xcen ycen fwhm fwhm_min
          fwhm_fix thresh fuel read gain h = Ok r h' ->
        exists o hl o' p,
          Gauss_turn leastsq wind sky height xcen ycen fwhm fwhm_min
            fwhm_fix thresh read gain h o hl /\
          Gauss.two_pass leastsq wind sky height xcen ycen fwhm fwhm_min
            fwhm_fix o hl = Ok (o', p) hl /\
          Gauss.body leastsq wind sky height xcen ycen fwhm fwhm_min
            fwhm_fix thresh o hl = Ok (inr r) h' /\
          let sig := contents hl (Gauss_sigma1 o) in
          let npar := List.length (Gauss.soln p) in
          let sfac :=
            sfac_spec (Window.data wind) (Window.data (Gauss.fit p)) sig
              npar in
          let free :=
            Gauss_free_solve leastsq sky height xcen ycen fwhm o hl in
          Gauss.r_npar r = npar /\
          Gauss.r_nok r = count_pos sig /\
          Gauss.r_sigma r = sig /\
          Gauss.r_fit r = Gauss.fit p /\
          Gauss.r_chisq r
          = chisq_spec (Window.data wind) (Window.data (Gauss.fit p)) sig /\
          sfac = sqrt (Gauss.r_chisq r
                       / IZR (Z.of_nat (Gauss.r_nok r)
                              - Z.of_nat (Gauss.r_npar r))) /\
          ((exists fw cov ea eb ec ed,
               ((fwhm_fix = true /\ fw = fwhm) \/
                (fwhm_fix = false /\ fw = fwhm_min /\
                 exists a b c d w,
                   Lsq.soln free = [a; b; c; d; w] /\ w <= fwhm_min)) /\
               Lsq.covar (Gauss_fixed_solve leastsq sky height xcen ycen
                            fw o hl) = Some cov /\
               map sqrt (diag cov) = [ea; eb; ec; ed] /\
               npar = 4%nat /\
               (exists e1 e2 e3 e4,
                   Gauss.sigs r = (e1, e2, e3, e4, -1)) /\
               ((npar < count_pos sig)%nat ->
                Gauss.sigs r
                = (ea * sfac, eb * sfac, ec * sfac, ed * sfac, -1)))
           \/
           (exists cov ea eb ec ed ew a b c d w,
               fwhm_fix = false /\
               Lsq.soln free = [a; b; c; d; w] /\ w > fwhm_min /\
               Lsq.covar free = Some cov /\
               map sqrt (diag cov) = [ea; eb; ec; ed; ew] /\
               npar = 5%nat /\
               ((npar < count_pos sig)%nat ->
                Gauss.sigs r
                = (ea * sfac, eb * sfac, ec * sfac, ed * sfac,
                   ew * sfac))))).
Proof.
  intros leastsq wind sky height xcen ycen fwhm fwhm_min fwhm_fix beta thresh
    read gain fuel h h' Hw.
  split; intros r H.
  - apply fitMoffat_Ok in H. destruct H as (o & hl & Ht & Hb).
    destruct (Moffat_turn_inv _ _ _ _ _ _ _ _ _ _ _ _ _ _ _ _ Ht)
      as (s & _ & _ & _ & Hl & Hsh).
    destruct (Moffat_body_exact _ _ _ _ _ _ _ _ _ _ _ _ _ _ _ Hw (Hsh Hw) Hl Hb)
      as (o' & p & Htp & _ & _ & Hx).
    exists o, hl, o', p.
    split; [assumption|]. split; [assumption|]. split; [assumption|].
    cbv zeta in Hx. destruct Hx as (_ & _ & _ & _ & [[E _]|[E _]]);
      [discriminate|].
    inversion E; subst r; clear E.
    cbv zeta.
    cbn [Moffat_done Moffat.r_chisq Moffat.r_nok Moffat.r_npar Moffat.r_fit
         Moffat.r_sigma Moffat.sigs].
    do 6 (split; [reflexivity|]).
    apply Moffat_two_pass_Ok in Htp. destruct Htp as (_ & Htp).
    assert (Hfixed : forall fw,
      Moffat_fixed_outcome wind fw
        (Moffat_fixed_solve leastsq sky height xcen ycen beta fw o hl) o o' p ->
      exists cov ea eb ec ed ee,
        Lsq.covar (Moffat_fixed_solve leastsq sky height xcen ycen beta fw
                     o hl) = Some cov /\
        map sqrt (diag cov) = [ea; eb; ec; ed; ee] /\
        List.length (Moffat.soln p) = 5%nat /\
        Moffat.skyfe p = ea /\ Moffat.heightfe p = eb /\ Moffat.xfe p = ec /\
        Moffat.yfe p = ed /\ Moffat.fwhmfe p = -1 /\ Moffat.betafe p = ee).
    { intros fw (a & b & c & d & e & cov & ea & eb & ec & ed & ee
                 & _ & Hc & He & _ & ->).
      exists cov, ea, eb, ec, ed, ee. repeat split; assumption. }
    destruct Htp as [(Hf & _ & Ho)
                    |(Hf & _ & a & b & c & d & w & e & Hsol
                      & [(Hgt & Ho)|(Hle & _ & Ho)])].
    + left. destruct (Hfixed _ Ho)
        as (cov & ea & eb & ec & ed & ee & Hc & He & Hn
            & -> & -> & -> & -> & -> & ->).
      exists fwhm, cov, ea, eb, ec, ed, ee.
      rewrite (Rgtb_false (-1) 0) by lra.
      split; [left; split; [assumption|reflexivity]|].
      split; [assumption|]. split; [assumption|]. split; [assumption|].
      split; [|intros _; reflexivity].
      do 5 eexists. reflexivity.
    + right.
      destruct Ho as (a' & b' & c' & d' & w' & e' & cov & ea & eb & ec & ed
                      & ew & ee & Hsol' & _ & Hc & He & _ & ->).
      exists cov, ea, eb, ec, ed, ew, ee, a, b, c, d, w, e.
      cbn [Moffat.skyfe Moffat.heightfe Moffat.xfe Moffat.yfe Moffat.fwhmfe
           Moffat.betafe Moffat.soln].
      rewrite (sqrt_entry_scaled (diag cov) 4 ew) by (now rewrite He).
      split; [assumption|]. split; [assumption|]. split; [assumption|].
      split; [assumption|]. split; [assumption|].
      split; [reflexivity|intros _; reflexivity].
    + left. destruct (Hfixed _ Ho)
        as (cov & ea & eb & ec & ed & ee & Hc & He & Hn
            & -> & -> & -> & -> & -> & ->).
      exists fwhm_min, cov, ea, eb, ec, ed, ee.
      rewrite (Rgtb_false (-1) 0) by lra.
      split.
      { right. split; [assumption|]. split; [reflexivity|].
        exists a, b, c, d, w, e. split; assumption. }
      split; [assumption|]. split; [assumption|]. split; [assumption|].
      split; [|intros _; reflexivity].
      do 5 eexists. reflexivity.
  - apply fitGaussian_Ok in H. destruct H as (o & hl & Ht & Hb).
    destruct (Gauss_turn_inv _ _ _ _ _ _ _ _ _ _ _ _ _ _ _ Ht)
      as (s & _ & _ & _ & Hl & Hsh).
    destruct (Gauss_body_exact _ _ _ _ _ _ _ _ _ _ _ _ _ _ Hw (Hsh Hw) Hl Hb)
      as (o' & p & Htp & _ & _ & Hx).
    exists o, hl, o', p.
    split; [assumption|]. split; [assumption|]. split; [assumption|].
    cbv zeta in Hx. destruct Hx as (_ & _ & _ & _ & [[E _]|[E _]]);
      [discriminate|].
    inversion E; subst r; clear E.
    cbv zeta.
    cbn [Gauss_done Gauss.r_chisq Gauss.r_nok Gauss.r_npar Gauss.r_fit
         Gauss.r_sigma Gauss.sigs].
    do 6 (split; [reflexivity|]).
    apply Gauss_two_pass_Ok in Htp. destruct Htp as (_ & Htp).
    assert (Hfixed : forall fw,
      Gauss_fixed_outcome wind fw
        (Gauss_fixed_solve leastsq sky height xcen ycen fw o hl) o o' p ->
      exists cov ea eb ec ed,
        Lsq.covar (Gauss_fixed_solve leastsq sky height xcen ycen fw
                     o hl) = Some cov /\
        map sqrt (diag cov) = [ea; eb; ec; ed] /\
        List.length (Gauss.soln p) = 4%nat /\
        Gauss.skyfe p = ea /\ Gauss.heightfe p = eb /\ Gauss.xfe p = ec /\
        Gauss.yfe p = ed /\ Gauss.fwhmfe p = -1).
    { intros fw (a & b & c & d & cov & ea & eb & ec & ed
                 & _ & Hc & He & _ & ->).
      exists cov, ea, eb, ec, ed. repeat split; assumption. }
    destruct Htp as [(Hf & _ & Ho)
                    |(Hf & _ & a & b & c & d & w & Hsol
                      & [(Hgt & Ho)|(Hle & _ & Ho)])].
    + left. destruct (Hfixed _ Ho)
        as (cov & ea & eb & ec & ed & Hc & He & Hn & -> & -> & -> & -> & ->).
      exists fwhm, cov, ea, eb, ec, ed.
      rewrite (Rgtb_false (-1) 0) by lra.
      split; [left; split; [assumption|reflexivity]|].
      split; [assumption|]. split; [assumption|]. split; [assumption|].
      split; [|intros _; reflexivity].
      do 4 eexists. reflexivity.
    + right.
      destruct Ho as (a' & b' & c' & d' & w' & cov & ea & eb & ec & ed
                      & ew & Hsol' & _ & Hc & He & _ & ->).
      exists cov, ea, eb, ec, ed, ew, a, b, c, d, w.
      cbn [Gauss.skyfe Gauss.heightfe Gauss.xfe Gauss.yfe Gauss.fwhmfe
           Gauss.soln].
      rewrite (sqrt_entry_scaled (diag cov) 4 ew) by (now rewrite He).
      split; [assumption|]. split; [assumption|]. split; [assumption|].
      split; [assumption|]. split; [assumption|].
      split; [reflexivity|intros _; reflexivity].
    + left. destruct (Hfixed _ Ho)
        as (cov & ea & eb & ec & ed & Hc & He & Hn & -> & -> & -> & -> & ->).
      exists fwhm_min, cov, ea, eb, ec, ed.
      rewrite (Rgtb_false (-1) 0) by lra.
      split.
      { right. split; [assumption|]. split; [reflexivity|].
        exists a, b, c, d, w. split; assumption. }
      split; [assumption|]. split; [assumption|]. split; [assumption|].
      split; [|intros _; reflexivity].
      do 4 eexists. reflexivity.
Qed.

Lemma final_error_rescaling_witness :
  Window.shaped bump_window /\
  (exists r : Moffat.result,
      Moffat.fitMoffat spread_solver bump_window 5 0 0 0 1 (1/2) false 3 2 8
        (Scalar 0) bump_gain [] = Ok r [bump_sigma; bump_sigma] /\
      Moffat.sigs r = (2 * 2, 3 * 2, 4 * 2, 5 * 2, 6 * 2, 7 * 2)) /\
  (exists r : Gauss.result,
      Gauss.fitGaussian spread_solver bump_window 5 0 0 0 1 (1/2) true 2 8
        (Scalar 0) bump_gain [] = Ok r [bump_sigma; bump_sigma] /\
      Gauss.sigs r
      = (2 * sqrt (4 / 3), 3 * sqrt (4 / 3), 4 * sqrt (4 / 3),
         5 * sqrt (4 / 3), -1)).
Proof.
  split; [exact bump_window_shaped|].
  split.
  - destruct bump_Moffat_run as (r & Hr & Hchisq & Hnok & Hnpar).
    exists r. split; [exact Hr|].
    destruct (final_error_rescaling spread_solver bump_window 5 0 0 0 1 (1/2)
                false 3 2 (Scalar 0) bump_gain 8 []
                [bump_sigma; bump_sigma] bump_window_shaped) as [HM _].
    destruct (HM r Hr) as (o & hl & o' & p & _ & _ & _ & H).
    cbv zeta in H.
    destruct H as (Hn & Hk & _ & _ & _ & Hs & H).
    rewrite Hchisq, Hnok, Hnpar in Hs.
    change (IZR (Z.of_nat 7 - Z.of_nat 6)) with 1 in Hs.
    replace (sqrt (4 / 1)) with 2 in Hs.
    2:{ replace (4 / 1) with (2 * 2) by lra. rewrite sqrt_square; lra. }
    assert (Hdof : (List.length (Moffat.soln p)
                    < count_pos (contents hl (Moffat_sigma1 o)))%nat)
      by (rewrite <- Hn, <- Hk, Hnok, Hnpar; lia).
    destruct H as [(fw & cov & ea & eb & ec & ed & ee & Hcase & _)
                  |(cov & ea & eb & ec & ed & ew & ee & a & b & c & d & w & e
                    & _ & _ & _ & Hc & He & _ & H)].
    + exfalso.
      destruct Hcase as [(Hf & _)|(_ & _ & a & b & c & d & w & e & Hsol & Hle)];
        [discriminate|].
      cbn in Hsol. inversion Hsol; subst. lra.
    + rewrite (H Hdof), Hs.
      destruct (spread_errors6
                  (fun q => eval (Mfit1.call (Moffat.mfit1 o) q) hl)
                  [5; 0; 0; 0; 1; 3]
                  (fun q => eval (Dmfit1.call (Moffat.dmfit1 o) q) hl)
                  eq_refl) as (cov' & Hc' & He').
      unfold Moffat_free_solve in Hc. rewrite Hc in Hc'.
      inversion Hc'; subst cov'. rewrite He in He'.
      inversion He'; subst. reflexivity.
  - destruct bump_Gauss_run as (r & Hr & Hchisq & Hnok & Hnpar).
    exists r. split; [exact Hr|].
    destruct (final_error_rescaling spread_solver bump_window 5 0 0 0 1 (1/2)
                true 0 2 (Scalar 0) bump_gain 8 []
                [bump_sigma; bump_sigma] bump_window_shaped) as [_ HG].
    destruct (HG r Hr) as (o & hl & o' & p & _ & _ & _ & H).
    cbv zeta in H.
    destruct H as (Hn & Hk & _ & _ & _ & Hs & H).
    rewrite Hchisq, Hnok, Hnpar in Hs.
    change (IZR (Z.of_nat 7 - Z.of_nat 4)) with 3 in Hs.
    assert (Hdof : (List.length (Gauss.soln p)
                    < count_pos (contents hl (Gauss_sigma1 o)))%nat)
      by (rewrite <- Hn, <- Hk, Hnok, Hnpar; lia).
    destruct H as [(fw & cov & ea & eb & ec & ed & _ & Hc & He & _ & _ & H)
                  |(cov & ea & eb & ec & ed & ew & a & b & c & d & w
                    & Hf & _)]; [|discriminate].
    rewrite (H Hdof), Hs.
    destruct (spread_errors4
                (fun q => eval (Gfit2.call
                                  (Gfit2.set_fwhm (Gauss.gfit2 o) fw) q) hl)
                [5; 0; 0; 0]
                (fun q => eval (Dgfit2.call
                                  (Dgfit2.set_fwhm (Gauss.dgfit2 o) fw) q) hl)
                eq_refl) as (cov' & Hc' & He').
    unfold Gauss_fixed_solve in Hc. rewrite Hc in Hc'.
    inversion Hc'; subst cov'. rewrite He in He'.
    inversion He'; subst. reflexivity.
Defined.

(** C7 (solver failure handling).  A least-squares solve of the drivers
    raises [HipercamError], with the solver's message, exactly when the
    status [ier] of the solver is outside 1 to 4, and otherwise returns the
    solver's output.  A turn of the loop raises [HipercamError] exactly when
    one of the solves it runs (the fixed-FWHM solve under [fwhm_fix]; else
    the free-FWHM solve, then the fall-back solve at [fwhm_min]) has such a
    status.  A call that raises [HipercamError] does so in a turn, and an
    exception raised in a turn is the outcome of the whole call: no result
    is returned. *)
Theorem solver_failure :
  forall (leastsq : solver) (wind : Window.t)
         (sky height xcen ycen fwhm fwhm_min : R) (fwhm_fix : bool)
         (beta thresh : R) (read gain : operand) (h : heap),
    (forall func param Dfun,
        let out := leastsq (fun p => eval (func p) h) param
                           (fun p => eval (Dfun p) h) in
        (solve leastsq func param Dfun h = Raise (HipercamError (Lsq.mesg out))
         <-> ~ status_ok out) /\
        (solve leastsq func param Dfun h = Ok out h <-> status_ok out)) /\
    (forall (o : Moffat.objs) (hl : heap) (mesg : string),
        let free :=
          Moffat_free_solve leastsq sky height xcen ycen fwhm beta o hl in
        let fixed fw :=
          Moffat_fixed_solve leastsq sky height xcen ycen beta fw o hl in
        Moffat.body leastsq wind sky height xcen ycen fwhm fwhm_min fwhm_fix
          beta thresh o hl = Raise (HipercamError mesg)
        <->
        ((fwhm_fix = true /\ ~ status_ok (fixed fwhm) /\
          mesg = Lsq.mesg (fixed fwhm)) \/
         (fwhm_fix = false /\ ~ status_ok free /\ mesg = Lsq.mesg free) \/
         (fwhm_fix = false /\ status_ok free /\
          (exists a b c d w e,
              Lsq.soln free = [a; b; c; d; w; e] /\ w <= fwhm_min) /\
          ~ status_ok (fixed fwhm_min) /\
          mesg = Lsq.mesg (fixed fwhm_min)))) /\
    (forall (o : Gauss.objs) (hl : heap) (mesg : string),
        let free :=
          Gauss_free_solve leastsq sky height xcen ycen fwhm o hl in
        let fixed fw :=
          Gauss_fixed_solve leastsq sky height xcen ycen fw o hl in
        Gauss.body leastsq wind sky height xcen ycen fwhm fwhm_min fwhm_fix
          thresh o hl = Raise (HipercamError mesg)
        <->
        ((fwhm_fix = true /\ ~ status_ok (fixed fwhm) /\
          mesg = Lsq.mesg (fixed fwhm)) \/
         (fwhm_fix = false /\ ~ status_ok free /\ mesg = Lsq.mesg free) \/
         (fwhm_fix = false /\ status_ok free /\
          (exists a b c d w,
              Lsq.soln free = [a; b; c; d; w] /\ w <= fwhm_min) /\
          ~ status_ok (fixed fwhm_min) /\
          mesg = Lsq.mesg (fixed fwhm_min)))) /\
    (forall (fuel : nat) (mesg : string),
        Moffat.fitMoffat leastsq wind sky height xcen ycen fwhm fwhm_min
          fwhm_fix beta thresh fuel read gain h = Raise (HipercamError mesg) ->
        exists o hl,
          Moffat_turn leastsq wind sky height xcen ycen fwhm fwhm_min
            fwhm_fix beta thresh read gain h o hl /\
          Moffat.body leastsq wind sky height xcen ycen fwhm fwhm_min
            fwhm_fix beta thresh o hl = Raise (HipercamError mesg)) /\
    (forall (fuel : nat) (mesg : string),
        Gauss.fitGaussian leastsq wind sky height xcen ycen fwhm fwhm_min
          fwhm_fix thresh fuel read gain h = Raise (HipercamError mesg) ->
        exists o hl,
          Gauss_turn leastsq wind sky height xcen ycen fwhm fwhm_min
            fwhm_fix thresh read gain h o hl /\
          Gauss.body leastsq wind sky height xcen ycen fwhm fwhm_min
            fwhm_fix thresh o hl = Raise (HipercamError mesg)) /\
    (forall (fuel : nat) (o : Moffat.objs) (hl : heap) (e : exn),
        (List.length (Window.data wind) < fuel)%nat ->
        Moffat_turn leastsq wind sky height xcen ycen fwhm fwhm_min
          fwhm_fix beta thresh read gain h o hl ->
        Moffat.body leastsq wind sky height xcen ycen fwhm fwhm_min
          fwhm_fix beta thresh o hl = Raise e ->
        Moffat.fitMoffat leastsq wind sky height xcen ycen fwhm fwhm_min
          fwhm_fix beta thresh fuel read gain h = Raise e) /\
    (forall (fuel : nat) (o : Gauss.objs) (hl : heap) (e : exn),
        (List.length (Window.data wind) < fuel)%nat ->
        Gauss_turn leastsq wind sky height xcen ycen fwhm fwhm_min
          fwhm_fix thresh read gain h o hl ->
        Gauss.body leastsq wind sky height xcen ycen fwhm fwhm_min
          fwhm_fix thresh o hl = Raise e ->
        Gauss.fitGaussian leastsq wind sky height xcen ycen fwhm fwhm_min
          fwhm_fix thresh fuel read gain h = Raise e).
Proof.
  intros leastsq wind sky height xcen ycen fwhm fwhm_min fwhm_fix beta thresh
    read gain h.
  split; [|split; [|split; [|split; [|split; [|split]]]]].
  - intros func param Dfun out.
    destruct (solve_status leastsq func param Dfun h) as [Hok Hbad].
    fold out in Hok, Hbad. split; split.
    + intros H Hst. rewrite (Hok Hst) in H. discriminate.
    + exact Hbad.
    + intro H. apply solve_Ok in H. destruct H as (_ & _ & H). exact H.
    + exact Hok.
  - intros o hl mesg. cbv zeta. rewrite Moffat_body_raise.
    apply Moffat_two_pass_Raise.
  - intros o hl mesg. cbv zeta. rewrite Gauss_body_raise.
    apply Gauss_two_pass_Raise.
  - intros fuel mesg H. apply fitMoffat_Raise in H.
    destruct H as [[E _]|H]; [discriminate|exact H].
  - intros fuel mesg H. apply fitGaussian_Raise in H.
    destruct H as [[E _]|H]; [discriminate|exact H].
  - intros fuel o hl e Hf Ht Hb. eapply fitMoffat_aborts; eauto.
  - intros fuel o hl e Hf Ht Hb. eapply fitGaussian_aborts; eauto.
Qed.

Lemma solver_failure_witness :
  Moffat.fitMoffat failing_solver flat_window 5 0 0 0 1 2 false 3 4 3
    (Scalar 1) (Scalar 1) []
  = Raise (HipercamError "Number of calls to function has reached maxfev") /\
  Gauss.fitGaussian failing_solver flat_window 5 0 0 0 1 2 true 4 3
    (Scalar 1) (Scalar 1) []
  = Raise (HipercamError "Number of calls to function has reached maxfev").
Proof.
  assert (Hbad : forall out, Lsq.ier out = 5%Z -> ~ status_ok out).
  { intros out E [_ H]. rewrite E in H. lia. }
  split.
  - destruct (solver_failure failing_solver flat_window 5 0 0 0 1 2 false 3 4
                (Scalar 1) (Scalar 1) [])
      as (_ & Hturn & _ & _ & _ & Habort & _).
    apply (Habort 3%nat flat_mobjs [flat_sigma; flat_sigma]).
    + cbn. lia.
    + exists flat_mobjs, [flat_sigma; flat_sigma].
      split; [apply flat_mconstruct|constructor].
    + apply Hturn. right. left.
      split; [reflexivity|]. split; [|reflexivity].
      apply Hbad. reflexivity.
  - destruct (solver_failure failing_solver flat_window 5 0 0 0 1 2 true 3 4
                (Scalar 1) (Scalar 1) [])
      as (_ & _ & Hturn & _ & _ & _ & Habort).
    apply (Habort 3%nat flat_gobjs [flat_sigma; flat_sigma]).
    + cbn. lia.
    + exists flat_gobjs, [flat_sigma; flat_sigma].
      split; [apply flat_gconstruct|constructor].
    + apply Hturn. left.
      split; [reflexivity|]. split; [|reflexivity].
      apply Hbad. reflexivity.
Defined.

(** C8 (termination of the rejection loop).  With more turns allowed than
    the window has pixels, a call never exhausts them: it returns or
    raises.  At the head of every turn the number of included pixels is at
    most the number of pixels of the window; a turn that goes round again
    has strictly fewer included pixels after it than before it, and on a
    well-shaped window a turn that ends the loop has rejected no pixel and
    left the store as it was. *)
Theorem rejection_loop_terminates :
  forall (leastsq : solver) (wind : Window.t)
         (sky height xcen ycen fwhm fwhm_min : R) (fwhm_fix : bool)
         (beta thresh : R) (read gain : operand) (fuel : nat) (h : heap),
    (List.length (Window.data wind) < fuel)%nat ->
    Moffat.fitMoffat leastsq wind sky height xcen ycen fwhm fwhm_min fwhm_fix
      beta thresh fuel read gain h <> OutOfFuel /\
    Gauss.fitGaussian leastsq wind sky height xcen ycen fwhm fwhm_min
      fwhm_fix thresh fuel read gain h <> OutOfFuel /\
    (forall o hl res h',
        Moffat_turn leastsq wind sky height xcen ycen fwhm fwhm_min fwhm_fix
          beta thresh read gain h o hl ->
        Moffat.body leastsq wind sky height xcen ycen fwhm fwhm_min fwhm_fix
          beta thresh o hl = Ok res h' ->
        let n := count_pos (contents hl (Moffat_sigma1 o)) in
        let n' := count_pos (contents h' (Moffat_sigma1 o)) in
        (n <= List.length (Window.data wind))%nat /\
        match res with
        | inl o2 => Moffat_sigma1 o2 = Moffat_sigma1 o /\ (n' < n)%nat
        | inr _ => Window.shaped wind -> n' = n /\ h' = hl
        end) /\
    (forall o hl res h',
        Gauss_turn leastsq wind sky height xcen ycen fwhm fwhm_min fwhm_fix
          thresh read gain h o hl ->
        Gauss.body leastsq wind sky height xcen ycen fwhm fwhm_min fwhm_fix
          thresh o hl = Ok res h' ->
        let n := count_pos (contents hl (Gauss_sigma1 o)) in
        let n' := count_pos (contents h' (Gauss_sigma1 o)) in
        (n <= List.length (Window.data wind))%nat /\
        match res with
        | inl o2 => Gauss_sigma1 o2 = Gauss_sigma1 o /\ (n' < n)%nat
        | inr _ => Window.shaped wind -> n' = n /\ h' = hl
        end).
Proof.
  intros leastsq wind sky height xcen ycen fwhm fwhm_min fwhm_fix beta thresh
    read gain fuel h Hf.
  split; [now apply fitMoffat_fuel|]. split; [now apply fitGaussian_fuel|].
  split; intros o hl res h' Ht Hb; cbv zeta.
  - destruct (Moffat_turn_inv _ _ _ _ _ _ _ _ _ _ _ _ _ _ _ _ Ht)
      as (s & _ & _ & _ & Hl & Hsh).
    split.
    { rewrite <- Hl. apply count_pos_le_length. }
    destruct res as [o2|r].
    + now destruct (Moffat_body_rejected _ _ _ _ _ _ _ _ _ _ _ _ _ _ _ Hb)
        as (_ & _ & _ & H).
    + intro Hw.
      destruct (Moffat_body_exact _ _ _ _ _ _ _ _ _ _ _ _ _ _ _ Hw (Hsh Hw) Hl Hb)
        as (o' & p & _ & _ & _ & Hx).
      cbv zeta in Hx. destruct Hx as (_ & _ & _ & _ & [[E _]|(_ & E & ->)]);
        [discriminate|].
      split; reflexivity.
  - destruct (Gauss_turn_inv _ _ _ _ _ _ _ _ _ _ _ _ _ _ _ Ht)
      as (s & _ & _ & _ & Hl & Hsh).
    split.
    { rewrite <- Hl. apply count_pos_le_length. }
    destruct res as [o2|r].
    + now destruct (Gauss_body_rejected _ _ _ _ _ _ _ _ _ _ _ _ _ _ Hb)
        as (_ & _ & _ & H).
    + intro Hw.
      destruct (Gauss_body_exact _ _ _ _ _ _ _ _ _ _ _ _ _ _ Hw (Hsh Hw) Hl Hb)
        as (o' & p & _ & _ & _ & Hx).
      cbv zeta in Hx. destruct Hx as (_ & _ & _ & _ & [[E _]|(_ & E & ->)]);
        [discriminate|].
      split; reflexivity.
Qed.


Lemma rejection_loop_terminates_witness :
  (List.length (Window.data spike_window) < 7)%nat /\
  Moffat.fitMoffat echo_solver spike_window 5 0 0 0 1 (1/2) true 3 1 7
    (Scalar 0) spike_gain [] <> OutOfFuel /\
  Gauss.fitGaussian echo_solver spike_window 5 0 0 0 1 (1/2) true 1 7
    (Scalar 0) spike_gain [] <> OutOfFuel /\
  (count_pos spike_rejected < count_pos spike_sigma)%nat /\
  (count_pos spike_sigma <= 6)%nat.
Proof.
  assert (Hf : (List.length (Window.data spike_window) < 7)%nat)
    by (cbn; lia).
  split; [exact Hf|].
  destruct (rejection_loop_terminates echo_solver spike_window 5 0 0 0 1 (1/2)
              true 3 1 (Scalar 0) spike_gain 7 [] Hf)
    as (HM & HG & _ & Hturn).
  split; [exact HM|]. split; [exact HG|].
  destruct (Hturn spike_gobjs [spike_sigma; spike_sigma]
              (inl (Gauss_again spike_gobjs)) [spike_rejected; spike_sigma]
              spike_turn_start spike_turn1) as (Hle & _ & Hlt).
  split; [exact Hlt|exact Hle].
Defined.

(** C10 (sigma-map invariant).  At the head of every turn of a call, and
    after the turn, every entry of the sigma array of [mfit1] (the array
    that is returned) has for absolute value the noise
    sqrt(read^2 + max(0, data)/gain) of its pixel, as constructed.  A turn
    changes an entry only by negating it, and only where it was positive;
    through any number of further turns an entry that is not positive does
    not become positive again. *)
Theorem sigma_map_invariant :
  forall (leastsq : solver) (wind : Window.t)
         (sky height xcen ycen fwhm fwhm_min : R) (fwhm_fix : bool)
         (beta thresh : R) (read gain : operand) (h : heap),
    (forall o hl,
        Moffat_turn leastsq wind sky height xcen ycen fwhm fwhm_min fwhm_fix
          beta thresh read gain h o hl ->
        let d := Window.data wind in
        let sig := contents hl (Moffat_sigma1 o) in
        exists r g,
          broadcast read (List.length d) = Some r /\
          broadcast gain (List.length d) = Some g /\
          List.length sig = List.length d /\
          (forall k dk rk gk sk,
              nth_error d k = Some dk -> nth_error r k = Some rk ->
              nth_error g k = Some gk -> nth_error sig k = Some sk ->
              Rabs sk = noise_spec rk dk gk) /\
          (forall res h',
              Moffat.body leastsq wind sky height xcen ycen fwhm fwhm_min
                fwhm_fix beta thresh o hl = Ok res h' ->
              let sig' := contents h' (Moffat_sigma1 o) in
              List.length sig' = List.length sig /\
              (forall res', res = inr res' -> Moffat.r_sigma res' = sig') /\
              forall k sk sk',
                nth_error sig k = Some sk -> nth_error sig' k = Some sk' ->
                (sk' = sk \/ (sk > 0 /\ sk' = - sk)) /\ Rabs sk' = Rabs sk) /\
          (forall o2 h2,
              reach (Moffat.body leastsq wind sky height xcen ycen fwhm
                       fwhm_min fwhm_fix beta thresh) o hl o2 h2 ->
              Moffat_sigma1 o2 = Moffat_sigma1 o /\
              forall k sk sk2,
                nth_error sig k = Some sk ->
                nth_error (contents h2 (Moffat_sigma1 o2)) k = Some sk2 ->
                ~ sk > 0 -> sk2 = sk /\ ~ sk2 > 0)) /\
    (forall o hl,
        Gauss_turn leastsq wind sky height xcen ycen fwhm fwhm_min fwhm_fix
          thresh read gain h o hl ->
        let d := Window.data wind in
        let sig := contents hl (Gauss_sigma1 o) in
        exists r g,
          broadcast read (List.length d) = Some r /\
          broadcast gain (List.length d) = Some g /\
          List.length sig = List.length d /\
          (forall k dk rk gk sk,
              nth_error d k = Some dk -> nth_error r k = Some rk ->
              nth_error g k = Some gk -> nth_error sig k = Some sk ->
              Rabs sk = noise_spec rk dk gk) /\
          (forall res h',
              Gauss.body leastsq wind sky height xcen ycen fwhm fwhm_min
                fwhm_fix thresh o hl = Ok res h' ->
              let sig' := contents h' (Gauss_sigma1 o) in
              List.length sig' = List.length sig /\
              (forall res', res = inr res' -> Gauss.r_sigma res' = sig') /\
              forall k sk sk',
                nth_error sig k = Some sk -> nth_error sig' k = Some sk' ->
                (sk' = sk \/ (sk > 0 /\ sk' = - sk)) /\ Rabs sk' = Rabs sk) /\
          (forall o2 h2,
              reach (Gauss.body leastsq wind sky height xcen ycen fwhm
                       fwhm_min fwhm_fix thresh) o hl o2 h2 ->
              Gauss_sigma1 o2 = Gauss_sigma1 o /\
              forall k sk sk2,
                nth_error sig k = Some sk ->
                nth_error (contents h2 (Gauss_sigma1 o2)) k = Some sk2 ->
                ~ sk > 0 -> sk2 = sk /\ ~ sk2 > 0)).
Proof.
  intros leastsq wind sky height xcen ycen fwhm fwhm_min fwhm_fix beta thresh
    read gain h.
  assert (Habs : forall s0 sig rk dk gk k sk,
    rejected_from s0 sig ->
    nth_error s0 k = Some (noise_spec rk dk gk) ->
    nth_error sig k = Some sk -> Rabs sk = noise_spec rk dk gk).
  { intros s0 sig rk dk gk k sk Hrej H0 Hk.
    destruct (rejected_from_nth _ _ _ _ _ Hrej H0 Hk) as [->|[_ ->]].
    - apply Rabs_pos_eq. apply sqrt_pos.
    - replace (noise_spec rk dk gk * -1) with (- noise_spec rk dk gk) by ring.
      rewrite Rabs_Ropp. apply Rabs_pos_eq. apply sqrt_pos. }
  assert (Hstep : forall sig sig' k sk sk',
    rejected_from sig sig' ->
    nth_error sig k = Some sk -> nth_error sig' k = Some sk' ->
    (sk' = sk \/ (sk > 0 /\ sk' = - sk)) /\ Rabs sk' = Rabs sk).
  { intros sig sig' k sk sk' Hrej Hk Hk'.
    destruct (rejected_from_nth _ _ _ _ _ Hrej Hk Hk') as [->|[Hp ->]].
    - split; [now left|reflexivity].
    - replace (sk * -1) with (- sk) by ring.
      split; [now right|apply Rabs_Ropp]. }
  assert (Hmono : forall sig sig2 k sk sk2,
    rejected_from sig sig2 ->
    nth_error sig k = Some sk -> nth_error sig2 k = Some sk2 ->
    ~ sk > 0 -> sk2 = sk /\ ~ sk2 > 0).
  { intros sig sig2 k sk sk2 Hrej Hk Hk2 Hn.
    destruct (rejected_from_nth _ _ _ _ _ Hrej Hk Hk2) as [->|[Hp _]];
      [split; auto|contradiction]. }
  split; intros o hl Ht; cbv zeta.
  - destruct (Moffat_turn_inv _ _ _ _ _ _ _ _ _ _ _ _ _ _ _ _ Ht)
      as (s & Hn & _ & Hrej & Hl & _).
    destruct (noise_Ok _ _ _ _ _ _ Hn) as (_ & r & g & Hr & Hg & Hs & _).
    exists r, g. split; [assumption|]. split; [assumption|].
    split; [assumption|]. split; [|split].
    + intros k dk rk gk sk Hd Hrk Hgk Hsk.
      apply (Habs s _ rk dk gk k sk Hrej); [|assumption].
      rewrite Hs. unfold noise_spec.
      etransitivity; [entry_solve | reflexivity].
    + intros res h' Hb.
      destruct (Moffat_body_rejected _ _ _ _ _ _ _ _ _ _ _ _ _ _ _ Hb)
        as (Hrej' & _ & _ & _).
      split; [now apply rejected_from_length|]. split.
      * intros res' ->.
        destruct (Moffat_body_step _ _ _ _ _ _ _ _ _ _ _ _ _ _ _ Hb)
          as (o' & p & _ & _ & Hx).
        cbv zeta in Hx. destruct Hx as (_ & Hc & [[_ E]|[_ E]]);
          [discriminate|].
        inversion E. now rewrite Hc.
      * intros k sk sk'. now apply Hstep.
    + intros o2 h2 Hr2.
      assert (Hrr : Moffat_sigma1 o2 = Moffat_sigma1 o /\
                    rejected_from (contents hl (Moffat_sigma1 o))
                                  (contents h2 (Moffat_sigma1 o)) /\
                    List.length h2 = List.length hl).
      { rewrite Moffat_body_eq in Hr2.
        eapply reach_rejected; [| | |exact Hr2].
        - apply reads_Moffat_two_pass.
        - apply Moffat_stage_sigma1.
        - reflexivity. }
      destruct Hrr as (Es & Hrej2 & _). split; [assumption|].
      rewrite Es. intros k sk sk2. now apply Hmono.
  - destruct (Gauss_turn_inv _ _ _ _ _ _ _ _ _ _ _ _ _ _ _ Ht)
      as (s & Hn & _ & Hrej & Hl & _).
    destruct (noise_Ok _ _ _ _ _ _ Hn) as (_ & r & g & Hr & Hg & Hs & _).
    exists r, g. split; [assumption|]. split; [assumption|].
    split; [assumption|]. split; [|split].
    + intros k dk rk gk sk Hd Hrk Hgk Hsk.
      apply (Habs s _ rk dk gk k sk Hrej); [|assumption].
      rewrite Hs. unfold noise_spec.
      etransitivity; [entry_solve | reflexivity].
    + intros res h' Hb.
      destruct (Gauss_body_rejected _ _ _ _ _ _ _ _ _ _ _ _ _ _ Hb)
        as (Hrej' & _ & _ & _).
      split; [now apply rejected_from_length|]. split.
      * intros res' ->.
        destruct (Gauss_body_step _ _ _ _ _ _ _ _ _ _ _ _ _ _ Hb)
          as (o' & p & _ & _ & Hx).
        cbv zeta in Hx. destruct Hx as (_ & Hc & [[_ E]|[_ E]]);
          [discriminate|].
        inversion E. now rewrite Hc.
      * intros k sk sk'. now apply Hstep.
    + intros o2 h2 Hr2.
      assert (Hrr : Gauss_sigma1 o2 = Gauss_sigma1 o /\
                    rejected_from (contents hl (Gauss_sigma1 o))
                                  (contents h2 (Gauss_sigma1 o)) /\
                    List.length h2 = List.length hl).
      { rewrite Gauss_body_eq in Hr2.
        eapply reach_rejected; [| | |exact Hr2].
        - apply reads_Gauss_two_pass.
        - apply Gauss_stage_sigma1.
        - reflexivity. }
      destruct Hrr as (Es & Hrej2 & _). split; [assumption|].
      rewrite Es. intros k sk sk2. now apply Hmono.
Qed.

Lemma sigma_map_invariant_witness :
  Gauss_turn echo_solver spike_window 5 0 0 0 1 (1/2) true 1 (Scalar 0)
    spike_gain [] (Gauss_again spike_gobjs) [spike_rejected; spike_sigma] /\
  Rabs (-1) = noise_spec 0 105 105 /\
  (forall o2 h2 sk2,
      reach (Gauss.body echo_solver spike_window 5 0 0 0 1 (1/2) true 1)
        (Gauss_again spike_gobjs) [spike_rejected; spike_sigma] o2 h2 ->
      nth_error (contents h2 (Gauss_sigma1 o2)) 5 = Some sk2 -> sk2 = -1).
Proof.
  split; [exact spike_turn_second|].
  destruct (sigma_map_invariant echo_solver spike_window 5 0 0 0 1 (1/2) true
              0 1 (Scalar 0) spike_gain []) as [_ HG].
  destruct (HG (Gauss_again spike_gobjs) [spike_rejected; spike_sigma]
              spike_turn_second) as (r & g & Hr & Hg & _ & Habs & _ & Hmono).
  cbn [broadcast spike_gain Window.data spike_window List.length Nat.eqb]
    in Hr, Hg.
  inversion Hr; subst r. inversion Hg; subst g. clear Hr Hg.
  split.
  - apply (Habs 5%nat 105 0 105 (-1)); reflexivity.
  - intros o2 h2 sk2 Hreach Hsk2.
    destruct (Hmono o2 h2 Hreach) as (_ & Hm).
    destruct (Hm 5%nat (-1) sk2 eq_refl Hsk2) as [E _]; [lra|exact E].
Defined.

(** ** Derivatives of the profile functions *)

Lemma dlim_val (f : R -> R) (x l l' : R) :
  derivable_pt_lim f x l -> l = l' -> derivable_pt_lim f x l'.
Proof. intros H <-. exact H. Qed.

Lemma dlim_ext (f g : R -> R) (x l : R) :
  (forall t, f t = g t) -> derivable_pt_lim f x l -> derivable_pt_lim g x l.
Proof.
  intros E H eps Heps. destruct (H eps Heps) as [d Hd].
  exists d. intros h Hh Hlt. rewrite <- !E. now apply Hd.
Qed.

(** The derivative at [x] only depends on the function near [x]. *)
Lemma dlim_ext_loc (f g : R -> R) (x l r : R) :
  0 < r -> (forall t, Rabs (t - x) < r -> f t = g t) ->
  derivable_pt_lim f x l -> derivable_pt_lim g x l.
Proof.
  intros Hr E H eps Heps. destruct (H eps Heps) as [d Hd].
  assert (Hm : 0 < Rmin d r) by (apply Rmin_pos; [apply cond_pos | exact Hr]).
  exists (mkposreal _ Hm). intros h Hh Hlt. cbn in Hlt.
  rewrite <- (E (x + h)), <- (E x).
  - apply Hd; [exact Hh|]. eapply Rlt_le_trans; [exact Hlt | apply Rmin_l].
  - replace (x - x) with 0 by ring. now rewrite Rabs_R0.
  - replace (x + h - x) with h by ring.
    eapply Rlt_le_trans; [exact Hlt | apply Rmin_r].
Qed.

(** Derivative of an expression, by the rules of differentiation applied
    along its syntax; the side conditions (a divisor that is not zero, a
    positive argument of [ln]) are left to the caller. *)
Ltac dlim :=
  lazymatch goal with
  | |- derivable_pt_lim (fun t => t) _ _ => apply derivable_pt_lim_id
  | |- derivable_pt_lim (fun _ => ?c) _ _ => apply (derivable_pt_lim_const c)
  | |- derivable_pt_lim (fun t => @?f t + @?g t) ?x _ =>
      apply (derivable_pt_lim_plus f g x); dlim
  | |- derivable_pt_lim (fun t => @?f t - @?g t) ?x _ =>
      apply (derivable_pt_lim_minus f g x); dlim
  | |- derivable_pt_lim (fun t => - @?f t) ?x _ =>
      apply (derivable_pt_lim_opp f x); dlim
  | |- derivable_pt_lim (fun t => @?f t * @?g t) ?x _ =>
      apply (derivable_pt_lim_mult f g x); dlim
  | |- derivable_pt_lim (fun t => @?f t / @?g t) ?x _ =>
      lazymatch g with
      | (fun _ => ?c) => apply (derivable_pt_lim_mult f (fun _ => / c) x); dlim
      | _ => apply (derivable_pt_lim_div f g x); [dlim | dlim | cbv beta]
      end
  | |- derivable_pt_lim (fun t => (@?f t) ^ ?n) ?x _ =>
      apply (derivable_pt_lim_comp f (fun y => y ^ n) x);
      [dlim | apply derivable_pt_lim_pow]
  | |- derivable_pt_lim (fun t => Rpower (@?f t) (@?g t)) ?x _ =>
      lazymatch g with
      | (fun _ => ?c) =>
          apply (derivable_pt_lim_comp f (fun y => Rpower y c) x);
          [dlim | apply derivable_pt_lim_power; cbv beta]
      end
  | |- derivable_pt_lim (fun t => exp (@?f t)) ?x _ =>
      apply (derivable_pt_lim_comp f exp x);
      [dlim | apply derivable_pt_lim_exp]
  | |- derivable_pt_lim (fun t => ln (@?f t)) ?x _ =>
      apply (derivable_pt_lim_comp f ln x);
      [dlim | apply derivable_pt_lim_ln; cbv beta]
  end.

Section GaussianAtPoint.
Variables x y : R.

Lemma gaussian_at_d_sky sky height xcen ycen fwhm :
  derivable_pt_lim (fun t => gaussian_at x y t height xcen ycen fwhm) sky 1.
Proof.
  unfold gaussian_at. eapply dlim_val; [dlim | ring].
Qed.

Lemma gaussian_at_d_height sky height xcen ycen fwhm :
  derivable_pt_lim (fun t => gaussian_at x y sky t xcen ycen fwhm) height
    (exp (- (4 * ln 2 / fwhm ^ 2) * ((x - xcen) ^ 2 + (y - ycen) ^ 2))).
Proof.
  unfold gaussian_at. eapply dlim_val; [dlim | cbv beta; ring].
Qed.

Lemma gaussian_at_d_xcen sky height xcen ycen fwhm :
  derivable_pt_lim (fun t => gaussian_at x y sky height t ycen fwhm) xcen
    ((2 * (4 * ln 2 / fwhm ^ 2) * height)
     * exp (- (4 * ln 2 / fwhm ^ 2) * ((x - xcen) ^ 2 + (y - ycen) ^ 2))
     * (x - xcen)).
Proof.
  unfold gaussian_at. eapply dlim_val; [dlim | cbv beta; simpl; ring].
Qed.

Lemma gaussian_at_d_ycen sky height xcen ycen fwhm :
  derivable_pt_lim (fun t => gaussian_at x y sky height xcen t fwhm) ycen
    ((2 * (4 * ln 2 / fwhm ^ 2) * height)
     * exp (- (4 * ln 2 / fwhm ^ 2) * ((x - xcen) ^ 2 + (y - ycen) ^ 2))
     * (y - ycen)).
Proof.
  unfold gaussian_at. eapply dlim_val; [dlim | cbv beta; simpl; ring].
Qed.

Lemma gaussian_at_d_fwhm sky height xcen ycen fwhm :
  fwhm <> 0 ->
  derivable_pt_lim (fun t => gaussian_at x y sky height xcen ycen t) fwhm
    ((2 * (4 * ln 2 / fwhm ^ 2) * height / fwhm)
     * exp (- (4 * ln 2 / fwhm ^ 2) * ((x - xcen) ^ 2 + (y - ycen) ^ 2))
     * ((x - xcen) ^ 2 + (y - ycen) ^ 2)).
Proof.
  intro Hw. unfold gaussian_at.
  eapply dlim_val.
  { dlim. simpl. nra. }
  cbv beta. unfold Rsqr. simpl. field. exact Hw.
Qed.
End GaussianAtPoint.

Lemma Rpower_two_gt_1 (b : R) : 0 < b -> 1 < Rpower 2 (1 / b).
Proof.
  intro Hb. unfold Rpower. rewrite <- exp_0 at 1. apply exp_increasing.
  apply Rmult_lt_0_compat.
  - unfold Rdiv. rewrite Rmult_1_l. now apply Rinv_0_lt_compat.
  - rewrite <- ln_1. apply ln_increasing; lra.
Qed.

Lemma alpha_pos (fwhm b : R) :
  fwhm <> 0 -> 0 < b -> 0 < MoffatSpec.alpha fwhm b.
Proof.
  intros Hw Hb. unfold MoffatSpec.alpha.
  pose proof (Rpower_two_gt_1 b Hb).
  apply Rdiv_lt_0_compat; [lra|].
  pose proof (pow2_ge_0 fwhm). pose proof (pow_nonzero fwhm 2 Hw). lra.
Qed.

Lemma rsq_nonneg (x y xcen ycen : R) : 0 <= MoffatSpec.rsq x y xcen ycen.
Proof.
  unfold MoffatSpec.rsq.
  pose proof (pow2_ge_0 (x - xcen)). pose proof (pow2_ge_0 (y - ycen)). lra.
Qed.

Lemma base_ge_1 (x y xcen ycen fwhm b : R) :
  fwhm <> 0 -> 0 < b -> 1 <= MoffatSpec.base x y xcen ycen fwhm b.
Proof.
  intros Hw Hb. unfold MoffatSpec.base.
  pose proof (alpha_pos fwhm b Hw Hb). pose proof (rsq_nonneg x y xcen ycen).
  nra.
Qed.

Section MoffatAtPoint.
Variables x y : R.

Variables sky height xcen ycen fwhm beta : R.
Hypothesis Hw : fwhm <> 0.
Hypothesis Hb : 0 < beta.

Lemma moffat_raw_d_sky :
  derivable_pt_lim (fun t => moffat_raw x y t height xcen ycen fwhm beta) sky 1.
Proof. unfold moffat_raw. eapply dlim_val; [dlim | ring]. Qed.

Lemma moffat_raw_d_height :
  derivable_pt_lim (fun t => moffat_raw x y sky t xcen ycen fwhm beta) height
    (MoffatSpec.d_height x y xcen ycen fwhm beta).
Proof.
  unfold moffat_raw. eapply dlim_val. { dlim. }
  cbv beta. unfold MoffatSpec.d_height, MoffatSpec.base, MoffatSpec.alpha,
    MoffatSpec.rsq. rewrite Rpower_Ropp. field.
  apply Rgt_not_eq, exp_pos.
Qed.

Lemma moffat_raw_d_xcen :
  derivable_pt_lim (fun t => moffat_raw x y sky height t ycen fwhm beta) xcen
    (MoffatSpec.d_xcen x y height xcen ycen fwhm beta).
Proof.
  pose proof (base_ge_1 x y xcen ycen fwhm beta Hw Hb) as H1.
  unfold MoffatSpec.base, MoffatSpec.alpha, MoffatSpec.rsq in H1.
  unfold moffat_raw. eapply dlim_val.
  { dlim. - lra. - apply Rgt_not_eq, exp_pos. }
  cbv beta. unfold MoffatSpec.d_xcen, MoffatSpec.base, MoffatSpec.alpha,
    MoffatSpec.rsq.
  set (a := 4 * (Rpower 2 (1 / beta) - 1) / fwhm ^ 2) in *.
  set (r := (x - xcen) ^ 2 + (y - ycen) ^ 2) in *.
  replace (Rpower (1 + a * r) (beta + 1))
    with (Rpower (1 + a * r) beta * (1 + a * r))
    by (rewrite Rpower_plus, Rpower_1; [reflexivity | lra]).
  replace (Rpower (1 + a * r) (beta - 1))
    with (Rpower (1 + a * r) beta / (1 + a * r))
    by (unfold Rminus; rewrite Rpower_plus, Rpower_Ropp, Rpower_1;
        [reflexivity | lra]).
  assert (HP : Rpower (1 + a * r) beta <> 0) by apply Rgt_not_eq, exp_pos.
  unfold Rsqr. simpl. field. split; [lra | exact HP].
Qed.

Lemma moffat_raw_d_ycen :
  derivable_pt_lim (fun t => moffat_raw x y sky height xcen t fwhm beta) ycen
    (MoffatSpec.d_ycen x y height xcen ycen fwhm beta).
Proof.
  pose proof (base_ge_1 x y xcen ycen fwhm beta Hw Hb) as H1.
  unfold MoffatSpec.base, MoffatSpec.alpha, MoffatSpec.rsq in H1.
  unfold moffat_raw. eapply dlim_val.
  { dlim. - lra. - apply Rgt_not_eq, exp_pos. }
  cbv beta. unfold MoffatSpec.d_ycen, MoffatSpec.base, MoffatSpec.alpha,
    MoffatSpec.rsq.
  set (a := 4 * (Rpower 2 (1 / beta) - 1) / fwhm ^ 2) in *.
  set (r := (x - xcen) ^ 2 + (y - ycen) ^ 2) in *.
  replace (Rpower (1 + a * r) (beta + 1))
    with (Rpower (1 + a * r) beta * (1 + a * r))
    by (rewrite Rpower_plus, Rpower_1; [reflexivity | lra]).
  replace (Rpower (1 + a * r) (beta - 1))
    with (Rpower (1 + a * r) beta / (1 + a * r))
    by (unfold Rminus; rewrite Rpower_plus, Rpower_Ropp, Rpower_1;
        [reflexivity | lra]).
  assert (HP : Rpower (1 + a * r) beta <> 0) by apply Rgt_not_eq, exp_pos.
  unfold Rsqr. simpl. field. split; [lra | exact HP].
Qed.

Lemma moffat_raw_d_fwhm :
  derivable_pt_lim (fun t => moffat_raw x y sky height xcen ycen t beta) fwhm
    (MoffatSpec.d_fwhm x y height xcen ycen fwhm beta).
Proof.
  pose proof (base_ge_1 x y xcen ycen fwhm beta Hw Hb) as H1.
  unfold MoffatSpec.base, MoffatSpec.alpha, MoffatSpec.rsq in H1.
  unfold moffat_raw. eapply dlim_val.
  { dlim.
    - apply pow_nonzero, Hw.
    - lra.
    - apply Rgt_not_eq, exp_pos. }
  cbv beta. unfold MoffatSpec.d_fwhm, MoffatSpec.base, MoffatSpec.alpha,
    MoffatSpec.rsq.
  set (c := Rpower 2 (1 / beta)) in *.
  set (r := (x - xcen) ^ 2 + (y - ycen) ^ 2) in *.
  set (d := 1 + 4 * (c - 1) / fwhm ^ 2 * r) in *.
  replace (Rpower d (beta + 1)) with (Rpower d beta * d)
    by (rewrite Rpower_plus, Rpower_1; [reflexivity | lra]).
  replace (Rpower d (beta - 1)) with (Rpower d beta / d)
    by (unfold Rminus; rewrite Rpower_plus, Rpower_Ropp, Rpower_1;
        [reflexivity | lra]).
  assert (HP : Rpower d beta <> 0) by apply Rgt_not_eq, exp_pos.
  assert (Hd : d <> 0) by lra.
  clearbody d c r. unfold Rsqr. simpl. field. repeat split; assumption.
Qed.

Lemma moffat_raw_d_beta :
  derivable_pt_lim (fun t => moffat_raw x y sky height xcen ycen fwhm t) beta
    (MoffatSpec.d_beta x y height xcen ycen fwhm beta).
Proof.
  pose proof (base_ge_1 x y xcen ycen fwhm beta Hw Hb) as H1.
  unfold MoffatSpec.base, MoffatSpec.alpha, MoffatSpec.rsq in H1.
  unfold moffat_raw, Rpower in *. eapply dlim_val.
  { dlim.
    - lra.
    - lra.
    - apply Rgt_not_eq, exp_pos. }
  cbv beta. unfold MoffatSpec.d_beta, MoffatSpec.base, MoffatSpec.alpha,
    MoffatSpec.rsq, Rpower.
  set (c := exp (1 / beta * ln 2)) in *.
  set (r := (x - xcen) ^ 2 + (y - ycen) ^ 2) in *.
  set (d := 1 + 4 * (c - 1) / fwhm ^ 2 * r) in *.
  replace (exp ((beta + 1) * ln d)) with (exp (beta * ln d) * d)
    by (rewrite Rmult_plus_distr_r, exp_plus, Rmult_1_l, exp_ln;
        [reflexivity | lra]).
  replace (exp (- beta * ln d)) with (/ exp (beta * ln d))
    by (rewrite <- exp_Ropp; f_equal; ring).
  assert (HP : exp (beta * ln d) <> 0) by apply Rgt_not_eq, exp_pos.
  assert (Hd : d <> 0) by lra.
  assert (Hb' : beta <> 0) by lra.
  clearbody d c r. unfold Rsqr. simpl. field. repeat split; assumption.
Qed.
End MoffatAtPoint.

(** ** The profiles at a grid point *)

Lemma gaussian_entry (x y : array) (k : nat) (xk yk : R)
  (sky height xcen ycen fwhm : R) :
  nth_error x k = Some xk -> nth_error y k = Some yk ->
  nth_error (gaussian (x, y) sky height xcen ycen fwhm) k
  = Some (gaussian_at xk yk sky height xcen ycen fwhm).
Proof.
  intros Hx Hy. unfold gaussian, gaussian_at.
  etransitivity; [entry_solve | reflexivity].
Qed.

Lemma moffat_entry (x y : array) (k : nat) (xk yk : R)
  (sky height xcen ycen fwhm beta : R) :
  nth_error x k = Some xk -> nth_error y k = Some yk ->
  nth_error (moffat (x, y) sky height xcen ycen fwhm beta) k
  = Some (moffat_raw xk yk sky height xcen ycen fwhm (Rmax (1/100) beta)).
Proof.
  intros Hx Hy. unfold moffat, moffat_raw.
  etransitivity; [entry_solve | reflexivity].
Qed.

Lemma nth_of_nth_error (l : array) (k : nat) (v : R) :
  nth_error l k = Some v -> nth k l 0 = v.
Proof. intro H. now apply nth_error_nth. Qed.

Lemma dgaussian_entries (x y : array) (k : nat) (xk yk : R)
  (sky height xcen ycen fwhm : R) :
  nth_error x k = Some xk -> nth_error y k = Some yk ->
  let a := 4 * ln 2 / fwhm ^ 2 in
  let r := (xk - xcen) ^ 2 + (yk - ycen) ^ 2 in
  entries k (dgaussian (x, y) sky height xcen ycen fwhm false)
  = map Some [1; exp (- a * r); (2 * a * height) * exp (- a * r) * (xk - xcen);
              (2 * a * height) * exp (- a * r) * (yk - ycen);
              (2 * a * height / fwhm) * exp (- a * r) * r] /\
  entries k (dgaussian (x, y) sky height xcen ycen fwhm true)
  = map Some [1; exp (- a * r); (2 * a * height) * exp (- a * r) * (xk - xcen);
              (2 * a * height) * exp (- a * r) * (yk - ycen)].
Proof.
  intros Hx Hy a r. unfold dgaussian, entries; fold a; cbn [map].
  split;
    repeat (apply f_equal2; [ etransitivity; [entry_solve | reflexivity] | ]);
    reflexivity.
Qed.

Lemma dmoffat_entries (x y : array) (k : nat) (xk yk : R)
  (sky height xcen ycen fwhm beta : R) :
  nth_error x k = Some xk -> nth_error y k = Some yk ->
  let b := Rmax (1/100) beta in
  entries k (dmoffat (x, y) sky height xcen ycen fwhm beta false)
  = map Some
      [ MoffatSpec.d_sky;
        MoffatSpec.d_height xk yk xcen ycen fwhm b;
        MoffatSpec.d_xcen xk yk height xcen ycen fwhm b;
        MoffatSpec.d_ycen xk yk height xcen ycen fwhm b;
        MoffatSpec.d_fwhm xk yk height xcen ycen fwhm b;
        MoffatSpec.d_beta xk yk height xcen ycen fwhm b ] /\
  entries k (dmoffat (x, y) sky height xcen ycen fwhm beta true)
  = map Some
      [ MoffatSpec.d_sky;
        MoffatSpec.d_height xk yk xcen ycen fwhm b;
        MoffatSpec.d_xcen xk yk height xcen ycen fwhm b;
        MoffatSpec.d_ycen xk yk height xcen ycen fwhm b;
        MoffatSpec.d_beta xk yk height xcen ycen fwhm b ].
Proof.
  intros Hx Hy b.
  assert (Hpow : forall d, 1 / Rpower d b = Rpower d (- b)).
  { intro d. rewrite Rpower_Ropp. unfold Rdiv. ring. }
  unfold dmoffat, entries; fold b; cbn [map].
  split;
    repeat (apply f_equal2; [ etransitivity; [entry_solve | f_equal] | ]); auto;
    unfold MoffatSpec.d_sky, MoffatSpec.d_height, MoffatSpec.d_xcen,
      MoffatSpec.d_ycen, MoffatSpec.d_fwhm, MoffatSpec.d_beta,
      MoffatSpec.base, MoffatSpec.rsq, MoffatSpec.alpha;
    rewrite ?Hpow; try reflexivity; unfold Rdiv; ring.
Qed.

(** The partial derivatives of the value of [gaussian] at a grid point. *)
Lemma gaussian_gradient (x y : array) (k : nat) (xk yk : R)
  (sky height xcen ycen fwhm : R) :
  nth_error x k = Some xk -> nth_error y k = Some yk -> fwhm <> 0 ->
  let g := fun s h xc yc w => nth k (gaussian (x, y) s h xc yc w) 0 in
  let a := 4 * ln 2 / fwhm ^ 2 in
  let r := (xk - xcen) ^ 2 + (yk - ycen) ^ 2 in
  derivable_pt_lim (fun t => g t height xcen ycen fwhm) sky 1 /\
  derivable_pt_lim (fun t => g sky t xcen ycen fwhm) height (exp (- a * r)) /\
  derivable_pt_lim (fun t => g sky height t ycen fwhm) xcen
    ((2 * a * height) * exp (- a * r) * (xk - xcen)) /\
  derivable_pt_lim (fun t => g sky height xcen t fwhm) ycen
    ((2 * a * height) * exp (- a * r) * (yk - ycen)) /\
  derivable_pt_lim (fun t => g sky height xcen ycen t) fwhm
    ((2 * a * height / fwhm) * exp (- a * r) * r).
Proof.
  intros Hx Hy Hw g a r.
  assert (Eg : forall s h xc yc w, gaussian_at xk yk s h xc yc w = g s h xc yc w).
  { intros. unfold g. symmetry. apply nth_of_nth_error.
    now apply gaussian_entry. }
  repeat split.
  - apply (dlim_ext (fun t => gaussian_at xk yk t height xcen ycen fwhm));
      [intro; apply Eg | apply gaussian_at_d_sky].
  - apply (dlim_ext (fun t => gaussian_at xk yk sky t xcen ycen fwhm));
      [intro; apply Eg | apply gaussian_at_d_height].
  - apply (dlim_ext (fun t => gaussian_at xk yk sky height t ycen fwhm));
      [intro; apply Eg | apply gaussian_at_d_xcen].
  - apply (dlim_ext (fun t => gaussian_at xk yk sky height xcen t fwhm));
      [intro; apply Eg | apply gaussian_at_d_ycen].
  - apply (dlim_ext (fun t => gaussian_at xk yk sky height xcen ycen t));
      [intro; apply Eg | now apply gaussian_at_d_fwhm].
Qed.

(** X1 (the Gaussian Jacobian is the gradient).  At every grid point and for
    a FWHM that is not zero, the arrays of [dgaussian] hold, in the order
    sky, height, xcen, ycen, FWHM, the partial derivatives of the value of
    [gaussian] at that point with respect to these parameters; with
    [skip_dfwhm] the first four of them. *)
Theorem dgaussian_is_gradient :
  forall (x y : array) (k : nat) (xk yk : R) (sky height xcen ycen fwhm : R),
    nth_error x k = Some xk ->
    nth_error y k = Some yk ->
    fwhm <> 0 ->
    let g := fun s h xc yc w => nth k (gaussian (x, y) s h xc yc w) 0 in
    exists ds dh dx dy dw,
      entries k (dgaussian (x, y) sky height xcen ycen fwhm false)
      = map Some [ds; dh; dx; dy; dw] /\
      entries k (dgaussian (x, y) sky height xcen ycen fwhm true)
      = map Some [ds; dh; dx; dy] /\
      derivable_pt_lim (fun t => g t height xcen ycen fwhm) sky ds /\
      derivable_pt_lim (fun t => g sky t xcen ycen fwhm) height dh /\
      derivable_pt_lim (fun t => g sky height t ycen fwhm) xcen dx /\
      derivable_pt_lim (fun t => g sky height xcen t fwhm) ycen dy /\
      derivable_pt_lim (fun t => g sky height xcen ycen t) fwhm dw.
Proof.
  intros x y k xk yk sky height xcen ycen fwhm Hx Hy Hw g.
  destruct (dgaussian_entries x y k xk yk sky height xcen ycen fwhm Hx Hy)
    as [E5 E4].
  do 5 eexists. split; [exact E5|]. split; [exact E4|].
  exact (gaussian_gradient x y k xk yk sky height xcen ycen fwhm Hx Hy Hw).
Qed.

Lemma dgaussian_is_gradient_witness :
  let g := fun s h xc yc w => nth 1 (gaussian ([0; 1], [2; 2]) s h xc yc w) 0 in
  exists ds dh dx dy dw,
    entries 1 (dgaussian ([0; 1], [2; 2]) 10 500 1 2 4 false)
    = map Some [ds; dh; dx; dy; dw] /\
    entries 1 (dgaussian ([0; 1], [2; 2]) 10 500 1 2 4 true)
    = map Some [ds; dh; dx; dy] /\
    derivable_pt_lim (fun t => g t 500 1 2 4) 10 ds /\
    derivable_pt_lim (fun t => g 10 t 1 2 4) 500 dh /\
    derivable_pt_lim (fun t => g 10 500 t 2 4) 1 dx /\
    derivable_pt_lim (fun t => g 10 500 1 t 4) 2 dy /\
    derivable_pt_lim (fun t => g 10 500 1 2 t) 4 dw.
Proof.
  apply (dgaussian_is_gradient [0; 1] [2; 2] 1%nat 1 2 10 500 1 2 4);
    [reflexivity | reflexivity | lra].
Defined.

Lemma moffat_raw_clamped (xk yk sky height xcen ycen fwhm beta : R) :
  1/100 < beta ->
  forall t, Rabs (t - beta) < beta - 1/100 ->
    moffat_raw xk yk sky height xcen ycen fwhm t
    = moffat_raw xk yk sky height xcen ycen fwhm (Rmax (1/100) t).
Proof.
  intros Hb t Ht. rewrite Rmax_right; [reflexivity|].
  apply Rabs_def2 in Ht. lra.
Qed.

(** The partial derivatives of the value of [moffat] at a grid point, for
    an exponent above the clamp. *)
Lemma moffat_gradient (x y : array) (k : nat) (xk yk : R)
  (sky height xcen ycen fwhm beta : R) :
  nth_error x k = Some xk -> nth_error y k = Some yk ->
  fwhm <> 0 -> 1/100 < beta ->
  let f := fun s h xc yc w b => nth k (moffat (x, y) s h xc yc w b) 0 in
  derivable_pt_lim (fun t => f t height xcen ycen fwhm beta) sky
    MoffatSpec.d_sky /\
  derivable_pt_lim (fun t => f sky t xcen ycen fwhm beta) height
    (MoffatSpec.d_height xk yk xcen ycen fwhm beta) /\
  derivable_pt_lim (fun t => f sky height t ycen fwhm beta) xcen
    (MoffatSpec.d_xcen xk yk height xcen ycen fwhm beta) /\
  derivable_pt_lim (fun t => f sky height xcen t fwhm beta) ycen
    (MoffatSpec.d_ycen xk yk height xcen ycen fwhm beta) /\
  derivable_pt_lim (fun t => f sky height xcen ycen t beta) fwhm
    (MoffatSpec.d_fwhm xk yk height xcen ycen fwhm beta) /\
  derivable_pt_lim (fun t => f sky height xcen ycen fwhm t) beta
    (MoffatSpec.d_beta xk yk height xcen ycen fwhm beta).
Proof.
  intros Hx Hy Hw Hb f.
  assert (Ef : forall s h xc yc w b,
             moffat_raw xk yk s h xc yc w (Rmax (1/100) b) = f s h xc yc w b).
  { intros. unfold f. symmetry. apply nth_of_nth_error.
    now apply moffat_entry. }
  assert (Ef' : forall s h xc yc w,
             moffat_raw xk yk s h xc yc w beta = f s h xc yc w beta).
  { intros. rewrite <- Ef. now rewrite Rmax_right by lra. }
  assert (Hb0 : 0 < beta) by lra.
  repeat split.
  - apply (dlim_ext (fun t => moffat_raw xk yk t height xcen ycen fwhm beta));
      [intro; apply Ef' | apply moffat_raw_d_sky].
  - apply (dlim_ext (fun t => moffat_raw xk yk sky t xcen ycen fwhm beta));
      [intro; apply Ef' | apply moffat_raw_d_height].
  - apply (dlim_ext (fun t => moffat_raw xk yk sky height t ycen fwhm beta));
      [intro; apply Ef' | now apply moffat_raw_d_xcen].
  - apply (dlim_ext (fun t => moffat_raw xk yk sky height xcen t fwhm beta));
      [intro; apply Ef' | now apply moffat_raw_d_ycen].
  - apply (dlim_ext (fun t => moffat_raw xk yk sky height xcen ycen t beta));
      [intro; apply Ef' | now apply moffat_raw_d_fwhm].
  - apply (dlim_ext_loc
             (fun t => moffat_raw xk yk sky height xcen ycen fwhm t) _ _ _
             (beta - 1/100)); [lra | | now apply moffat_raw_d_beta].
    intros t Ht. rewrite <- Ef. now apply moffat_raw_clamped with (beta := beta).
Qed.

(** X2 (the Moffat Jacobian is the gradient).  At every grid point, for a
    FWHM that is not zero and an exponent above the clamp at 0.01, the
    arrays of [dmoffat] hold, in the order sky, height, xcen, ycen, FWHM,
    beta, the partial derivatives of the value of [moffat] at that point
    with respect to these parameters; with [skip_dfwhm] the FWHM one is left
    out. *)
Theorem dmoffat_is_gradient :
  forall (x y : array) (k : nat) (xk yk : R)
         (sky height xcen ycen fwhm beta : R),
    nth_error x k = Some xk ->
    nth_error y k = Some yk ->
    fwhm <> 0 ->
    1/100 < beta ->
    let f := fun s h xc yc w b => nth k (moffat (x, y) s h xc yc w b) 0 in
    exists ds dh dx dy dw db,
      entries k (dmoffat (x, y) sky height xcen ycen fwhm beta false)
      = map Some [ds; dh; dx; dy; dw; db] /\
      entries k (dmoffat (x, y) sky height xcen ycen fwhm beta true)
      = map Some [ds; dh; dx; dy; db] /\
      derivable_pt_lim (fun t => f t height xcen ycen fwhm beta) sky ds /\
      derivable_pt_lim (fun t => f sky t xcen ycen fwhm beta) height dh /\
      derivable_pt_lim (fun t => f sky height t ycen fwhm beta) xcen dx /\
      derivable_pt_lim (fun t => f sky height xcen t fwhm beta) ycen dy /\
      derivable_pt_lim (fun t => f sky height xcen ycen t beta) fwhm dw /\
      derivable_pt_lim (fun t => f sky height xcen ycen fwhm t) beta db.
Proof.
  intros x y k xk yk sky height xcen ycen fwhm beta Hx Hy Hw Hb f.
  destruct (dmoffat_entries x y k xk yk sky height xcen ycen fwhm beta Hx Hy)
    as [E6 E5].
  rewrite (Rmax_right (1/100) beta) in E6, E5 by lra.
  do 6 eexists. split; [exact E6|]. split; [exact E5|].
  exact (moffat_gradient x y k xk yk sky height xcen ycen fwhm beta
           Hx Hy Hw Hb).
Qed.

Lemma dmoffat_is_gradient_witness :
  let f := fun s h xc yc w b => nth 1 (moffat ([0; 1], [2; 2]) s h xc yc w b) 0 in
  exists ds dh dx dy dw db,
    entries 1 (dmoffat ([0; 1], [2; 2]) 10 500 1 2 4 3 false)
    = map Some [ds; dh; dx; dy; dw; db] /\
    entries 1 (dmoffat ([0; 1], [2; 2]) 10 500 1 2 4 3 true)
    = map Some [ds; dh; dx; dy; db] /\
    derivable_pt_lim (fun t => f t 500 1 2 4 3) 10 ds /\
    derivable_pt_lim (fun t => f 10 t 1 2 4 3) 500 dh /\
    derivable_pt_lim (fun t => f 10 500 t 2 4 3) 1 dx /\
    derivable_pt_lim (fun t => f 10 500 1 t 4 3) 2 dy /\
    derivable_pt_lim (fun t => f 10 500 1 2 t 3) 4 dw /\
    derivable_pt_lim (fun t => f 10 500 1 2 4 t) 3 db.
Proof.
  apply (dmoffat_is_gradient [0; 1] [2; 2] 1%nat 1 2 10 500 1 2 4 3);
    [reflexivity | reflexivity | lra | lra].
Defined.

(** ** Shape of the profiles *)

Lemma gaussian_alpha_pos (fwhm : R) : fwhm <> 0 -> 0 < 4 * ln 2 / fwhm ^ 2.
Proof.
  intro Hw. apply Rdiv_lt_0_compat.
  - assert (0 < ln 2) by (rewrite <- ln_1; apply ln_increasing; lra). lra.
  - pose proof (pow2_ge_0 fwhm). pose proof (pow_nonzero fwhm 2 Hw). lra.
Qed.

Lemma gaussian_at_half (x y sky height xcen ycen fwhm : R) :
  fwhm <> 0 ->
  (x - xcen) ^ 2 + (y - ycen) ^ 2 = (fwhm / 2) ^ 2 ->
  gaussian_at x y sky height xcen ycen fwhm = sky + height / 2.
Proof.
  intros Hw Hr. unfold gaussian_at. rewrite Hr.
  replace (- (4 * ln 2 / fwhm ^ 2) * (fwhm / 2) ^ 2) with (- ln 2)
    by (field; exact Hw).
  rewrite exp_Ropp, exp_ln by lra. field.
Qed.

Lemma gaussian_at_peak (x y sky height xcen ycen fwhm : R) :
  (x - xcen) ^ 2 + (y - ycen) ^ 2 = 0 ->
  gaussian_at x y sky height xcen ycen fwhm = sky + height.
Proof.
  intros Hr. unfold gaussian_at. rewrite Hr, Rmult_0_r, exp_0. ring.
Qed.

Lemma gaussian_at_decreasing (x1 y1 x2 y2 sky height xcen ycen fwhm : R) :
  fwhm <> 0 -> 0 <= height ->
  (x1 - xcen) ^ 2 + (y1 - ycen) ^ 2 <= (x2 - xcen) ^ 2 + (y2 - ycen) ^ 2 ->
  gaussian_at x2 y2 sky height xcen ycen fwhm
  <= gaussian_at x1 y1 sky height xcen ycen fwhm.
Proof.
  intros Hw Hh Hr. unfold gaussian_at.
  pose proof (gaussian_alpha_pos fwhm Hw) as Ha.
  set (a := 4 * ln 2 / fwhm ^ 2) in *.
  apply Rplus_le_compat_l, Rmult_le_compat_l; [exact Hh|].
  destruct Hr as [Hr|Hr].
  - left. apply exp_increasing. nra.
  - rewrite Hr. right. reflexivity.
Qed.

Lemma gaussian_at_bounds (x y sky height xcen ycen fwhm : R) :
  fwhm <> 0 -> 0 <= height ->
  sky <= gaussian_at x y sky height xcen ycen fwhm <= sky + height.
Proof.
  intros Hw Hh. split.
  - unfold gaussian_at.
    pose proof (exp_pos (- (4 * ln 2 / fwhm ^ 2)
                          * ((x - xcen) ^ 2 + (y - ycen) ^ 2))). nra.
  - rewrite <- (gaussian_at_peak xcen ycen sky height xcen ycen fwhm) by ring.
    apply gaussian_at_decreasing; [exact Hw | exact Hh |].
    replace ((xcen - xcen) ^ 2 + (ycen - ycen) ^ 2) with 0 by ring.
    apply rsq_nonneg.
Qed.

Lemma moffat_raw_half (x y sky height xcen ycen fwhm b : R) :
  fwhm <> 0 -> 0 < b ->
  (x - xcen) ^ 2 + (y - ycen) ^ 2 = (fwhm / 2) ^ 2 ->
  moffat_raw x y sky height xcen ycen fwhm b = sky + height / 2.
Proof.
  intros Hw Hb Hr. unfold moffat_raw. rewrite Hr.
  replace (1 + 4 * (Rpower 2 (1 / b) - 1) / fwhm ^ 2 * (fwhm / 2) ^ 2)
    with (Rpower 2 (1 / b)) by (field; exact Hw).
  rewrite Rpower_mult.
  replace (1 / b * b) with 1 by (field; lra).
  rewrite Rpower_1 by lra. field.
Qed.

Lemma moffat_raw_peak (x y sky height xcen ycen fwhm b : R) :
  (x - xcen) ^ 2 + (y - ycen) ^ 2 = 0 ->
  moffat_raw x y sky height xcen ycen fwhm b = sky + height.
Proof.
  intros Hr. unfold moffat_raw. rewrite Hr, Rmult_0_r, Rplus_0_r.
  unfold Rpower. rewrite ln_1, Rmult_0_r, exp_0. field.
Qed.

Lemma moffat_raw_decreasing (x1 y1 x2 y2 sky height xcen ycen fwhm b : R) :
  fwhm <> 0 -> 0 < b -> 0 <= height ->
  (x1 - xcen) ^ 2 + (y1 - ycen) ^ 2 <= (x2 - xcen) ^ 2 + (y2 - ycen) ^ 2 ->
  moffat_raw x2 y2 sky height xcen ycen fwhm b
  <= moffat_raw x1 y1 sky height xcen ycen fwhm b.
Proof.
  intros Hw Hb Hh Hr. unfold moffat_raw.
  pose proof (alpha_pos fwhm b Hw Hb) as Ha.
  pose proof (rsq_nonneg x1 y1 xcen ycen) as H1.
  unfold MoffatSpec.alpha in Ha. unfold MoffatSpec.rsq in H1.
  set (a := 4 * (Rpower 2 (1 / b) - 1) / fwhm ^ 2) in *.
  set (r1 := (x1 - xcen) ^ 2 + (y1 - ycen) ^ 2) in *.
  set (r2 := (x2 - xcen) ^ 2 + (y2 - ycen) ^ 2) in *.
  apply Rplus_le_compat_r. unfold Rdiv.
  apply Rmult_le_compat_l; [exact Hh|].
  apply Rinv_le_contravar; [apply exp_pos|].
  apply Rle_Rpower_l; [lra|]. split; nra.
Qed.

Lemma moffat_raw_bounds (x y sky height xcen ycen fwhm b : R) :
  fwhm <> 0 -> 0 < b -> 0 <= height ->
  sky <= moffat_raw x y sky height xcen ycen fwhm b <= sky + height.
Proof.
  intros Hw Hb Hh. split.
  - unfold moffat_raw.
    assert (0 <= height / Rpower
                   (1 + 4 * (Rpower 2 (1 / b) - 1) / fwhm ^ 2
                        * ((x - xcen) ^ 2 + (y - ycen) ^ 2)) b).
    { apply Rmult_le_pos; [exact Hh|]. left. apply Rinv_0_lt_compat, exp_pos. }
    lra.
  - rewrite <- (moffat_raw_peak xcen ycen sky height xcen ycen fwhm b) by ring.
    apply moffat_raw_decreasing; try assumption.
    replace ((xcen - xcen) ^ 2 + (ycen - ycen) ^ 2) with 0 by ring.
    apply rsq_nonneg.
Qed.

Lemma clamp_pos (beta : R) : 0 < Rmax (1/100) beta.
Proof. pose proof (Rmax_l (1/100) beta). lra. Qed.

(** X3 (the FWHM parameter is the full width at half maximum).  For a FWHM
    that is not zero, [gaussian] and [moffat] return sky + height at a grid
    point that is the centre, and sky + height/2 at every grid point at
    distance FWHM/2 from the centre, whatever the exponent of the Moffat
    profile. *)
Theorem profile_half_maximum :
  forall (x y : array) (k : nat) (xk yk : R)
         (sky height xcen ycen fwhm beta : R),
    nth_error x k = Some xk ->
    nth_error y k = Some yk ->
    fwhm <> 0 ->
    let rsq := (xk - xcen) ^ 2 + (yk - ycen) ^ 2 in
    let g := nth_error (gaussian (x, y) sky height xcen ycen fwhm) k in
    let m := nth_error (moffat (x, y) sky height xcen ycen fwhm beta) k in
    (rsq = 0 -> g = Some (sky + height) /\ m = Some (sky + height)) /\
    (rsq = (fwhm / 2) ^ 2 ->
     g = Some (sky + height / 2) /\ m = Some (sky + height / 2)).
Proof.
  intros x y k xk yk sky height xcen ycen fwhm beta Hx Hy Hw rsq g m.
  unfold g, m.
  rewrite (gaussian_entry x y k xk yk) by assumption.
  rewrite (moffat_entry x y k xk yk) by assumption.
  split; intro Hr; split; f_equal.
  - now apply gaussian_at_peak.
  - now apply moffat_raw_peak.
  - now apply gaussian_at_half.
  - apply moffat_raw_half; [exact Hw | apply clamp_pos | exact Hr].
Qed.

(** X4 (the profiles fall off from the centre).  For a FWHM that is not zero
    and a height that is not negative, the values of [gaussian] and of
    [moffat] lie between sky and sky + height, and of two grid points the
    one farther from the centre has the smaller or equal value. *)
Theorem profile_decreasing :
  forall (x y : array) (k1 k2 : nat) (x1 y1 x2 y2 : R)
         (sky height xcen ycen fwhm beta : R),
    nth_error x k1 = Some x1 -> nth_error y k1 = Some y1 ->
    nth_error x k2 = Some x2 -> nth_error y k2 = Some y2 ->
    fwhm <> 0 ->
    0 <= height ->
    (x1 - xcen) ^ 2 + (y1 - ycen) ^ 2 <= (x2 - xcen) ^ 2 + (y2 - ycen) ^ 2 ->
    let g := gaussian (x, y) sky height xcen ycen fwhm in
    let m := moffat (x, y) sky height xcen ycen fwhm beta in
    sky <= nth k2 g 0 <= nth k1 g 0 /\ nth k1 g 0 <= sky + height /\
    sky <= nth k2 m 0 <= nth k1 m 0 /\ nth k1 m 0 <= sky + height.
Proof.
  intros x y k1 k2 x1 y1 x2 y2 sky height xcen ycen fwhm beta
    Hx1 Hy1 Hx2 Hy2 Hw Hh Hr g m. unfold g, m.
  rewrite !(nth_of_nth_error _ _ _ (gaussian_entry x y k1 x1 y1 _ _ _ _ _ Hx1 Hy1)).
  rewrite !(nth_of_nth_error _ _ _ (gaussian_entry x y k2 x2 y2 _ _ _ _ _ Hx2 Hy2)).
  rewrite !(nth_of_nth_error _ _ _ (moffat_entry x y k1 x1 y1 _ _ _ _ _ _ Hx1 Hy1)).
  rewrite !(nth_of_nth_error _ _ _ (moffat_entry x y k2 x2 y2 _ _ _ _ _ _ Hx2 Hy2)).
  pose proof (clamp_pos beta) as Hb.
  repeat split.
  - now apply gaussian_at_bounds.
  - now apply gaussian_at_decreasing.
  - now apply gaussian_at_bounds.
  - now apply moffat_raw_bounds.
  - now apply moffat_raw_decreasing.
  - now apply moffat_raw_bounds.
Qed.

(** ** The Jacobian objects *)

Lemma select_nth :
  forall (sig a : array),
    List.length a = List.length sig ->
    select a (gt sig 0) = map (fun k => nth k a 0) (included sig).
Proof.
  induction sig as [|s sig IH]; intros [|x a] Ha; simpl in Ha;
    try discriminate; [reflexivity|].
  rewrite included_cons, map_app, map_map.
  cbn [nth]. rewrite <- (IH a) by lia.
  cbn [gt map select]. destruct (Rgtb s 0); reflexivity.
Qed.

Lemma included_length (sig : array) :
  List.length (included sig) = count_pos sig.
Proof.
  unfold count_pos. rewrite (select_nth sig sig eq_refl). now rewrite length_map.
Qed.

Lemma included_In (sig : array) (k : nat) :
  In k (included sig) -> (k < List.length sig)%nat /\ nth k sig 0 > 0.
Proof.
  unfold included. rewrite filter_In, in_seq, Rgtb_spec. intros [H1 H2].
  split; [lia | exact H2].
Qed.

Lemma map2_map_map {A B C D : Type} (f : B -> C -> D) (g : A -> B)
  (h : A -> C) (l : list A) :
  map2 f (map g l) (map h l) = map (fun a => f (g a) (h a)) l.
Proof. induction l as [|a l IH]; simpl; [reflexivity | now rewrite IH]. Qed.

Lemma nth_map_lt {A : Type} (f : A -> R) (l : list A) (j : nat) (a : A) :
  (j < List.length l)%nat -> nth j (map f l) 0 = f (nth j l a).
Proof.
  intro H. rewrite (nth_indep _ 0 (f a)) by now rewrite length_map.
  apply map_nth.
Qed.

(** A row of a Jacobian object, [(-deriv[ok]/self.sigma[ok]).ravel()], entry
    by entry. *)
Lemma jacobian_row (sig D : array) :
  List.length D = List.length sig ->
  map2 Rdiv (map Ropp (select D (gt sig 0))) (select sig (gt sig 0))
  = map (fun k => - nth k D 0 / nth k sig 0) (included sig).
Proof.
  intro HD. rewrite (select_nth sig D HD), (select_nth sig sig eq_refl).
  rewrite map_map. apply map2_map_map.
Qed.

Lemma jacobian_row_length (sig D : array) :
  List.length D = List.length sig ->
  List.length (map2 Rdiv (map Ropp (select D (gt sig 0))) (select sig (gt sig 0)))
  = count_pos sig.
Proof.
  intro HD. now rewrite jacobian_row, length_map, included_length.
Qed.

(** The derivative of an entry of the vector of residuals when the model
    depends on a real [t], from the derivatives of the entries of the
    model. *)
Lemma residual_deriv (d sig : array) (F : R -> array) (D : array) (v : R) :
  (forall t, List.length (F t) = List.length sig) ->
  List.length d = List.length sig ->
  List.length D = List.length sig ->
  (forall k, (k < List.length sig)%nat ->
             derivable_pt_lim (fun t => nth k (F t) 0) v (nth k D 0)) ->
  forall j, (j < count_pos sig)%nat ->
    derivable_pt_lim
      (fun t => nth j (select (map2 Rdiv (map2 Rminus d (F t)) sig) (gt sig 0)) 0)
      v
      (nth j (map2 Rdiv (map Ropp (select D (gt sig 0)))
                (select sig (gt sig 0))) 0).
Proof.
  intros HF Hd HD Hder j Hj.
  rewrite <- included_length in Hj.
  rewrite (jacobian_row sig D HD).
  rewrite (nth_map_lt _ _ _ O Hj).
  set (k := nth j (included sig) O).
  assert (Hk : (k < List.length sig)%nat)
    by (apply (included_In sig k), nth_In, Hj).
  apply (dlim_ext (fun t => (nth k d 0 - nth k (F t) 0) / nth k sig 0)).
  { intro t. rewrite (select_residual_spec sig d (F t) Hd (HF t)).
    unfold residual_spec. symmetry.
    exact (nth_map_lt (fun k => (nth k d 0 - nth k (F t) 0) / nth k sig 0)
             _ _ O Hj). }
  eapply dlim_val.
  - apply (derivable_pt_lim_mult (fun t => nth k d 0 - nth k (F t) 0)
             (fun _ => / nth k sig 0)).
    + apply (derivable_pt_lim_minus (fun _ => nth k d 0)
               (fun t => nth k (F t) 0)).
      * apply derivable_pt_lim_const.
      * apply Hder, Hk.
    + apply derivable_pt_lim_const.
  - cbv beta. unfold Rdiv. ring.
Qed.

Lemma residual_call_length (d m sig : array) :
  List.length d = List.length sig -> List.length m = List.length sig ->
  List.length (select (map2 Rdiv (map2 Rminus d m) sig) (gt sig 0))
  = count_pos sig.
Proof.
  intros Hd Hm. rewrite (select_residual_spec sig d m Hd Hm).
  apply residual_spec_length.
Qed.

Lemma dmoffat_lengths (x y : array) (sky height xcen ycen fwhm beta : R)
  (skip : bool) (n : nat) :
  List.length x = n -> List.length y = n ->
  Forall (fun a => List.length a = n)
         (dmoffat (x, y) sky height xcen ycen fwhm beta skip).
Proof.
  intros Hx Hy. unfold dmoffat. destruct skip;
    repeat (apply Forall_cons || apply Forall_nil);
    repeat (rewrite map2_length || rewrite length_map);
    rewrite ?Hx, ?Hy; lia.
Qed.

Lemma dgaussian_lengths (x y : array) (sky height xcen ycen fwhm : R)
  (skip : bool) (n : nat) :
  List.length x = n -> List.length y = n ->
  Forall (fun a => List.length a = n)
         (dgaussian (x, y) sky height xcen ycen fwhm skip).
Proof.
  intros Hx Hy. unfold dgaussian. destruct skip;
    repeat (apply Forall_cons || apply Forall_nil);
    repeat (rewrite map2_length || rewrite length_map);
    rewrite ?Hx, ?Hy; lia.
Qed.

Lemma jacobian_rows_length (sig : array) (derivs : list array) :
  Forall (fun a => List.length a = List.length sig) derivs ->
  Forall (fun row => List.length row = count_pos sig)
    (map (fun deriv =>
            map2 Rdiv (map Ropp (select deriv (gt sig 0)))
                 (select sig (gt sig 0))) derivs).
Proof.
  intro H. apply Forall_map. eapply Forall_impl; [|exact H].
  intros a Ha. now apply jacobian_row_length.
Qed.

(** X6 (shape of the Jacobian, bad parameter vectors).  For a residual object
    and the Jacobian object that goes with it, on arrays of one shape: a
    parameter vector of the length that the class unpacks (6, 5, 5 and 4
    for [Mfit1], [Mfit2], [Gfit1] and [Gfit2]) gives a vector of residuals
    with one entry per included pixel and a Jacobian with one row per
    parameter, every row as long as the vector of residuals; a vector of
    another length makes both calls raise ValueError. *)
Theorem jacobian_shape :
  forall (ro : residual_object) (jo : jacobian_object) (h : heap)
         (param : list R),
    paired h ro jo ->
    same_shape h ro ->
    (List.length param = npar_of ro ->
     exists v J,
       residual ro param h = Ok v h /\ jacobian jo param h = Ok J h /\
       List.length v = count_pos (contents h (sigma_of ro)) /\
       List.length J = npar_of ro /\
       Forall (fun row => List.length row = List.length v) J) /\
    (List.length param <> npar_of ro ->
     residual ro param h = Raise ValueError /\
     jacobian jo param h = Raise ValueError).
Proof.
  intros ro jo h param Hp (Hx & Hy & Hd).
  destruct ro as [f|f|f|f], jo as [d|d|d|d]; cbn [paired] in Hp;
    try contradiction;
    cbn [sigma_of xy_of data_of npar_of residual jacobian] in *.
  - destruct Hp as [Exy Es].
    destruct param as [|p0 [|p1 [|p2 [|p3 [|p4 [|p5 [|p6 param]]]]]]];
      split; intro Hl; cbn [List.length] in Hl; try lia;
      try (split; reflexivity).
    unfold Mfit1.call, Dmfit1.call, Mfit1.model, bind, unpack6, ret, rd.
    fold (contents h (Mfit1.sigma f)). fold (contents h (Dmfit1.sigma d)).
    rewrite Exy, Es. destruct (Mfit1.xy f) as [x y]. cbn [fst snd] in *.
    do 2 eexists. split; [reflexivity|]. split; [reflexivity|].
    assert (Hv : List.length
                   (select (map2 Rdiv (map2 Rminus (Mfit1.data f)
                      (moffat (x, y) p0 p1 p2 p3 p4 p5))
                      (contents h (Mfit1.sigma f)))
                      (gt (contents h (Mfit1.sigma f)) 0))
                 = count_pos (contents h (Mfit1.sigma f))).
    { apply residual_call_length; [exact Hd|].
      rewrite moffat_length. cbn [fst snd]. lia. }
    split; [exact Hv|]. split.
    + rewrite length_map. unfold dmoffat. reflexivity.
    + rewrite Hv. apply jacobian_rows_length. now apply dmoffat_lengths.
  - destruct Hp as (Exy & Ew & Es).
    destruct param as [|p0 [|p1 [|p2 [|p3 [|p4 [|p5 param]]]]]];
      split; intro Hl; cbn [List.length] in Hl; try lia;
      try (split; reflexivity).
    unfold Mfit2.call, Dmfit2.call, Mfit2.model, bind, unpack5, ret, rd.
    fold (contents h (Mfit2.sigma f)). fold (contents h (Dmfit2.sigma d)).
    rewrite Exy, Es, Ew. destruct (Mfit2.xy f) as [x y]. cbn [fst snd] in *.
    do 2 eexists. split; [reflexivity|]. split; [reflexivity|].
    assert (Hv : List.length
                   (select (map2 Rdiv (map2 Rminus (Mfit2.data f)
                      (moffat (x, y) p0 p1 p2 p3 (Mfit2.fwhm f) p4))
                      (contents h (Mfit2.sigma f)))
                      (gt (contents h (Mfit2.sigma f)) 0))
                 = count_pos (contents h (Mfit2.sigma f))).
    { apply residual_call_length; [exact Hd|].
      rewrite moffat_length. cbn [fst snd]. lia. }
    split; [exact Hv|]. split.
    + rewrite length_map. unfold dmoffat. reflexivity.
    + rewrite Hv. apply jacobian_rows_length. now apply dmoffat_lengths.
  - destruct Hp as [Exy Es].
    destruct param as [|p0 [|p1 [|p2 [|p3 [|p4 [|p5 param]]]]]];
      split; intro Hl; cbn [List.length] in Hl; try lia;
      try (split; reflexivity).
    unfold Gfit1.call, Dgfit1.call, Gfit1.model, bind, unpack5, ret, rd.
    fold (contents h (Gfit1.sigma f)). fold (contents h (Dgfit1.sigma d)).
    rewrite Exy, Es. destruct (Gfit1.xy f) as [x y]. cbn [fst snd] in *.
    do 2 eexists. split; [reflexivity|]. split; [reflexivity|].
    assert (Hv : List.length
                   (select (map2 Rdiv (map2 Rminus (Gfit1.data f)
                      (gaussian (x, y) p0 p1 p2 p3 p4))
                      (contents h (Gfit1.sigma f)))
                      (gt (contents h (Gfit1.sigma f)) 0))
                 = count_pos (contents h (Gfit1.sigma f))).
    { apply residual_call_length; [exact Hd|].
      rewrite gaussian_length. cbn [fst snd]. lia. }
    split; [exact Hv|]. split.
    + rewrite length_map. unfold dgaussian. reflexivity.
    + rewrite Hv. apply jacobian_rows_length. now apply dgaussian_lengths.
  - destruct Hp as (Exy & Ew & Es).
    destruct param as [|p0 [|p1 [|p2 [|p3 [|p4 param]]]]];
      split; intro Hl; cbn [List.length] in Hl; try lia;
      try (split; reflexivity).
    unfold Gfit2.call, Dgfit2.call, Gfit2.model, bind, unpack4, ret, rd.
    fold (contents h (Gfit2.sigma f)). fold (contents h (Dgfit2.sigma d)).
    rewrite Exy, Es, Ew. destruct (Gfit2.xy f) as [x y]. cbn [fst snd] in *.
    do 2 eexists. split; [reflexivity|]. split; [reflexivity|].
    assert (Hv : List.length
                   (select (map2 Rdiv (map2 Rminus (Gfit2.data f)
                      (gaussian (x, y) p0 p1 p2 p3 (Gfit2.fwhm f)))
                      (contents h (Gfit2.sigma f)))
                      (gt (contents h (Gfit2.sigma f)) 0))
                 = count_pos (contents h (Gfit2.sigma f))).
    { apply residual_call_length; [exact Hd|].
      rewrite gaussian_length. cbn [fst snd]. lia. }
    split; [exact Hv|]. split.
    + rewrite length_map. unfold dgaussian. reflexivity.
    + rewrite Hv. apply jacobian_rows_length. now apply dgaussian_lengths.
Qed.

(** The Jacobian call returns on a parameter vector of the right length. *)
Lemma jacobian_returns (ro : residual_object) (jo : jacobian_object)
  (h : heap) (param : list R) :
  paired h ro jo ->
  List.length param = npar_of ro ->
  exists J, jacobian jo param h = Ok J h.
Proof.
  destruct ro, jo; cbn [paired]; try contradiction; intros _ Hl;
    destruct param as [|? [|? [|? [|? [|? [|? [|? ?]]]]]]];
    try discriminate Hl; eexists;
    unfold jacobian, Dmfit1.call, Dmfit2.call, Dgfit1.call, Dgfit2.call, bind,
      unpack6, unpack5, unpack4, ret, rd; reflexivity.
Qed.

Lemma nth_error_lt {A : Type} (l : list A) (k : nat) :
  (k < List.length l)%nat -> exists v, nth_error l k = Some v.
Proof.
  intro H. destruct (nth_error l k) as [v|] eqn:E; [now exists v|].
  apply nth_error_None in E. lia.
Qed.

Lemma Mfit1_jacobian (f : Mfit1.t) (d : Dmfit1.t) (h h' : heap)
  (param : list R) (J : list array) :
  paired h (R_Mfit1 f) (J_Dmfit1 d) ->
  same_shape h (R_Mfit1 f) ->
  in_domain (R_Mfit1 f) param ->
  Dmfit1.call d param h = Ok J h' ->
  forall pre v post j,
    param = pre ++ v :: post ->
    (j < count_pos (contents h (Mfit1.sigma f)))%nat ->
    derivable_pt_lim
      (fun t => residual_entry (R_Mfit1 f) h j (pre ++ t :: post)) v
      (nth j (nth (List.length pre) J []) 0).
Proof.
  intros [Exy Es] (Hx & Hy & Hd) [Hw Hb] HJ pre v post j Hsplit Hj.
  cbn [sigma_of xy_of data_of] in *.
  destruct param as [|p0 [|p1 [|p2 [|p3 [|p4 [|p5 [|p6 param]]]]]]];
    try discriminate HJ.
  cbn [nth] in Hw, Hb.
  unfold Dmfit1.call, bind, unpack6, ret, rd in HJ.
  fold (contents h (Dmfit1.sigma d)) in HJ. rewrite Exy, Es in HJ.
  inversion HJ; subst J h'; clear HJ.
  destruct (Mfit1.xy f) as [x y] eqn:Efxy. cbn [fst snd] in Hx, Hy.
  set (sig := contents h (Mfit1.sigma f)) in *.
  assert (Eb : Rmax (1/100) p5 = p5) by (apply Rmax_right; lra).
  assert (Hgrad : forall k, (k < List.length sig)%nat ->
            exists xk yk,
              (let f := fun s h xc yc w b => nth k (moffat (x, y) s h xc yc w b) 0 in
               derivable_pt_lim (fun t => f t p1 p2 p3 p4 p5) p0
                 MoffatSpec.d_sky /\
               derivable_pt_lim (fun t => f p0 t p2 p3 p4 p5) p1
                 (MoffatSpec.d_height xk yk p2 p3 p4 p5) /\
               derivable_pt_lim (fun t => f p0 p1 t p3 p4 p5) p2
                 (MoffatSpec.d_xcen xk yk p1 p2 p3 p4 p5) /\
               derivable_pt_lim (fun t => f p0 p1 p2 t p4 p5) p3
                 (MoffatSpec.d_ycen xk yk p1 p2 p3 p4 p5) /\
               derivable_pt_lim (fun t => f p0 p1 p2 p3 t p5) p4
                 (MoffatSpec.d_fwhm xk yk p1 p2 p3 p4 p5) /\
               derivable_pt_lim (fun t => f p0 p1 p2 p3 p4 t) p5
                 (MoffatSpec.d_beta xk yk p1 p2 p3 p4 p5)) /\
              entries k (dmoffat (x, y) p0 p1 p2 p3 p4 p5 false)
              = map Some
                  [ MoffatSpec.d_sky;
                    MoffatSpec.d_height xk yk p2 p3 p4 p5;
                    MoffatSpec.d_xcen xk yk p1 p2 p3 p4 p5;
                    MoffatSpec.d_ycen xk yk p1 p2 p3 p4 p5;
                    MoffatSpec.d_fwhm xk yk p1 p2 p3 p4 p5;
                    MoffatSpec.d_beta xk yk p1 p2 p3 p4 p5 ]).
  { intros k Hk.
    destruct (nth_error_lt x k) as [xk Hxk]; [lia|].
    destruct (nth_error_lt y k) as [yk Hyk]; [lia|].
    exists xk, yk. split.
    - exact (moffat_gradient x y k xk yk p0 p1 p2 p3 p4 p5 Hxk Hyk Hw Hb).
    - destruct (dmoffat_entries x y k xk yk p0 p1 p2 p3 p4 p5 Hxk Hyk)
        as [E6 _].
      now rewrite Eb in E6. }
  unfold dmoffat, entries in Hgrad; cbv zeta in Hgrad; cbn [map] in Hgrad;
    rewrite ?Eb in Hgrad.
  destruct pre as [|q0 [|q1 [|q2 [|q3 [|q4 [|q5 pre]]]]]];
    cbn [app] in Hsplit; try (destruct pre; discriminate Hsplit);
    injection Hsplit; intros; subst;
    unfold residual_entry, residual, Mfit1.call, Mfit1.model, eval, bind,
      unpack6, ret, rd; cbn [app List.length]; rewrite Efxy;
    fold (contents h (Mfit1.sigma f)); fold sig;
    unfold dmoffat; cbv zeta; cbn [map nth]; rewrite ?Eb;
    (eapply residual_deriv;
     [ intro t; rewrite moffat_length; cbn [fst snd]; lia
     | exact Hd
     | repeat (rewrite map2_length || rewrite length_map); lia
     | intros k Hk;
       destruct (Hgrad k Hk) as (xk & yk & (G0 & G1 & G2 & G3 & G4 & G5) & E6);
       injection E6 as E0 E1 E2 E3 E4 E5;
       eapply dlim_val;
       [ first [exact G0 | exact G1 | exact G2 | exact G3 | exact G4 | exact G5]
       | symmetry; apply nth_of_nth_error;
         first [exact E0 | exact E1 | exact E2 | exact E3 | exact E4 | exact E5] ]
     | exact Hj ]).
Qed.

Lemma Mfit2_jacobian (f : Mfit2.t) (d : Dmfit2.t) (h h' : heap)
  (param : list R) (J : list array) :
  paired h (R_Mfit2 f) (J_Dmfit2 d) ->
  same_shape h (R_Mfit2 f) ->
  in_domain (R_Mfit2 f) param ->
  Dmfit2.call d param h = Ok J h' ->
  forall pre v post j,
    param = pre ++ v :: post ->
    (j < count_pos (contents h (Mfit2.sigma f)))%nat ->
    derivable_pt_lim
      (fun t => residual_entry (R_Mfit2 f) h j (pre ++ t :: post)) v
      (nth j (nth (List.length pre) J []) 0).
Proof.
  intros (Exy & Ew & Es) (Hx & Hy & Hd) [Hw Hb] HJ pre v post j Hsplit Hj.
  cbn [sigma_of xy_of data_of] in *.
  destruct param as [|p0 [|p1 [|p2 [|p3 [|p5 [|p6 param]]]]]];
    try discriminate HJ.
  cbn [nth] in Hw, Hb.
  unfold Dmfit2.call, bind, unpack5, ret, rd in HJ.
  fold (contents h (Dmfit2.sigma d)) in HJ. rewrite Exy, Es, Ew in HJ.
  inversion HJ; subst J h'; clear HJ.
  destruct (Mfit2.xy f) as [x y] eqn:Efxy. cbn [fst snd] in Hx, Hy.
  set (sig := contents h (Mfit2.sigma f)) in *.
  set (p4 := Mfit2.fwhm f) in *.
  assert (Eb : Rmax (1/100) p5 = p5) by (apply Rmax_right; lra).
  assert (Hgrad : forall k, (k < List.length sig)%nat ->
            exists xk yk,
              (let f := fun s h xc yc w b => nth k (moffat (x, y) s h xc yc w b) 0 in
               derivable_pt_lim (fun t => f t p1 p2 p3 p4 p5) p0
                 MoffatSpec.d_sky /\
               derivable_pt_lim (fun t => f p0 t p2 p3 p4 p5) p1
                 (MoffatSpec.d_height xk yk p2 p3 p4 p5) /\
               derivable_pt_lim (fun t => f p0 p1 t p3 p4 p5) p2
                 (MoffatSpec.d_xcen xk yk p1 p2 p3 p4 p5) /\
               derivable_pt_lim (fun t => f p0 p1 p2 t p4 p5) p3
                 (MoffatSpec.d_ycen xk yk p1 p2 p3 p4 p5) /\
               derivable_pt_lim (fun t => f p0 p1 p2 p3 t p5) p4
                 (MoffatSpec.d_fwhm xk yk p1 p2 p3 p4 p5) /\
               derivable_pt_lim (fun t => f p0 p1 p2 p3 p4 t) p5
                 (MoffatSpec.d_beta xk yk p1 p2 p3 p4 p5)) /\
              entries k (dmoffat (x, y) p0 p1 p2 p3 p4 p5 true)
              = map Some
                  [ MoffatSpec.d_sky;
                    MoffatSpec.d_height xk yk p2 p3 p4 p5;
                    MoffatSpec.d_xcen xk yk p1 p2 p3 p4 p5;
                    MoffatSpec.d_ycen xk yk p1 p2 p3 p4 p5;
                    MoffatSpec.d_beta xk yk p1 p2 p3 p4 p5 ]).
  { intros k Hk.
    destruct (nth_error_lt x k) as [xk Hxk]; [lia|].
    destruct (nth_error_lt y k) as [yk Hyk]; [lia|].
    exists xk, yk. split.
    - exact (moffat_gradient x y k xk yk p0 p1 p2 p3 p4 p5 Hxk Hyk Hw Hb).
    - destruct (dmoffat_entries x y k xk yk p0 p1 p2 p3 p4 p5 Hxk Hyk)
        as [_ E5].
      now rewrite Eb in E5. }
  unfold dmoffat, entries in Hgrad; cbv zeta in Hgrad; cbn [map] in Hgrad;
    rewrite ?Eb in Hgrad.
  destruct pre as [|q0 [|q1 [|q2 [|q3 [|q4 pre]]]]];
    cbn [app] in Hsplit; try (destruct pre; discriminate Hsplit);
    injection Hsplit; intros; subst;
    unfold residual_entry, residual, Mfit2.call, Mfit2.model, eval, bind,
      unpack5, ret, rd; cbn [app List.length]; rewrite Efxy;
    fold (contents h (Mfit2.sigma f)); fold sig; fold p4;
    unfold dmoffat; cbv zeta; cbn [map nth]; rewrite ?Eb;
    (eapply residual_deriv;
     [ intro t; rewrite moffat_length; cbn [fst snd]; lia
     | exact Hd
     | repeat (rewrite map2_length || rewrite length_map); lia
     | intros k Hk;
       destruct (Hgrad k Hk) as (xk & yk & (G0 & G1 & G2 & G3 & G4 & G5) & E6);
       injection E6 as E0 E1 E2 E3 E5;
       eapply dlim_val;
       [ first [exact G0 | exact G1 | exact G2 | exact G3 | exact G5]
       | symmetry; apply nth_of_nth_error;
         first [exact E0 | exact E1 | exact E2 | exact E3 | exact E5] ]
     | exact Hj ]).
Qed.

Lemma Gfit1_jacobian (f : Gfit1.t) (d : Dgfit1.t) (h h' : heap)
  (param : list R) (J : list array) :
  paired h (R_Gfit1 f) (J_Dgfit1 d) ->
  same_shape h (R_Gfit1 f) ->
  in_domain (R_Gfit1 f) param ->
  Dgfit1.call d param h = Ok J h' ->
  forall pre v post j,
    param = pre ++ v :: post ->
    (j < count_pos (contents h (Gfit1.sigma f)))%nat ->
    derivable_pt_lim
      (fun t => residual_entry (R_Gfit1 f) h j (pre ++ t :: post)) v
      (nth j (nth (List.length pre) J []) 0).
Proof.
  intros (Exy & Es) (Hx & Hy & Hd) Hw HJ pre v post j Hsplit Hj.
  cbn [sigma_of xy_of data_of] in *.
  destruct param as [|p0 [|p1 [|p2 [|p3 [|p4 [|p6 param]]]]]];
    try discriminate HJ.
  cbn [in_domain nth] in Hw.
  unfold Dgfit1.call, bind, unpack5, ret, rd in HJ.
  fold (contents h (Dgfit1.sigma d)) in HJ. rewrite Exy, Es in HJ.
  inversion HJ; subst J h'; clear HJ.
  destruct (Gfit1.xy f) as [x y] eqn:Efxy. cbn [fst snd] in Hx, Hy.
  set (sig := contents h (Gfit1.sigma f)) in *.
  assert (Hgrad : forall k, (k < List.length sig)%nat ->
            exists xk yk,
              (let g := fun s h xc yc w => nth k (gaussian (x, y) s h xc yc w) 0 in
               let a := 4 * ln 2 / p4 ^ 2 in
               let r := (xk - p2) ^ 2 + (yk - p3) ^ 2 in
               derivable_pt_lim (fun t => g t p1 p2 p3 p4) p0 1 /\
               derivable_pt_lim (fun t => g p0 t p2 p3 p4) p1 (exp (- a * r)) /\
               derivable_pt_lim (fun t => g p0 p1 t p3 p4) p2
                 ((2 * a * p1) * exp (- a * r) * (xk - p2)) /\
               derivable_pt_lim (fun t => g p0 p1 p2 t p4) p3
                 ((2 * a * p1) * exp (- a * r) * (yk - p3)) /\
               derivable_pt_lim (fun t => g p0 p1 p2 p3 t) p4
                 ((2 * a * p1 / p4) * exp (- a * r) * r)) /\
              (let a := 4 * ln 2 / p4 ^ 2 in
               let r := (xk - p2) ^ 2 + (yk - p3) ^ 2 in
               entries k (dgaussian (x, y) p0 p1 p2 p3 p4 false)
               = map Some [1; exp (- a * r);
                           (2 * a * p1) * exp (- a * r) * (xk - p2);
                           (2 * a * p1) * exp (- a * r) * (yk - p3);
                           (2 * a * p1 / p4) * exp (- a * r) * r])).
  { intros k Hk.
    destruct (nth_error_lt x k) as [xk Hxk]; [lia|].
    destruct (nth_error_lt y k) as [yk Hyk]; [lia|].
    exists xk, yk. split.
    - exact (gaussian_gradient x y k xk yk p0 p1 p2 p3 p4 Hxk Hyk Hw).
    - exact (proj1 (dgaussian_entries x y k xk yk p0 p1 p2 p3 p4 Hxk Hyk)). }
  unfold dgaussian, entries in Hgrad; cbv zeta in Hgrad; cbn [map] in Hgrad.
  destruct pre as [|q0 [|q1 [|q2 [|q3 [|q4 pre]]]]];
    cbn [app] in Hsplit; try (destruct pre; discriminate Hsplit);
    injection Hsplit; intros; subst;
    unfold residual_entry, residual, Gfit1.call, Gfit1.model, eval, bind,
      unpack5, ret, rd; cbn [app List.length]; rewrite Efxy;
    fold (contents h (Gfit1.sigma f)); fold sig;
    unfold dgaussian; cbv zeta; cbn [map nth];
    (eapply residual_deriv;
     [ intro t; rewrite gaussian_length; cbn [fst snd]; lia
     | exact Hd
     | repeat (rewrite map2_length || rewrite length_map); lia
     | intros k Hk;
       destruct (Hgrad k Hk) as (xk & yk & (G0 & G1 & G2 & G3 & G4) & E6);
       injection E6 as E0 E1 E2 E3 E4;
       eapply dlim_val;
       [ first [exact G0 | exact G1 | exact G2 | exact G3 | exact G4]
       | symmetry; apply nth_of_nth_error;
         first [exact E0 | exact E1 | exact E2 | exact E3 | exact E4] ]
     | exact Hj ]).
Qed.

Lemma Gfit2_jacobian (f : Gfit2.t) (d : Dgfit2.t) (h h' : heap)
  (param : list R) (J : list array) :
  paired h (R_Gfit2 f) (J_Dgfit2 d) ->
  same_shape h (R_Gfit2 f) ->
  in_domain (R_Gfit2 f) param ->
  Dgfit2.call d param h = Ok J h' ->
  forall pre v post j,
    param = pre ++ v :: post ->
    (j < count_pos (contents h (Gfit2.sigma f)))%nat ->
    derivable_pt_lim
      (fun t => residual_entry (R_Gfit2 f) h j (pre ++ t :: post)) v
      (nth j (nth (List.length pre) J []) 0).
Proof.
  intros (Exy & Ew & Es) (Hx & Hy & Hd) Hw HJ pre v post j Hsplit Hj.
  cbn [sigma_of xy_of data_of] in *.
  destruct param as [|p0 [|p1 [|p2 [|p3 [|p6 param]]]]];
    try discriminate HJ.
  cbn [in_domain] in Hw.
  unfold Dgfit2.call, bind, unpack4, ret, rd in HJ.
  fold (contents h (Dgfit2.sigma d)) in HJ. rewrite Exy, Es, Ew in HJ.
  inversion HJ; subst J h'; clear HJ.
  destruct (Gfit2.xy f) as [x y] eqn:Efxy. cbn [fst snd] in Hx, Hy.
  set (sig := contents h (Gfit2.sigma f)) in *.
  set (p4 := Gfit2.fwhm f) in *.
  assert (Hgrad : forall k, (k < List.length sig)%nat ->
            exists xk yk,
              (let g := fun s h xc yc w => nth k (gaussian (x, y) s h xc yc w) 0 in
               let a := 4 * ln 2 / p4 ^ 2 in
               let r := (xk - p2) ^ 2 + (yk - p3) ^ 2 in
               derivable_pt_lim (fun t => g t p1 p2 p3 p4) p0 1 /\
               derivable_pt_lim (fun t => g p0 t p2 p3 p4) p1 (exp (- a * r)) /\
               derivable_pt_lim (fun t => g p0 p1 t p3 p4) p2
                 ((2 * a * p1) * exp (- a * r) * (xk - p2)) /\
               derivable_pt_lim (fun t => g p0 p1 p2 t p4) p3
                 ((2 * a * p1) * exp (- a * r) * (yk - p3)) /\
               derivable_pt_lim (fun t => g p0 p1 p2 p3 t) p4
                 ((2 * a * p1 / p4) * exp (- a * r) * r)) /\
              (let a := 4 * ln 2 / p4 ^ 2 in
               let r := (xk - p2) ^ 2 + (yk - p3) ^ 2 in
               entries k (dgaussian (x, y) p0 p1 p2 p3 p4 true)
               = map Some [1; exp (- a * r);
                           (2 * a * p1) * exp (- a * r) * (xk - p2);
                           (2 * a * p1) * exp (- a * r) * (yk - p3)])).
  { intros k Hk.
    destruct (nth_error_lt x k) as [xk Hxk]; [lia|].
    destruct (nth_error_lt y k) as [yk Hyk]; [lia|].
    exists xk, yk. split.
    - exact (gaussian_gradient x y k xk yk p0 p1 p2 p3 p4 Hxk Hyk Hw).
    - exact (proj2 (dgaussian_entries x y k xk yk p0 p1 p2 p3 p4 Hxk Hyk)). }
  unfold dgaussian, entries in Hgrad; cbv zeta in Hgrad; cbn [map] in Hgrad.
  destruct pre as [|q0 [|q1 [|q2 [|q3 pre]]]];
    cbn [app] in Hsplit; try (destruct pre; discriminate Hsplit);
    injection Hsplit; intros; subst;
    unfold residual_entry, residual, Gfit2.call, Gfit2.model, eval, bind,
      unpack4, ret, rd; cbn [app List.length]; rewrite Efxy;
    fold (contents h (Gfit2.sigma f)); fold sig; fold p4;
    unfold dgaussian; cbv zeta; cbn [map nth];
    (eapply residual_deriv;
     [ intro t; rewrite gaussian_length; cbn [fst snd]; lia
     | exact Hd
     | repeat (rewrite map2_length || rewrite length_map); lia
     | intros k Hk;
       destruct (Hgrad k Hk) as (xk & yk & (G0 & G1 & G2 & G3 & G4) & E6);
       injection E6 as E0 E1 E2 E3;
       eapply dlim_val;
       [ first [exact G0 | exact G1 | exact G2 | exact G3]
       | symmetry; apply nth_of_nth_error;
         first [exact E0 | exact E1 | exact E2 | exact E3] ]
     | exact Hj ]).
Qed.

(** X7 (the Jacobian objects give the derivatives of the residuals).  For a
    residual object and the Jacobian object that goes with it, on arrays of
    one shape and at a parameter vector of the right length where the
    profile is differentiable, the Jacobian call returns and row [i] of
    what it returns holds, for every included pixel, the derivative of that
    entry of the vector of residuals with respect to parameter [i]: the
    layout that [col_deriv=True] asks for. *)
Theorem jacobian_of_residual :
  forall (ro : residual_object) (jo : jacobian_object) (h : heap)
         (param : list R),
    paired h ro jo ->
    same_shape h ro ->
    in_domain ro param ->
    List.length param = npar_of ro ->
    exists J,
      jacobian jo param h = Ok J h /\
      forall (pre : list R) (v : R) (post : list R) (j : nat),
        param = pre ++ v :: post ->
        (j < count_pos (contents h (sigma_of ro)))%nat ->
        derivable_pt_lim
          (fun t => residual_entry ro h j (pre ++ t :: post)) v
          (nth j (nth (List.length pre) J []) 0).
Proof.
  intros ro jo h param Hp Hs Hdom Hl.
  destruct (jacobian_returns ro jo h param Hp Hl) as (J & HJ).
  exists J. split; [exact HJ|].
  destruct ro as [f|f|f|f], jo as [d|d|d|d]; cbn [paired] in Hp;
    try contradiction; cbn [sigma_of jacobian] in *.
  - exact (Mfit1_jacobian f d h h param J Hp Hs Hdom HJ).
  - exact (Mfit2_jacobian f d h h param J Hp Hs Hdom HJ).
  - exact (Gfit1_jacobian f d h h param J Hp Hs Hdom HJ).
  - exact (Gfit2_jacobian f d h h param J Hp Hs Hdom HJ).
Qed.

(** ** The function objects and the store through the loop *)

Lemma upd_app_here (h : heap) (a b : array) (rest : heap) :
  upd (h ++ a :: rest) (List.length h) b = h ++ b :: rest.
Proof. induction h as [|c h IH]; simpl; [reflexivity | now rewrite IH]. Qed.

Lemma contents_app_here (h : heap) (a : array) (rest : heap) :
  contents (h ++ a :: rest) (List.length h) = a.
Proof. unfold contents. apply nth_middle. Qed.

Lemma contents_app_next (h : heap) (a b : array) (rest : heap) :
  contents (h ++ a :: b :: rest) (S (List.length h)) = b.
Proof.
  unfold contents.
  replace (h ++ a :: b :: rest) with ((h ++ [a]) ++ b :: rest)
    by now rewrite <- app_assoc.
  replace (S (List.length h)) with (List.length (h ++ [a]))
    by (rewrite length_app; simpl; lia).
  apply nth_middle.
Qed.

Lemma Moffat_construct_objs wind fwhm read gain h o h' :
  Moffat.construct wind fwhm read gain h = Ok o h' ->
  exists s,
    noise read gain (Window.data wind) h = Ok s h /\
    List.length s = List.length (Window.data wind) /\
    o = Moffat_objs_at wind (List.length h) (S (List.length h)) fwhm /\
    h' = h ++ [s; s].
Proof.
  unfold Moffat.construct, Mfit1.init, Mfit2.init. intro H.
  apply bind_Ok in H. destruct H as (m1 & h1 & H1 & H).
  apply bind_Ok in H1. destruct H1 as (s & h2 & Hn & H1).
  destruct (noise_Ok _ _ _ _ _ _ Hn) as (-> & r & g & Hr & Hg & Hs & Hl).
  apply bind_Ok in H1. destruct H1 as (l & h3 & Ha & H1).
  unfold alloc in Ha. inversion Ha; subst l h3; clear Ha.
  unfold ret in H1. inversion H1; subst m1 h1; clear H1.
  apply bind_Ok in H. destruct H as (m2 & h1 & H2 & H).
  apply bind_Ok in H2. destruct H2 as (s2 & h2 & Hn2 & H2).
  assert (Hs2 : s2 = s /\ h2 = h ++ [s]).
  { unfold noise in Hn, Hn2. rewrite Hr, Hg in Hn, Hn2. unfold ret in Hn, Hn2.
    inversion Hn; inversion Hn2; subst; auto. }
  destruct Hs2 as [-> ->].
  apply bind_Ok in H2. destruct H2 as (l & h3 & Ha & H2).
  unfold alloc in Ha. inversion Ha; subst l h3; clear Ha.
  unfold ret in H2. inversion H2; subst m2 h1; clear H2.
  unfold ret in H. inversion H; subst o h'; clear H.
  exists s. split; [assumption|]. split; [assumption|].
  split.
  - unfold Moffat_objs_at, Dmfit1.init, Dmfit2.init, grid.
    cbn [Mfit1.sigma Mfit1.xy Mfit2.sigma Mfit2.xy Mfit2.fwhm].
    rewrite length_app. cbn [List.length]. rewrite Nat.add_1_r. reflexivity.
  - now rewrite <- app_assoc.
Qed.

Lemma sqrt_map_nonneg (l : list R) : Forall (fun e => 0 <= e) (map sqrt l).
Proof. apply Forall_map, Forall_forall. intros x _. apply sqrt_pos. Qed.


Lemma sfac_spec_nonneg (d f sig : array) (npar : nat) :
  0 <= sfac_spec d f sig npar.
Proof. apply sqrt_pos. Qed.


Lemma reject_entry_kept (s resid bound : R) :
  s > 0 -> reject_entry s resid bound = s -> Rabs resid <= bound.
Proof.
  intros Hs. unfold reject_entry. rewrite (Rgtb_true _ _ Hs). cbn [andb].
  destruct (Rgt_dec (Rabs resid) bound) as [Hr|Hr].
  - rewrite (Rgtb_true _ _ Hr). lra.
  - intros _. lra.
Qed.

Section MoffatObjs.
Variable leastsq : solver.
Variable wind : Window.t.
Variables sky height xcen ycen fwhm fwhm_min : R.
Variable fwhm_fix : bool.
Variables beta thresh : R.
Variables read gain : operand.

#[local] Abbreviation two_pass :=
  (Moffat.two_pass leastsq wind sky height xcen ycen fwhm fwhm_min fwhm_fix
     beta).
#[local] Abbreviation body :=
  (Moffat.body leastsq wind sky height xcen ycen fwhm fwhm_min fwhm_fix
     beta thresh).
#[local] Abbreviation fitMoffat :=
  (Moffat.fitMoffat leastsq wind sky height xcen ycen fwhm fwhm_min fwhm_fix
     beta thresh).
#[local] Abbreviation turn :=
  (Moffat_turn leastsq wind sky height xcen ycen fwhm fwhm_min fwhm_fix
     beta thresh read gain).

(** The function objects after the two-pass fit are those before it, with
    possibly another fixed FWHM. *)
Lemma Moffat_two_pass_objs l1 l2 fw h o' p h' :
  two_pass (Moffat_objs_at wind l1 l2 fw) h = Ok (o', p) h' ->
  exists fw', o' = Moffat_objs_at wind l1 l2 fw'.
Proof.
  intro H. apply Moffat_two_pass_Ok in H. destruct H as (_ & H).
  destruct H as [(_ & _ & Ho)|(_ & _ & a & b & c & d & w & e & _ & H)].
  - destruct Ho as (? & ? & ? & ? & ? & ? & ? & ? & ? & ? & ? & _ & _ & _ & -> & _).
    now exists fwhm.
  - destruct H as [(_ & Ho)|(_ & _ & Ho)].
    + destruct Ho as (? & ? & ? & ? & ? & ? & ? & ? & ? & ? & ? & ? & ?
                      & _ & _ & _ & _ & -> & _).
      now exists fw.
    + destruct Ho as (? & ? & ? & ? & ? & ? & ? & ? & ? & ? & ?
                      & _ & _ & _ & -> & _).
      now exists fwhm_min.
Qed.

(** The state at the head of every turn: the store is the store of the
    call followed by the array of [mfit1], which carries the rejections,
    and by the array made for [mfit2], which is as it was made; the
    fixed-FWHM pair uses the second array in the first turn and the first
    one after a turn that rejected pixels. *)
Lemma Moffat_turn_objs h o hl :
  turn h o hl ->
  exists s sig l2 fw,
    noise read gain (Window.data wind) h = Ok s h /\
    List.length s = List.length (Window.data wind) /\
    o = Moffat_objs_at wind (List.length h) l2 fw /\
    hl = h ++ [sig; s] /\
    rejected_from s sig /\
    ((l2 = S (List.length h) /\ sig = s /\ fw = fwhm) \/
     (l2 = List.length h /\ (count_pos sig < count_pos s)%nat)).
Proof.
  intros (o0 & h0 & Hc & Hr).
  apply Moffat_construct_objs in Hc. destruct Hc as (s & Hn & Hl & -> & ->).
  exists s. induction Hr as [|o hl o2 h2 Hr IH Hb].
  - exists s, (S (List.length h)), fwhm. repeat split; auto.
    apply rejected_from_refl.
  - destruct IH as (sig & l2 & fw & _ & _ & -> & -> & Hrej & Hl2).
    destruct (Moffat_body_step _ _ _ _ _ _ _ _ _ _ _ _ _ _ _ Hb)
      as (o' & p & Htp & _ & Hstep).
    cbv zeta in Hstep. destruct Hstep as (Hh2 & _ & [[_ Hr2]|[_ Hr2]]);
      [|discriminate Hr2].
    injection Hr2 as ->.
    destruct (Moffat_body_rejected _ _ _ _ _ _ _ _ _ _ _ _ _ _ _ Hb)
      as (Hrej2 & _ & _ & _ & Hcount).
    destruct (Moffat_two_pass_objs _ _ _ _ _ _ _ Htp) as (fw' & ->).
    unfold Moffat_sigma1 in *.
    cbn [Moffat_objs_at Moffat.mfit1 Mfit1.sigma] in *.
    rewrite contents_app_here in Hrej2, Hcount.
    rewrite upd_app_here in Hh2. rewrite Hh2 in Hrej2, Hcount.
    rewrite contents_app_here in Hrej2, Hcount.
    eexists _, (List.length h), fw'.
    split; [exact Hn|]. split; [exact Hl|].
    split; [reflexivity|]. split; [exact Hh2|].
    split; [eapply rejected_from_trans; eassumption|].
    right. split; [reflexivity|].
    pose proof (proj1 (rejected_from_count _ _ Hrej)). lia.
Qed.

(** The local variables after a two-pass fit that returns: a fixed-FWHM
    solution, or a free-FWHM solution that is kept. *)
Lemma Moffat_pass_cases l1 l2 fw h o' p h' :
  two_pass (Moffat_objs_at wind l1 l2 fw) h = Ok (o', p) h' ->
  h' = h /\
  ((exists fw' out a b c d e cov ea eb ec ed ee,
       ((fwhm_fix = true /\ fw' = fwhm) \/
        (fwhm_fix = false /\ fw' = fwhm_min)) /\
       out = Moffat_fixed_solve leastsq sky height xcen ycen beta fw'
               (Moffat_objs_at wind l1 l2 fw) h /\
       status_ok out /\
       Lsq.soln out = [a; b; c; d; e] /\
       Lsq.covar out = Some cov /\
       map sqrt (diag cov) = [ea; eb; ec; ed; ee] /\
       o' = Moffat_objs_at wind l1 l2 fw' /\
       p = {| Moffat.soln := [a; b; c; d; e];
              Moffat.fit :=
                Window.Build_t (Window.winhead wind)
                  (moffat (grid wind) a b c d fw' e);
              Moffat.skyf := a; Moffat.heightf := b; Moffat.xf := c;
              Moffat.yf := d; Moffat.fwhmf := fw'; Moffat.betaf := e;
              Moffat.skyfe := ea; Moffat.heightfe := eb; Moffat.xfe := ec;
              Moffat.yfe := ed; Moffat.fwhmfe := -1; Moffat.betafe := ee |}) \/
   (exists out a b c d w e cov ea eb ec ed ew ee,
       fwhm_fix = false /\ w > fwhm_min /\
       out = Moffat_free_solve leastsq sky height xcen ycen fwhm beta
               (Moffat_objs_at wind l1 l2 fw) h /\
       status_ok out /\
       Lsq.soln out = [a; b; c; d; w; e] /\
       Lsq.covar out = Some cov /\
       map sqrt (diag cov) = [ea; eb; ec; ed; ew; ee] /\
       o' = Moffat_objs_at wind l1 l2 fw /\
       p = {| Moffat.soln := [a; b; c; d; w; e];
              Moffat.fit :=
                Window.Build_t (Window.winhead wind)
                  (moffat (grid wind) a b c d w e);
              Moffat.skyf := a; Moffat.heightf := b; Moffat.xf := c;
              Moffat.yf := d; Moffat.fwhmf := w; Moffat.betaf := e;
              Moffat.skyfe := ea; Moffat.heightfe := eb; Moffat.xfe := ec;
              Moffat.yfe := ed; Moffat.fwhmfe := ew; Moffat.betafe := ee |})).
Proof.
  intro H. apply Moffat_two_pass_Ok in H. destruct H as (-> & H).
  split; [reflexivity|].
  destruct H as [(Hfix & Hst & Ho)|(Hfix & Hst & a & b & c & d & w & e & Hs & H)].
  - left.
    destruct Ho as (a & b & c & d & e & cov & ea & eb & ec & ed & ee
                    & Hl & Hc & He & -> & ->).
    exists fwhm, (Moffat_fixed_solve leastsq sky height xcen ycen beta fwhm
                    (Moffat_objs_at wind l1 l2 fw) h),
      a, b, c, d, e, cov, ea, eb, ec, ed, ee.
    repeat split; auto; apply Hst.
  - destruct H as [(Hw & Ho)|(Hw & Hst2 & Ho)].
    + right.
      destruct Ho as (a' & b' & c' & d' & w' & e' & cov & ea & eb & ec & ed
                      & ew & ee & Hl & Hw' & Hc & He & -> & ->).
      exists (Moffat_free_solve leastsq sky height xcen ycen fwhm beta
                (Moffat_objs_at wind l1 l2 fw) h),
        a', b', c', d', w', e', cov, ea, eb, ec, ed, ew, ee.
      repeat split; auto; apply Hst.
    + left.
      destruct Ho as (a' & b' & c' & d' & e' & cov & ea & eb & ec & ed & ee
                      & Hl & Hc & He & -> & ->).
      exists fwhm_min,
        (Moffat_fixed_solve leastsq sky height xcen ycen beta fwhm_min
           (Moffat_objs_at wind l1 l2 fw) h),
        a', b', c', d', e', cov, ea, eb, ec, ed, ee.
      repeat split; auto; apply Hst2.
Qed.

(** The turn that returns. *)
Lemma fitMoffat_result fuel h r h' :
  Window.shaped wind ->
  fitMoffat fuel read gain h = Ok r h' ->
  exists s sig l2 fw o' p,
    noise read gain (Window.data wind) h = Ok s h /\
    List.length sig = List.length (Window.data wind) /\
    h' = h ++ [sig; s] /\
    rejected_from s sig /\
    ((l2 = S (List.length h) /\ sig = s /\ fw = fwhm) \/
     (l2 = List.length h /\ (count_pos sig < count_pos s)%nat)) /\
    two_pass (Moffat_objs_at wind (List.length h) l2 fw) h' = Ok (o', p) h' /\
    let d := Window.data wind in
    let f := Window.data (Moffat.fit p) in
    let sfac := sfac_spec d f sig (List.length (Moffat.soln p)) in
    List.length f = List.length sig /\
    r = Moffat_done o' p sig (chisq_spec d f sig) sfac (count_pos sig) /\
    (forall k dk fk sk,
        nth_error d k = Some dk -> nth_error f k = Some fk ->
        nth_error sig k = Some sk ->
        reject_entry sk ((dk - fk) / sk) (sfac * thresh) = sk).
Proof.
  intros Hw H. apply fitMoffat_Ok in H. destruct H as (o & hl & Ht & Hb).
  destruct (Moffat_turn_objs _ _ _ Ht)
    as (s & sig & l2 & fw & Hn & Hl & -> & -> & Hrej & Hl2).
  assert (Hsl : List.length sig = List.length (Window.data wind))
    by (rewrite (rejected_from_length _ _ Hrej); exact Hl).
  assert (Hc : contents (h ++ [sig; s])
                 (Moffat_sigma1 (Moffat_objs_at wind (List.length h) l2 fw))
               = sig) by apply contents_app_here.
  assert (Hsh : Moffat_shaped wind (Moffat_objs_at wind (List.length h) l2 fw))
    by (split; reflexivity).
  destruct (Moffat_body_exact _ _ _ _ _ _ _ _ _ _ _ _ _ _ _ Hw Hsh
              (eq_trans (f_equal (@List.length R) Hc) Hsl) Hb)
    as (o' & p & Htp & _ & _ & Hex).
  cbv zeta in Hex. rewrite Hc in Hex.
  destruct Hex as (Hfl & _ & _ & Hk & [[Hr _]|(Hr & Hsig & ->)]);
    [discriminate Hr|].
  injection Hr as ->.
  exists s, sig, l2, fw, o', p.
  split; [exact Hn|]. split; [exact Hsl|]. split; [reflexivity|].
  split; [exact Hrej|]. split; [exact Hl2|]. split; [exact Htp|].
  cbv zeta. split; [exact Hfl|]. split; [reflexivity|].
  intros k dk fk sk Hd Hf Hs.
  specialize (Hk k dk fk sk Hd Hf Hs). rewrite Hsig in Hk.
  congruence.
Qed.
Lemma Moffat_result_counts fuel h r h' :
  Window.shaped wind ->
  fitMoffat fuel read gain h = Ok r h' ->
  exists s,
    noise read gain (Window.data wind) h = Ok s h /\
    h' = h ++ [Moffat.r_sigma r; s] /\
    rejected_from s (Moffat.r_sigma r) /\
    List.length (Moffat.r_sigma r) = (Window.ny wind * Window.nx wind)%nat /\
    Moffat.r_nok r = count_pos (Moffat.r_sigma r) /\
    (Z.of_nat (Moffat.r_nok r) + Moffat.r_nrej r
     = Z.of_nat (Window.ny wind * Window.nx wind))%Z /\
    (Moffat.r_npar r = 5 \/ Moffat.r_npar r = 6)%nat.
Proof.
  intros Hw H.
  destruct (fitMoffat_result _ _ _ _ Hw H)
    as (s & sig & l2 & fw & o' & p & Hn & Hl & -> & Hrej & _ & Htp & Hres).
  cbv zeta in Hres. destruct Hres as (_ & -> & _).
  unfold Moffat_done.
  cbn [Moffat.r_sigma Moffat.r_nok Moffat.r_nrej Moffat.r_npar].
  assert (Hn2 : List.length sig = (Window.ny wind * Window.nx wind)%nat)
    by (rewrite Hl; exact Hw).
  exists s. repeat (split; [first [assumption | reflexivity | lia]|]).
  destruct (Moffat_pass_cases _ _ _ _ _ _ _ Htp) as (_ & [Hc|Hc]).
  - destruct Hc as (? & ? & ? & ? & ? & ? & ? & ? & ? & ? & ? & ? & ?
                    & _ & _ & _ & _ & _ & _ & _ & ->).
    left. reflexivity.
  - destruct Hc as (? & ? & ? & ? & ? & ? & ? & ? & ? & ? & ? & ? & ? & ?
                    & _ & _ & _ & _ & _ & _ & _ & _ & ->).
    right. reflexivity.
Qed.

Lemma Moffat_result_fit fuel h r h' :
  Window.shaped wind ->
  fitMoffat fuel read gain h = Ok r h' ->
  exists a b c d w e,
    Moffat.pars r = (a, b, c, d, w, e) /\
    (Moffat.r_x r, Moffat.r_y r) = grid wind /\
    Moffat.r_fit r
    = Window.Build_t (Window.winhead wind)
        (moffat (Moffat.r_x r, Moffat.r_y r) a b c d w e).
Proof.
  intros Hw H.
  destruct (fitMoffat_result _ _ _ _ Hw H)
    as (s & sig & l2 & fw & o' & p & _ & _ & _ & _ & _ & Htp & Hres).
  cbv zeta in Hres. destruct Hres as (_ & -> & _).
  destruct (Moffat_pass_cases _ _ _ _ _ _ _ Htp) as (_ & [Hc|Hc]).
  - destruct Hc as (fw' & ? & a & b & c & d & e & ? & ? & ? & ? & ? & ?
                    & _ & _ & _ & _ & _ & _ & -> & ->).
    exists a, b, c, d, fw', e. unfold Moffat_done, Moffat_objs_at.
    cbn [Moffat.pars Moffat.r_x Moffat.r_y Moffat.r_fit Moffat.skyf
         Moffat.heightf Moffat.xf Moffat.yf Moffat.fwhmf Moffat.betaf
         Moffat.fit Moffat.mfit1 Mfit1.xy].
    rewrite <- surjective_pairing. auto.
  - destruct Hc as (? & a & b & c & d & w & e & ? & ? & ? & ? & ? & ? & ?
                    & _ & _ & _ & _ & _ & _ & _ & -> & ->).
    exists a, b, c, d, w, e. unfold Moffat_done, Moffat_objs_at.
    cbn [Moffat.pars Moffat.r_x Moffat.r_y Moffat.r_fit Moffat.skyf
         Moffat.heightf Moffat.xf Moffat.yf Moffat.fwhmf Moffat.betaf
         Moffat.fit Moffat.mfit1 Mfit1.xy].
    rewrite <- surjective_pairing. auto.
Qed.

Lemma Moffat_result_errors fuel h r h' :
  Window.shaped wind ->
  fitMoffat fuel read gain h = Ok r h' ->
  exists a b c d w e ea eb ec ed ew ee,
    Moffat.pars r = (a, b, c, d, w, e) /\
    Moffat.sigs r = (ea, eb, ec, ed, ew, ee) /\
    0 <= ea /\ 0 <= eb /\ 0 <= ec /\ 0 <= ed /\ 0 <= ee /\
    ((Moffat.r_npar r = 5%nat /\ ew = -1 /\
      ((fwhm_fix = true /\ w = fwhm) \/ (fwhm_fix = false /\ w = fwhm_min))) \/
     (Moffat.r_npar r = 6%nat /\ 0 <= ew /\ fwhm_fix = false /\ w > fwhm_min)).
Proof.
  intros Hw H.
  destruct (fitMoffat_result _ _ _ _ Hw H)
    as (s & sig & l2 & fw & o' & p & _ & _ & _ & _ & _ & Htp & Hres).
  cbv zeta in Hres. destruct Hres as (_ & -> & _).
  pose proof (sfac_spec_nonneg (Window.data wind) (Window.data (Moffat.fit p))
                sig (List.length (Moffat.soln p))) as Hs.
  set (sfac := sfac_spec _ _ _ _) in *. clearbody sfac.
  destruct (Moffat_pass_cases _ _ _ _ _ _ _ Htp) as (_ & [Hc|Hc]).
  - destruct Hc as (fw' & ? & a & b & c & d & e & cov & ea & eb & ec & ed & ee
                    & Hfw & _ & _ & _ & _ & He & _ & ->).
    pose proof (sqrt_map_nonneg (diag cov)) as Hp. rewrite He in Hp.
    inversion_clear Hp as [|? ? Ha Hp1]. inversion_clear Hp1 as [|? ? Hb Hp2].
    inversion_clear Hp2 as [|? ? Hc Hp3]. inversion_clear Hp3 as [|? ? Hd Hp4].
    inversion_clear Hp4 as [|? ? He' _].
    exists a, b, c, d, fw', e. do 6 eexists.
    unfold Moffat_done.
    cbn [Moffat.pars Moffat.sigs Moffat.r_npar Moffat.skyf Moffat.heightf
         Moffat.xf Moffat.yf Moffat.fwhmf Moffat.betaf Moffat.skyfe
         Moffat.heightfe Moffat.xfe Moffat.yfe Moffat.fwhmfe Moffat.betafe
         Moffat.soln List.length].
    rewrite (Rgtb_false (-1) 0) by lra.
    split; [reflexivity|]. split; [reflexivity|].
    repeat (split; [apply Rmult_le_pos; assumption|]).
    left. repeat split; auto.
  - destruct Hc as (? & a & b & c & d & w & e & cov & ea & eb & ec & ed & ew & ee
                    & Hfix & Hgt & _ & _ & _ & _ & He & _ & ->).
    pose proof (sqrt_map_nonneg (diag cov)) as Hp. rewrite He in Hp.
    inversion_clear Hp as [|? ? Ha Hp1]. inversion_clear Hp1 as [|? ? Hb Hp2].
    inversion_clear Hp2 as [|? ? Hc Hp3]. inversion_clear Hp3 as [|? ? Hd Hp4].
    inversion_clear Hp4 as [|? ? He' Hp5]. inversion_clear Hp5 as [|? ? Hf _].
    exists a, b, c, d, w, e. do 6 eexists.
    unfold Moffat_done.
    cbn [Moffat.pars Moffat.sigs Moffat.r_npar Moffat.skyf Moffat.heightf
         Moffat.xf Moffat.yf Moffat.fwhmf Moffat.betaf Moffat.skyfe
         Moffat.heightfe Moffat.xfe Moffat.yfe Moffat.fwhmfe Moffat.betafe
         Moffat.soln List.length].
    split; [reflexivity|]. split; [reflexivity|].
    repeat (split; [apply Rmult_le_pos; assumption|]).
    right. split; [reflexivity|]. split; [|split; assumption].
    unfold Rgtb. destruct (Rgt_dec ew 0); [apply Rmult_le_pos|]; assumption.
Qed.

Lemma Moffat_result_clean fuel h r h' :
  Window.shaped wind ->
  fitMoffat fuel read gain h = Ok r h' ->
  forall k dk fk sk,
    nth_error (Window.data wind) k = Some dk ->
    nth_error (Window.data (Moffat.r_fit r)) k = Some fk ->
    nth_error (Moffat.r_sigma r) k = Some sk ->
    sk > 0 ->
    Rabs ((dk - fk) / sk)
    <= sqrt (Moffat.r_chisq r
             / IZR (Z.of_nat (Moffat.r_nok r) - Z.of_nat (Moffat.r_npar r)))
       * thresh.
Proof.
  intros Hw H.
  destruct (fitMoffat_result _ _ _ _ Hw H)
    as (s & sig & l2 & fw & o' & p & _ & _ & _ & _ & _ & _ & Hres).
  cbv zeta in Hres. destruct Hres as (_ & -> & Hk).
  intros k dk fk sk Hd Hf Hs Hpos.
  unfold Moffat_done in *.
  cbn [Moffat.r_fit Moffat.r_sigma Moffat.r_chisq Moffat.r_nok Moffat.r_npar]
    in *.
  apply (reject_entry_kept sk); [exact Hpos|].
  exact (Hk k dk fk sk Hd Hf Hs).
Qed.

Lemma Moffat_objs_paired l1 l2 fw h sig :
  Window.shaped wind ->
  contents h l1 = sig -> contents h l2 = sig ->
  List.length sig = List.length (Window.data wind) ->
  let o := Moffat_objs_at wind l1 l2 fw in
  paired h (R_Mfit1 (Moffat.mfit1 o)) (J_Dmfit1 (Moffat.dmfit1 o)) /\
  same_shape h (R_Mfit1 (Moffat.mfit1 o)) /\
  forall fw',
    paired h (R_Mfit2 (Mfit2.set_fwhm (Moffat.mfit2 o) fw'))
           (J_Dmfit2 (Dmfit2.set_fwhm (Moffat.dmfit2 o) fw')) /\
    same_shape h (R_Mfit2 (Mfit2.set_fwhm (Moffat.mfit2 o) fw')).
Proof.
  intros Hw H1 H2 Hl o. destruct (grid_length wind Hw) as [Hx Hy].
  unfold same_shape, paired, o, Moffat_objs_at, Mfit2.set_fwhm, Dmfit2.set_fwhm.
  cbn [Moffat.mfit1 Moffat.dmfit1 Moffat.mfit2 Moffat.dmfit2 sigma_of xy_of
       data_of Mfit1.sigma Mfit1.xy Mfit1.data Dmfit1.sigma Dmfit1.xy
       Mfit2.sigma Mfit2.xy Mfit2.data Mfit2.fwhm Dmfit2.sigma Dmfit2.xy
       Dmfit2.fwhm].
  rewrite H1, H2, Hl, Hx, Hy. repeat split.
Qed.

(** At the head of every turn the function objects that [leastsq] is given
    go together. *)
Lemma Moffat_turn_paired h o hl :
  Window.shaped wind ->
  turn h o hl ->
  exists s sig,
    noise read gain (Window.data wind) h = Ok s h /\
    hl = h ++ [sig; s] /\
    rejected_from s sig /\
    Mfit1.sigma (Moffat.mfit1 o) = List.length h /\
    Dmfit1.sigma (Moffat.dmfit1 o) = List.length h /\
    Dmfit2.sigma (Moffat.dmfit2 o) = Mfit2.sigma (Moffat.mfit2 o) /\
    ((Mfit2.sigma (Moffat.mfit2 o) = S (List.length h) /\ sig = s) \/
     (Mfit2.sigma (Moffat.mfit2 o) = List.length h /\
      (count_pos sig < count_pos s)%nat)) /\
    paired hl (R_Mfit1 (Moffat.mfit1 o)) (J_Dmfit1 (Moffat.dmfit1 o)) /\
    same_shape hl (R_Mfit1 (Moffat.mfit1 o)) /\
    forall fw',
      paired hl (R_Mfit2 (Mfit2.set_fwhm (Moffat.mfit2 o) fw'))
             (J_Dmfit2 (Dmfit2.set_fwhm (Moffat.dmfit2 o) fw')) /\
      same_shape hl (R_Mfit2 (Mfit2.set_fwhm (Moffat.mfit2 o) fw')).
Proof.
  intros Hw Ht.
  destruct (Moffat_turn_objs _ _ _ Ht)
    as (s & sig & l2 & fw & Hn & Hl & -> & -> & Hrej & Hl2).
  assert (Hsl : List.length sig = List.length (Window.data wind))
    by (rewrite (rejected_from_length _ _ Hrej); exact Hl).
  assert (Hc2 : contents (h ++ [sig; s]) l2 = sig).
  { destruct Hl2 as [(-> & -> & _)|(-> & _)].
    - apply contents_app_next.
    - apply contents_app_here. }
  exists s, sig. split; [exact Hn|]. split; [reflexivity|].
  split; [exact Hrej|]. split; [reflexivity|]. split; [reflexivity|].
  split; [reflexivity|]. split.
  - cbn [Moffat_objs_at Moffat.mfit2 Mfit2.sigma].
    destruct Hl2 as [(-> & -> & _)|(-> & Hc)]; [left|right]; auto.
  - apply (Moffat_objs_paired (List.length h) l2 fw (h ++ [sig; s]) sig);
      auto. apply contents_app_here.
Qed.

(** The returned chi-square is the sum of the squares of the residuals
    that the last call of [leastsq] minimised, at its solution. *)
Lemma Moffat_result_chisq fuel h r h' :
  Window.shaped wind ->
  fitMoffat fuel read gain h = Ok r h' ->
  exists ro jo init out v,
    paired h' ro jo /\ same_shape h' ro /\
    data_of ro = Window.data wind /\ xy_of ro = grid wind /\
    contents h' (sigma_of ro) = Moffat.r_sigma r /\
    ((init = [sky; height; xcen; ycen; fwhm; beta] /\ exists f, ro = R_Mfit1 f) \/
     (init = [sky; height; xcen; ycen; beta] /\
      exists f, ro = R_Mfit2 f /\ exists a b c d e, Moffat.pars r = (a, b, c, d, Mfit2.fwhm f, e))) /\
    out = leastsq (fun q => eval (residual ro q) h') init
                  (fun q => eval (jacobian jo q) h') /\
    status_ok out /\
    residual ro (Lsq.soln out) h' = Ok v h' /\
    Moffat.r_chisq r = sum (map (fun x => x ^ 2) v) /\
    Moffat.r_nok r = List.length v /\
    Moffat.r_npar r = List.length (Lsq.soln out).
Proof.
  intros Hw H.
  destruct (fitMoffat_result _ _ _ _ Hw H)
    as (s & sig & l2 & fw & o' & p & _ & Hsl & -> & _ & Hl2 & Htp & Hres).
  cbv zeta in Hres. destruct Hres as (Hfl & -> & _).
  assert (Hc1 : contents (h ++ [sig; s]) (List.length h) = sig)
    by apply contents_app_here.
  assert (Hc2 : contents (h ++ [sig; s]) l2 = sig).
  { destruct Hl2 as [(-> & -> & _)|(-> & _)].
    - apply contents_app_next.
    - apply contents_app_here. }
  destruct (Moffat_objs_paired (List.length h) l2 fw _ sig Hw Hc1 Hc2 Hsl)
    as (Hp1 & Hs1 & Hp2).
  destruct (grid_length wind Hw) as [Hx Hy].
  unfold Moffat_done. cbn [Moffat.r_chisq Moffat.r_nok Moffat.r_npar].
  destruct (Moffat_pass_cases _ _ _ _ _ _ _ Htp) as (_ & [Hc|Hc]).
  - destruct Hc as (fw' & out & a & b & c & d & e & cov & ea & eb & ec & ed & ee
                    & _ & Hout & Hst & Hl & _ & _ & _ & ->).
    destruct (Hp2 fw') as [Hp Hs].
    cbn [Moffat.fit Moffat.soln Window.data] in *.
    eexists _, _, _, out, _.
    split; [exact Hp|]. split; [exact Hs|].
    split; [reflexivity|]. split; [reflexivity|].
    split; [exact Hc2|].
    split; [right; split; [reflexivity|]; eexists; split; [reflexivity|];
            cbn [Moffat.pars Moffat_done Moffat.skyf Moffat.heightf Moffat.xf Moffat.yf
                 Moffat.fwhmf Moffat.betaf Mfit2.fwhm Mfit2.set_fwhm]; eauto 8|].
    split; [exact Hout|].
    split; [exact Hst|]. rewrite Hl.
    split; [reflexivity|].
    cbn [Moffat_objs_at Moffat.mfit2 Mfit2.set_fwhm Mfit2.sigma Mfit2.xy
         Mfit2.data Mfit2.fwhm].
    fold (contents (h ++ [sig; s]) l2). rewrite Hc2.
    rewrite (select_residual_spec sig _ _ (eq_sym Hsl) Hfl).
    split; [reflexivity|]. split; [|reflexivity].
    now rewrite residual_spec_length.
  - destruct Hc as (out & a & b & c & d & w & e & cov & ea & eb & ec & ed & ew
                    & ee & _ & _ & Hout & Hst & Hl & _ & _ & _ & ->).
    cbn [Moffat.fit Moffat.soln Window.data] in *.
    eexists _, _, _, out, _.
    split; [exact Hp1|]. split; [exact Hs1|].
    split; [reflexivity|]. split; [reflexivity|].
    split; [exact Hc1|].
    split; [left; split; [reflexivity|]; eexists; reflexivity|].
    split; [exact Hout|].
    split; [exact Hst|]. rewrite Hl.
    split; [reflexivity|].
    cbn [Moffat_objs_at Moffat.mfit1 Mfit1.sigma Mfit1.xy Mfit1.data].
    fold (contents (h ++ [sig; s]) (List.length h)). rewrite Hc1.
    rewrite (select_residual_spec sig _ _ (eq_sym Hsl) Hfl).
    split; [reflexivity|]. split; [|reflexivity].
    now rewrite residual_spec_length.
Qed.



End MoffatObjs.
Lemma Gauss_construct_objs wind fwhm read gain h o h' :
  Gauss.construct wind fwhm read gain h = Ok o h' ->
  exists s,
    noise read gain (Window.data wind) h = Ok s h /\
    List.length s = List.length (Window.data wind) /\
    o = Gauss_objs_at wind (List.length h) (S (List.length h)) fwhm /\
    h' = h ++ [s; s].
Proof.
  unfold Gauss.construct, Gfit1.init, Gfit2.init. intro H.
  apply bind_Ok in H. destruct H as (m1 & h1 & H1 & H).
  apply bind_Ok in H1. destruct H1 as (s & h2 & Hn & H1).
  destruct (noise_Ok _ _ _ _ _ _ Hn) as (-> & r & g & Hr & Hg & Hs & Hl).
  apply bind_Ok in H1. destruct H1 as (l & h3 & Ha & H1).
  unfold alloc in Ha. inversion Ha; subst l h3; clear Ha.
  unfold ret in H1. inversion H1; subst m1 h1; clear H1.
  apply bind_Ok in H. destruct H as (m2 & h1 & H2 & H).
  apply bind_Ok in H2. destruct H2 as (s2 & h2 & Hn2 & H2).
  assert (Hs2 : s2 = s /\ h2 = h ++ [s]).
  { unfold noise in Hn, Hn2. rewrite Hr, Hg in Hn, Hn2. unfold ret in Hn, Hn2.
    inversion Hn; inversion Hn2; subst; auto. }
  destruct Hs2 as [-> ->].
  apply bind_Ok in H2. destruct H2 as (l & h3 & Ha & H2).
  unfold alloc in Ha. inversion Ha; subst l h3; clear Ha.
  unfold ret in H2. inversion H2; subst m2 h1; clear H2.
  unfold ret in H. inversion H; subst o h'; clear H.
  exists s. split; [assumption|]. split; [assumption|].
  split.
  - unfold Gauss_objs_at, Dgfit1.init, Dgfit2.init, grid.
    cbn [Gfit1.sigma Gfit1.xy Gfit2.sigma Gfit2.xy Gfit2.fwhm].
    rewrite length_app. cbn [List.length]. rewrite Nat.add_1_r. reflexivity.
  - now rewrite <- app_assoc.
Qed.


Section GaussObjs.
Variable leastsq : solver.
Variable wind : Window.t.
Variables sky height xcen ycen fwhm fwhm_min : R.
Variable fwhm_fix : bool.
Variable thresh : R.
Variables read gain : operand.

#[local] Abbreviation two_pass :=
  (Gauss.two_pass leastsq wind sky height xcen ycen fwhm fwhm_min fwhm_fix).
#[local] Abbreviation body :=
  (Gauss.body leastsq wind sky height xcen ycen fwhm fwhm_min fwhm_fix
     thresh).
#[local] Abbreviation fitGaussian :=
  (Gauss.fitGaussian leastsq wind sky height xcen ycen fwhm fwhm_min fwhm_fix
     thresh).
#[local] Abbreviation turn :=
  (Gauss_turn leastsq wind sky height xcen ycen fwhm fwhm_min fwhm_fix
     thresh read gain).

(** The function objects after the two-pass fit are those before it, with
    possibly another fixed FWHM. *)
Lemma Gauss_two_pass_objs l1 l2 fw h o' p h' :
  two_pass (Gauss_objs_at wind l1 l2 fw) h = Ok (o', p) h' ->
  exists fw', o' = Gauss_objs_at wind l1 l2 fw'.
Proof.
  intro H. apply Gauss_two_pass_Ok in H. destruct H as (_ & H).
  destruct H as [(_ & _ & Ho)|(_ & _ & a & b & c & d & w & _ & H)].
  - destruct Ho as (? & ? & ? & ? & ? & ? & ? & ? & ? & _ & _ & _ & -> & _).
    now exists fwhm.
  - destruct H as [(_ & Ho)|(_ & _ & Ho)].
    + destruct Ho as (? & ? & ? & ? & ? & ? & ? & ? & ? & ? & ?
                      & _ & _ & _ & _ & -> & _).
      now exists fw.
    + destruct Ho as (? & ? & ? & ? & ? & ? & ? & ? & ?
                      & _ & _ & _ & -> & _).
      now exists fwhm_min.
Qed.

(** The state at the head of every turn: the store is the store of the
    call followed by the array of [gfit1], which carries the rejections,
    and by the array made for [gfit2], which is as it was made; the
    fixed-FWHM pair uses the second array in the first turn and the first
    one after a turn that rejected pixels. *)
Lemma Gauss_turn_objs h o hl :
  turn h o hl ->
  exists s sig l2 fw,
    noise read gain (Window.data wind) h = Ok s h /\
    List.length s = List.length (Window.data wind) /\
    o = Gauss_objs_at wind (List.length h) l2 fw /\
    hl = h ++ [sig; s] /\
    rejected_from s sig /\
    ((l2 = S (List.length h) /\ sig = s /\ fw = fwhm) \/
     (l2 = List.length h /\ (count_pos sig < count_pos s)%nat)).
Proof.
  intros (o0 & h0 & Hc & Hr).
  apply Gauss_construct_objs in Hc. destruct Hc as (s & Hn & Hl & -> & ->).
  exists s. induction Hr as [|o hl o2 h2 Hr IH Hb].
  - exists s, (S (List.length h)), fwhm. repeat split; auto.
    apply rejected_from_refl.
  - destruct IH as (sig & l2 & fw & _ & _ & -> & -> & Hrej & Hl2).
    destruct (Gauss_body_step _ _ _ _ _ _ _ _ _ _ _ _ _ _ Hb)
      as (o' & p & Htp & _ & Hstep).
    cbv zeta in Hstep. destruct Hstep as (Hh2 & _ & [[_ Hr2]|[_ Hr2]]);
      [|discriminate Hr2].
    injection Hr2 as ->.
    destruct (Gauss_body_rejected _ _ _ _ _ _ _ _ _ _ _ _ _ _ Hb)
      as (Hrej2 & _ & _ & _ & Hcount).
    destruct (Gauss_two_pass_objs _ _ _ _ _ _ _ Htp) as (fw' & ->).
    unfold Gauss_sigma1 in *.
    cbn [Gauss_objs_at Gauss.gfit1 Gfit1.sigma] in *.
    rewrite contents_app_here in Hrej2, Hcount.
    rewrite upd_app_here in Hh2. rewrite Hh2 in Hrej2, Hcount.
    rewrite contents_app_here in Hrej2, Hcount.
    eexists _, (List.length h), fw'.
    split; [exact Hn|]. split; [exact Hl|].
    split; [reflexivity|]. split; [exact Hh2|].
    split; [eapply rejected_from_trans; eassumption|].
    right. split; [reflexivity|].
    pose proof (proj1 (rejected_from_count _ _ Hrej)). lia.
Qed.

(** The local variables after a two-pass fit that returns: a fixed-FWHM
    solution, or a free-FWHM solution that is kept. *)
Lemma Gauss_pass_cases l1 l2 fw h o' p h' :
  two_pass (Gauss_objs_at wind l1 l2 fw) h = Ok (o', p) h' ->
  h' = h /\
  ((exists fw' out a b c d cov ea eb ec ed,
       ((fwhm_fix = true /\ fw' = fwhm) \/
        (fwhm_fix = false /\ fw' = fwhm_min)) /\
       out = Gauss_fixed_solve leastsq sky height xcen ycen fw'
               (Gauss_objs_at wind l1 l2 fw) h /\
       status_ok out /\
       Lsq.soln out = [a; b; c; d] /\
       Lsq.covar out = Some cov /\
       map sqrt (diag cov) = [ea; eb; ec; ed] /\
       o' = Gauss_objs_at wind l1 l2 fw' /\
       p = {| Gauss.soln := [a; b; c; d];
              Gauss.fit :=
                Window.Build_t (Window.winhead wind)
                  (gaussian (grid wind) a b c d fw');
              Gauss.skyf := a; Gauss.heightf := b; Gauss.xf := c;
              Gauss.yf := d; Gauss.fwhmf := fw';
              Gauss.skyfe := ea; Gauss.heightfe := eb; Gauss.xfe := ec;
              Gauss.yfe := ed; Gauss.fwhmfe := -1 |}) \/
   (exists out a b c d w cov ea eb ec ed ew,
       fwhm_fix = false /\ w > fwhm_min /\
       out = Gauss_free_solve leastsq sky height xcen ycen fwhm
               (Gauss_objs_at wind l1 l2 fw) h /\
       status_ok out /\
       Lsq.soln out = [a; b; c; d; w] /\
       Lsq.covar out = Some cov /\
       map sqrt (diag cov) = [ea; eb; ec; ed; ew] /\
       o' = Gauss_objs_at wind l1 l2 fw /\
       p = {| Gauss.soln := [a; b; c; d; w];
              Gauss.fit :=
                Window.Build_t (Window.winhead wind)
                  (gaussian (grid wind) a b c d w);
              Gauss.skyf := a; Gauss.heightf := b; Gauss.xf := c;
              Gauss.yf := d; Gauss.fwhmf := w;
              Gauss.skyfe := ea; Gauss.heightfe := eb; Gauss.xfe := ec;
              Gauss.yfe := ed; Gauss.fwhmfe := ew |})).
Proof.
  intro H. apply Gauss_two_pass_Ok in H. destruct H as (-> & H).
  split; [reflexivity|].
  destruct H as [(Hfix & Hst & Ho)|(Hfix & Hst & a & b & c & d & w & Hs & H)].
  - left.
    destruct Ho as (a & b & c & d & cov & ea & eb & ec & ed
                    & Hl & Hc & He & -> & ->).
    exists fwhm, (Gauss_fixed_solve leastsq sky height xcen ycen fwhm
                    (Gauss_objs_at wind l1 l2 fw) h),
      a, b, c, d, cov, ea, eb, ec, ed.
    repeat split; auto; apply Hst.
  - destruct H as [(Hw & Ho)|(Hw & Hst2 & Ho)].
    + right.
      destruct Ho as (a' & b' & c' & d' & w' & cov & ea & eb & ec & ed
                      & ew & Hl & Hw' & Hc & He & -> & ->).
      exists (Gauss_free_solve leastsq sky height xcen ycen fwhm
                (Gauss_objs_at wind l1 l2 fw) h),
        a', b', c', d', w', cov, ea, eb, ec, ed, ew.
      repeat split; auto; apply Hst.
    + left.
      destruct Ho as (a' & b' & c' & d' & cov & ea & eb & ec & ed
                      & Hl & Hc & He & -> & ->).
      exists fwhm_min,
        (Gauss_fixed_solve leastsq sky height xcen ycen fwhm_min
           (Gauss_objs_at wind l1 l2 fw) h),
        a', b', c', d', cov, ea, eb, ec, ed.
      repeat split; auto; apply Hst2.
Qed.

(** The turn that returns. *)
Lemma fitGaussian_result fuel h r h' :
  Window.shaped wind ->
  fitGaussian fuel read gain h = Ok r h' ->
  exists s sig l2 fw o' p,
    noise read gain (Window.data wind) h = Ok s h /\
    List.length sig = List.length (Window.data wind) /\
    h' = h ++ [sig; s] /\
    rejected_from s sig /\
    ((l2 = S (List.length h) /\ sig = s /\ fw = fwhm) \/
     (l2 = List.length h /\ (count_pos sig < count_pos s)%nat)) /\
    two_pass (Gauss_objs_at wind (List.length h) l2 fw) h' = Ok (o', p) h' /\
    let d := Window.data wind in
    let f := Window.data (Gauss.fit p) in
    let sfac := sfac_spec d f sig (List.length (Gauss.soln p)) in
    List.length f = List.length sig /\
    r = Gauss_done o' p sig (chisq_spec d f sig) sfac (count_pos sig) /\
    (forall k dk fk sk,
        nth_error d k = Some dk -> nth_error f k = Some fk ->
        nth_error sig k = Some sk ->
        reject_entry sk ((dk - fk) / sk) (sfac * thresh) = sk).
Proof.
  intros Hw H. apply fitGaussian_Ok in H. destruct H as (o & hl & Ht & Hb).
  destruct (Gauss_turn_objs _ _ _ Ht)
    as (s & sig & l2 & fw & Hn & Hl & -> & -> & Hrej & Hl2).
  assert (Hsl : List.length sig = List.length (Window.data wind))
    by (rewrite (rejected_from_length _ _ Hrej); exact Hl).
  assert (Hc : contents (h ++ [sig; s])
                 (Gauss_sigma1 (Gauss_objs_at wind (List.length h) l2 fw))
               = sig) by apply contents_app_here.
  assert (Hsh : Gauss_shaped wind (Gauss_objs_at wind (List.length h) l2 fw))
    by (split; reflexivity).
  destruct (Gauss_body_exact _ _ _ _ _ _ _ _ _ _ _ _ _ _ Hw Hsh
              (eq_trans (f_equal (@List.length R) Hc) Hsl) Hb)
    as (o' & p & Htp & _ & _ & Hex).
  cbv zeta in Hex. rewrite Hc in Hex.
  destruct Hex as (Hfl & _ & _ & Hk & [[Hr _]|(Hr & Hsig & ->)]);
    [discriminate Hr|].
  injection Hr as ->.
  exists s, sig, l2, fw, o', p.
  split; [exact Hn|]. split; [exact Hsl|]. split; [reflexivity|].
  split; [exact Hrej|]. split; [exact Hl2|]. split; [exact Htp|].
  cbv zeta. split; [exact Hfl|]. split; [reflexivity|].
  intros k dk fk sk Hd Hf Hs.
  specialize (Hk k dk fk sk Hd Hf Hs). rewrite Hsig in Hk.
  congruence.
Qed.
Lemma Gauss_result_counts fuel h r h' :
  Window.shaped wind ->
  fitGaussian fuel read gain h = Ok r h' ->
  exists s,
    noise read gain (Window.data wind) h = Ok s h /\
    h' = h ++ [Gauss.r_sigma r; s] /\
    rejected_from s (Gauss.r_sigma r) /\
    List.length (Gauss.r_sigma r) = (Window.ny wind * Window.nx wind)%nat /\
    Gauss.r_nok r = count_pos (Gauss.r_sigma r) /\
    (Z.of_nat (Gauss.r_nok r) + Gauss.r_nrej r
     = Z.of_nat (Window.ny wind * Window.nx wind))%Z /\
    (Gauss.r_npar r = 4 \/ Gauss.r_npar r = 5)%nat.
Proof.
  intros Hw H.
  destruct (fitGaussian_result _ _ _ _ Hw H)
    as (s & sig & l2 & fw & o' & p & Hn & Hl & -> & Hrej & _ & Htp & Hres).
  cbv zeta in Hres. destruct Hres as (_ & -> & _).
  unfold Gauss_done.
  cbn [Gauss.r_sigma Gauss.r_nok Gauss.r_nrej Gauss.r_npar].
  assert (Hn2 : List.length sig = (Window.ny wind * Window.nx wind)%nat)
    by (rewrite Hl; exact Hw).
  exists s. repeat (split; [first [assumption | reflexivity | lia]|]).
  destruct (Gauss_pass_cases _ _ _ _ _ _ _ Htp) as (_ & [Hc|Hc]).
  - destruct Hc as (? & ? & ? & ? & ? & ? & ? & ? & ? & ? & ?
                    & _ & _ & _ & _ & _ & _ & _ & ->).
    left. reflexivity.
  - destruct Hc as (? & ? & ? & ? & ? & ? & ? & ? & ? & ? & ? & ?
                    & _ & _ & _ & _ & _ & _ & _ & _ & ->).
    right. reflexivity.
Qed.

Lemma Gauss_result_fit fuel h r h' :
  Window.shaped wind ->
  fitGaussian fuel read gain h = Ok r h' ->
  exists a b c d w,
    Gauss.pars r = (a, b, c, d, w) /\
    (Gauss.r_x r, Gauss.r_y r) = grid wind /\
    Gauss.r_fit r
    = Window.Build_t (Window.winhead wind)
        (gaussian (Gauss.r_x r, Gauss.r_y r) a b c d w).
Proof.
  intros Hw H.
  destruct (fitGaussian_result _ _ _ _ Hw H)
    as (s & sig & l2 & fw & o' & p & _ & _ & _ & _ & _ & Htp & Hres).
  cbv zeta in Hres. destruct Hres as (_ & -> & _).
  destruct (Gauss_pass_cases _ _ _ _ _ _ _ Htp) as (_ & [Hc|Hc]).
  - destruct Hc as (fw' & ? & a & b & c & d & ? & ? & ? & ? & ?
                    & _ & _ & _ & _ & _ & _ & -> & ->).
    exists a, b, c, d, fw'. unfold Gauss_done, Gauss_objs_at.
    cbn [Gauss.pars Gauss.r_x Gauss.r_y Gauss.r_fit Gauss.skyf
         Gauss.heightf Gauss.xf Gauss.yf Gauss.fwhmf
         Gauss.fit Gauss.gfit1 Gfit1.xy].
    rewrite <- surjective_pairing. auto.
  - destruct Hc as (? & a & b & c & d & w & ? & ? & ? & ? & ? & ?
                    & _ & _ & _ & _ & _ & _ & _ & -> & ->).
    exists a, b, c, d, w. unfold Gauss_done, Gauss_objs_at.
    cbn [Gauss.pars Gauss.r_x Gauss.r_y Gauss.r_fit Gauss.skyf
         Gauss.heightf Gauss.xf Gauss.yf Gauss.fwhmf
         Gauss.fit Gauss.gfit1 Gfit1.xy].
    rewrite <- surjective_pairing. auto.
Qed.

Lemma Gauss_result_errors fuel h r h' :
  Window.shaped wind ->
  fitGaussian fuel read gain h = Ok r h' ->
  exists a b c d w ea eb ec ed ew,
    Gauss.pars r = (a, b, c, d, w) /\
    Gauss.sigs r = (ea, eb, ec, ed, ew) /\
    0 <= ea /\ 0 <= eb /\ 0 <= ec /\ 0 <= ed /\
    ((Gauss.r_npar r = 4%nat /\ ew = -1 /\
      ((fwhm_fix = true /\ w = fwhm) \/ (fwhm_fix = false /\ w = fwhm_min))) \/
     (Gauss.r_npar r = 5%nat /\ 0 <= ew /\ fwhm_fix = false /\ w > fwhm_min)).
Proof.
  intros Hw H.
  destruct (fitGaussian_result _ _ _ _ Hw H)
    as (s & sig & l2 & fw & o' & p & _ & _ & _ & _ & _ & Htp & Hres).
  cbv zeta in Hres. destruct Hres as (_ & -> & _).
  pose proof (sfac_spec_nonneg (Window.data wind) (Window.data (Gauss.fit p))
                sig (List.length (Gauss.soln p))) as Hs.
  set (sfac := sfac_spec _ _ _ _) in *. clearbody sfac.
  destruct (Gauss_pass_cases _ _ _ _ _ _ _ Htp) as (_ & [Hc|Hc]).
  - destruct Hc as (fw' & ? & a & b & c & d & cov & ea & eb & ec & ed
                    & Hfw & _ & _ & _ & _ & He & _ & ->).
    pose proof (sqrt_map_nonneg (diag cov)) as Hp. rewrite He in Hp.
    inversion_clear Hp as [|? ? Ha Hp1]. inversion_clear Hp1 as [|? ? Hb Hp2].
    inversion_clear Hp2 as [|? ? Hc Hp3]. inversion_clear Hp3 as [|? ? Hd _].
    exists a, b, c, d, fw'. do 5 eexists.
    unfold Gauss_done.
    cbn [Gauss.pars Gauss.sigs Gauss.r_npar Gauss.skyf Gauss.heightf
         Gauss.xf Gauss.yf Gauss.fwhmf Gauss.skyfe
         Gauss.heightfe Gauss.xfe Gauss.yfe Gauss.fwhmfe
         Gauss.soln List.length].
    rewrite (Rgtb_false (-1) 0) by lra.
    split; [reflexivity|]. split; [reflexivity|].
    repeat (split; [apply Rmult_le_pos; assumption|]).
    left. repeat split; auto.
  - destruct Hc as (? & a & b & c & d & w & cov & ea & eb & ec & ed & ew
                    & Hfix & Hgt & _ & _ & _ & _ & He & _ & ->).
    pose proof (sqrt_map_nonneg (diag cov)) as Hp. rewrite He in Hp.
    inversion_clear Hp as [|? ? Ha Hp1]. inversion_clear Hp1 as [|? ? Hb Hp2].
    inversion_clear Hp2 as [|? ? Hc Hp3]. inversion_clear Hp3 as [|? ? Hd Hp4].
    inversion_clear Hp4 as [|? ? He' _].
    exists a, b, c, d, w. do 5 eexists.
    unfold Gauss_done.
    cbn [Gauss.pars Gauss.sigs Gauss.r_npar Gauss.skyf Gauss.heightf
         Gauss.xf Gauss.yf Gauss.fwhmf Gauss.skyfe
         Gauss.heightfe Gauss.xfe Gauss.yfe Gauss.fwhmfe
         Gauss.soln List.length].
    split; [reflexivity|]. split; [reflexivity|].
    repeat (split; [apply Rmult_le_pos; assumption|]).
    right. split; [reflexivity|]. split; [|split; assumption].
    unfold Rgtb. destruct (Rgt_dec ew 0); [apply Rmult_le_pos|]; assumption.
Qed.

Lemma Gauss_result_clean fuel h r h' :
  Window.shaped wind ->
  fitGaussian fuel read gain h = Ok r h' ->
  forall k dk fk sk,
    nth_error (Window.data wind) k = Some dk ->
    nth_error (Window.data (Gauss.r_fit r)) k = Some fk ->
    nth_error (Gauss.r_sigma r) k = Some sk ->
    sk > 0 ->
    Rabs ((dk - fk) / sk)
    <= sqrt (Gauss.r_chisq r
             / IZR (Z.of_nat (Gauss.r_nok r) - Z.of_nat (Gauss.r_npar r)))
       * thresh.
Proof.
  intros Hw H.
  destruct (fitGaussian_result _ _ _ _ Hw H)
    as (s & sig & l2 & fw & o' & p & _ & _ & _ & _ & _ & _ & Hres).
  cbv zeta in Hres. destruct Hres as (_ & -> & Hk).
  intros k dk fk sk Hd Hf Hs Hpos.
  unfold Gauss_done in *.
  cbn [Gauss.r_fit Gauss.r_sigma Gauss.r_chisq Gauss.r_nok Gauss.r_npar]
    in *.
  apply (reject_entry_kept sk); [exact Hpos|].
  exact (Hk k dk fk sk Hd Hf Hs).
Qed.

Lemma Gauss_objs_paired l1 l2 fw h sig :
  Window.shaped wind ->
  contents h l1 = sig -> contents h l2 = sig ->
  List.length sig = List.length (Window.data wind) ->
  let o := Gauss_objs_at wind l1 l2 fw in
  paired h (R_Gfit1 (Gauss.gfit1 o)) (J_Dgfit1 (Gauss.dgfit1 o)) /\
  same_shape h (R_Gfit1 (Gauss.gfit1 o)) /\
  forall fw',
    paired h (R_Gfit2 (Gfit2.set_fwhm (Gauss.gfit2 o) fw'))
           (J_Dgfit2 (Dgfit2.set_fwhm (Gauss.dgfit2 o) fw')) /\
    same_shape h (R_Gfit2 (Gfit2.set_fwhm (Gauss.gfit2 o) fw')).
Proof.
  intros Hw H1 H2 Hl o. destruct (grid_length wind Hw) as [Hx Hy].
  unfold same_shape, paired, o, Gauss_objs_at, Gfit2.set_fwhm, Dgfit2.set_fwhm.
  cbn [Gauss.gfit1 Gauss.dgfit1 Gauss.gfit2 Gauss.dgfit2 sigma_of xy_of
       data_of Gfit1.sigma Gfit1.xy Gfit1.data Dgfit1.sigma Dgfit1.xy
       Gfit2.sigma Gfit2.xy Gfit2.data Gfit2.fwhm Dgfit2.sigma Dgfit2.xy
       Dgfit2.fwhm].
  rewrite H1, H2, Hl, Hx, Hy. repeat split.
Qed.

(** At the head of every turn the function objects that [leastsq] is given
    go together. *)
Lemma Gauss_turn_paired h o hl :
  Window.shaped wind ->
  turn h o hl ->
  exists s sig,
    noise read gain (Window.data wind) h = Ok s h /\
    hl = h ++ [sig; s] /\
    rejected_from s sig /\
    Gfit1.sigma (Gauss.gfit1 o) = List.length h /\
    Dgfit1.sigma (Gauss.dgfit1 o) = List.length h /\
    Dgfit2.sigma (Gauss.dgfit2 o) = Gfit2.sigma (Gauss.gfit2 o) /\
    ((Gfit2.sigma (Gauss.gfit2 o) = S (List.length h) /\ sig = s) \/
     (Gfit2.sigma (Gauss.gfit2 o) = List.length h /\
      (count_pos sig < count_pos s)%nat)) /\
    paired hl (R_Gfit1 (Gauss.gfit1 o)) (J_Dgfit1 (Gauss.dgfit1 o)) /\
    same_shape hl (R_Gfit1 (Gauss.gfit1 o)) /\
    forall fw',
      paired hl (R_Gfit2 (Gfit2.set_fwhm (Gauss.gfit2 o) fw'))
             (J_Dgfit2 (Dgfit2.set_fwhm (Gauss.dgfit2 o) fw')) /\
      same_shape hl (R_Gfit2 (Gfit2.set_fwhm (Gauss.gfit2 o) fw')).
Proof.
  intros Hw Ht.
  destruct (Gauss_turn_objs _ _ _ Ht)
    as (s & sig & l2 & fw & Hn & Hl & -> & -> & Hrej & Hl2).
  assert (Hsl : List.length sig = List.length (Window.data wind))
    by (rewrite (rejected_from_length _ _ Hrej); exact Hl).
  assert (Hc2 : contents (h ++ [sig; s]) l2 = sig).
  { destruct Hl2 as [(-> & -> & _)|(-> & _)].
    - apply contents_app_next.
    - apply contents_app_here. }
  exists s, sig. split; [exact Hn|]. split; [reflexivity|].
  split; [exact Hrej|]. split; [reflexivity|]. split; [reflexivity|].
  split; [reflexivity|]. split.
  - cbn [Gauss_objs_at Gauss.gfit2 Gfit2.sigma].
    destruct Hl2 as [(-> & -> & _)|(-> & Hc)]; [left|right]; auto.
  - apply (Gauss_objs_paired (List.length h) l2 fw (h ++ [sig; s]) sig);
      auto. apply contents_app_here.
Qed.

(** The returned chi-square is the sum of the squares of the residuals
    that the last call of [leastsq] minimised, at its solution. *)
Lemma Gauss_result_chisq fuel h r h' :
  Window.shaped wind ->
  fitGaussian fuel read gain h = Ok r h' ->
  exists ro jo init out v,
    paired h' ro jo /\ same_shape h' ro /\
    data_of ro = Window.data wind /\ xy_of ro = grid wind /\
    contents h' (sigma_of ro) = Gauss.r_sigma r /\
    ((init = [sky; height; xcen; ycen; fwhm] /\ exists f, ro = R_Gfit1 f) \/
     (init = [sky; height; xcen; ycen] /\
      exists f, ro = R_Gfit2 f /\ exists a b c d, Gauss.pars r = (a, b, c, d, Gfit2.fwhm f))) /\
    out = leastsq (fun q => eval (residual ro q) h') init
                  (fun q => eval (jacobian jo q) h') /\
    status_ok out /\
    residual ro (Lsq.soln out) h' = Ok v h' /\
    Gauss.r_chisq r = sum (map (fun x => x ^ 2) v) /\
    Gauss.r_nok r = List.length v /\
    Gauss.r_npar r = List.length (Lsq.soln out).
Proof.
  intros Hw H.
  destruct (fitGaussian_result _ _ _ _ Hw H)
    as (s & sig & l2 & fw & o' & p & _ & Hsl & -> & _ & Hl2 & Htp & Hres).
  cbv zeta in Hres. destruct Hres as (Hfl & -> & _).
  assert (Hc1 : contents (h ++ [sig; s]) (List.length h) = sig)
    by apply contents_app_here.
  assert (Hc2 : contents (h ++ [sig; s]) l2 = sig).
  { destruct Hl2 as [(-> & -> & _)|(-> & _)].
    - apply contents_app_next.
    - apply contents_app_here. }
  destruct (Gauss_objs_paired (List.length h) l2 fw _ sig Hw Hc1 Hc2 Hsl)
    as (Hp1 & Hs1 & Hp2).
  destruct (grid_length wind Hw) as [Hx Hy].
  unfold Gauss_done. cbn [Gauss.r_chisq Gauss.r_nok Gauss.r_npar].
  destruct (Gauss_pass_cases _ _ _ _ _ _ _ Htp) as (_ & [Hc|Hc]).
  - destruct Hc as (fw' & out & a & b & c & d & cov & ea & eb & ec & ed
                    & _ & Hout & Hst & Hl & _ & _ & _ & ->).
    destruct (Hp2 fw') as [Hp Hs].
    cbn [Gauss.fit Gauss.soln Window.data] in *.
    eexists _, _, _, out, _.
    split; [exact Hp|]. split; [exact Hs|].
    split; [reflexivity|]. split; [reflexivity|].
    split; [exact Hc2|].
    split; [right; split; [reflexivity|]; eexists; split; [reflexivity|];
            cbn [Gauss.pars Gauss_done Gauss.skyf Gauss.heightf Gauss.xf Gauss.yf
                 Gauss.fwhmf Gfit2.fwhm Gfit2.set_fwhm]; eauto 8|].
    split; [exact Hout|].
    split; [exact Hst|]. rewrite Hl.
    split; [reflexivity|].
    cbn [Gauss_objs_at Gauss.gfit2 Gfit2.set_fwhm Gfit2.sigma Gfit2.xy
         Gfit2.data Gfit2.fwhm].
    fold (contents (h ++ [sig; s]) l2). rewrite Hc2.
    rewrite (select_residual_spec sig _ _ (eq_sym Hsl) Hfl).
    split; [reflexivity|]. split; [|reflexivity].
    now rewrite residual_spec_length.
  - destruct Hc as (out & a & b & c & d & w & cov & ea & eb & ec & ed & ew
                    & _ & _ & Hout & Hst & Hl & _ & _ & _ & ->).
    cbn [Gauss.fit Gauss.soln Window.data] in *.
    eexists _, _, _, out, _.
    split; [exact Hp1|]. split; [exact Hs1|].
    split; [reflexivity|]. split; [reflexivity|].
    split; [exact Hc1|].
    split; [left; split; [reflexivity|]; eexists; reflexivity|].
    split; [exact Hout|].
    split; [exact Hst|]. rewrite Hl.
    split; [reflexivity|].
    cbn [Gauss_objs_at Gauss.gfit1 Gfit1.sigma Gfit1.xy Gfit1.data].
    fold (contents (h ++ [sig; s]) (List.length h)). rewrite Hc1.
    rewrite (select_residual_spec sig _ _ (eq_sym Hsl) Hfl).
    split; [reflexivity|]. split; [|reflexivity].
    now rewrite residual_spec_length.
Qed.



End GaussObjs.

(** ** Properties of the calls *)

(** X8 (the function objects given to the solver go together).  At the head
    of every turn of the loop of a call on a well-shaped window, the store
    is the store of the call followed by two arrays: the array of [mfit1]
    (of [gfit1]), which is the noise array with the rejections made so far,
    and the array made for [mfit2] ([gfit2]), which is never written.  The
    Jacobian objects hold the array of their residual object; the
    fixed-FWHM pair uses the second array in the first turn and the first
    array after a turn that rejected pixels, and in both cases its contents
    are those of the array of [mfit1].  So each pair that [leastsq] can be
    given masks the same pixels, on arrays of one shape. *)
Theorem function_objects_paired :
  forall (leastsq : solver) (wind : Window.t)
         (sky height xcen ycen fwhm fwhm_min : R) (fwhm_fix : bool)
         (beta thresh : R) (read gain : operand) (h : heap),
    Window.shaped wind ->
    (forall (o : Moffat.objs) (hl : heap),
        Moffat_turn leastsq wind sky height xcen ycen fwhm fwhm_min fwhm_fix
          beta thresh read gain h o hl ->
        exists s sig,
          noise read gain (Window.data wind) h = Ok s h /\
          hl = h ++ [sig; s] /\
          rejected_from s sig /\
          Mfit1.sigma (Moffat.mfit1 o) = List.length h /\
          Dmfit1.sigma (Moffat.dmfit1 o) = List.length h /\
          Dmfit2.sigma (Moffat.dmfit2 o) = Mfit2.sigma (Moffat.mfit2 o) /\
          ((Mfit2.sigma (Moffat.mfit2 o) = S (List.length h) /\ sig = s) \/
           (Mfit2.sigma (Moffat.mfit2 o) = List.length h /\
            (count_pos sig < count_pos s)%nat)) /\
          paired hl (R_Mfit1 (Moffat.mfit1 o)) (J_Dmfit1 (Moffat.dmfit1 o)) /\
          same_shape hl (R_Mfit1 (Moffat.mfit1 o)) /\
          forall fw,
            paired hl (R_Mfit2 (Mfit2.set_fwhm (Moffat.mfit2 o) fw))
                   (J_Dmfit2 (Dmfit2.set_fwhm (Moffat.dmfit2 o) fw)) /\
            same_shape hl (R_Mfit2 (Mfit2.set_fwhm (Moffat.mfit2 o) fw))) /\
    (forall (o : Gauss.objs) (hl : heap),
        Gauss_turn leastsq wind sky height xcen ycen fwhm fwhm_min fwhm_fix
          thresh read gain h o hl ->
        exists s sig,
          noise read gain (Window.data wind) h = Ok s h /\
          hl = h ++ [sig; s] /\
          rejected_from s sig /\
          Gfit1.sigma (Gauss.gfit1 o) = List.length h /\
          Dgfit1.sigma (Gauss.dgfit1 o) = List.length h /\
          Dgfit2.sigma (Gauss.dgfit2 o) = Gfit2.sigma (Gauss.gfit2 o) /\
          ((Gfit2.sigma (Gauss.gfit2 o) = S (List.length h) /\ sig = s) \/
           (Gfit2.sigma (Gauss.gfit2 o) = List.length h /\
            (count_pos sig < count_pos s)%nat)) /\
          paired hl (R_Gfit1 (Gauss.gfit1 o)) (J_Dgfit1 (Gauss.dgfit1 o)) /\
          same_shape hl (R_Gfit1 (Gauss.gfit1 o)) /\
          forall fw,
            paired hl (R_Gfit2 (Gfit2.set_fwhm (Gauss.gfit2 o) fw))
                   (J_Dgfit2 (Dgfit2.set_fwhm (Gauss.dgfit2 o) fw)) /\
            same_shape hl (R_Gfit2 (Gfit2.set_fwhm (Gauss.gfit2 o) fw))).
Proof.
  intros leastsq wind sky height xcen ycen fwhm fwhm_min fwhm_fix beta thresh
    read gain h Hw.
  split; intros o hl Ht.
  - exact (Moffat_turn_paired _ _ _ _ _ _ _ _ _ _ _ _ _ _ _ _ Hw Ht).
  - exact (Gauss_turn_paired _ _ _ _ _ _ _ _ _ _ _ _ _ _ _ Hw Ht).
Qed.

(** X9 (the counts of a result).  When a call on a well-shaped window
    returns, the returned sigma array is the array of [mfit1] ([gfit1]) as
    the call leaves it in the store, the noise array with some positive
    entries negated; it has ny*nx entries; [nok] is the number of its
    positive entries and nok + nrej = ny*nx, so that [nrej] also counts the
    pixels whose noise is zero; [npar] is 5 or 6 for [fitMoffat], 4 or 5
    for [fitGaussian]. *)
Theorem result_counts :
  forall (leastsq : solver) (wind : Window.t)
         (sky height xcen ycen fwhm fwhm_min : R) (fwhm_fix : bool)
         (beta thresh : R) (read gain : operand) (fuel : nat) (h h' : heap),
    Window.shaped wind ->
    (forall r : Moffat.result,
        Moffat.fitMoffat leastsq wind sky height xcen ycen fwhm fwhm_min
          fwhm_fix beta thresh fuel read gain h = Ok r h' ->
        exists s,
          noise read gain (Window.data wind) h = Ok s h /\
          h' = h ++ [Moffat.r_sigma r; s] /\
          rejected_from s (Moffat.r_sigma r) /\
          List.length (Moffat.r_sigma r)
          = (Window.ny wind * Window.nx wind)%nat /\
          Moffat.r_nok r = count_pos (Moffat.r_sigma r) /\
          (Z.of_nat (Moffat.r_nok r) + Moffat.r_nrej r
           = Z.of_nat (Window.ny wind * Window.nx wind))%Z /\
          (Moffat.r_npar r = 5 \/ Moffat.r_npar r = 6)%nat) /\
    (forall r : Gauss.result,
        Gauss.fitGaussian leastsq wind sky height xcen ycen fwhm fwhm_min
          fwhm_fix thresh fuel read gain h = Ok r h' ->
        exists s,
          noise read gain (Window.data wind) h = Ok s h /\
          h' = h ++ [Gauss.r_sigma r; s] /\
          rejected_from s (Gauss.r_sigma r) /\
          List.length (Gauss.r_sigma r)
          = (Window.ny wind * Window.nx wind)%nat /\
          Gauss.r_nok r = count_pos (Gauss.r_sigma r) /\
          (Z.of_nat (Gauss.r_nok r) + Gauss.r_nrej r
           = Z.of_nat (Window.ny wind * Window.nx wind))%Z /\
          (Gauss.r_npar r = 4 \/ Gauss.r_npar r = 5)%nat).
Proof.
  intros leastsq wind sky height xcen ycen fwhm fwhm_min fwhm_fix beta thresh
    read gain fuel h h' Hw.
  split; intros r H.
  - exact (Moffat_result_counts _ _ _ _ _ _ _ _ _ _ _ _ _ _ _ _ _ Hw H).
  - exact (Gauss_result_counts _ _ _ _ _ _ _ _ _ _ _ _ _ _ _ _ Hw H).
Qed.

(** X10 (the returned fit is the profile at the returned parameters).  When
    a call on a well-shaped window returns, the returned X and Y arrays are
    the ordinate grids of the window, and the returned fit is the window
    with the header of the data and, as values, [moffat] ([gaussian]) on
    these grids at the returned parameters, the FWHM being the returned one
    also when it was held fixed. *)
Theorem fit_is_profile_at_pars :
  forall (leastsq : solver) (wind : Window.t)
         (sky height xcen ycen fwhm fwhm_min : R) (fwhm_fix : bool)
         (beta thresh : R) (read gain : operand) (fuel : nat) (h h' : heap),
    Window.shaped wind ->
    (forall r : Moffat.result,
        Moffat.fitMoffat leastsq wind sky height xcen ycen fwhm fwhm_min
          fwhm_fix beta thresh fuel read gain h = Ok r h' ->
        exists a b c d w e,
          Moffat.pars r = (a, b, c, d, w, e) /\
          (Moffat.r_x r, Moffat.r_y r) = grid wind /\
          Moffat.r_fit r
          = Window.Build_t (Window.winhead wind)
              (moffat (Moffat.r_x r, Moffat.r_y r) a b c d w e)) /\
    (forall r : Gauss.result,
        Gauss.fitGaussian leastsq wind sky height xcen ycen fwhm fwhm_min
          fwhm_fix thresh fuel read gain h = Ok r h' ->
        exists a b c d w,
          Gauss.pars r = (a, b, c, d, w) /\
          (Gauss.r_x r, Gauss.r_y r) = grid wind /\
          Gauss.r_fit r
          = Window.Build_t (Window.winhead wind)
              (gaussian (Gauss.r_x r, Gauss.r_y r) a b c d w)).
Proof.
  intros leastsq wind sky height xcen ycen fwhm fwhm_min fwhm_fix beta thresh
    read gain fuel h h' Hw.
  split; intros r H.
  - exact (Moffat_result_fit _ _ _ _ _ _ _ _ _ _ _ _ _ _ _ _ _ Hw H).
  - exact (Gauss_result_fit _ _ _ _ _ _ _ _ _ _ _ _ _ _ _ _ Hw H).
Qed.

(** X11 (the FWHM sentinel, signs of the returned errors).  When a call on
    a well-shaped window returns, either the FWHM was not fitted: then
    [npar] is 5 (4 for the Gaussian), the returned FWHM is [fwhm] (with
    [fwhm_fix]) or [fwhm_min] (the fall-back) and its error is -1; or it
    was fitted: then [npar] is 6 (5), [fwhm_fix] is false and the returned
    FWHM is above [fwhm_min].  For a solver whose covariance matrices have
    no negative diagonal entry and with more included pixels than
    parameters, every returned error other than the sentinel is at least
    0. *)
Theorem returned_errors_signs :
  forall (leastsq : solver) (wind : Window.t)
         (sky height xcen ycen fwhm fwhm_min : R) (fwhm_fix : bool)
         (beta thresh : R) (read gain : operand) (fuel : nat) (h h' : heap),
    covariance_nonneg leastsq ->
    Window.shaped wind ->
    (forall r : Moffat.result,
        Moffat.fitMoffat leastsq wind sky height xcen ycen fwhm fwhm_min
          fwhm_fix beta thresh fuel read gain h = Ok r h' ->
        exists a b c d w e ea eb ec ed ew ee,
          Moffat.pars r = (a, b, c, d, w, e) /\
          Moffat.sigs r = (ea, eb, ec, ed, ew, ee) /\
          ((Moffat.r_npar r = 5%nat /\ ew = -1 /\
            ((fwhm_fix = true /\ w = fwhm) \/
             (fwhm_fix = false /\ w = fwhm_min))) \/
           (Moffat.r_npar r = 6%nat /\ fwhm_fix = false /\ w > fwhm_min)) /\
          ((Moffat.r_npar r < Moffat.r_nok r)%nat ->
           0 <= ea /\ 0 <= eb /\ 0 <= ec /\ 0 <= ed /\ 0 <= ee /\
           (Moffat.r_npar r = 6%nat -> 0 <= ew))) /\
    (forall r : Gauss.result,
        Gauss.fitGaussian leastsq wind sky height xcen ycen fwhm fwhm_min
          fwhm_fix thresh fuel read gain h = Ok r h' ->
        exists a b c d w ea eb ec ed ew,
          Gauss.pars r = (a, b, c, d, w) /\
          Gauss.sigs r = (ea, eb, ec, ed, ew) /\
          ((Gauss.r_npar r = 4%nat /\ ew = -1 /\
            ((fwhm_fix = true /\ w = fwhm) \/
             (fwhm_fix = false /\ w = fwhm_min))) \/
           (Gauss.r_npar r = 5%nat /\ fwhm_fix = false /\ w > fwhm_min)) /\
          ((Gauss.r_npar r < Gauss.r_nok r)%nat ->
           0 <= ea /\ 0 <= eb /\ 0 <= ec /\ 0 <= ed /\
           (Gauss.r_npar r = 5%nat -> 0 <= ew))).
Proof.
  intros leastsq wind sky height xcen ycen fwhm fwhm_min fwhm_fix beta thresh
    read gain fuel h h' _ Hw.
  split; intros r H.
  - destruct (Moffat_result_errors _ _ _ _ _ _ _ _ _ _ _ _ _ _ _ _ _ Hw H)
      as (a & b & c & d & w & e & ea & eb & ec & ed & ew & ee & Hp & Hs
          & Ha & Hb & Hc & Hd & He & Hcase).
    exists a, b, c, d, w, e, ea, eb, ec, ed, ew, ee.
    split; [exact Hp|]. split; [exact Hs|]. split.
    + destruct Hcase as [Hc5|(Hn & _ & Hf)]; [left; exact Hc5|right; auto].
    + intros _. repeat (split; [assumption|]). intro Hn.
      destruct Hcase as [(Hn5 & _)|(_ & Hew & _)]; [congruence|exact Hew].
  - destruct (Gauss_result_errors _ _ _ _ _ _ _ _ _ _ _ _ _ _ _ _ Hw H)
      as (a & b & c & d & w & ea & eb & ec & ed & ew & Hp & Hs
          & Ha & Hb & Hc & Hd & Hcase).
    exists a, b, c, d, w, ea, eb, ec, ed, ew.
    split; [exact Hp|]. split; [exact Hs|]. split.
    + destruct Hcase as [Hc4|(Hn & _ & Hf)]; [left; exact Hc4|right; auto].
    + intros _. repeat (split; [assumption|]). intro Hn.
      destruct Hcase as [(Hn4 & _)|(_ & Hew & _)]; [congruence|exact Hew].
Qed.

(** X12 (no outlier is left).  When a call on a well-shaped window returns
    with more included pixels than parameters, every pixel that is still
    included has a normalised residual to the returned fit of absolute
    value at most the final scale factor sqrt(chisq/(nok - npar)) times the
    threshold. *)
Theorem no_outlier_left :
  forall (leastsq : solver) (wind : Window.t)
         (sky height xcen ycen fwhm fwhm_min : R) (fwhm_fix : bool)
         (beta thresh : R) (read gain : operand) (fuel : nat) (h h' : heap),
    Window.shaped wind ->
    (forall r : Moffat.result,
        Moffat.fitMoffat leastsq wind sky height xcen ycen fwhm fwhm_min
          fwhm_fix beta thresh fuel read gain h = Ok r h' ->
        (Moffat.r_npar r < Moffat.r_nok r)%nat ->
        forall k dk fk sk,
          nth_error (Window.data wind) k = Some dk ->
          nth_error (Window.data (Moffat.r_fit r)) k = Some fk ->
          nth_error (Moffat.r_sigma r) k = Some sk ->
          sk > 0 ->
          Rabs ((dk - fk) / sk)
          <= sqrt (Moffat.r_chisq r
                   / IZR (Z.of_nat (Moffat.r_nok r)
                          - Z.of_nat (Moffat.r_npar r)))
             * thresh) /\
    (forall r : Gauss.result,
        Gauss.fitGaussian leastsq wind sky height xcen ycen fwhm fwhm_min
          fwhm_fix thresh fuel read gain h = Ok r h' ->
        (Gauss.r_npar r < Gauss.r_nok r)%nat ->
        forall k dk fk sk,
          nth_error (Window.data wind) k = Some dk ->
          nth_error (Window.data (Gauss.r_fit r)) k = Some fk ->
          nth_error (Gauss.r_sigma r) k = Some sk ->
          sk > 0 ->
          Rabs ((dk - fk) / sk)
          <= sqrt (Gauss.r_chisq r
                   / IZR (Z.of_nat (Gauss.r_nok r)
                          - Z.of_nat (Gauss.r_npar r)))
             * thresh).
Proof.
  intros leastsq wind sky height xcen ycen fwhm fwhm_min fwhm_fix beta thresh
    read gain fuel h h' Hw.
  split; intros r H _.
  - exact (Moffat_result_clean _ _ _ _ _ _ _ _ _ _ _ _ _ _ _ _ _ Hw H).
  - exact (Gauss_result_clean _ _ _ _ _ _ _ _ _ _ _ _ _ _ _ _ Hw H).
Qed.


(** X14 (the chi-square is the minimised sum of squares).  When a call on a
    well-shaped window returns, take the residual object of the data and
    grids of the window whose sigma array is the returned one (free FWHM,
    or FWHM fixed at the returned value when that was not fitted) and the
    Jacobian object that goes with it: [leastsq] on them from the initial
    values of the caller succeeds, its solution has [npar] entries, and the
    vector of residuals of the object at this solution has [nok] entries,
    the sum of the squares of which is the returned chi-square. *)
Theorem chisq_is_minimised_sum :
  forall (leastsq : solver) (wind : Window.t)
         (sky height xcen ycen fwhm fwhm_min : R) (fwhm_fix : bool)
         (beta thresh : R) (read gain : operand) (fuel : nat) (h h' : heap),
    Window.shaped wind ->
    (forall r : Moffat.result,
        Moffat.fitMoffat leastsq wind sky height xcen ycen fwhm fwhm_min
          fwhm_fix beta thresh fuel read gain h = Ok r h' ->
        exists ro jo init out v,
          paired h' ro jo /\ same_shape h' ro /\
          data_of ro = Window.data wind /\ xy_of ro = grid wind /\
          contents h' (sigma_of ro) = Moffat.r_sigma r /\
          ((init = [sky; height; xcen; ycen; fwhm; beta] /\ exists f, ro = R_Mfit1 f) \/
           (init = [sky; height; xcen; ycen; beta] /\
            exists f, ro = R_Mfit2 f /\
                exists a b c d e,
                  Moffat.pars r = (a, b, c, d, Mfit2.fwhm f, e))) /\
          out = leastsq (fun q => eval (residual ro q) h') init
                        (fun q => eval (jacobian jo q) h') /\
          status_ok out /\
          residual ro (Lsq.soln out) h' = Ok v h' /\
          Moffat.r_chisq r = sum (map (fun x => x ^ 2) v) /\
          Moffat.r_nok r = List.length v /\
          Moffat.r_npar r = List.length (Lsq.soln out)) /\
    (forall r : Gauss.result,
        Gauss.fitGaussian leastsq wind sky height xcen ycen fwhm fwhm_min
          fwhm_fix thresh fuel read gain h = Ok r h' ->
        exists ro jo init out v,
          paired h' ro jo /\ same_shape h' ro /\
          data_of ro = Window.data wind /\ xy_of ro = grid wind /\
          contents h' (sigma_of ro) = Gauss.r_sigma r /\
          ((init = [sky; height; xcen; ycen; fwhm] /\ exists f, ro = R_Gfit1 f) \/
           (init = [sky; height; xcen; ycen] /\
            exists f, ro = R_Gfit2 f /\
                exists a b c d, Gauss.pars r = (a, b, c, d, Gfit2.fwhm f))) /\
          out = leastsq (fun q => eval (residual ro q) h') init
                        (fun q => eval (jacobian jo q) h') /\
          status_ok out /\
          residual ro (Lsq.soln out) h' = Ok v h' /\
          Gauss.r_chisq r = sum (map (fun x => x ^ 2) v) /\
          Gauss.r_nok r = List.length v /\
          Gauss.r_npar r = List.length (Lsq.soln out)).
Proof.
  intros leastsq wind sky height xcen ycen fwhm fwhm_min fwhm_fix beta thresh
    read gain fuel h h' Hw.
  split; intros r H.
  - exact (Moffat_result_chisq _ _ _ _ _ _ _ _ _ _ _ _ _ _ _ _ _ Hw H).
  - exact (Gauss_result_chisq _ _ _ _ _ _ _ _ _ _ _ _ _ _ _ _ Hw H).
Qed.



(** ** combFit *)

Section CombFit.
Variable leastsq : solver.
Variable format : string -> list Comb.arg -> string.
Variable wind : Window.t.
Variables sky height x y fwhm fwhm_min : R.
Variable fwhm_fix : bool.
Variables beta : R.
Variables read gain : operand.
Variable thresh : R.
Variable fuel : nat.

#[local] Abbreviation combFit method :=
  (Comb.combFit leastsq format wind method sky height x y fwhm fwhm_min
     fwhm_fix beta read gain thresh fuel).

Lemma combFit_g (h : heap) :
  combFit "g" h
  = match Gauss.fitGaussian leastsq wind sky height x y fwhm fwhm_min
            fwhm_fix thresh fuel read gain h with
    | Ok r h' =>
        let '(sky, height, x, y, fwhm) := Gauss.pars r in
        let '(esky, eheight, ex, ey, efwhm) := Gauss.sigs r in
        Comb.Returns
          {| Comb.pars := (sky, height, x, y, fwhm, 0);
             Comb.epars := (esky, eheight, ex, ey, efwhm, -1);
             Comb.fit := Gauss.r_fit r; Comb.X := Gauss.r_x r;
             Comb.Y := Gauss.r_y r; Comb.sigma := Gauss.r_sigma r;
             Comb.chisq := Gauss.r_chisq r; Comb.nok := Gauss.r_nok r;
             Comb.nrej := Gauss.r_nrej r; Comb.npar := Gauss.r_npar r;
             Comb.message :=
               format
                 "x,y = {:.1f}({:.1f}),{:.1f}({:.1f}), FWHM = {:.2f}({:.2f}), peak = {:.1f}({:.1f}), sky = {:.1f}({:.1f}), chi**2 = {:.1f}, nok = {:d}, nrej = {:d}"
                 [Comb.Float x; Comb.Float ex; Comb.Float y; Comb.Float ey;
                  Comb.Float fwhm; Comb.Float efwhm; Comb.Float height;
                  Comb.Float eheight; Comb.Float sky; Comb.Float esky;
                  Comb.Float (Gauss.r_chisq r);
                  Comb.Int (Z.of_nat (Gauss.r_nok r));
                  Comb.Int (Gauss.r_nrej r)] |} h'
    | Raise e => Comb.Raises (Comb.Fit e)
    | OutOfFuel => Comb.Unfinished
    end.
Proof. reflexivity. Qed.

Lemma combFit_m (h : heap) :
  combFit "m" h
  = match Moffat.fitMoffat leastsq wind sky height x y fwhm fwhm_min
            fwhm_fix beta thresh fuel read gain h with
    | Ok r h' =>
        let '(sky, height, x, y, fwhm, beta) := Moffat.pars r in
        let '(esky, eheight, ex, ey, efwhm, ebeta) := Moffat.sigs r in
        Comb.Returns
          {| Comb.pars := (sky, height, x, y, fwhm, beta);
             Comb.epars := (esky, eheight, ex, ey, efwhm, ebeta);
             Comb.fit := Moffat.r_fit r; Comb.X := Moffat.r_x r;
             Comb.Y := Moffat.r_y r; Comb.sigma := Moffat.r_sigma r;
             Comb.chisq := Moffat.r_chisq r; Comb.nok := Moffat.r_nok r;
             Comb.nrej := Moffat.r_nrej r; Comb.npar := Moffat.r_npar r;
             Comb.message :=
               format
                 "x,y = {:.1f}({:.1f}),{:.1f}({:.1f}), FWHM = {:.2f}({:.2f}), peak = {:.1f}({:.1f}), sky = {:.1f}({:.1f}), beta = {:.2f}({:.2f}), chi**2 = {:.1f}, nok = {:d}, nrej = {:d}"
                 [Comb.Float x; Comb.Float ex; Comb.Float y; Comb.Float ey;
                  Comb.Float fwhm; Comb.Float efwhm; Comb.Float height;
                  Comb.Float eheight; Comb.Float sky; Comb.Float esky;
                  Comb.Float beta; Comb.Float ebeta;
                  Comb.Float (Moffat.r_chisq r);
                  Comb.Int (Z.of_nat (Moffat.r_nok r));
                  Comb.Int (Moffat.r_nrej r)] |} h'
    | Raise e => Comb.Raises (Comb.Fit e)
    | OutOfFuel => Comb.Unfinished
    end.
Proof. reflexivity. Qed.

Lemma combFit_other (method : string) (h : heap) :
  method <> "g"%string -> method <> "m"%string ->
  combFit method h
  = Comb.Raises
      (Comb.NotImplementedError (method ++ " fitting method not implemented")).
Proof.
  intros Hg Hm. unfold Comb.combFit.
  apply String.eqb_neq in Hg, Hm. now rewrite Hg, Hm.
Qed.

Lemma combFit_method (method : string) (h h' : heap) (cr : Comb.result) :
  combFit method h = Comb.Returns cr h' ->
  method = "g"%string \/ method = "m"%string.
Proof.
  intro H. destruct (String.eqb_spec method "g") as [Hg|Hg]; [now left|].
  destruct (String.eqb_spec method "m") as [Hm|Hm]; [now right|].
  rewrite (combFit_other method h Hg Hm) in H. discriminate.
Qed.

Lemma combFit_g_returns (h h' : heap) (cr : Comb.result) :
  Window.shaped wind ->
  combFit "g" h = Comb.Returns cr h' ->
  exists a b c d w ea eb ec ed ew,
    Comb.pars cr = (a, b, c, d, w, 0) /\
    Comb.epars cr = (ea, eb, ec, ed, ew, -1) /\
    0 <= ea /\ 0 <= eb /\ 0 <= ec /\ 0 <= ed /\
    ((Comb.npar cr = 4%nat /\ ew = -1 /\
      ((fwhm_fix = true /\ w = fwhm) \/ (fwhm_fix = false /\ w = fwhm_min))) \/
     (Comb.npar cr = 5%nat /\ 0 <= ew /\ fwhm_fix = false /\ w > fwhm_min)) /\
    (Comb.X cr, Comb.Y cr) = grid wind /\
    Comb.fit cr
    = Window.Build_t (Window.winhead wind)
        (gaussian (Comb.X cr, Comb.Y cr) a b c d w) /\
    Comb.nok cr = count_pos (Comb.sigma cr) /\
    (Z.of_nat (Comb.nok cr) + Comb.nrej cr
     = Z.of_nat (Window.ny wind * Window.nx wind))%Z.
Proof.
  intros Hw H. rewrite combFit_g in H.
  destruct (Gauss.fitGaussian _ _ _ _ _ _ _ _ _ _ _ _ _ h) as [r h1| |] eqn:E;
    try discriminate.
  destruct (Gauss_result_errors _ _ _ _ _ _ _ _ _ _ _ _ _ _ _ _ Hw E)
    as (a & b & c & d & w & ea & eb & ec & ed & ew & Hp & Hs
        & Ha & Hb & Hc & Hd & Hcase).
  destruct (Gauss_result_fit _ _ _ _ _ _ _ _ _ _ _ _ _ _ _ _ Hw E)
    as (a' & b' & c' & d' & w' & Hp' & Hg & Hfit).
  destruct (Gauss_result_counts _ _ _ _ _ _ _ _ _ _ _ _ _ _ _ _ Hw E)
    as (s & _ & _ & _ & _ & Hnok & Hsum & _).
  rewrite Hp in Hp'. injection Hp' as <- <- <- <- <-.
  rewrite Hp, Hs in H. injection H as <- <-.
  exists a, b, c, d, w, ea, eb, ec, ed, ew. cbn.
  repeat (split; [assumption || reflexivity|]). assumption.
Qed.

Lemma combFit_m_returns (h h' : heap) (cr : Comb.result) :
  Window.shaped wind ->
  combFit "m" h = Comb.Returns cr h' ->
  exists a b c d w e ea eb ec ed ew ee,
    Comb.pars cr = (a, b, c, d, w, e) /\
    Comb.epars cr = (ea, eb, ec, ed, ew, ee) /\
    0 <= ea /\ 0 <= eb /\ 0 <= ec /\ 0 <= ed /\ 0 <= ee /\
    ((Comb.npar cr = 5%nat /\ ew = -1 /\
      ((fwhm_fix = true /\ w = fwhm) \/ (fwhm_fix = false /\ w = fwhm_min))) \/
     (Comb.npar cr = 6%nat /\ 0 <= ew /\ fwhm_fix = false /\ w > fwhm_min)) /\
    (Comb.X cr, Comb.Y cr) = grid wind /\
    Comb.fit cr
    = Window.Build_t (Window.winhead wind)
        (moffat (Comb.X cr, Comb.Y cr) a b c d w e) /\
    Comb.nok cr = count_pos (Comb.sigma cr) /\
    (Z.of_nat (Comb.nok cr) + Comb.nrej cr
     = Z.of_nat (Window.ny wind * Window.nx wind))%Z.
Proof.
  intros Hw H. rewrite combFit_m in H.
  destruct (Moffat.fitMoffat _ _ _ _ _ _ _ _ _ _ _ _ _ _ h) as [r h1| |] eqn:E;
    try discriminate.
  destruct (Moffat_result_errors _ _ _ _ _ _ _ _ _ _ _ _ _ _ _ _ _ Hw E)
    as (a & b & c & d & w & e & ea & eb & ec & ed & ew & ee & Hp & Hs
        & Ha & Hb & Hc & Hd & He & Hcase).
  destruct (Moffat_result_fit _ _ _ _ _ _ _ _ _ _ _ _ _ _ _ _ _ Hw E)
    as (a' & b' & c' & d' & w' & e' & Hp' & Hg & Hfit).
  destruct (Moffat_result_counts _ _ _ _ _ _ _ _ _ _ _ _ _ _ _ _ _ Hw E)
    as (s & _ & _ & _ & _ & Hnok & Hsum & _).
  rewrite Hp in Hp'. injection Hp' as <- <- <- <- <- <-.
  rewrite Hp, Hs in H. injection H as <- <-.
  exists a, b, c, d, w, e, ea, eb, ec, ed, ew, ee. cbn.
  repeat (split; [assumption || reflexivity|]). assumption.
Qed.
End CombFit.

(** X16 (errors of combFit).  A method other than 'g' and 'm' makes
    [combFit] raise NotImplementedError, with the method in the message,
    whatever the other arguments; with 'g' or 'm' it raises exactly when
    [fitGaussian] or [fitMoffat] raises on the same arguments, and the same
    exception. *)
Theorem combFit_errors :
  forall (leastsq : solver) (format : string -> list Comb.arg -> string)
         (wind : Window.t) (method : string)
         (sky height x y fwhm fwhm_min : R) (fwhm_fix : bool) (beta : R)
         (read gain : operand) (thresh : R) (fuel : nat) (h : heap),
    let comb := fun m =>
      Comb.combFit leastsq format wind m sky height x y fwhm fwhm_min
        fwhm_fix beta read gain thresh fuel h in
    ((method <> "g" /\ method <> "m")%string <->
     comb method
     = Comb.Raises
         (Comb.NotImplementedError
            (method ++ " fitting method not implemented"))) /\
    (forall e,
        comb "g"%string = Comb.Raises (Comb.Fit e) <->
        Gauss.fitGaussian leastsq wind sky height x y fwhm fwhm_min fwhm_fix
          thresh fuel read gain h = Raise e) /\
    (forall e,
        comb "m"%string = Comb.Raises (Comb.Fit e) <->
        Moffat.fitMoffat leastsq wind sky height x y fwhm fwhm_min fwhm_fix
          beta thresh fuel read gain h = Raise e).
Proof.
  intros leastsq format wind method sky height x y fwhm fwhm_min fwhm_fix beta
    read gain thresh fuel h comb. unfold comb.
  split; [|split].
  - split.
    + intros [Hg Hm]. now apply combFit_other.
    + intro H.
      destruct (String.eqb_spec method "g") as [->|Hg].
      { rewrite combFit_g in H.
        destruct (Gauss.fitGaussian _ _ _ _ _ _ _ _ _ _ _ _ _ h) as [r h1| |];
          try discriminate.
        destruct (Gauss.pars r) as [[[[? ?] ?] ?] ?].
        destruct (Gauss.sigs r) as [[[[? ?] ?] ?] ?]. discriminate. }
      destruct (String.eqb_spec method "m") as [->|Hm]; [|now split].
      rewrite combFit_m in H.
      destruct (Moffat.fitMoffat _ _ _ _ _ _ _ _ _ _ _ _ _ _ h) as [r h1| |];
        try discriminate.
      destruct (Moffat.pars r) as [[[[[? ?] ?] ?] ?] ?].
      destruct (Moffat.sigs r) as [[[[[? ?] ?] ?] ?] ?]. discriminate.
  - intro e. rewrite combFit_g.
    destruct (Gauss.fitGaussian _ _ _ _ _ _ _ _ _ _ _ _ _ h) as [r h1|e'|].
    + destruct (Gauss.pars r) as [[[[? ?] ?] ?] ?].
      destruct (Gauss.sigs r) as [[[[? ?] ?] ?] ?].
      split; discriminate.
    + split; intro H; inversion H; reflexivity.
    + split; discriminate.
  - intro e. rewrite combFit_m.
    destruct (Moffat.fitMoffat _ _ _ _ _ _ _ _ _ _ _ _ _ _ h) as [r h1|e'|].
    + destruct (Moffat.pars r) as [[[[[? ?] ?] ?] ?] ?].
      destruct (Moffat.sigs r) as [[[[[? ?] ?] ?] ?] ?].
      split; discriminate.
    + split; intro H; inversion H; reflexivity.
    + split; discriminate.
Qed.

(** X17 (what combFit returns).  When [combFit] returns on a well-shaped
    window the method is 'g' or 'm'.  With 'g' the returned beta is 0 and
    its error -1, whatever [beta] was given.  In both cases the FWHM error
    is -1 when the FWHM was not fitted, [npar] then being 4 ('g') or 5
    ('m') instead of 5 or 6; the returned fit is the profile of the method
    at the returned parameters on the returned grids, which are those of
    the window; and nok + nrej = ny*nx with [nok] the number of positive
    entries of the returned sigma. *)
Theorem combFit_result :
  forall (leastsq : solver) (format : string -> list Comb.arg -> string)
         (wind : Window.t) (method : string)
         (sky height x y fwhm fwhm_min : R) (fwhm_fix : bool) (beta : R)
         (read gain : operand) (thresh : R) (fuel : nat) (h h' : heap)
         (cr : Comb.result),
    Window.shaped wind ->
    Comb.combFit leastsq format wind method sky height x y fwhm fwhm_min
      fwhm_fix beta read gain thresh fuel h = Comb.Returns cr h' ->
    exists a b c d w e ea eb ec ed ew ee (fitted : bool),
      Comb.pars cr = (a, b, c, d, w, e) /\
      Comb.epars cr = (ea, eb, ec, ed, ew, ee) /\
      (Comb.X cr, Comb.Y cr) = grid wind /\
      Comb.nok cr = count_pos (Comb.sigma cr) /\
      (Z.of_nat (Comb.nok cr) + Comb.nrej cr
       = Z.of_nat (Window.ny wind * Window.nx wind))%Z /\
      (if fitted then fwhm_fix = false /\ w > fwhm_min
       else ew = -1 /\
            ((fwhm_fix = true /\ w = fwhm) \/
             (fwhm_fix = false /\ w = fwhm_min))) /\
      ((method = "g"%string /\ e = 0 /\ ee = -1 /\
        Comb.npar cr = (if fitted then 5 else 4)%nat /\
        Comb.fit cr
        = Window.Build_t (Window.winhead wind)
            (gaussian (Comb.X cr, Comb.Y cr) a b c d w)) \/
       (method = "m"%string /\
        Comb.npar cr = (if fitted then 6 else 5)%nat /\
        Comb.fit cr
        = Window.Build_t (Window.winhead wind)
            (moffat (Comb.X cr, Comb.Y cr) a b c d w e))).
Proof.
  intros leastsq format wind method sky height x y fwhm fwhm_min fwhm_fix beta
    read gain thresh fuel h h' cr Hw H.
  destruct (combFit_method _ _ _ _ _ _ _ _ _ _ _ _ _ _ _ _ _ _ _ H)
    as [->| ->].
  - destruct (combFit_g_returns _ _ _ _ _ _ _ _ _ _ _ _ _ _ _ _ _ _ Hw H)
      as (a & b & c & d & w & ea & eb & ec & ed & ew & Hp & Hs
          & _ & _ & _ & _ & Hcase & Hg & Hfit & Hnok & Hsum).
    destruct Hcase as [(Hn & He & Hf)|(Hn & _ & Hf)].
    + exists a, b, c, d, w, 0, ea, eb, ec, ed, ew, (-1), false.
      repeat (split; [assumption|]). try (split; [auto|]).
      left. repeat (split; [assumption || reflexivity|]). exact Hfit.
    + exists a, b, c, d, w, 0, ea, eb, ec, ed, ew, (-1), true.
      repeat (split; [assumption|]). try (split; [auto|]).
      left. repeat (split; [assumption || reflexivity|]). exact Hfit.
  - destruct (combFit_m_returns _ _ _ _ _ _ _ _ _ _ _ _ _ _ _ _ _ _ Hw H)
      as (a & b & c & d & w & e & ea & eb & ec & ed & ew & ee & Hp & Hs
          & _ & _ & _ & _ & _ & Hcase & Hg & Hfit & Hnok & Hsum).
    destruct Hcase as [(Hn & He & Hf)|(Hn & _ & Hf)].
    + exists a, b, c, d, w, e, ea, eb, ec, ed, ew, ee, false.
      repeat (split; [assumption|]). try (split; [auto|]).
      right. repeat (split; [assumption || reflexivity|]). exact Hfit.
    + exists a, b, c, d, w, e, ea, eb, ec, ed, ew, ee, true.
      repeat (split; [assumption|]). try (split; [auto|]).
      right. repeat (split; [assumption || reflexivity|]). exact Hfit.
Qed.

(** ** The clamp of the Moffat exponent *)

Lemma moffat_clamped (xy : array * array)
  (sky height xcen ycen fwhm beta : R) :
  moffat xy sky height xcen ycen fwhm beta
  = moffat xy sky height xcen ycen fwhm (Rmax (1/100) beta).
Proof.
  unfold moffat. destruct xy as [x y].
  now rewrite (Rmax_right (1/100) (Rmax (1/100) beta)) by apply Rmax_l.
Qed.

Lemma dmoffat_clamped (xy : array * array)
  (sky height xcen ycen fwhm beta : R) (skip : bool) :
  dmoffat xy sky height xcen ycen fwhm beta skip
  = dmoffat xy sky height xcen ycen fwhm (Rmax (1/100) beta) skip.
Proof.
  unfold dmoffat. destruct xy as [x y].
  now rewrite (Rmax_right (1/100) (Rmax (1/100) beta)) by apply Rmax_l.
Qed.

(** X5 (the clamp of the Moffat exponent).  An exponent at or below 0.01
    is used as 0.01: [moffat] and [dmoffat] return what they return for
    0.01.  Below 0.01 the profile therefore does not depend on beta, and
    the derivative of each of its values with respect to beta is 0, while
    the beta array of [dmoffat] is the one computed at 0.01. *)
Theorem moffat_below_clamp :
  forall (xy : array * array) (sky height xcen ycen fwhm beta : R),
    beta <= 1/100 ->
    moffat xy sky height xcen ycen fwhm beta
    = moffat xy sky height xcen ycen fwhm (1/100) /\
    (forall skip,
        dmoffat xy sky height xcen ycen fwhm beta skip
        = dmoffat xy sky height xcen ycen fwhm (1/100) skip) /\
    (beta < 1/100 ->
     forall k,
       derivable_pt_lim
         (fun t => nth k (moffat xy sky height xcen ycen fwhm t) 0) beta 0).
Proof.
  intros xy sky height xcen ycen fwhm beta Hb.
  split; [|split].
  - rewrite moffat_clamped. now rewrite Rmax_left by exact Hb.
  - intro skip. rewrite dmoffat_clamped. now rewrite Rmax_left by exact Hb.
  - intros Hlt k.
    apply (dlim_ext_loc
             (fun _ => nth k (moffat xy sky height xcen ycen fwhm (1/100)) 0)
             _ _ _ (1/100 - beta)); [lra | | apply derivable_pt_lim_const].
    intros t Ht. apply Rabs_def2 in Ht.
    rewrite (moffat_clamped _ _ _ _ _ _ t).
    now rewrite Rmax_left by lra.
Qed.

Lemma moffat_below_clamp_witness :
  moffat ([0; 1], [2; 2]) 10 500 1 2 4 0
  = moffat ([0; 1], [2; 2]) 10 500 1 2 4 (1/100) /\
  (forall skip,
      dmoffat ([0; 1], [2; 2]) 10 500 1 2 4 0 skip
      = dmoffat ([0; 1], [2; 2]) 10 500 1 2 4 (1/100) skip) /\
  (0 < 1/100 ->
   forall k,
     derivable_pt_lim
       (fun t => nth k (moffat ([0; 1], [2; 2]) 10 500 1 2 4 t) 0) 0 0).
Proof.
  apply (moffat_below_clamp ([0; 1], [2; 2]) 10 500 1 2 4 0). lra.
Defined.

(** ** Instances *)

Lemma profile_half_maximum_witness :
  nth_error (gaussian ([1; 3], [2; 2]) 10 500 1 2 4) 1 = Some (10 + 500 / 2) /\
  nth_error (moffat ([1; 3], [2; 2]) 10 500 1 2 4 3) 1 = Some (10 + 500 / 2) /\
  nth_error (gaussian ([1; 3], [2; 2]) 10 500 1 2 4) 0 = Some (10 + 500) /\
  nth_error (moffat ([1; 3], [2; 2]) 10 500 1 2 4 3) 0 = Some (10 + 500).
Proof.
  assert (Hw : 4 <> 0) by lra.
  destruct (profile_half_maximum [1; 3] [2; 2] 1%nat 3 2 10 500 1 2 4 3
              eq_refl eq_refl Hw) as [_ Hhalf].
  destruct (profile_half_maximum [1; 3] [2; 2] 0%nat 1 2 10 500 1 2 4 3
              eq_refl eq_refl Hw) as [Hpeak _].
  cbv zeta in Hhalf, Hpeak.
  destruct Hhalf as [H1 H2]; [simpl; lra|].
  destruct Hpeak as [H3 H4]; [simpl; lra|].
  repeat split; assumption.
Defined.

Lemma profile_decreasing_witness :
  let g := gaussian ([1; 3], [2; 2]) 10 500 1 2 4 in
  let m := moffat ([1; 3], [2; 2]) 10 500 1 2 4 3 in
  10 <= nth 1 g 0 <= nth 0 g 0 /\ nth 0 g 0 <= 10 + 500 /\
  10 <= nth 1 m 0 <= nth 0 m 0 /\ nth 0 m 0 <= 10 + 500.
Proof.
  apply (profile_decreasing [1; 3] [2; 2] 0%nat 1%nat 1 2 3 2 10 500 1 2 4 3);
    try reflexivity; simpl; lra.
Defined.

Lemma spike_paired :
  paired [spike_sigma; spike_sigma] (R_Gfit1 (Gauss.gfit1 spike_gobjs))
    (J_Dgfit1 (Gauss.dgfit1 spike_gobjs)) /\
  same_shape [spike_sigma; spike_sigma] (R_Gfit1 (Gauss.gfit1 spike_gobjs)).
Proof. repeat split. Qed.

Lemma jacobian_shape_witness :
  (exists v J,
      residual (R_Gfit1 (Gauss.gfit1 spike_gobjs)) [5; 0; 0; 0; 1]
        [spike_sigma; spike_sigma] = Ok v [spike_sigma; spike_sigma] /\
      jacobian (J_Dgfit1 (Gauss.dgfit1 spike_gobjs)) [5; 0; 0; 0; 1]
        [spike_sigma; spike_sigma] = Ok J [spike_sigma; spike_sigma] /\
      List.length v = count_pos spike_sigma /\
      List.length J = 5%nat /\
      Forall (fun row => List.length row = List.length v) J) /\
  residual (R_Gfit1 (Gauss.gfit1 spike_gobjs)) [5; 0; 0; 0]
    [spike_sigma; spike_sigma] = Raise ValueError /\
  jacobian (J_Dgfit1 (Gauss.dgfit1 spike_gobjs)) [5; 0; 0; 0]
    [spike_sigma; spike_sigma] = Raise ValueError.
Proof.
  destruct spike_paired as [Hp Hs].
  split.
  - apply (proj1 (jacobian_shape _ _ _ [5; 0; 0; 0; 1] Hp Hs)). reflexivity.
  - apply (proj2 (jacobian_shape _ _ _ [5; 0; 0; 0] Hp Hs)). cbn. lia.
Defined.

Lemma spike_sigma_count : count_pos spike_sigma = 6%nat.
Proof.
  unfold count_pos, spike_sigma. cbn [gt map].
  rewrite (Rgtb_true 1 0) by lra. reflexivity.
Qed.

Lemma jacobian_of_residual_witness :
  exists J,
    jacobian (J_Dgfit1 (Gauss.dgfit1 spike_gobjs)) [5; 0; 0; 0; 1]
      [spike_sigma; spike_sigma] = Ok J [spike_sigma; spike_sigma] /\
    derivable_pt_lim
      (fun t => residual_entry (R_Gfit1 (Gauss.gfit1 spike_gobjs))
                  [spike_sigma; spike_sigma] 5 [5; t; 0; 0; 1])
      0 (nth 5 (nth 1 J []) 0).
Proof.
  destruct spike_paired as [Hp Hs].
  destruct (jacobian_of_residual _ _ _ [5; 0; 0; 0; 1] Hp Hs) as (J & HJ & Hd).
  - cbn. lra.
  - reflexivity.
  - exists J. split; [exact HJ|].
    apply (Hd [5] 0 [0; 0; 1] 5%nat); [reflexivity|].
    cbn [sigma_of Gauss.gfit1 spike_gobjs Gfit1.sigma contents nth].
    rewrite spike_sigma_count. lia.
Defined.

Lemma function_objects_paired_witness :
  exists s sig,
    noise (Scalar 0) spike_gain (Window.data spike_window) [] = Ok s [] /\
    [spike_sigma; spike_sigma] = [] ++ [sig; s] /\
    paired [spike_sigma; spike_sigma] (R_Gfit1 (Gauss.gfit1 spike_gobjs))
      (J_Dgfit1 (Gauss.dgfit1 spike_gobjs)) /\
    forall fw,
      paired [spike_sigma; spike_sigma]
        (R_Gfit2 (Gfit2.set_fwhm (Gauss.gfit2 spike_gobjs) fw))
        (J_Dgfit2 (Dgfit2.set_fwhm (Gauss.dgfit2 spike_gobjs) fw)).
Proof.
  destruct (function_objects_paired echo_solver spike_window 5 0 0 0 1 (1/2)
              true 0 1 (Scalar 0) spike_gain [] spike_window_shaped)
    as [_ HG].
  destruct (HG spike_gobjs [spike_sigma; spike_sigma] spike_turn_start)
    as (s & sig & Hn & Hh & _ & _ & _ & _ & _ & Hp & _ & Hp2).
  exists s, sig. split; [exact Hn|]. split; [exact Hh|]. split; [exact Hp|].
  intro fw. exact (proj1 (Hp2 fw)).
Defined.

Lemma result_counts_witness :
  exists r : Gauss.result,
    Gauss.fitGaussian echo_solver spike_window 5 0 0 0 1 (1/2) true 1 7
      (Scalar 0) spike_gain [] = Ok r [spike_rejected; spike_sigma] /\
    List.length (Gauss.r_sigma r) = 6%nat /\
    Gauss.r_nok r = count_pos (Gauss.r_sigma r) /\
    (Z.of_nat (Gauss.r_nok r) + Gauss.r_nrej r = 6)%Z /\
    (Gauss.r_npar r = 4 \/ Gauss.r_npar r = 5)%nat.
Proof.
  destruct spike_Gauss_run as (r & Hr & _).
  exists r. split; [exact Hr|].
  destruct (result_counts echo_solver spike_window 5 0 0 0 1 (1/2) true 0 1
              (Scalar 0) spike_gain 7 [] [spike_rejected; spike_sigma]
              spike_window_shaped) as [_ HG].
  destruct (HG r Hr) as (s & _ & _ & _ & Hl & Hn & Hs & Hp).
  repeat split; assumption.
Defined.

Lemma fit_is_profile_at_pars_witness :
  exists (r : Gauss.result) (a b c d w : R),
    Gauss.fitGaussian echo_solver spike_window 5 0 0 0 1 (1/2) true 1 7
      (Scalar 0) spike_gain [] = Ok r [spike_rejected; spike_sigma] /\
    Gauss.pars r = (a, b, c, d, w) /\
    (Gauss.r_x r, Gauss.r_y r) = grid spike_window /\
    Gauss.r_fit r
    = Window.Build_t (Window.winhead spike_window)
        (gaussian (Gauss.r_x r, Gauss.r_y r) a b c d w).
Proof.
  destruct spike_Gauss_run as (r & Hr & _).
  destruct (fit_is_profile_at_pars echo_solver spike_window 5 0 0 0 1 (1/2)
              true 0 1 (Scalar 0) spike_gain 7 [] [spike_rejected; spike_sigma]
              spike_window_shaped) as [_ HG].
  destruct (HG r Hr) as (a & b & c & d & w & H).
  exists r, a, b, c, d, w. split; [exact Hr | exact H].
Defined.

Lemma echo_covariance_nonneg : covariance_nonneg echo_solver.
Proof.
  intros func x0 Dfun cov H. cbn in H. injection H as <-.
  unfold diag. apply Forall_map, Forall_forall. intros i Hi.
  rewrite length_map in Hi. apply in_seq in Hi.
  set (row := map (fun _ : R => 0) x0).
  rewrite (nth_indep _ [] row) by (rewrite length_map; lia).
  rewrite (map_nth (fun _ : R => row) x0 0 i).
  assert (Hz : forall k, nth k row 0 = 0).
  { intro k. unfold row. clear. revert k.
    induction x0 as [|a l IH]; intros [|k]; simpl; auto. }
  rewrite Hz. lra.
Qed.

Lemma returned_errors_signs_witness :
  exists (r : Gauss.result) (a b c d w ea eb ec ed ew : R),
    Gauss.fitGaussian echo_solver spike_window 5 0 0 0 1 (1/2) true 1 7
      (Scalar 0) spike_gain [] = Ok r [spike_rejected; spike_sigma] /\
    Gauss.pars r = (a, b, c, d, w) /\
    Gauss.sigs r = (ea, eb, ec, ed, ew) /\
    Gauss.r_npar r = 4%nat /\ ew = -1 /\ w = 1 /\
    0 <= ea /\ 0 <= eb /\ 0 <= ec /\ 0 <= ed.
Proof.
  destruct spike_Gauss_run as (r & Hr & _ & _ & _ & _ & Hnok & _ & Hnpar).
  destruct (returned_errors_signs echo_solver spike_window 5 0 0 0 1 (1/2)
              true 0 1 (Scalar 0) spike_gain 7 [] [spike_rejected; spike_sigma]
              echo_covariance_nonneg spike_window_shaped) as [_ HG].
  destruct (HG r Hr)
    as (a & b & c & d & w & ea & eb & ec & ed & ew & Hp & Hs & Hcase & Hsign).
  exists r, a, b, c, d, w, ea, eb, ec, ed, ew.
  split; [exact Hr|]. split; [exact Hp|]. split; [exact Hs|].
  destruct Hcase as [(Hn & He & [[_ Hw]|[Hf _]])|(_ & Hf & _)];
    try discriminate Hf.
  split; [exact Hn|]. split; [exact He|]. split; [exact Hw|].
  destruct Hsign as (Ha & Hb & Hc & Hd & _); [rewrite Hnok, Hnpar; lia|].
  repeat split; assumption.
Defined.

Lemma no_outlier_left_witness :
  exists r : Gauss.result,
    Gauss.fitGaussian echo_solver spike_window 5 0 0 0 1 (1/2) true 1 7
      (Scalar 0) spike_gain [] = Ok r [spike_rejected; spike_sigma] /\
    forall k dk fk sk,
      nth_error (Window.data spike_window) k = Some dk ->
      nth_error (Window.data (Gauss.r_fit r)) k = Some fk ->
      nth_error (Gauss.r_sigma r) k = Some sk ->
      sk > 0 ->
      Rabs ((dk - fk) / sk)
      <= sqrt (Gauss.r_chisq r
               / IZR (Z.of_nat (Gauss.r_nok r) - Z.of_nat (Gauss.r_npar r)))
         * 1.
Proof.
  destruct spike_Gauss_run as (r & Hr & _ & _ & _ & _ & Hnok & _ & Hnpar).
  exists r. split; [exact Hr|].
  destruct (no_outlier_left echo_solver spike_window 5 0 0 0 1 (1/2) true 0 1
              (Scalar 0) spike_gain 7 [] [spike_rejected; spike_sigma]
              spike_window_shaped) as [_ HG].
  apply (HG r Hr). rewrite Hnok, Hnpar. lia.
Defined.

Lemma chisq_is_minimised_sum_witness :
  exists (r : Gauss.result) ro jo init out v,
    Gauss.fitGaussian echo_solver spike_window 5 0 0 0 1 (1/2) true 1 7
      (Scalar 0) spike_gain [] = Ok r [spike_rejected; spike_sigma] /\
    paired [spike_rejected; spike_sigma] ro jo /\
    contents [spike_rejected; spike_sigma] (sigma_of ro) = Gauss.r_sigma r /\
    out = echo_solver
            (fun q => eval (residual ro q) [spike_rejected; spike_sigma]) init
            (fun q => eval (jacobian jo q) [spike_rejected; spike_sigma]) /\
    residual ro (Lsq.soln out) [spike_rejected; spike_sigma]
    = Ok v [spike_rejected; spike_sigma] /\
    Gauss.r_chisq r = sum (map (fun x => x ^ 2) v) /\
    Gauss.r_nok r = List.length v.
Proof.
  destruct spike_Gauss_run as (r & Hr & _).
  destruct (chisq_is_minimised_sum echo_solver spike_window 5 0 0 0 1 (1/2)
              true 0 1 (Scalar 0) spike_gain 7 [] [spike_rejected; spike_sigma]
              spike_window_shaped) as [_ HG].
  destruct (HG r Hr)
    as (ro & jo & init & out & v & Hp & _ & _ & _ & Hc & _ & Ho & _ & Hv & Hq
        & Hn & _).
  exists r, ro, jo, init, out, v. repeat split; assumption.
Defined.

(** ** Example: a flat window of six pixels *)






Lemma combFit_result_witness :
  exists cr : Comb.result,
    Comb.combFit echo_solver template_only spike_window "g" 5 0 0 0 1 (1/2)
      true 3 (Scalar 0) spike_gain 1 7 []
    = Comb.Returns cr [spike_rejected; spike_sigma] /\
    exists a b c d w ea eb ec ed ew,
      Comb.pars cr = (a, b, c, d, w, 0) /\
      Comb.epars cr = (ea, eb, ec, ed, ew, -1) /\
      Comb.nok cr = count_pos (Comb.sigma cr) /\
      (Z.of_nat (Comb.nok cr) + Comb.nrej cr = 6)%Z.
Proof.
  destruct spike_Gauss_run as (r & Hr & Hp & Hs & _).
  assert (Hc : exists cr,
    Comb.combFit echo_solver template_only spike_window "g" 5 0 0 0 1 (1/2)
      true 3 (Scalar 0) spike_gain 1 7 []
    = Comb.Returns cr [spike_rejected; spike_sigma]).
  { rewrite combFit_g, Hr, Hp, Hs. eexists. reflexivity. }
  destruct Hc as (cr & Hc). exists cr. split; [exact Hc|].
  destruct (combFit_result _ _ _ _ _ _ _ _ _ _ _ _ _ _ _ _ _ _ _
              spike_window_shaped Hc)
    as (a & b & c & d & w & e & ea & eb & ec & ed & ew & ee & fitted & Hpc
        & Hec & _ & Hnok & Hsum & _ & [Hg|Hm]).
  - destruct Hg as (_ & -> & -> & _).
    exists a, b, c, d, w, ea, eb, ec, ed, ew. repeat split; assumption.
  - destruct Hm as (Hm & _). discriminate Hm.
Defined.

(** ** The threshold within a turn *)

Lemma Forall2_nth_error {A B : Type} (P : A -> B -> Prop) :
  forall (l1 : list A) (l2 : list B),
    List.length l1 = List.length l2 ->
    (forall k a b, nth_error l1 k = Some a -> nth_error l2 k = Some b -> P a b) ->
    Forall2 P l1 l2.
Proof.
  induction l1 as [|a l1 IH]; intros [|b l2] Hl H; simpl in Hl;
    try discriminate; constructor.
  - exact (H O a b eq_refl eq_refl).
  - apply IH; [lia|]. intros k a' b' Ha Hb. exact (H (S k) a' b' Ha Hb).
Qed.

Lemma reject_entry_mono (s r b1 b2 : R) :
  b1 <= b2 ->
  reject_entry s r b1 = reject_entry s r b2 \/
  (reject_entry s r b2 > 0 /\ reject_entry s r b1 = reject_entry s r b2 * -1).
Proof.
  intro Hb. unfold reject_entry.
  destruct (Rgt_dec s 0) as [Hs|Hs];
    [rewrite (Rgtb_true _ _ Hs)|rewrite (Rgtb_false _ _ Hs); now left].
  cbn [andb].
  destruct (Rgt_dec (Rabs r) b2) as [H2|H2].
  - rewrite (Rgtb_true _ _ H2), (Rgtb_true (Rabs r) b1) by lra. now left.
  - rewrite (Rgtb_false _ _ H2).
    destruct (Rgt_dec (Rabs r) b1) as [H1|H1].
    + rewrite (Rgtb_true _ _ H1). right. split; [exact Hs | reflexivity].
    + rewrite (Rgtb_false _ _ H1). now left.
Qed.

(** Two turns from one state that differ in the threshold only. *)
Lemma turns_monotone (d f sig sig1 sig2 : array) (sfac t1 t2 : R) :
  List.length d = List.length sig ->
  List.length f = List.length sig ->
  List.length sig1 = List.length sig ->
  List.length sig2 = List.length sig ->
  0 <= sfac -> t1 <= t2 ->
  (forall k dk fk sk,
      nth_error d k = Some dk -> nth_error f k = Some fk ->
      nth_error sig k = Some sk ->
      nth_error sig1 k = Some (reject_entry sk ((dk - fk) / sk) (sfac * t1))) ->
  (forall k dk fk sk,
      nth_error d k = Some dk -> nth_error f k = Some fk ->
      nth_error sig k = Some sk ->
      nth_error sig2 k = Some (reject_entry sk ((dk - fk) / sk) (sfac * t2))) ->
  rejected_from sig2 sig1.
Proof.
  intros Hd Hf H1 H2 Hs Ht Hk1 Hk2.
  apply Forall2_nth_error; [congruence|].
  intros k a b Ha Hb.
  assert (Hk : (k < List.length sig)%nat).
  { rewrite <- H2. apply nth_error_Some. congruence. }
  destruct (nth_error_lt d k) as [dk Hdk]; [lia|].
  destruct (nth_error_lt f k) as [fk Hfk]; [lia|].
  destruct (nth_error_lt sig k) as [sk Hsk]; [lia|].
  rewrite (Hk2 k dk fk sk Hdk Hfk Hsk) in Ha.
  rewrite (Hk1 k dk fk sk Hdk Hfk Hsk) in Hb.
  injection Ha as <-. injection Hb as <-.
  apply reject_entry_mono. now apply Rmult_le_compat_l.
Qed.

(** X18 (the threshold within a turn).  From the same function objects and
    the same store, on a well-shaped window and with more included pixels
    than parameters of the fit, the turn of the loop with the larger of two
    thresholds rejects no pixel that the turn with the smaller one keeps:
    the sigma array after the turn with the smaller threshold is the array
    after the other with further entries negated. *)
Theorem threshold_monotone :
  forall (leastsq : solver) (wind : Window.t)
         (sky height xcen ycen fwhm fwhm_min : R) (fwhm_fix : bool)
         (beta thresh1 thresh2 : R) (h : heap),
    Window.shaped wind ->
    thresh1 <= thresh2 ->
    (forall (o o' : Moffat.objs) p r1 h1 r2 h2,
        Moffat_shaped wind o ->
        List.length (contents h (Moffat_sigma1 o))
        = List.length (Window.data wind) ->
        Moffat.two_pass leastsq wind sky height xcen ycen fwhm fwhm_min
          fwhm_fix beta o h = Ok (o', p) h ->
        (List.length (Moffat.soln p)
         < count_pos (contents h (Moffat_sigma1 o)))%nat ->
        Moffat.body leastsq wind sky height xcen ycen fwhm fwhm_min fwhm_fix
          beta thresh1 o h = Ok r1 h1 ->
        Moffat.body leastsq wind sky height xcen ycen fwhm fwhm_min fwhm_fix
          beta thresh2 o h = Ok r2 h2 ->
        rejected_from (contents h2 (Moffat_sigma1 o))
                      (contents h1 (Moffat_sigma1 o))) /\
    (forall (o o' : Gauss.objs) p r1 h1 r2 h2,
        Gauss_shaped wind o ->
        List.length (contents h (Gauss_sigma1 o))
        = List.length (Window.data wind) ->
        Gauss.two_pass leastsq wind sky height xcen ycen fwhm fwhm_min
          fwhm_fix o h = Ok (o', p) h ->
        (List.length (Gauss.soln p)
         < count_pos (contents h (Gauss_sigma1 o)))%nat ->
        Gauss.body leastsq wind sky height xcen ycen fwhm fwhm_min fwhm_fix
          thresh1 o h = Ok r1 h1 ->
        Gauss.body leastsq wind sky height xcen ycen fwhm fwhm_min fwhm_fix
          thresh2 o h = Ok r2 h2 ->
        rejected_from (contents h2 (Gauss_sigma1 o))
                      (contents h1 (Gauss_sigma1 o))).
Proof.
  intros leastsq wind sky height xcen ycen fwhm fwhm_min fwhm_fix beta
    thresh1 thresh2 h Hw Ht.
  split; intros o o' p r1 h1 r2 h2 Hsh Hl _ _ Hb1 Hb2.
  - destruct (Moffat_body_exact _ _ _ _ _ _ _ _ _ _ _ _ _ _ _ Hw Hsh Hl Hb1)
      as (o1 & p1 & Htp1 & _ & _ & Hex1).
    destruct (Moffat_body_exact _ _ _ _ _ _ _ _ _ _ _ _ _ _ _ Hw Hsh Hl Hb2)
      as (o2 & p2 & Htp2 & _ & _ & Hex2).
    rewrite Htp1 in Htp2. injection Htp2 as <- <-.
    cbv zeta in Hex1, Hex2.
    destruct Hex1 as (Hf & _ & Hl1 & Hk1 & _).
    destruct Hex2 as (_ & _ & Hl2 & Hk2 & _).
    exact (turns_monotone (Window.data wind) (Window.data (Moffat.fit p1))
             (contents h (Moffat_sigma1 o)) _ _ _ thresh1 thresh2
             (eq_sym Hl) Hf Hl1 Hl2 (sfac_spec_nonneg _ _ _ _) Ht Hk1 Hk2).
  - destruct (Gauss_body_exact _ _ _ _ _ _ _ _ _ _ _ _ _ _ Hw Hsh Hl Hb1)
      as (o1 & p1 & Htp1 & _ & _ & Hex1).
    destruct (Gauss_body_exact _ _ _ _ _ _ _ _ _ _ _ _ _ _ Hw Hsh Hl Hb2)
      as (o2 & p2 & Htp2 & _ & _ & Hex2).
    rewrite Htp1 in Htp2. injection Htp2 as <- <-.
    cbv zeta in Hex1, Hex2.
    destruct Hex1 as (Hf & _ & Hl1 & Hk1 & _).
    destruct Hex2 as (_ & _ & Hl2 & Hk2 & _).
    exact (turns_monotone (Window.data wind) (Window.data (Gauss.fit p1))
             (contents h (Gauss_sigma1 o)) _ _ _ thresh1 thresh2
             (eq_sym Hl) Hf Hl1 Hl2 (sfac_spec_nonneg _ _ _ _) Ht Hk1 Hk2).
Qed.

(** With a threshold of 2 the deviant pixel of the example is within the
    bound, and the first turn returns. *)
Lemma spike_turn1_lenient :
  exists r,
    Gauss.body echo_solver spike_window 5 0 0 0 1 (1/2) true 2 spike_gobjs
      [spike_sigma; spike_sigma] = Ok (inr r) [spike_sigma; spike_sigma].
Proof.
  destruct (spike_two_pass spike_gobjs [spike_sigma; spike_sigma] eq_refl)
    as (o' & p & Htp & Hfit & Hs & _ & _ & Ho).
  rewrite (Ho eq_refl) in Htp. clear Ho o'.
  rewrite Gauss_body_eq.
  rewrite (body_unfold _ Gauss_sigma1 spike_window Gauss.fit Gauss.soln 2
             Gauss_again Gauss_done (Gauss_stage_sigma1 _ _ _ _ _ _ _ _ _)
             spike_gobjs _ spike_gobjs p Htp).
  cbv zeta. rewrite Hfit, Hs.
  change (contents [spike_sigma; spike_sigma] (Gauss_sigma1 spike_gobjs))
    with spike_sigma.
  replace (map2 Rdiv (map2 Rminus (Window.data spike_window) [5; 5; 5; 5; 5; 5])
             spike_sigma) with [0; 0; 0; 0; 0; 100]
    by (unfold spike_window, spike_sigma; cbn [Window.data map2];
        repeat (f_equal; try lra)).
  replace (gt spike_sigma 0) with [true; true; true; true; true; true]
    by (unfold gt, spike_sigma; cbn [map];
        rewrite (Rgtb_true 1 0) by lra; reflexivity).
  cbn [select List.length].
  replace (sum (map (fun v => v ^ 2) [0; 0; 0; 0; 0; 100])) with 10000
    by (cbn [map sum fold_right]; ring).
  change (IZR (Z.of_nat 6 - Z.of_nat 4)) with (IZR (6 - 4)).
  assert (Hb : 100 < sqrt (10000 / IZR (6 - 4)) * 2).
  { replace (10000 / IZR (6 - 4)) with 5000 by (cbn; lra).
    assert (50 < sqrt 5000).
    { replace 50 with (sqrt (50 * 50)) by (apply sqrt_square; lra).
      apply sqrt_lt_1_alt. lra. }
    lra. }
  replace (gt (map Rabs [0; 0; 0; 0; 0; 100]) (sqrt (10000 / IZR (6 - 4)) * 2))
    with [false; false; false; false; false; false].
  2:{ unfold gt. cbn [map]. rewrite Rabs_R0, (Rabs_pos_eq 100) by lra.
      rewrite (Rgtb_false 0 _) by lra. rewrite (Rgtb_false 100 _) by lra.
      reflexivity. }
  cbn [band map2 andb].
  assert (Hrej : imul_masked spike_sigma
                   [false; false; false; false; false; false] (-1)
                 = spike_sigma) by reflexivity.
  rewrite !Hrej, spike_sigma_count.
  eexists. reflexivity.
Qed.

Lemma threshold_monotone_witness : rejected_from spike_sigma spike_rejected.
Proof.
  destruct spike_turn1_lenient as (r2 & H2).
  destruct (spike_two_pass spike_gobjs [spike_sigma; spike_sigma] eq_refl)
    as (o' & p & Htp & _ & Hs & _).
  assert (Ht : 1 <= 2) by lra.
  assert (Hn : (List.length (Gauss.soln p)
                < count_pos (contents [spike_sigma; spike_sigma]
                               (Gauss_sigma1 spike_gobjs)))%nat).
  { rewrite Hs.
    change (contents [spike_sigma; spike_sigma] (Gauss_sigma1 spike_gobjs))
      with spike_sigma.
    rewrite spike_sigma_count. cbn. lia. }
  destruct (threshold_monotone echo_solver spike_window 5 0 0 0 1 (1/2) true 0
              1 2 [spike_sigma; spike_sigma] spike_window_shaped Ht)
    as [_ HG].
  exact (HG spike_gobjs o' p _ _ _ _ (conj eq_refl eq_refl) eq_refl Htp Hn
           spike_turn1 H2).
Defined.
